(** * unicode-variants: the pattern-construction engine of [lib/index.mjs]

    A shallow embedding of [lib/index.mjs] and the properties its specification
    states about it.

    - JavaScript strings are sequences of UTF-16 code units: [jsstring] is
      [list Z], [str.length] is [strlen].
    - [undefined] is [None]; a function that returns [string|undefined] returns
      a [js_val].
    - The JavaScript built-ins ([String.prototype.normalize], [toLowerCase],
      [RegExp]) and the helpers imported from [./regex.mjs] and
      [./strings.mjs] are collected in the record [Host]: every function of
      [index.mjs] is defined over an arbitrary host.
    - The module-level variables [unicode_map] and [multi_char_reg] are
      passed explicitly as an [Engine]. *)

From Stdlib Require Import String Ascii ZArith List Bool Lia.
From Stdlib Require Import Permutation Sorted.
Import ListNotations.
Open Scope Z_scope.

Set Implicit Arguments.

(** ** JavaScript values *)

Definition code_unit := Z.
Definition jsstring := list code_unit.

(** [string | undefined] *)
Definition js_val := option jsstring.

(** An ASCII literal as a JavaScript string. *)
Definition ustr (s : string) : jsstring :=
  map (fun a => Z.of_N (N_of_ascii a)) (list_ascii_of_string s).

Definition strlen (s : jsstring) : Z := Z.of_nat (List.length s).

Fixpoint str_eqb (a b : jsstring) : bool :=
  match a, b with
  | [], [] => true
  | x :: a', y :: b' => (x =? y) && str_eqb a' b'
  | _, _ => false
  end.

(** [ToString(v)], as in ['^' + v + '$'] and [pattern += v]. *)
Definition to_string (v : js_val) : jsstring :=
  match v with
  | Some s => s
  | None => ustr "undefined"
  end.

(** [ToBoolean(v)]: [undefined] and the empty string are falsy. *)
Definition truthy (v : js_val) : bool :=
  match v with
  | Some (_ :: _) => true
  | _ => false
  end.

(** [str.substring(a, b)]; both bounds are clamped to [0, str.length]. *)
Definition substring (str : jsstring) (a b : Z) : jsstring :=
  let a' := Z.to_nat (Z.min (Z.max a 0) (strlen str)) in
  let b' := Z.to_nat (Z.min (Z.max b 0) (strlen str)) in
  firstn (Nat.max a' b' - Nat.min a' b') (skipn (Nat.min a' b') str).

(** [str.substring(a)] *)
Definition substring_from (str : jsstring) (a : Z) : jsstring :=
  skipn (Z.to_nat a) str.

Definition is_high_surrogate (c : code_unit) : bool := (0xD800 <=? c) && (c <=? 0xDBFF).
Definition is_low_surrogate (c : code_unit) : bool := (0xDC00 <=? c) && (c <=? 0xDFFF).

(** [Array.from(str)]: the string iterator yields code points, so a
    surrogate pair stays together in one element. *)
Fixpoint Array_from (str : jsstring) : list jsstring :=
  match str with
  | [] => []
  | c :: rest =>
      match rest with
      | d :: rest' =>
          if is_high_surrogate c && is_low_surrogate d
          then [c; d] :: Array_from rest'
          else [c] :: Array_from rest
      | [] => [[c]]
      end
  end.

(** [String.fromCharCode(i)]: one code unit, [ToUint16(i)]. *)
Definition fromCharCode (i : Z) : jsstring := [i mod 65536].

(** A [Set<string>]: insertion-ordered, without duplicates. *)
Definition Set_has (s : list jsstring) (x : jsstring) : bool := existsb (str_eqb x) s.
Definition Set_add (s : list jsstring) (x : jsstring) : list jsstring :=
  if Set_has s x then s else s ++ [x].

(** A plain object used as a dictionary: own properties in creation order. *)
Definition obj (V : Type) := list (jsstring * V).

Fixpoint obj_get {V} (o : obj V) (k : jsstring) : option V :=
  match o with
  | [] => None
  | (k', v) :: o' => if str_eqb k k' then Some v else obj_get o' k
  end.

(** [o[k] = v] *)
Fixpoint obj_set {V} (o : obj V) (k : jsstring) (v : V) : obj V :=
  match o with
  | [] => [(k, v)]
  | (k', v') :: o' => if str_eqb k k' then (k', v) :: o' else (k', v') :: obj_set o' k v
  end.

Definition hasOwnProperty {V} (o : obj V) (k : jsstring) : bool :=
  match obj_get o k with Some _ => true | None => false end.

(** [for (k in o)] visits the integer-like keys first, in ascending numeric
    order, and then the other keys in creation order. *)
Definition is_digit (c : code_unit) : bool := (48 <=? c) && (c <=? 57).

Definition digits_value (k : jsstring) : Z :=
  fold_left (fun acc c => 10 * acc + (c - 48)) k 0.

Definition is_array_index (k : jsstring) : bool :=
  match k with
  | [] => false
  | c :: rest =>
      forallb is_digit k
      && (negb (c =? 48) || match rest with [] => true | _ => false end)
      && (digits_value k <? 4294967295)
  end.

Fixpoint insert_index (k : jsstring) (l : list jsstring) : list jsstring :=
  match l with
  | [] => [k]
  | k' :: l' =>
      if digits_value k <=? digits_value k' then k :: l else k' :: insert_index k l'
  end.

Definition for_in_keys {V} (o : obj V) : list jsstring :=
  let ks := map fst o in
  fold_right insert_index [] (filter is_array_index ks)
  ++ filter (fun k => negb (is_array_index k)) ks.

(** A compiled [RegExp] without the [g] flag, seen through [str.match(re)]:
    [None] is [null], [Some (index, text)] is a match with [match.index] and
    [match[0]]. *)
Definition regexp := jsstring -> option (Z * jsstring).

(** ** The host: built-ins and imported helpers *)

Record Host := mkHost {
  (** [str.normalize('NFKD')] and [str.normalize('NFC')] *)
  NFKD : jsstring -> jsstring;
  NFC : jsstring -> jsstring;
  (** [str.toLowerCase()] *)
  toLowerCase : jsstring -> jsstring;
  (** [new RegExp(pattern, flags)]; [None] when the constructor throws. *)
  RegExp : js_val -> jsstring -> option regexp;
  (** [./regex.mjs] *)
  escape_regex : jsstring -> jsstring;
  setToPattern : list jsstring -> js_val;
  arrayToPattern : list jsstring -> js_val;
  sequencePattern : list js_val -> jsstring;
  (** [./strings.mjs] *)
  allSubstrings : jsstring -> list (list jsstring)
}.

(** ** Folding *)

Definition in_range (lo hi c : Z) : bool := (lo <=? c) && (c <=? hi).

(** [accent_pat]: the class of U+0300..U+036F, U+00B7 and U+02BE. *)
Definition accent_pat (c : code_unit) : bool :=
  in_range 0x0300 0x036F c || (c =? 0xb7) || (c =? 0x2be).

(** [latin_convert]: ae-ligature, a with stroke, o with stroke, fraction
    slash, division slash. *)
Definition latin_convert : list (code_unit * jsstring) :=
  [ (0xE6, ustr "ae"); (0x2C65, ustr "a"); (0xF8, ustr "o");
    (0x2044, ustr "/"); (0x2215, ustr "/") ].

Fixpoint latin_convert_get (t : list (code_unit * jsstring)) (c : code_unit) : js_val :=
  match t with
  | [] => None
  | (k, v) :: t' => if c =? k then Some v else latin_convert_get t' c
  end.

(** [convert_pat]: the keys of [latin_convert] or [accent_pat], flags [gu].
    Every alternative is one code point of the Basic Multilingual Plane that
    is not a surrogate, so the pattern matches code unit by code unit. *)
Definition convert_pat (c : code_unit) : bool :=
  existsb (fun kv => c =? fst kv) latin_convert || accent_pat c.

(** [latin_convert[foreignletter] || ''] *)
Definition convert_replacement (c : code_unit) : jsstring :=
  match latin_convert_get latin_convert c with
  | Some (x :: v) => x :: v
  | _ => []
  end.

(** [str.replace(convert_pat, function(foreignletter){...})] *)
Definition replace_convert (str : jsstring) : jsstring :=
  flat_map (fun c => if convert_pat c then convert_replacement c else [c]) str.

Section Source.

Variable host : Host.

Definition decompose (str : jsstring) : jsstring :=
  if existsb (in_range 0x0f71 0x0f81) str
  then flat_map (fun c => NFKD host [c]) str
  else NFKD host str.

Definition asciifold (str : jsstring) : jsstring :=
  replace_convert (toLowerCase host (decompose str)).

(** ** Unicode map builder *)

Definition max_char_length : Z := 3.

Record TCodePointObj := mkCodePointObj {
  folded : jsstring;
  composed : jsstring;
  code_point : Z
}.

(** The four [continue] tests of [generator], in source order. *)
Definition skip_same_as_lower (composed folded : jsstring) : bool :=
  str_eqb folded (toLowerCase host composed).

Definition skip_too_long (folded : jsstring) : bool :=
  max_char_length <? strlen folded.

Definition skip_empty (folded : jsstring) : bool :=
  strlen folded =? 0.

Definition skip_roundtrip (composed folded : jsstring) : bool :=
  let decomposed := NFKD host composed in
  let recomposed := NFC host decomposed in
  str_eqb recomposed composed && str_eqb folded decomposed.

(** The body of the inner loop of [generator] at [i]: the object it yields,
    or [None] when it hits a [continue]. *)
Definition generator_at (i : Z) : option TCodePointObj :=
  let composed := fromCharCode i in
  let folded := asciifold composed in
  if skip_same_as_lower composed folded then None
  else if skip_too_long folded then None
  else if skip_empty folded then None
  else if skip_roundtrip composed folded then None
  else Some (mkCodePointObj folded composed i).

(** [for (let i = lo; i <= hi; i++)] *)
Definition code_range (lo hi : Z) : list Z :=
  map (fun k => lo + Z.of_nat k) (seq 0 (Z.to_nat (hi - lo + 1))).

Definition option_to_list {A} (o : option A) : list A :=
  match o with Some a => [a] | None => [] end.

(** [generator(code_points)]: everything the generator yields, in order. *)
Definition generator (code_points : list (Z * Z)) : list TCodePointObj :=
  flat_map (fun r =>
    flat_map (fun i => option_to_list (generator_at i))
             (code_range (fst r) (snd r))) code_points.

(** The keys of both objects have at most three code units, shorter than
    any property name of [Object.prototype]: a lookup sees own properties
    only. *)
Definition TUnicodeSets := obj (list jsstring).
Definition TUnicodeMap := obj js_val.

(** The pattern [addMatching] compiles: ['^' + setToPattern(folded_set) + '$']. *)
Definition anchored (fragment : js_val) : jsstring :=
  ustr "^" ++ to_string fragment ++ ustr "$".

Definition flags_iu : jsstring := ustr "iu".
Definition flags_u : jsstring := ustr "u".

(** [addMatching(folded, to_add)] on the closure variable [unicode_sets];
    [None] when [new RegExp] throws. *)
Definition addMatching (unicode_sets : TUnicodeSets) (folded to_add : jsstring)
  : option TUnicodeSets :=
  let folded_set :=
    match obj_get unicode_sets folded with Some s => s | None => [] end in
  match RegExp host (Some (anchored (setToPattern host folded_set))) flags_iu with
  | None => None
  | Some patt =>
      match patt to_add with
      | Some _ => Some unicode_sets
      | None =>
          Some (obj_set unicode_sets folded
                  (Set_add folded_set (escape_regex host to_add)))
      end
  end.

Definition generateSets_step (acc : option TUnicodeSets) (value : TCodePointObj)
  : option TUnicodeSets :=
  match acc with
  | None => None
  | Some sets =>
      match addMatching sets (folded value) (folded value) with
      | None => None
      | Some sets' => addMatching sets' (folded value) (composed value)
      end
  end.

Definition generateSets (code_points : list (Z * Z)) : option TUnicodeSets :=
  fold_left generateSets_step (generator code_points) (Some []).

(** [multi_char.sort((a, b) => b.length - a.length)]; the sort is stable:
    an element goes in front of the later elements that are not longer. *)
Fixpoint insert_longest_first (x : jsstring) (l : list jsstring) : list jsstring :=
  match l with
  | [] => [x]
  | y :: l' =>
      if strlen y <=? strlen x then x :: l else y :: insert_longest_first x l'
  end.

Definition sort_longest_first (l : list jsstring) : list jsstring :=
  fold_right insert_longest_first [] l.

(** The state [generateMap] leaves behind: the map it returns and the
    module-level [multi_char_reg] it assigns. *)
Record Engine := mkEngine {
  unicode_map : TUnicodeMap;
  multi_char_reg : regexp
}.

Definition generateMap_entries (unicode_sets : TUnicodeSets) : TUnicodeMap :=
  fold_left (fun m folded =>
    match obj_get unicode_sets folded with
    | Some set => obj_set m folded (setToPattern host set)
    | None => m
    end) (for_in_keys unicode_sets) [].

Definition generateMap_multi_char (unicode_sets : TUnicodeSets) : list jsstring :=
  map (escape_regex host)
      (filter (fun folded => 1 <? strlen folded) (for_in_keys unicode_sets)).

Definition generateMap (code_points : list (Z * Z)) : option Engine :=
  match generateSets code_points with
  | None => None
  | Some unicode_sets =>
      let multi_char := sort_longest_first (generateMap_multi_char unicode_sets) in
      match RegExp host (arrayToPattern host multi_char) flags_u with
      | None => None
      | Some reg => Some (mkEngine (generateMap_entries unicode_sets) reg)
      end
  end.

(** [initialize(_code_points)]: builds the engine unless it is already there. *)
Definition initialize (current : option Engine) (code_points : list (Z * Z))
  : option Engine :=
  match current with
  | Some e => Some e
  | None => generateMap code_points
  end.

End Source.

(** ** Pattern compiler *)

Section Compiler.

Variable host : Host.
Variable engine : Engine.

(** The callback of [strings.map] in [mapSequence]: [unicode_map[str] || str]
    for an own property, the run itself otherwise. *)
Definition mapSequence_run (str : jsstring) : jsstring :=
  match obj_get (unicode_map engine) str with
  | None => str
  | Some v => if truthy v then to_string v else str
  end.

(** What the callback adds to [chars_replaced]. *)
Definition mapSequence_count (str : jsstring) : Z :=
  if hasOwnProperty (unicode_map engine) str then strlen str else 0.

Definition chars_replaced (strings : list jsstring) : Z :=
  fold_left (fun n str => n + mapSequence_count str) strings 0.

Definition mapSequence (strings : list jsstring) (min_replacement : Z) : js_val :=
  if min_replacement <=? chars_replaced strings
  then Some (sequencePattern host (map (fun s => Some (mapSequence_run s)) strings))
  else None.

Definition substringsToPattern_patterns (str : jsstring) (min_replacement : Z)
  : list jsstring :=
  flat_map (fun sub_pat =>
    let pattern := mapSequence sub_pat min_replacement in
    if truthy pattern then [to_string pattern] else [])
    (allSubstrings host str).

Definition substringsToPattern (str : jsstring) (min_replacement : Z) : js_val :=
  let min_replacement := Z.max min_replacement (strlen str - 1) in
  let patterns := substringsToPattern_patterns str min_replacement in
  if 0 <? Z.of_nat (List.length patterns)
  then arrayToPattern host patterns
  else None.

(** ** Sequences *)

Record Part := mkPart {
  part_start : Z;
  part_end : Z;
  part_length : Z;
  part_substr : jsstring
}.

Record Sequence := mkSequence {
  parts : list Part;
  substrs : list jsstring;
  seq_start : Z;
  seq_end : Z
}.

Definition Sequence_new : Sequence := mkSequence [] [] 0 0.

Definition Sequence_add (this : Sequence) (part : Part) : Sequence :=
  mkSequence (parts this ++ [part])
             (substrs this ++ [part_substr part])
             (Z.min (part_start part) (seq_start this))
             (Z.max (part_end part) (seq_end this)).

(** [this.parts[this.parts.length-1]], [undefined] on an empty sequence. *)
Definition Sequence_last (this : Sequence) : option Part :=
  nth_error (parts this) (List.length (parts this) - 1).

Definition Sequence_length (this : Sequence) : Z :=
  Z.of_nat (List.length (parts this)).

(** [clone(position, last_piece)]. The parts are copied through JSON, which
    is the identity on records of numbers and strings. [None] stands for the
    [TypeError] of [clone_last.start] on a sequence without parts. *)
Definition Sequence_clone (this : Sequence) (position : Z) (last_piece : Part)
  : option Sequence :=
  let copied := parts this in
  let clone := fold_left Sequence_add (removelast copied) Sequence_new in
  match nth_error copied (List.length copied - 1) with
  | None => None
  | Some clone_last =>
      let last_substr :=
        substring (part_substr last_piece) 0 (position - part_start clone_last) in
      let clone_last_len := strlen last_substr in
      Some (Sequence_add clone
              (mkPart (part_start clone_last)
                      (part_start clone_last + clone_last_len)
                      clone_last_len
                      last_substr))
  end.

(** [sequencesToPattern(sequences, all)] *)
Definition sequencesToPattern_one (all : bool) (sequence : Sequence) : jsstring :=
  let len := if all then Sequence_length sequence else Sequence_length sequence - 1 in
  sequencePattern host
    (map (fun s => substringsToPattern s 1) (firstn (Z.to_nat len) (substrs sequence))).

Definition sequencesToPattern (sequences : list Sequence) (all : bool) : js_val :=
  arrayToPattern host (map (sequencesToPattern_one all) sequences).

(** The callback of [seq.parts.filter] in [inSequences]: the loop over
    [needle_parts] for one [part]. *)
Fixpoint inSequences_conflict (part : Part) (needle_parts : list Part) : bool :=
  match needle_parts with
  | [] => false
  | needle_part :: rest =>
      if (part_start needle_part =? part_start part)
         && str_eqb (part_substr needle_part) (part_substr part)
      then false
      else if (part_length part =? 1) || (part_length needle_part =? 1)
      then inSequences_conflict part rest
      else if (part_start part <? part_start needle_part)
              && (part_start needle_part <? part_end part)
      then true
      else if (part_start needle_part <? part_start part)
              && (part_start part <? part_end needle_part)
      then true
      else inSequences_conflict part rest
  end.

Definition join_all (l : list jsstring) : jsstring := concat l.

Fixpoint inSequences (needle_seq : Sequence) (sequences : list Sequence) : bool :=
  match sequences with
  | [] => false
  | seq :: rest =>
      if negb (seq_start seq =? seq_start needle_seq)
         || negb (seq_end seq =? seq_end needle_seq)
      then inSequences needle_seq rest
      else if negb (str_eqb (join_all (substrs seq)) (join_all (substrs needle_seq)))
      then inSequences needle_seq rest
      else
        let filtered :=
          filter (fun part => inSequences_conflict part (parts needle_seq)) (parts seq) in
        if 0 <? Z.of_nat (List.length filtered)
        then inSequences needle_seq rest
        else true
  end.

(** ** Sequence matcher *)

(** [substr.match(multi_char_reg)] followed by
    [if (match && match.index !== 0) match = null]: the text of a
    multi-character match that begins at the scan position. *)
Definition match_at (substr : jsstring) : option jsstring :=
  match multi_char_reg engine substr with
  | Some (index, text) => if index =? 0 then Some text else None
  | None => None
  end.

Definition type_match (text : jsstring) : jsstring := ustr "match:" ++ text.
Definition type_char (char : jsstring) : jsstring := ustr "char:" ++ char.
Definition not_adding : jsstring := ustr "not-adding".

(** The state of the loop over [sequences] at one scan position: the
    sequences visited so far (updated in place), [overlapping] and
    [added_types]. *)
Record Visit := mkVisit {
  visited : list Sequence;
  overlapping : list Sequence;
  added_types : list jsstring
}.

(** The branch [!last_piece || last_piece.length == 1 || last_piece.end <= i]. *)
Definition can_extend (last_piece : option Part) (i : Z) : bool :=
  match last_piece with
  | None => true
  | Some p => (part_length p =? 1) || (part_end p <=? i)
  end.

Definition match_part (i : Z) (text : jsstring) : Part :=
  let len := strlen text in mkPart i (i + len) len text.

Definition char_part (i : Z) (char : jsstring) : Part :=
  mkPart i (i + 1) 1 char.

(** The body of [for (const sequence of sequences)]. *)
Definition visit_sequence (i : Z) (mtch : option jsstring) (char : jsstring)
  (v : Visit) (sequence : Sequence) : Visit :=
  let last_piece := Sequence_last sequence in
  if can_extend last_piece i then
    match mtch with
    | Some text =>
        mkVisit (visited v ++ [Sequence_add sequence (match_part i text)])
                (overlapping v)
                (Set_add (added_types v) (type_match text))
    | None =>
        mkVisit (visited v ++ [Sequence_add sequence (char_part i char)])
                (overlapping v)
                (Set_add (added_types v) (type_char char))
    end
  else
    match mtch, last_piece with
    | Some text, Some lp =>
        match Sequence_clone sequence i lp with
        | Some clone =>
            mkVisit (visited v ++ [sequence])
                    (overlapping v ++ [Sequence_add clone (match_part i text)])
                    (added_types v)
        | None => mkVisit (visited v ++ [sequence]) (overlapping v) (added_types v)
        end
    | _, _ =>
        mkVisit (visited v ++ [sequence])
                (overlapping v)
                (Set_add (added_types v) not_adding)
    end.

Definition visit_all (i : Z) (mtch : option jsstring) (char : jsstring)
  (sequences : list Sequence) : Visit :=
  fold_left (visit_sequence i mtch char) sequences (mkVisit [] [] []).

(** [overlapping.sort((a,b) => a.length() - b.length())]; the sort is
    stable: a clone goes in front of the later clones that are not shorter. *)
Fixpoint insert_by_length (x : Sequence) (l : list Sequence) : list Sequence :=
  match l with
  | [] => [x]
  | y :: l' =>
      if Sequence_length x <=? Sequence_length y
      then x :: l else y :: insert_by_length x l'
  end.

Definition sort_by_length (l : list Sequence) : list Sequence :=
  fold_right insert_by_length [] l.

(** [for (let clone of overlapping)]: push unless an equivalent sequence is
    already there. *)
Definition push_clones (sequences clones : list Sequence) : list Sequence :=
  fold_left (fun seqs clone =>
    if inSequences clone seqs then seqs else seqs ++ [clone]) clones sequences.

(** The state carried from one scan position to the next. *)
Record Scan := mkScan {
  pattern : jsstring;
  sequences : list Sequence
}.

(** The test of the clean-up at the end of the loop body. *)
Definition can_compact (i : Z) (types : list jsstring) : bool :=
  (0 <? i) && (Z.of_nat (List.length types) =? 1) && negb (Set_has types not_adding).

Definition compact (s : Scan) (seqs : list Sequence) : Scan :=
  let new_seq :=
    match seqs with
    | first :: _ =>
        match Sequence_last first with
        | Some p => Sequence_add Sequence_new p
        | None => Sequence_new
        end
    | [] => Sequence_new
    end in
  mkScan (pattern s ++ to_string (sequencesToPattern seqs false)) [new_seq].

(** The body of [for (let i = 0; i < str.length; i++)]. *)
Definition scan_step (str : jsstring) (s : Scan) (i : Z) : Scan :=
  let substr := substring_from str i in
  let mtch := match_at substr in
  let char := substring str i (i + 1) in
  let v := visit_all i mtch char (sequences s) in
  if 0 <? Z.of_nat (List.length (overlapping v))
  then mkScan (pattern s) (push_clones (visited v) (sort_by_length (overlapping v)))
  else if can_compact i (added_types v)
  then compact s (visited v)
  else mkScan (pattern s) (visited v).

Definition positions (str : jsstring) : list Z :=
  map Z.of_nat (seq 0 (List.length str)).

Definition scan (str : jsstring) : Scan :=
  fold_left (scan_step str) (positions str) (mkScan [] [Sequence_new]).

(** [getPattern(str)] once the engine is initialised. *)
Definition getPattern (str : jsstring) : js_val :=
  let str := asciifold host str in
  match multi_char_reg engine str with
  | None => mapSequence (Array_from str) 0
  | Some _ =>
      let s := scan str in
      Some (pattern s ++ to_string (sequencesToPattern (sequences s) true))
  end.

End Compiler.

(** ** A model of the host

    The theorems below hold for every host. Concrete runs need one: the
    module [Model] gives the built-ins over a small table of Unicode data
    and the imported helpers as the specification describes them. *)

Module Model.

Fixpoint lookup {V} (t : list (Z * V)) (c : Z) : option V :=
  match t with
  | [] => None
  | (k, v) :: t' => if c =? k then Some v else lookup t' c
  end.

(** *** Unicode data, restricted to the code points listed

    Code points outside the tables have no decomposition, combining class 0
    and no case mapping. *)

(** Canonical decompositions: E acute, e acute. *)
Definition canonical_table : list (code_unit * jsstring) :=
  [ (0xC9, [0x45; 0x301]); (0xE9, [0x65; 0x301]) ].

(** Compatibility decompositions: small roman numerals one to three, the
    roman numerals in capitals, the ligature fi, and U+FDFB, whose
    decomposition has eight characters. *)
Definition compatibility_table : list (code_unit * jsstring) :=
  [ (0x2170, ustr "i"); (0x2171, ustr "ii"); (0x2172, ustr "iii");
    (0x2160, ustr "I"); (0x2161, ustr "II"); (0x2162, ustr "III");
    (0xFB01, ustr "fi");
    (0xFDFB, [0x62C; 0x644; 0x20; 0x62C; 0x644; 0x627; 0x644; 0x647]) ].

(** Canonical combining classes: the Hebrew accents U+0594, U+0595 (230)
    and U+0596 (220), and the combining acute accent (230). *)
Definition ccc_table : list (code_unit * Z) :=
  [ (0x594, 230); (0x595, 230); (0x596, 220); (0x301, 230) ].

Definition ccc (c : code_unit) : Z :=
  match lookup ccc_table c with Some n => n | None => 0 end.

Definition decompose_unit (t : list (code_unit * jsstring)) (c : code_unit) : jsstring :=
  match lookup t c with Some d => d | None => [c] end.

(** Canonical ordering: a character with a non-zero class moves in front of
    the characters before it that have a greater class. The prefix is kept
    reversed. *)
Fixpoint reorder_insert (c : code_unit) (rev_prefix : list code_unit) : list code_unit :=
  match rev_prefix with
  | [] => [c]
  | p :: rest =>
      if (0 <? ccc c) && (ccc c <? ccc p)
      then p :: reorder_insert c rest
      else c :: rev_prefix
  end.

Definition canonical_order (s : jsstring) : jsstring :=
  rev (fold_left (fun acc c => reorder_insert c acc) s []).

Definition NFKD (s : jsstring) : jsstring :=
  canonical_order (flat_map (decompose_unit (canonical_table ++ compatibility_table)) s).

(** Canonical composition of a starter with the mark that follows it. *)
Definition compose_pair (a b : code_unit) : option code_unit :=
  match find (fun kv => str_eqb (snd kv) [a; b]) canonical_table with
  | Some (k, _) => Some k
  | None => None
  end.

Fixpoint compose (s : jsstring) : jsstring :=
  match s with
  | [] => []
  | a :: rest =>
      match rest with
      | b :: rest' =>
          match compose_pair a b with
          | Some c => c :: compose rest'
          | None => a :: compose rest
          end
      | [] => [a]
      end
  end.

Definition NFC (s : jsstring) : jsstring :=
  compose (canonical_order (flat_map (decompose_unit canonical_table) s)).

(** Lower case: the ASCII capitals, E acute, AE, O with stroke, A with
    stroke and the roman numerals in capitals. *)
Definition lower_unit (c : code_unit) : code_unit :=
  if in_range 65 90 c then c + 32
  else if c =? 0xC9 then 0xE9
  else if c =? 0xC6 then 0xE6
  else if c =? 0xD8 then 0xF8
  else if c =? 0x23A then 0x2C65
  else if in_range 0x2160 0x216F c then c + 16
  else c.

Definition toLowerCase (s : jsstring) : jsstring := map lower_unit s.

(** *** The helpers of [./regex.mjs] and [./strings.mjs] *)

(** The syntax characters of a regular expression. *)
Definition is_syntax_char (c : code_unit) : bool :=
  existsb (Z.eqb c) (ustr "^$\.*+?()[]{}|").

(** Modelled from the spec: [escape_regex] of [./regex.mjs], "escaping a
    literal": a backslash in front of every syntax character. *)
Definition escape_regex (s : jsstring) : jsstring :=
  flat_map (fun c => if is_syntax_char c then [92; c] else [c]) s.

Fixpoint join (sep : jsstring) (l : list jsstring) : jsstring :=
  match l with
  | [] => []
  | a :: l' =>
      match l' with
      | [] => a
      | _ => a ++ sep ++ join sep l'
      end
  end.

(** Modelled from the spec: [arrayToPattern] of [./regex.mjs], "turning a
    set of alternatives into an alternation", written [(?:ii|...)] in the
    spec's example; "an empty pattern list at any alternation step yields no
    pattern". *)
Definition arrayToPattern (l : list jsstring) : js_val :=
  match l with
  | [] => None
  | _ => Some (ustr "(?:" ++ join (ustr "|") l ++ ustr ")")
  end.

(** Modelled from the spec: [setToPattern] of [./regex.mjs], the
    alternation of the members of a set. *)
Definition setToPattern (s : list jsstring) : js_val := arrayToPattern s.

(** Modelled from the spec: [sequencePattern] of [./regex.mjs], "turning
    an ordered list of fragments into a concatenation"; an [undefined]
    fragment contributes nothing, as in [Array.prototype.join]. *)
Definition sequencePattern (l : list js_val) : jsstring :=
  concat (map (fun v => match v with Some s => s | None => [] end) l).

Definition glue (c : code_unit) (p : list jsstring) : list jsstring :=
  match p with
  | [] => [[c]]
  | first :: others => (c :: first) :: others
  end.

(** Modelled from the spec: [allSubstrings] of [./strings.mjs], "every
    ordered partition of a string into contiguous non-empty pieces, as a
    finite list", in the order of the comment on [substringsToPattern]:
    ['abc' => [['abc'],['ab','c'],['a','bc'],['a','b','c']]]. *)
Fixpoint allSubstrings (s : jsstring) : list (list jsstring) :=
  match s with
  | [] => [[]]
  | c :: rest =>
      match rest with
      | [] => [[[c]]]
      | _ => map (glue c) (allSubstrings rest) ++ map (cons [c]) (allSubstrings rest)
      end
  end.

(** *** Regular expressions

    The [RegExp] built-in in Unicode mode, for the syntax made of literal
    characters, escaped syntax characters, [.], [^], [$], [|], groups and
    the quantifiers [*], [+] and [?]. A pattern is read, and the subject
    matched, code point by code point. *)

Inductive re :=
| Re_eps
| Re_lit (cp : jsstring)
| Re_any
| Re_bol
| Re_eol
| Re_seq (a b : re)
| Re_alt (a b : re)
| Re_star (a : re).

Inductive token :=
| T_lit (cp : jsstring)
| T_any | T_bol | T_eol | T_bar | T_open | T_close | T_star | T_plus | T_opt.

Definition token_of_syntax_char (c : code_unit) : option token :=
  if c =? 46 then Some T_any
  else if c =? 94 then Some T_bol
  else if c =? 36 then Some T_eol
  else if c =? 124 then Some T_bar
  else if c =? 41 then Some T_close
  else if c =? 42 then Some T_star
  else if c =? 43 then Some T_plus
  else if c =? 63 then Some T_opt
  else None.

(** [None]: a syntax error, or syntax outside the fragment (classes,
    braces, look-around, named groups, class escapes). *)
Fixpoint tokenize (cps : list jsstring) : option (list token) :=
  match cps with
  | [] => Some []
  | [c] :: rest =>
      if is_syntax_char c then
        if c =? 92 then
          match rest with
          | [d] :: rest' =>
              if is_syntax_char d || (d =? 47)
              then option_map (cons (T_lit [d])) (tokenize rest')
              else None
          | _ => None
          end
        else if c =? 40 then
          match rest with
          | [63] :: rest1 =>
              match rest1 with
              | [58] :: rest2 => option_map (cons T_open) (tokenize rest2)
              | _ => None
              end
          | _ => option_map (cons T_open) (tokenize rest)
          end
        else
          match token_of_syntax_char c with
          | Some t => option_map (cons t) (tokenize rest)
          | None => None
          end
      else option_map (cons (T_lit [c])) (tokenize rest)
  | cp :: rest => option_map (cons (T_lit cp)) (tokenize rest)
  end.

(** One open group: the alternatives already closed by a [|], the terms of
    the current alternative, and whether its last term can take a
    quantifier. *)
Record frame := mkFrame {
  alts : list re;
  cur : list re;
  quantifiable : bool
}.

Definition seq_of (terms : list re) : re := fold_right Re_seq Re_eps terms.

Fixpoint alt_of (l : list re) : re :=
  match l with
  | [] => Re_eps
  | a :: l' =>
      match l' with
      | [] => a
      | _ => Re_alt a (alt_of l')
      end
  end.

Definition close_frame (f : frame) : re := alt_of (alts f ++ [seq_of (cur f)]).

Definition push_term (f : frame) (t : re) (q : bool) : frame :=
  mkFrame (alts f) (cur f ++ [t]) q.

Definition quantify (f : frame) (q : re -> re) : option frame :=
  if quantifiable f then
    match rev (cur f) with
    | t :: before => Some (mkFrame (alts f) (rev before ++ [q t]) false)
    | [] => None
    end
  else None.

Definition parse_token (stack : option (list frame)) (t : token) : option (list frame) :=
  match stack with
  | Some (f :: above) =>
      match t with
      | T_lit cp => Some (push_term f (Re_lit cp) true :: above)
      | T_any => Some (push_term f Re_any true :: above)
      | T_bol => Some (push_term f Re_bol false :: above)
      | T_eol => Some (push_term f Re_eol false :: above)
      | T_bar => Some (mkFrame (alts f ++ [seq_of (cur f)]) [] false :: above)
      | T_open => Some (mkFrame [] [] false :: f :: above)
      | T_close =>
          match above with
          | parent :: rest => Some (push_term parent (close_frame f) true :: rest)
          | [] => None
          end
      | T_star => option_map (fun f' => f' :: above) (quantify f Re_star)
      | T_plus => option_map (fun f' => f' :: above) (quantify f (fun a => Re_seq a (Re_star a)))
      | T_opt => option_map (fun f' => f' :: above) (quantify f (fun a => Re_alt a Re_eps))
      end
  | _ => None
  end.

Definition parse (ts : list token) : option re :=
  match fold_left parse_token ts (Some [mkFrame [] [] false]) with
  | Some [f] => Some (close_frame f)
  | _ => None
  end.

(** Case-insensitive comparison folds the ASCII capitals. *)
Definition canonicalize (ignore_case : bool) (cp : jsstring) : jsstring :=
  if ignore_case then map (fun c => if in_range 65 90 c then c + 32 else c) cp else cp.

Definition cp_eqb (ignore_case : bool) (a b : jsstring) : bool :=
  str_eqb (canonicalize ignore_case a) (canonicalize ignore_case b).

Definition is_line_terminator (cp : jsstring) : bool :=
  existsb (str_eqb cp) [[10]; [13]; [0x2028]; [0x2029]].

(** A position in the subject: the index of the next code point and the
    code points that remain. *)
Definition mstate := (nat * list jsstring)%type.

(** Backtracking matcher: the positions where a match of [r] that begins at
    [st] can end, in the order in which the engine tries them. *)
Fixpoint re_match (ignore_case : bool) (r : re) (st : mstate) : list mstate :=
  match r with
  | Re_eps => [st]
  | Re_lit cp =>
      match snd st with
      | c :: rest => if cp_eqb ignore_case cp c then [(S (fst st), rest)] else []
      | [] => []
      end
  | Re_any =>
      match snd st with
      | c :: rest => if is_line_terminator c then [] else [(S (fst st), rest)]
      | [] => []
      end
  | Re_bol => if Nat.eqb (fst st) 0 then [st] else []
  | Re_eol => match snd st with [] => [st] | _ => [] end
  | Re_seq a b => flat_map (re_match ignore_case b) (re_match ignore_case a st)
  | Re_alt a b => re_match ignore_case a st ++ re_match ignore_case b st
  | Re_star a =>
      (fix loop (fuel : nat) (st : mstate) : list mstate :=
         match fuel with
         | O => [st]
         | S fuel' =>
             flat_map (fun st' =>
               if Nat.ltb (fst st) (fst st') then loop fuel' st' else [])
               (re_match ignore_case a st) ++ [st]
         end) (List.length (snd st)) st
  end.

(** [str.match(re)]: the leftmost match, its index in code units and its
    text. *)
Fixpoint search (ignore_case : bool) (r : re) (pos : nat) (index : Z)
  (rest : list jsstring) : option (Z * jsstring) :=
  match re_match ignore_case r (pos, rest) with
  | (pos', _) :: _ => Some (index, concat (firstn (pos' - pos) rest))
  | [] =>
      match rest with
      | [] => None
      | cp :: rest' => search ignore_case r (S pos) (index + strlen cp) rest'
      end
  end.

(** [new RegExp(pattern, flags)] for the flags [u] and [iu];
    [new RegExp(undefined)] is the empty pattern. *)
Definition RegExp (pattern : js_val) (flags : jsstring) : option regexp :=
  let source := match pattern with Some p => p | None => [] end in
  if str_eqb flags flags_u || str_eqb flags flags_iu then
    match tokenize (Array_from source) with
    | Some ts =>
        match parse ts with
        | Some r =>
            Some (fun subject => search (str_eqb flags flags_iu) r 0 0 (Array_from subject))
        | None => None
        end
    | None => None
    end
  else None.

Definition host : Host :=
  mkHost NFKD NFC toLowerCase RegExp escape_regex setToPattern arrayToPattern
         sequencePattern allSubstrings.

(** The engine built from the small roman numerals one, two and three. *)
Definition roman_ranges : list (Z * Z) := [(0x2170, 0x2172)].

Definition roman_engine : Engine :=
  match generateMap host roman_ranges with
  | Some e => e
  | None => mkEngine [] (fun _ => None)
  end.

(** *** Notions for the properties of the model *)

(** What may follow an escaped literal in a pattern: nothing, or a code
    unit that is not the second half of a surrogate pair. *)
Definition no_low_head (b : jsstring) : Prop :=
  match b with d :: _ => is_low_surrogate d = false | [] => True end.

Definition lits (y : jsstring) : list token := map T_lit (Array_from y).

(** The tokens of an alternation of literals. *)
Fixpoint alt_tokens (ys : list jsstring) : list token :=
  match ys with
  | [] => []
  | y :: ys' =>
      match ys' with
      | [] => lits y
      | _ => lits y ++ T_bar :: alt_tokens ys'
      end
  end.

(** The expression for one literal. *)
Definition lit_seq (y : jsstring) : re := seq_of (map Re_lit (Array_from y)).

(** Matching a sequence of literal code points against the head of the
    subject: what remains, or [None]. *)
Fixpoint lits_match (ignore_case : bool) (cps inp : list jsstring)
  : option (list jsstring) :=
  match cps with
  | [] => Some inp
  | cp :: cps' =>
      match inp with
      | c :: inp' => if cp_eqb ignore_case cp c then lits_match ignore_case cps' inp' else None
      | [] => None
      end
  end.

(** Equality up to case, code point by code point. *)
Definition similar (y x : jsstring) : Prop :=
  lits_match true (Array_from y) (Array_from x) = Some [].

(** The shape of what [Array.from] yields: code points of one unit or
    surrogate pairs, and no unpaired high surrogate in front of a low one. *)
Fixpoint chunks_wf (l : list jsstring) : Prop :=
  match l with
  | [] => True
  | c :: rest =>
      match c with
      | [u] =>
          is_high_surrogate u = true ->
          match rest with
          | (d :: _) :: _ => is_low_surrogate d = false
          | _ => True
          end
      | [hi; lo] => is_high_surrogate hi = true /\ is_low_surrogate lo = true
      | _ => False
      end
      /\ chunks_wf rest
  end.

(** The fragment of a set of literals. *)
Definition group_pattern (ys : list jsstring) : jsstring :=
  ustr "(?:" ++ join (ustr "|") (map escape_regex ys) ++ ustr ")".

(** *** Notions for the patterns the compiler builds *)

(** [p] reads as the tokens [ts], which parse as the terms [rs], wherever
    [p] stands in a pattern. *)
Definition term (p : jsstring) (ts : list token) (rs : list re) : Prop :=
  (forall b, no_low_head b -> no_low_head (p ++ b))
  /\ (forall b, no_low_head b ->
        tokenize (Array_from (p ++ b))
        = option_map (app ts) (tokenize (Array_from b)))
  /\ (forall f above, exists q,
        fold_left parse_token ts (Some (f :: above))
        = Some (mkFrame (alts f) (cur f ++ rs) q :: above)).

(** The terms [rs] match exactly the code points [xs], ignoring case. *)
Definition consumes (rs : list re) (xs : list jsstring) : Prop :=
  forall pos rest,
    In ((pos + List.length xs)%nat, rest)
       (re_match true (seq_of rs) (pos, xs ++ rest)).

Definition model_matches (p : jsstring) (xs : list jsstring) : Prop :=
  exists ts rs, term p ts rs /\ consumes rs xs.

(** The tokens of an alternation of terms. *)
Fixpoint bar_tokens (tss : list (list token)) : list token :=
  match tss with
  | [] => []
  | ts :: rest =>
      match rest with
      | [] => ts
      | _ => ts ++ T_bar :: bar_tokens rest
      end
  end.

(** An alternative with its tokens and its terms. *)
Definition alternative := (jsstring * list token * list re)%type.

Definition alt_pattern (t : alternative) : jsstring := fst (fst t).
Definition alt_toks (t : alternative) : list token := snd (fst t).
Definition alt_terms (t : alternative) : list re := snd t.

Definition all_terms (l : list alternative) : Prop :=
  forall t, In t l -> term (alt_pattern t) (alt_toks t) (alt_terms t).

End Model.

(** ** Notions the properties are stated with *)

(** [String.fromCodePoint(i)]: the UTF-16 encoding of the code point [i]. *)
Definition fromCodePoint (i : Z) : jsstring :=
  if i <? 0x10000 then [i]
  else [0xD800 + (i - 0x10000) / 1024; 0xDC00 + (i - 0x10000) mod 1024].

(** Every member of a variant set is an escaped literal. *)
Definition escaped_set (h : Host) (set : list jsstring) : Prop :=
  forall e, In e set -> exists y, e = escape_regex h y.

(** The fragment, anchored and compiled with the flags [iu], matches [x]. *)
Definition fragment_matches (h : Host) (fragment : js_val) (x : jsstring) : Prop :=
  exists r, RegExp h (Some (anchored fragment)) flags_iu = Some r /\ r x <> None.

(** What the map builder relies on from [setToPattern], [escape_regex] and
    [RegExp]: the anchored, case-insensitive alternation of a set of escaped
    literals compiles, and it matches a subject of one to three code units
    exactly when the subject is one of the literals up to case. [sim] is
    equality up to case. *)
Definition alternation_contract (h : Host) : Prop :=
  exists sim : jsstring -> jsstring -> Prop,
    (forall x, sim x x) /\
    forall set, escaped_set h set ->
      exists r,
        RegExp h (Some (anchored (setToPattern h set))) flags_iu = Some r /\
        forall x, 0 < strlen x <= max_char_length ->
          (r x <> None <-> exists y, In (escape_regex h y) set /\ sim y x).

(** The three things the loop over [sequences] does with one sequence at
    the scan position [i]: what the sequence becomes, the clone it queues in
    [overlapping], and the type it records in [added_types]. *)
Definition new_part (i : Z) (mtch : option jsstring) (char : jsstring) : Part :=
  match mtch with
  | Some text => match_part i text
  | None => char_part i char
  end.

Definition new_type (mtch : option jsstring) (char : jsstring) : jsstring :=
  match mtch with
  | Some text => type_match text
  | None => type_char char
  end.

Definition visit_update (i : Z) (mtch : option jsstring) (char : jsstring)
  (q : Sequence) : Sequence :=
  if can_extend (Sequence_last q) i then Sequence_add q (new_part i mtch char) else q.

Definition visit_clones (i : Z) (mtch : option jsstring) (q : Sequence)
  : list Sequence :=
  if can_extend (Sequence_last q) i then []
  else
    match mtch, Sequence_last q with
    | Some text, Some lp =>
        match Sequence_clone q i lp with
        | Some clone => [Sequence_add clone (match_part i text)]
        | None => []
        end
    | _, _ => []
    end.

Definition visit_type (i : Z) (mtch : option jsstring) (char : jsstring)
  (q : Sequence) : option jsstring :=
  if can_extend (Sequence_last q) i then Some (new_type mtch char)
  else
    match mtch, Sequence_last q with
    | Some _, Some _ => None
    | _, _ => Some not_adding
    end.

(** The last part of a sequence cut so that it ends at [i]. *)
Definition truncate_part (lp : Part) (i : Z) : Part :=
  mkPart (part_start lp) i (i - part_start lp)
         (firstn (Z.to_nat (i - part_start lp)) (part_substr lp)).

(** The clone the overlap branch builds from [q] at [i]: the parts before
    the last, the last part cut at [i], and the multi-character match. *)
Definition overlap_clone (q : Sequence) (lp : Part) (i : Z) (text : jsstring)
  : Sequence :=
  Sequence_add
    (Sequence_add (fold_left Sequence_add (removelast (parts q)) Sequence_new)
                  (truncate_part lp i))
    (match_part i text).

(** What one scan position sees. *)
Definition visit_at (e : Engine) (str : jsstring) (s : Scan) (i : Z) : Visit :=
  visit_all i (match_at e (substring_from str i)) (substring str i (i + 1))
            (sequences s).

(** C6 as stated: at a position where a multi-character key begins, the
    clone of every sequence whose last part is longer than one character and
    ends after the position is in the live set after the step. *)
Definition overlap_clone_always_kept (h : Host) (e : Engine) (str : jsstring)
  (s : Scan) (i : Z) : Prop :=
  forall q lp text,
    In q (sequences s) ->
    Sequence_last q = Some lp ->
    1 < part_length lp -> i < part_end lp ->
    match_at e (substring_from str i) = Some text ->
    In q (sequences (scan_step h e str s i))
    /\ In (overlap_clone q lp i text) (sequences (scan_step h e str s i)).

(** The state of the scan of [str] before position [i]. *)
Definition scan_until (h : Host) (e : Engine) (str : jsstring) (i : nat) : Scan :=
  fold_left (scan_step h e str) (map Z.of_nat (seq 0 i)) (mkScan [] [Sequence_new]).

(** C2 as stated: the pattern [getPattern] returns for [s], compiled with
    the flags [iu], matches [s]. *)
Definition pattern_matches_input (h : Host) (e : Engine) (s : jsstring) : Prop :=
  forall p, getPattern h e s = Some p ->
    exists r, RegExp h (Some p) flags_iu = Some r /\ r s <> None.

(** Every variant set holds escaped literals only. *)
Definition all_escaped (h : Host) (sets : TUnicodeSets) : Prop :=
  forall k s, obj_get sets k = Some s -> escaped_set h s.

(** [unicode_sets[folded] || new Set()] *)
Definition set_of (sets : TUnicodeSets) (k : jsstring) : list jsstring :=
  match obj_get sets k with Some s => s | None => [] end.

(** A member of the set is [x] up to case. *)
Definition covers (h : Host) (sim : jsstring -> jsstring -> Prop)
  (s : list jsstring) (x : jsstring) : Prop :=
  exists y, In (escape_regex h y) s /\ sim y x.

(** The state of [unicode_sets] after the values [done] went through the
    loop of [generateSets]. *)
Definition sets_inv (h : Host) (sim : jsstring -> jsstring -> Prop)
  (sets : TUnicodeSets) (done : list TCodePointObj) : Prop :=
  (forall k s, obj_get sets k = Some s ->
     escaped_set h s /\ hd_error s = Some (escape_regex h k)
     /\ exists v, In v done /\ folded v = k)
  /\ (forall v, In v done ->
        exists s, obj_get sets (folded v) = Some s /\ covers h sim s (composed v)).

(** The subjects the map builder tests: one to three code units. *)
Definition short (x : jsstring) : Prop := 0 < strlen x <= max_char_length.

(** Every member of a variant set comes from a value of the generator. *)
Definition sets_origin (h : Host) (sets : TUnicodeSets) (done : list TCodePointObj) : Prop :=
  forall k s, obj_get sets k = Some s ->
    s <> [] /\
    forall e, In e s ->
      exists v, In v done /\ folded v = k
                /\ (e = escape_regex h (folded v) \/ e = escape_regex h (composed v)).

(** C1 as stated: when no run of the folded input is a key of the map,
    [getPattern] returns nothing. *)
Definition no_variant_returns_nothing (h : Host) (e : Engine) (s : jsstring) : Prop :=
  (forall before run after,
     asciifold h s = before ++ run ++ after ->
     hasOwnProperty (unicode_map e) run = false) ->
  getPattern h e s = None.

(** ** Notions for the properties of the scan *)

(** A part that was read off [str]: a non-empty run, with its bounds and
    its text. *)
Definition part_wf (str : jsstring) (p : Part) : Prop :=
  0 <= part_start p
  /\ 0 < part_length p
  /\ part_end p = part_start p + part_length p
  /\ part_end p <= strlen str
  /\ part_substr p = substring str (part_start p) (part_end p).

(** The parts cover the positions from [k] to [e] one after the other,
    without gap or overlap. *)
Fixpoint tiles (k : Z) (ps : list Part) (e : Z) : Prop :=
  match ps with
  | [] => k = e
  | p :: ps' => part_start p = k /\ tiles (part_end p) ps' e
  end.

(** A live sequence before the scan position [i], when the last clean-up
    happened at [k]: its parts segment [str] from [k] to some end at or after
    [i], each part began before [i], and the other fields follow the parts. *)
Definition seq_wf (str : jsstring) (k i : Z) (q : Sequence) : Prop :=
  exists e,
    tiles k (parts q) e
    /\ i <= e <= strlen str
    /\ Forall (part_wf str) (parts q)
    /\ (forall p, In p (parts q) -> part_start p < i)
    /\ substrs q = map part_substr (parts q)
    /\ seq_start q = 0
    /\ seq_end q = e.

Definition scan_inv (str : jsstring) (i : Z) (s : Scan) : Prop :=
  sequences s <> []
  /\ exists k, 0 <= k <= i /\ forall q, In q (sequences s) -> seq_wf str k i q.

(** What [multi_char_reg] reports at the positions of [str]: a match that
    begins at a position is a non-empty run of [str] at that position. *)
Definition matches_are_runs (e : Engine) (str : jsstring) : Prop :=
  forall i text,
    0 <= i < strlen str ->
    match_at e (substring_from str i) = Some text ->
    text <> [] /\ exists rest, substring_from str i = text ++ rest.

(** The runs of a list that [mapSequence] leaves as they are. *)
Definition unmapped_runs (e : Engine) (strings : list jsstring) : list jsstring :=
  filter (fun r => negb (hasOwnProperty (unicode_map e) r)) strings.

(** [a] is not shorter than [b]. *)
Definition not_shorter (a b : jsstring) : Prop := strlen b <= strlen a.

(** ** Notions for the push loop *)

(** The rule of the push loop: the clones are taken in the order of the
    queue; a clone for which [inSequences] finds an equivalent among the
    sequences already there is dropped, any other clone is added at the
    end. [pushed there queue result]: from the sequences [there], the
    queue leaves [result]. *)
Inductive pushed : list Sequence -> list Sequence -> list Sequence -> Prop :=
| pushed_done (there : list Sequence) : pushed there [] there
| pushed_dropped (there : list Sequence) (clone : Sequence)
    (queue result : list Sequence) :
    inSequences clone there = true ->
    pushed there queue result ->
    pushed there (clone :: queue) result
| pushed_added (there : list Sequence) (clone : Sequence)
    (queue result : list Sequence) :
    inSequences clone there = false ->
    pushed (there ++ [clone]) queue result ->
    pushed there (clone :: queue) result.

(** The order of the sorted queue: by number of parts. *)
Definition not_longer (a b : Sequence) : Prop :=
  Sequence_length a <= Sequence_length b.


(** ** Notions for the choice of the path *)

(** The run [y] occurs in [str]. *)
Definition occurs (y str : jsstring) : Prop :=
  exists before after, str = before ++ y ++ after.

(** What [getPattern] relies on from [arrayToPattern], [escape_regex] and
    [RegExp] when it tests the folded input with [multi_char_reg]: the
    alternation of a non-empty list of escaped literals, compiled with the
    flag [u], compiles, and it finds nothing in a subject in which none of
    the literals occurs. *)
Definition literal_search_contract (h : Host) : Prop :=
  forall l, l <> [] -> escaped_set h l ->
    exists r,
      RegExp h (arrayToPattern h l) flags_u = Some r /\
      forall str,
        (forall p, In p l -> exists y, p = escape_regex h y /\ ~ occurs y str) ->
        r str = None.


(** ** Notions for the soundness of the pattern *)

(** The syntax characters of a regular expression. *)
Definition syntax_character (u : code_unit) : bool :=
  existsb (Z.eqb u) (ustr "^$\.*+?()[]{}|").

(** A code point that stands for itself in a pattern: one code unit that is
    neither a syntax character nor a surrogate, or a surrogate pair. *)
Definition plain_code_point (c : jsstring) : Prop :=
  match c with
  | [u] => syntax_character u = false
           /\ is_high_surrogate u = false /\ is_low_surrogate u = false
  | [hi; lo] => is_high_surrogate hi = true /\ is_low_surrogate lo = true
  | _ => False
  end.

(** [x] stands where the folded input has [c]: [c] has no map entry and [x]
    is [c]; or [c] is a key of the map and [x] is [c] or a character the
    generator yielded with the fold [c]. *)
Definition registered (h : Host) (code_points : list (Z * Z)) (e : Engine)
  (c x : jsstring) : Prop :=
  (hasOwnProperty (unicode_map e) c = false /\ x = c)
  \/ (hasOwnProperty (unicode_map e) c = true
      /\ (x = c
          \/ exists v, In v (generator h code_points)
                       /\ folded v = c /\ composed v = x)).

(** The code units of a string, each as a string of its own. *)
Definition units (str : jsstring) : list jsstring := map (fun u => [u]) str.

(** What the pattern compiler relies on from the helpers of [./regex.mjs]
    and from [RegExp]. [matches p x]: the pattern [p] is a term that matches
    exactly the code points [x], ignoring case. Besides the clause of the map
    builder: the empty pattern matches nothing; a plain code point matches
    itself; the fragment of a set of escaped literals is a non-empty string
    and matches what a literal of the set matches up to case;
    [sequencePattern] concatenates; [arrayToPattern] of non-empty terms is a
    term that matches what any of them matches; terms can be joined; a term
    that matches something is not empty; and [RegExp] with the flags [iu]
    compiles a term and finds a match in the text the term matches. *)
Definition pattern_contract (h : Host) : Prop :=
  exists (sim : jsstring -> jsstring -> Prop)
         (matches : jsstring -> list jsstring -> Prop),
    (forall x, sim x x)
    /\ (forall set, escaped_set h set ->
          exists r,
            RegExp h (Some (anchored (setToPattern h set))) flags_iu = Some r /\
            forall x, 0 < strlen x <= max_char_length ->
              (r x <> None <-> exists y, In (escape_regex h y) set /\ sim y x))
    /\ matches [] []
    /\ (forall c, plain_code_point c -> matches c [c])
    /\ (forall set y x,
          escaped_set h set -> In (escape_regex h y) set -> sim y x ->
          exists p, setToPattern h set = Some p /\ p <> []
                    /\ matches p (Array_from x))
    /\ (forall ps xs,
          Forall2 matches ps xs ->
          matches (sequencePattern h (map Some ps)) (concat xs))
    /\ (forall ps,
          ps <> [] ->
          (forall q, In q ps -> q <> [] /\ exists x, matches q x) ->
          exists a, arrayToPattern h ps = Some a
                    /\ forall p x, In p ps -> matches p x -> matches a x)
    /\ (forall p q x y, matches p x -> matches q y -> matches (p ++ q) (x ++ y))
    /\ (forall p x, matches p x -> x <> [] -> p <> [])
    /\ (forall p x, matches p x ->
          exists r, RegExp h (Some p) flags_iu = Some r
                    /\ forall subject, Array_from subject = x -> r subject <> None).

(** What the pattern compiler relies on from [allSubstrings]: it returns
    the partitions of a string into pieces that are not empty, all of
    them. *)
Definition partition_contract (h : Host) : Prop :=
  forall x, x <> [] ->
    forall sub_pat,
      In sub_pat (allSubstrings h x) <-> concat sub_pat = x /\ ~ In [] sub_pat.


(** [x] is one code point of the subject and stands where the fold has [c]. *)
Definition stands_for (h : Host) (code_points : list (Z * Z)) (e : Engine)
  (c x : jsstring) : Prop :=
  registered h code_points e c x /\ Array_from x = [x].

(** A sequence that segments [str] from [k] to [e']. *)
Definition segments (str : jsstring) (k e' : Z) (q : Sequence) : Prop :=
  tiles k (parts q) e' /\ Forall (part_wf str) (parts q)
  /\ substrs q = map part_substr (parts q).

(** ** Notions for the readings of the folded input *)

(** The part the scan adds at the position [a]: the multi-character match
    that begins there, or the character. *)
Definition scanned_part (e : Engine) (str : jsstring) (a : Z) : Part :=
  new_part a (match_at e (substring_from str a)) (substring str a (a + 1)).

(** Where the part added at [a] ends. *)
Definition reach (e : Engine) (str : jsstring) (a : Z) : Z :=
  part_end (scanned_part e str a).

(** A part that ends before the part the scan adds at its start: the part
    of a clone that was cut. *)
Definition truncated (e : Engine) (str : jsstring) (p : Part) : Prop :=
  part_end p < reach e str (part_start p).

(** What [multi_char_reg] reports at the positions of [str] when it holds
    the multi-character keys of the map, the longest first: a match that
    begins at a position is a run of two code units or more of [str], and a
    key of two code units or more that begins at a position is found there,
    or a longer one. *)
Definition matches_are_longest_keys (e : Engine) (str : jsstring) : Prop :=
  forall i, 0 <= i < strlen str ->
    (forall text, match_at e (substring_from str i) = Some text ->
       1 < strlen text /\ exists rest, substring_from str i = text ++ rest)
    /\ (forall c rest,
          substring_from str i = c ++ rest ->
          hasOwnProperty (unicode_map e) c = true -> 1 < strlen c ->
          exists text, match_at e (substring_from str i) = Some text
                       /\ strlen c <= strlen text).

(** What the loop over [needle_parts] in [inSequences] decides at one
    [needle_part]: [Some false] for the same part, [Some true] for two parts
    of more than one character that overlap, [None] to go on. *)
Definition conflict_verdict (part needle_part : Part) : option bool :=
  if (part_start needle_part =? part_start part)
     && str_eqb (part_substr needle_part) (part_substr part)
  then Some false
  else if (part_length part =? 1) || (part_length needle_part =? 1)
  then None
  else if (part_start part <? part_start needle_part)
          && (part_start needle_part <? part_end part)
  then Some true
  else if (part_start needle_part <? part_start part)
          && (part_start part <? part_end needle_part)
  then Some true
  else None.

(** What [inSequences] tests of one sequence of the list. *)
Definition equivalent (seq needle_seq : Sequence) : Prop :=
  seq_start seq = seq_start needle_seq
  /\ seq_end seq = seq_end needle_seq
  /\ join_all (substrs seq) = join_all (substrs needle_seq)
  /\ forall part, In part (parts seq) ->
                  inSequences_conflict part (parts needle_seq) = false.

(** The shape of a live sequence: every part is a prefix of the part the
    scan adds at its start, the last part is that part, a part that was cut
    ends where a multi-character match begins, and a part of one character
    that was cut does not follow a part that was cut. *)
Definition seq_shape (e : Engine) (str : jsstring) (q : Sequence) : Prop :=
  (forall p, In p (parts q) -> part_end p <= reach e str (part_start p))
  /\ (forall p, Sequence_last q = Some p -> part_end p = reach e str (part_start p))
  /\ (forall p, In p (parts q) -> truncated e str p ->
                match_at e (substring_from str (part_end p)) <> None)
  /\ (forall l1 p1 p2 l2,
        parts q = l1 ++ p1 :: p2 :: l2 ->
        truncated e str p1 -> truncated e str p2 -> part_length p2 <> 1).

(** The clone of a live sequence whose last part begins at [i - 1] after a
    part that was cut comes from a sequence that is still live: the same
    parts before, and then the part the scan adds where the part that was
    cut begins. *)
Definition sources_live (e : Engine) (str : jsstring) (i : Z)
  (live : list Sequence) : Prop :=
  forall T l p1 p2,
    In T live -> parts T = l ++ [p1; p2] ->
    part_start p2 = i - 1 -> truncated e str p1 ->
    exists V, In V live /\ parts V = l ++ [scanned_part e str (part_start p1)].

(** [x] can be read where the folded input has the key [c]: [x] is [c]
    itself, or a character the generator yielded with the fold [c]. *)
Definition reads (h : Host) (code_points : list (Z * Z)) (e : Engine)
  (c x : jsstring) : Prop :=
  c <> []
  /\ hasOwnProperty (unicode_map e) c = true
  /\ (x = c \/ exists v, In v (generator h code_points)
                         /\ folded v = c /\ composed v = x).

(** The position [c] lies between two pieces of the list. *)
Definition cut (pieces : list jsstring) (c : Z) : Prop :=
  exists l1 l2, pieces = l1 ++ l2 /\ strlen (concat l1) = c.

(** The end [E] of a sequence does not stand in the way of the pieces at
    the scan position [i]: it lies between two pieces, or inside a piece
    that begins at [i] or later. *)
Definition ahead (pieces : list jsstring) (i E : Z) : Prop :=
  cut pieces E
  \/ exists l1 c l2,
       pieces = l1 ++ c :: l2
       /\ i <= strlen (concat l1)
       /\ strlen (concat l1) < E < strlen (concat l1) + strlen c.

(** The sequence cuts the input only where the pieces do. *)
Definition serves (pieces : list jsstring) (i : Z) (q : Sequence) : Prop :=
  (forall p, In p (parts q) -> cut pieces (part_start p))
  /\ ahead pieces i (seq_end q).

(** The state of the scan before position [i], for one way of cutting
    [str] into keys, the [pieces], with a text for each: the live sequences
    segment [str] from some [k] and have the shape of live sequences, the
    sources of the clones are live, one live sequence cuts [str] only where
    the pieces do, [k] is between two pieces, and the pattern matches the
    texts of the pieces up to [k]. *)
Definition scan_reads (h : Host) (code_points : list (Z * Z)) (e : Engine)
  (matches : jsstring -> list jsstring -> Prop) (str : jsstring)
  (pieces texts : list jsstring) (i : Z) (s : Scan) : Prop :=
  sequences s <> []
  /\ exists k,
       0 <= k <= i /\ (0 < i -> k < i)
       /\ (forall q, In q (sequences s) -> seq_wf str k i q)
       /\ (forall q, In q (sequences s) -> seq_shape e str q)
       /\ sources_live e str i (sequences s)
       /\ (exists q, In q (sequences s) /\ serves pieces i q)
       /\ exists l1 l2 t1 t2,
            pieces = l1 ++ l2 /\ texts = t1 ++ t2
            /\ Forall2 (reads h code_points e) l1 t1
            /\ Forall2 (reads h code_points e) l2 t2
            /\ strlen (concat l1) = k
            /\ matches (pattern s) (concat (map Array_from t1)).


(** * Properties *)

(** ** Strings, sets and objects *)

Lemma str_eqb_eq (a b : jsstring) : str_eqb a b = true <-> a = b.
Proof.
  revert b; induction a as [|x a IH]; intros [|y b]; simpl; split; intro H;
    try reflexivity; try discriminate.
  - apply andb_true_iff in H as [Hx Hab]. apply Z.eqb_eq in Hx.
    apply IH in Hab. now subst.
  - injection H as -> ->. rewrite Z.eqb_refl. now apply IH.
Qed.

Lemma str_eqb_refl (a : jsstring) : str_eqb a a = true.
Proof. now apply str_eqb_eq. Qed.

Lemma str_eqb_neq (a b : jsstring) : str_eqb a b = false <-> a <> b.
Proof.
  split.
  - intros H E. apply str_eqb_eq in E. congruence.
  - intro H. destruct (str_eqb a b) eqn:E; [|reflexivity].
    apply str_eqb_eq in E. contradiction.
Qed.

Lemma str_eqb_sym (a b : jsstring) : str_eqb a b = str_eqb b a.
Proof.
  destruct (str_eqb a b) eqn:E.
  - apply str_eqb_eq in E. subst. now rewrite str_eqb_refl.
  - symmetry. apply str_eqb_neq. apply str_eqb_neq in E. congruence.
Qed.

Lemma strlen_nonneg (s : jsstring) : 0 <= strlen s.
Proof. unfold strlen. lia. Qed.

Lemma strlen_app (a b : jsstring) : strlen (a ++ b) = strlen a + strlen b.
Proof. unfold strlen. rewrite length_app. lia. Qed.

Lemma Set_has_In (s : list jsstring) (x : jsstring) : Set_has s x = true <-> In x s.
Proof.
  unfold Set_has. rewrite existsb_exists. split.
  - intros (y & Hy & E). apply str_eqb_eq in E. now subst.
  - intro H. exists x. split; [assumption | apply str_eqb_refl].
Qed.

Lemma Set_add_In (s : list jsstring) (x y : jsstring) :
  In y (Set_add s x) <-> In y s \/ y = x.
Proof.
  unfold Set_add. destruct (Set_has s x) eqn:E.
  - apply Set_has_In in E. split; [tauto | intros [H | ->]; assumption].
  - rewrite in_app_iff. simpl. intuition congruence.
Qed.

Lemma Set_add_has (s : list jsstring) (x : jsstring) : In x (Set_add s x).
Proof. apply Set_add_In. now right. Qed.

Lemma Set_add_nonempty (s : list jsstring) (x : jsstring) : Set_add s x <> [].
Proof.
  intro H. pose proof (Set_add_has s x) as Hin. rewrite H in Hin. contradiction.
Qed.

Lemma Set_add_head (s : list jsstring) (x y : jsstring) :
  hd_error s = Some y -> hd_error (Set_add s x) = Some y.
Proof.
  unfold Set_add. destruct (Set_has s x); [trivial|].
  destruct s; simpl; [discriminate | trivial].
Qed.

Lemma obj_get_set_same {V} (o : obj V) (k : jsstring) (v : V) :
  obj_get (obj_set o k v) k = Some v.
Proof.
  induction o as [|[k' v'] o IH]; simpl.
  - now rewrite str_eqb_refl.
  - destruct (str_eqb k k') eqn:E; simpl; rewrite E; [reflexivity | exact IH].
Qed.

Lemma obj_get_set_other {V} (o : obj V) (k k' : jsstring) (v : V) :
  k' <> k -> obj_get (obj_set o k v) k' = obj_get o k'.
Proof.
  intro Hne. induction o as [|[k0 v0] o IH]; simpl.
  - apply str_eqb_neq in Hne. now rewrite Hne.
  - destruct (str_eqb k k0) eqn:E; simpl.
    + apply str_eqb_eq in E. subst k0.
      apply str_eqb_neq in Hne. now rewrite Hne.
    + destruct (str_eqb k' k0); [reflexivity | exact IH].
Qed.

Lemma obj_get_In_keys {V} (o : obj V) (k : jsstring) (v : V) :
  obj_get o k = Some v -> In k (map fst o).
Proof.
  induction o as [|[k' v'] o IH]; simpl; [discriminate|].
  destruct (str_eqb k k') eqn:E.
  - apply str_eqb_eq in E. intros _. now left.
  - intro H. right. now apply IH.
Qed.

Lemma obj_keys_get {V} (o : obj V) (k : jsstring) :
  In k (map fst o) -> exists v, obj_get o k = Some v.
Proof.
  induction o as [|[k' v'] o IH]; simpl; [contradiction|].
  intros [-> | H].
  - rewrite str_eqb_refl. now exists v'.
  - destruct (str_eqb k k'); [now exists v' | now apply IH].
Qed.

(** ** The generator *)

Lemma In_code_range (lo hi i : Z) : In i (code_range lo hi) <-> lo <= i <= hi.
Proof.
  unfold code_range. rewrite in_map_iff. split.
  - intros (k & <- & Hk). apply in_seq in Hk. lia.
  - intro H. exists (Z.to_nat (i - lo)). split; [lia | apply in_seq; lia].
Qed.

Section Generator.

Variable h : Host.

Lemma generator_at_code_point (i : Z) (o : TCodePointObj) :
  generator_at h i = Some o -> code_point o = i.
Proof.
  unfold generator_at.
  repeat match goal with |- context [if ?b then _ else _] => destruct b end;
    intro H; inversion H; reflexivity.
Qed.

Lemma generator_at_Some (i : Z) (o : TCodePointObj) :
  generator_at h i = Some o <->
  o = mkCodePointObj (asciifold h (fromCharCode i)) (fromCharCode i) i
  /\ skip_same_as_lower h (fromCharCode i) (asciifold h (fromCharCode i)) = false
  /\ skip_too_long (asciifold h (fromCharCode i)) = false
  /\ skip_empty (asciifold h (fromCharCode i)) = false
  /\ skip_roundtrip h (fromCharCode i) (asciifold h (fromCharCode i)) = false.
Proof.
  unfold generator_at.
  destruct (skip_same_as_lower h _ _), (skip_too_long _), (skip_empty _),
    (skip_roundtrip h _ _); split; intro H;
    try discriminate; try (decompose [and] H; discriminate).
  - inversion H. auto.
  - destruct H as [-> _]. reflexivity.
Qed.

Lemma In_generator (code_points : list (Z * Z)) (o : TCodePointObj) :
  In o (generator h code_points) <->
  exists r, In r code_points /\ fst r <= code_point o <= snd r
            /\ generator_at h (code_point o) = Some o.
Proof.
  unfold generator. rewrite in_flat_map. split.
  - intros (r & Hr & Ho). apply in_flat_map in Ho as (i & Hi & Ho).
    apply In_code_range in Hi.
    destruct (generator_at h i) as [o'|] eqn:E; simpl in Ho; [|contradiction].
    destruct Ho as [<- | []].
    pose proof (generator_at_code_point _ E) as Hc. rewrite Hc.
    exists r. auto.
  - intros (r & Hr & Hi & Ho). exists r. split; [assumption|].
    apply in_flat_map. exists (code_point o). split.
    + now apply In_code_range.
    + rewrite Ho. now left.
Qed.

Lemma generator_folded_length (code_points : list (Z * Z)) (o : TCodePointObj) :
  In o (generator h code_points) -> 0 < strlen (folded o) <= 3.
Proof.
  intro H. apply In_generator in H as (r & _ & _ & Ho).
  remember (code_point o) as i eqn:Hi. clear Hi.
  apply generator_at_Some in Ho as (-> & _ & Hlong & Hempty & _). simpl.
  unfold skip_too_long, max_char_length in Hlong. unfold skip_empty in Hempty.
  pose proof (strlen_nonneg (asciifold h (fromCharCode i))).
  apply Z.ltb_ge in Hlong. apply Z.eqb_neq in Hempty. lia.
Qed.

End Generator.

(** ** The map builder *)

Lemma In_insert_index (k x : jsstring) (l : list jsstring) :
  In x (insert_index k l) <-> x = k \/ In x l.
Proof.
  induction l as [|k' l IH]; simpl.
  - intuition congruence.
  - destruct (digits_value k <=? digits_value k'); simpl; rewrite ?IH;
      intuition congruence.
Qed.

Lemma In_for_in_keys {V} (o : obj V) (k : jsstring) :
  In k (for_in_keys o) <-> In k (map fst o).
Proof.
  unfold for_in_keys. rewrite in_app_iff, filter_In.
  assert (Hs : forall l, In k (fold_right insert_index [] l) <-> In k l).
  { induction l as [|a l IH]; simpl; [tauto|].
    rewrite In_insert_index, IH. intuition congruence. }
  rewrite Hs, filter_In.
  destruct (is_array_index k); simpl; intuition congruence.
Qed.

Section Builder.

Variable h : Host.
Variable sim : jsstring -> jsstring -> Prop.
Hypothesis sim_refl : forall x, sim x x.
Hypothesis compiles :
  forall set, escaped_set h set ->
    exists r,
      RegExp h (Some (anchored (setToPattern h set))) flags_iu = Some r /\
      forall x, 0 < strlen x <= max_char_length ->
        (r x <> None <-> exists y, In (escape_regex h y) set /\ sim y x).

Lemma escaped_set_of (sets : TUnicodeSets) (k : jsstring) :
  all_escaped h sets -> escaped_set h (set_of sets k).
Proof.
  intros Hall. unfold set_of. destruct (obj_get sets k) eqn:E.
  - exact (Hall _ _ E).
  - intros e [].
Qed.

Lemma covers_matches (s : list jsstring) (x : jsstring) :
  escaped_set h s -> 0 < strlen x <= max_char_length ->
  covers h sim s x -> fragment_matches h (setToPattern h s) x.
Proof.
  intros Hs Hx Hc. destruct (compiles Hs) as (r & Hr & Hiff).
  exists r. split; [assumption|]. now apply Hiff.
Qed.

Lemma addMatching_spec (sets : TUnicodeSets) (k x : jsstring) :
  all_escaped h sets -> 0 < strlen x <= max_char_length ->
  exists sets' new,
    addMatching h sets k x = Some sets'
    /\ (forall k', k' <> k -> obj_get sets' k' = obj_get sets k')
    /\ obj_get sets' k = Some new
    /\ escaped_set h new
    /\ incl (set_of sets k) new
    /\ covers h sim new x
    /\ (forall y, hd_error (set_of sets k) = Some y -> hd_error new = Some y)
    /\ (set_of sets k = [] -> new = [escape_regex h x])
    /\ (sets' <> sets -> ~ fragment_matches h (setToPattern h (set_of sets k)) x).
Proof.
  intros Hall Hx. unfold addMatching. fold (set_of sets k).
  pose proof (escaped_set_of k Hall) as Hesc.
  destruct (compiles Hesc) as (r & Hr & Hiff). rewrite Hr.
  destruct (r x) as [m|] eqn:Erx.
  - (* the alternation already matches: nothing is added *)
    assert (Hcov : covers h sim (set_of sets k) x).
    { apply Hiff; [assumption | congruence]. }
    assert (Hsome : obj_get sets k = Some (set_of sets k)).
    { unfold set_of in *. destruct (obj_get sets k); [reflexivity|].
      destruct Hcov as (y & [] & _). }
    exists sets, (set_of sets k). repeat split; auto using incl_refl.
    intros Hnil. rewrite Hnil in Hcov. destruct Hcov as (y & [] & _).
  - exists (obj_set sets k (Set_add (set_of sets k) (escape_regex h x))),
      (Set_add (set_of sets k) (escape_regex h x)).
    repeat split.
    + intros k' Hne. now apply obj_get_set_other.
    + apply obj_get_set_same.
    + intros e He. apply Set_add_In in He as [He | ->].
      * now apply Hesc.
      * now exists x.
    + intros e He. apply Set_add_In. now left.
    + exists x. split; [apply Set_add_has | apply sim_refl].
    + intros y Hy. now apply Set_add_head.
    + intros Hnil. rewrite Hnil. reflexivity.
    + intros _ (r' & Hr' & Hm). rewrite Hr in Hr'. injection Hr' as <-.
      congruence.
Qed.

Lemma sets_inv_all_escaped (sets : TUnicodeSets) (done : list TCodePointObj) :
  sets_inv h sim sets done -> all_escaped h sets.
Proof. intros [H _] k s Hk. now apply (H k s). Qed.

Lemma generateSets_step_inv (sets : TUnicodeSets) (done : list TCodePointObj)
  (v : TCodePointObj) :
  sets_inv h sim sets done -> short (folded v) -> short (composed v) ->
  exists sets', generateSets_step h (Some sets) v = Some sets'
                /\ sets_inv h sim sets' (done ++ [v]).
Proof.
  intros Hinv Hf Hc. pose proof (sets_inv_all_escaped Hinv) as Hall.
  destruct Hinv as [Hkeys Hdone]. simpl.
  destruct (@addMatching_spec sets (folded v) (folded v) Hall Hf)
    as (s1 & n1 & E1 & Hoth1 & Hget1 & Hesc1 & Hincl1 & Hcov1 & Hhd1 & Hnil1 & _).
  rewrite E1.
  assert (Hall1 : all_escaped h s1).
  { intros k s Hk. destruct (list_eq_dec Z.eq_dec k (folded v)) as [-> | Hne].
    - rewrite Hget1 in Hk. now injection Hk as <-.
    - rewrite (Hoth1 _ Hne) in Hk. now apply (Hall k s). }
  destruct (@addMatching_spec s1 (folded v) (composed v) Hall1 Hc)
    as (s2 & n2 & E2 & Hoth2 & Hget2 & Hesc2 & Hincl2 & Hcov2 & Hhd2 & _ & _).
  exists s2. split; [assumption|].
  assert (Hset1 : set_of s1 (folded v) = n1) by (unfold set_of; now rewrite Hget1).
  rewrite Hset1 in Hincl2, Hhd2.
  assert (Hhead : hd_error n1 = Some (escape_regex h (folded v))).
  { destruct (obj_get sets (folded v)) as [s0|] eqn:E0.
    - apply Hhd1. unfold set_of. rewrite E0. now apply (Hkeys _ _ E0).
    - rewrite Hnil1; [reflexivity | unfold set_of; now rewrite E0]. }
  split.
  - intros k s Hk. destruct (list_eq_dec Z.eq_dec k (folded v)) as [-> | Hne].
    + rewrite Hget2 in Hk. injection Hk as <-. repeat split.
      * assumption.
      * now apply Hhd2.
      * exists v. split; [apply in_app_iff; right; now left | reflexivity].
    + rewrite (Hoth2 _ Hne), (Hoth1 _ Hne) in Hk.
      destruct (Hkeys _ _ Hk) as (He & Hh & v' & Hv' & Hfv').
      repeat split; try assumption.
      exists v'. split; [apply in_app_iff; now left | assumption].
  - intros v' Hv'. apply in_app_iff in Hv' as [Hv' | [<- | []]].
    + destruct (Hdone _ Hv') as (s & Hs & y & Hy & Hsim).
      destruct (list_eq_dec Z.eq_dec (folded v') (folded v)) as [Heq | Hne].
      * rewrite Heq. exists n2. split; [assumption|].
        exists y. split; [|assumption].
        apply Hincl2, Hincl1. unfold set_of. rewrite <- Heq, Hs. assumption.
      * exists s. split; [|now exists y].
        now rewrite (Hoth2 _ Hne), (Hoth1 _ Hne).
    + exists n2. split; assumption.
Qed.

Lemma generateSets_fold_inv (l : list TCodePointObj) :
  forall sets done,
    sets_inv h sim sets done ->
    (forall v, In v l -> short (folded v) /\ short (composed v)) ->
    exists sets', fold_left (generateSets_step h) l (Some sets) = Some sets'
                  /\ sets_inv h sim sets' (done ++ l).
Proof.
  induction l as [|v l IH]; intros sets done Hinv Hshort.
  - exists sets. rewrite app_nil_r. now split.
  - destruct (@generateSets_step_inv sets done v Hinv) as (s1 & E1 & Hinv1).
    + apply Hshort. now left.
    + apply Hshort. now left.
    + destruct (IH s1 (done ++ [v]) Hinv1) as (s2 & E2 & Hinv2).
      * intros v' Hv'. apply Hshort. now right.
      * exists s2. split.
        -- simpl fold_left. simpl in E1. rewrite E1. exact E2.
        -- now rewrite <- app_assoc in Hinv2.
Qed.

Lemma generator_short (code_points : list (Z * Z)) (v : TCodePointObj) :
  In v (generator h code_points) -> short (folded v) /\ short (composed v).
Proof.
  intro Hv. split.
  - exact (generator_folded_length _ _ _ Hv).
  - apply In_generator in Hv as (r & _ & _ & Ho).
    remember (code_point v) as i eqn:Hi. clear Hi.
    apply generator_at_Some in Ho as (-> & _). simpl.
    unfold short, max_char_length, strlen, fromCharCode. simpl. lia.
Qed.

Lemma generateSets_inv (code_points : list (Z * Z)) :
  exists sets, generateSets h code_points = Some sets
               /\ sets_inv h sim sets (generator h code_points).
Proof.
  unfold generateSets.
  apply (@generateSets_fold_inv (generator h code_points) [] []).
  - split; [intros k s Hk; discriminate | intros v []].
  - apply generator_short.
Qed.

Lemma generateMap_entries_get (sets : TUnicodeSets) (k : jsstring) :
  obj_get (generateMap_entries h sets) k
  = option_map (setToPattern h) (obj_get sets k).
Proof.
  unfold generateMap_entries.
  assert (Hfold : forall keys m,
    obj_get (fold_left (fun m folded =>
        match obj_get sets folded with
        | Some set => obj_set m folded (setToPattern h set)
        | None => m
        end) keys m) k
    = match (if existsb (str_eqb k) keys then obj_get sets k else None) with
      | Some set => Some (setToPattern h set)
      | None => obj_get m k
      end).
  { induction keys as [|a keys IH]; intro m; simpl; [reflexivity|].
    rewrite IH. destruct (existsb (str_eqb k) keys) eqn:Eks.
    - rewrite orb_true_r. destruct (obj_get sets k) eqn:Ek; [reflexivity|].
      destruct (str_eqb k a) eqn:Eka.
      + apply str_eqb_eq in Eka. subst a. now rewrite Ek.
      + apply str_eqb_neq in Eka.
        destruct (obj_get sets a); [now apply obj_get_set_other | reflexivity].
    - rewrite orb_false_r. destruct (str_eqb k a) eqn:Eka.
      + apply str_eqb_eq in Eka. subst a.
        destruct (obj_get sets k) eqn:Ek; [apply obj_get_set_same | reflexivity].
      + apply str_eqb_neq in Eka.
        destruct (obj_get sets a); [now apply obj_get_set_other | reflexivity]. }
  rewrite Hfold. simpl.
  destruct (obj_get sets k) as [s|] eqn:Ek.
  - assert (Hin : existsb (str_eqb k) (for_in_keys sets) = true).
    { apply existsb_exists. exists k. split; [|apply str_eqb_refl].
      apply In_for_in_keys. now apply obj_get_In_keys with (v := s). }
    now rewrite Hin.
  - now destruct (existsb (str_eqb k) (for_in_keys sets)).
Qed.

Lemma generateMap_keys (code_points : list (Z * Z)) (e : Engine)
  (k : jsstring) (fragment : js_val) :
  generateMap h code_points = Some e ->
  obj_get (unicode_map e) k = Some fragment ->
  exists sets s,
    generateSets h code_points = Some sets
    /\ sets_inv h sim sets (generator h code_points)
    /\ obj_get sets k = Some s
    /\ fragment = setToPattern h s.
Proof.
  intros He Hk. destruct (generateSets_inv code_points) as (sets & Hs & Hinv).
  unfold generateMap in He. rewrite Hs in He.
  destruct (RegExp h _ flags_u); [|discriminate]. injection He as <-.
  simpl in Hk. rewrite generateMap_entries_get in Hk.
  destruct (obj_get sets k) as [s|] eqn:Ek; [|discriminate].
  injection Hk as <-. now exists sets, s.
Qed.

End Builder.

(** Where the members of the variant sets come from; no assumption on the
    host is needed. *)
Section BuilderOrigin.

Variable h : Host.

Lemma addMatching_cases (sets sets' : TUnicodeSets) (k x : jsstring) :
  addMatching h sets k x = Some sets' ->
  sets' = sets
  \/ sets' = obj_set sets k (Set_add (set_of sets k) (escape_regex h x)).
Proof.
  unfold addMatching. fold (set_of sets k).
  destruct (RegExp h _ flags_iu) as [r|]; [|discriminate].
  destruct (r x); intro H; injection H as <-; auto.
Qed.

Lemma addMatching_origin (sets sets' : TUnicodeSets) (done : list TCodePointObj)
  (v : TCodePointObj) (x : jsstring) :
  sets_origin h sets done -> In v done ->
  x = folded v \/ x = composed v ->
  addMatching h sets (folded v) x = Some sets' ->
  sets_origin h sets' done.
Proof.
  intros Hinv Hv Hx Hadd. apply addMatching_cases in Hadd as [-> | ->];
    [assumption|].
  intros k s Hk. destruct (list_eq_dec Z.eq_dec k (folded v)) as [-> | Hne].
  - rewrite obj_get_set_same in Hk. injection Hk as <-.
    split; [apply Set_add_nonempty|].
    intros e He. apply Set_add_In in He as [He | ->].
    + unfold set_of in He. destruct (obj_get sets (folded v)) eqn:E; [|contradiction].
      now apply (Hinv _ _ E).
    + exists v. repeat split; [assumption|]. destruct Hx as [-> | ->]; auto.
  - rewrite obj_get_set_other in Hk by assumption. now apply Hinv.
Qed.

Lemma sets_origin_more (sets : TUnicodeSets) (done : list TCodePointObj)
  (v : TCodePointObj) :
  sets_origin h sets done -> sets_origin h sets (done ++ [v]).
Proof.
  intros Hinv k s Hk. destruct (Hinv k s Hk) as [Hne Hmem]. split; [assumption|].
  intros e He. destruct (Hmem e He) as (v' & Hv' & Hrest).
  exists v'. split; [apply in_app_iff; now left | assumption].
Qed.

Lemma generateSets_fold_origin (l : list TCodePointObj) :
  forall sets sets' done,
    sets_origin h sets done ->
    fold_left (generateSets_step h) l (Some sets) = Some sets' ->
    sets_origin h sets' (done ++ l).
Proof.
  induction l as [|v l IH]; intros sets sets' done Hinv Hfold; simpl in Hfold.
  - injection Hfold as <-. now rewrite app_nil_r.
  - destruct (addMatching h sets (folded v) (folded v)) as [s1|] eqn:E1.
    + destruct (addMatching h s1 (folded v) (composed v)) as [s2|] eqn:E2.
      * replace (done ++ v :: l) with ((done ++ [v]) ++ l)
          by (rewrite <- app_assoc; reflexivity).
        apply (IH s2); [|assumption].
        assert (Hv : In v (done ++ [v])) by (apply in_app_iff; right; now left).
        apply (@addMatching_origin s1 s2 (done ++ [v]) v (composed v));
          auto.
        apply (@addMatching_origin sets s1 (done ++ [v]) v (folded v));
          auto using sets_origin_more.
      * exfalso. clear -Hfold. induction l; simpl in Hfold; [discriminate | auto].
    + exfalso. clear -Hfold. induction l; simpl in Hfold; [discriminate | auto].
Qed.

Lemma generateSets_origin (code_points : list (Z * Z)) (sets : TUnicodeSets) :
  generateSets h code_points = Some sets ->
  sets_origin h sets (generator h code_points).
Proof.
  intro H. apply (@generateSets_fold_origin (generator h code_points) [] sets []).
  - intros k s Hk. discriminate.
  - exact H.
Qed.

End BuilderOrigin.

(** C4. The generator yields an entry for the character [c] rendered from a
    code point of the ranges exactly when none of the four skip tests holds:
    [fold(c)] equals [c.toLowerCase()], [fold(c)] is empty, [fold(c)] is
    longer than three characters, or [c] survives decomposition and
    recomposition while [fold(c)] is its decomposition. Hence every key of
    the map built from the ranges has one to three characters, and every
    variant registered under a key is the key itself or a character whose
    fold is that key. *)
Theorem generator_skip_conditions (h : Host) (code_points : list (Z * Z)) :
  (forall o, In o (generator h code_points) <->
     exists r i, In r code_points /\ fst r <= i <= snd r
       /\ o = mkCodePointObj (asciifold h (fromCharCode i)) (fromCharCode i) i
       /\ asciifold h (fromCharCode i) <> toLowerCase h (fromCharCode i)
       /\ strlen (asciifold h (fromCharCode i)) <> 0
       /\ strlen (asciifold h (fromCharCode i)) <= 3
       /\ ~ (NFC h (NFKD h (fromCharCode i)) = fromCharCode i
             /\ asciifold h (fromCharCode i) = NFKD h (fromCharCode i)))
  /\ (forall e k fragment,
        generateMap h code_points = Some e ->
        obj_get (unicode_map e) k = Some fragment ->
        0 < strlen k <= 3)
  /\ (forall sets k s variant,
        generateSets h code_points = Some sets ->
        obj_get sets k = Some s -> In variant s ->
        exists o, In o (generator h code_points) /\ folded o = k
          /\ strlen (asciifold h (composed o)) <= 3
          /\ (variant = escape_regex h k \/ variant = escape_regex h (composed o))).
Proof.
  assert (Hyield : forall o, In o (generator h code_points) <->
     exists r i, In r code_points /\ fst r <= i <= snd r
       /\ o = mkCodePointObj (asciifold h (fromCharCode i)) (fromCharCode i) i
       /\ asciifold h (fromCharCode i) <> toLowerCase h (fromCharCode i)
       /\ strlen (asciifold h (fromCharCode i)) <> 0
       /\ strlen (asciifold h (fromCharCode i)) <= 3
       /\ ~ (NFC h (NFKD h (fromCharCode i)) = fromCharCode i
             /\ asciifold h (fromCharCode i) = NFKD h (fromCharCode i))).
  { intro o. rewrite In_generator. split.
    - intros (r & Hr & Hi & Ho). exists r, (code_point o).
      remember (code_point o) as i eqn:Ei. clear Ei.
      apply generator_at_Some in Ho as (-> & Hlow & Hlong & Hempty & Hround).
      unfold skip_same_as_lower in Hlow. apply str_eqb_neq in Hlow.
      unfold skip_too_long, max_char_length in Hlong. apply Z.ltb_ge in Hlong.
      unfold skip_empty in Hempty. apply Z.eqb_neq in Hempty.
      unfold skip_roundtrip in Hround. apply andb_false_iff in Hround.
      repeat split; auto; try lia.
      intros [H1 H2]. destruct Hround as [Hr' | Hr']; apply str_eqb_neq in Hr';
        contradiction.
    - intros (r & i & Hr & Hi & -> & Hlow & Hempty & Hlong & Hround).
      exists r. simpl. repeat split; try assumption; try lia.
      apply generator_at_Some. repeat split.
      + unfold skip_same_as_lower. now apply str_eqb_neq.
      + unfold skip_too_long, max_char_length. apply Z.ltb_ge. lia.
      + unfold skip_empty. now apply Z.eqb_neq.
      + unfold skip_roundtrip. apply andb_false_iff.
        destruct (str_eqb (NFC h (NFKD h (fromCharCode i))) (fromCharCode i)) eqn:E1;
          [|now left].
        right. apply str_eqb_neq. intro E2. apply Hround.
        apply str_eqb_eq in E1. now split. }
  assert (Hmembers : forall sets k s variant,
        generateSets h code_points = Some sets ->
        obj_get sets k = Some s -> In variant s ->
        exists o, In o (generator h code_points) /\ folded o = k
          /\ strlen (asciifold h (composed o)) <= 3
          /\ (variant = escape_regex h k \/ variant = escape_regex h (composed o))).
  { intros sets k s variant Hsets Hk Hin.
    destruct (@generateSets_origin h code_points sets Hsets k s Hk) as [_ Hmem].
    destruct (Hmem _ Hin) as (o & Ho & Hf & Hv). exists o.
    repeat split; try assumption.
    - apply Hyield in Ho as (r & i & _ & _ & -> & _ & _ & Hlen & _). exact Hlen.
    - now rewrite <- Hf. }
  repeat split; try apply Hyield; try (now apply Hyield).
  - unfold generateMap in H.
    destruct (generateSets h code_points) as [sets|] eqn:Hsets; [|discriminate].
    destruct (RegExp h _ flags_u); [|discriminate]. injection H as <-.
    simpl in H0. rewrite generateMap_entries_get in H0.
    destruct (obj_get sets k) as [s|] eqn:Ek; [|discriminate].
    destruct (@generateSets_origin h code_points sets Hsets k s Ek) as [Hne Hmem].
    destruct s as [|e0 s]; [contradiction|].
    destruct (Hmem e0 (or_introl eq_refl)) as (o & Ho & <- & _).
    now apply (generator_folded_length h code_points).
  - unfold generateMap in H.
    destruct (generateSets h code_points) as [sets|] eqn:Hsets; [|discriminate].
    destruct (RegExp h _ flags_u); [|discriminate]. injection H as <-.
    simpl in H0. rewrite generateMap_entries_get in H0.
    destruct (obj_get sets k) as [s|] eqn:Ek; [|discriminate].
    destruct (@generateSets_origin h code_points sets Hsets k s Ek) as [Hne Hmem].
    destruct s as [|e0 s]; [contradiction|].
    destruct (Hmem e0 (or_introl eq_refl)) as (o & Ho & <- & _).
    now apply (generator_folded_length h code_points).
  - exact Hmembers.
Qed.

Lemma generator_skip_conditions_witness :
  In (mkCodePointObj (ustr "ii") [0x2171] 0x2171)
     (generator Model.host Model.roman_ranges)
  /\ ~ In (mkCodePointObj (asciifold Model.host [0xFDFB]) [0xFDFB] 0xFDFB)
          (generator Model.host [(0xFDFB, 0xFDFB)]).
Proof.
  split.
  - apply (proj1 (generator_skip_conditions Model.host Model.roman_ranges)).
    exists (0x2170, 0x2172), 0x2171.
    repeat split; try (vm_compute; intuition discriminate).
  - intro H.
    apply (proj1 (generator_skip_conditions Model.host [(0xFDFB, 0xFDFB)])) in H
      as (r & i & _ & _ & Ho & _ & _ & Hlen & _).
    injection Ho as _ _ <-. vm_compute in Hlen. now apply Hlen.
Defined.



(** ** Folding *)

Lemma replace_convert_app (a b : jsstring) :
  replace_convert (a ++ b) = replace_convert a ++ replace_convert b.
Proof. unfold replace_convert. apply flat_map_app. Qed.

Lemma convert_replacement_fixed (c : code_unit) :
  replace_convert (convert_replacement c) = convert_replacement c.
Proof.
  unfold convert_replacement, latin_convert. simpl latin_convert_get.
  repeat match goal with
         | |- context [if ?b then _ else _] => destruct b
         end; reflexivity.
Qed.

Lemma replace_convert_idempotent (s : jsstring) :
  replace_convert (replace_convert s) = replace_convert s.
Proof.
  induction s as [|c s IH]; [reflexivity|].
  change (replace_convert (c :: s))
    with ((if convert_pat c then convert_replacement c else [c]) ++ replace_convert s).
  rewrite replace_convert_app, IH. f_equal.
  destruct (convert_pat c) eqn:E.
  - apply convert_replacement_fixed.
  - unfold replace_convert. simpl. rewrite E. reflexivity.
Qed.

(** C3. The code breaks the claim where its own documentation says it
    should not. [decompose] is documented as a decomposition "without
    reordering string", with U+0594 U+0595 U+0596 as the string that
    [normalize('NFKD')] reorders, but it only avoids the built-in for strings
    that contain U+0F71..U+0F81. Folding U+0594 U+0595 U+00B7 U+0596 strips
    U+00B7; the second fold hands the string of the docstring to [decompose],
    which reorders it: the fold of the fold differs from the fold. *)
Theorem asciifold_second_fold_reorders :
  asciifold Model.host [0x594; 0x595; 0xb7; 0x596] = [0x594; 0x595; 0x596]
  /\ decompose Model.host [0x594; 0x595; 0x596] = [0x596; 0x594; 0x595]
  /\ asciifold Model.host (asciifold Model.host [0x594; 0x595; 0xb7; 0x596])
     = [0x596; 0x594; 0x595]
  /\ asciifold Model.host (asciifold Model.host [0x594; 0x595; 0xb7; 0x596])
     <> asciifold Model.host [0x594; 0x595; 0xb7; 0x596].
Proof.
  assert (H1 : asciifold Model.host [0x594; 0x595; 0xb7; 0x596]
               = [0x594; 0x595; 0x596]) by (vm_compute; reflexivity).
  assert (H2 : decompose Model.host [0x594; 0x595; 0x596]
               = [0x596; 0x594; 0x595]) by (vm_compute; reflexivity).
  assert (H3 : asciifold Model.host [0x594; 0x595; 0x596]
               = [0x596; 0x594; 0x595]) by (vm_compute; reflexivity).
  rewrite H1, H3. repeat split; try assumption. discriminate.
Qed.

(** ** The pattern compiler *)

Section CompilerProperties.

Variable h : Host.
Variable e : Engine.

Lemma chars_replaced_from (strings : list jsstring) (n : Z) :
  fold_left (fun n str => n + mapSequence_count e str) strings n
  = n + chars_replaced e strings.
Proof.
  unfold chars_replaced. revert n.
  assert (H : forall l a b,
    fold_left (fun n str => n + mapSequence_count e str) l (a + b)
    = a + fold_left (fun n str => n + mapSequence_count e str) l b).
  { induction l as [|x l IH]; intros a b; simpl; [reflexivity|].
    rewrite <- Z.add_assoc. apply IH. }
  intro n. rewrite <- (H strings n 0). now rewrite Z.add_0_r.
Qed.

Lemma chars_replaced_cons (str : jsstring) (strings : list jsstring) :
  chars_replaced e (str :: strings)
  = mapSequence_count e str + chars_replaced e strings.
Proof. unfold chars_replaced at 1. simpl. apply chars_replaced_from. Qed.

Lemma mapSequence_count_nonneg (str : jsstring) : 0 <= mapSequence_count e str.
Proof.
  unfold mapSequence_count. destruct (hasOwnProperty _ _);
    [apply strlen_nonneg | lia].
Qed.

Lemma chars_replaced_nonneg (strings : list jsstring) :
  0 <= chars_replaced e strings.
Proof.
  induction strings as [|x l IH]; [unfold chars_replaced; simpl; lia|].
  rewrite chars_replaced_cons. pose proof (mapSequence_count_nonneg x). lia.
Qed.

Lemma mapSequence_run_absent (r : jsstring) :
  hasOwnProperty (unicode_map e) r = false -> mapSequence_run e r = r.
Proof.
  unfold hasOwnProperty, mapSequence_run.
  destruct (obj_get (unicode_map e) r); [discriminate | reflexivity].
Qed.

Lemma chars_replaced_absent (strings : list jsstring) :
  (forall r, In r strings -> hasOwnProperty (unicode_map e) r = false) ->
  chars_replaced e strings = 0.
Proof.
  induction strings as [|x l IH]; intro H; [reflexivity|].
  rewrite chars_replaced_cons, IH by (intros r Hr; apply H; now right).
  unfold mapSequence_count. rewrite H by now left. reflexivity.
Qed.

Lemma map_run_absent (strings : list jsstring) :
  (forall r, In r strings -> hasOwnProperty (unicode_map e) r = false) ->
  map (fun s => Some (mapSequence_run e s)) strings = map Some strings.
Proof.
  intro H. apply map_ext_in. intros r Hr. now rewrite mapSequence_run_absent by auto.
Qed.

Lemma mapSequence_zero (strings : list jsstring) :
  mapSequence h e strings 0
  = Some (sequencePattern h (map (fun s => Some (mapSequence_run e s)) strings)).
Proof.
  unfold mapSequence. pose proof (chars_replaced_nonneg strings) as H.
  apply Z.leb_le in H. now rewrite H.
Qed.

Lemma In_substringsToPattern_patterns (str : jsstring) (m : Z) (pat : jsstring) :
  In pat (substringsToPattern_patterns h e str m) <->
  exists sub_pat, In sub_pat (allSubstrings h str)
    /\ m <= chars_replaced e sub_pat
    /\ pat = sequencePattern h (map (fun s => Some (mapSequence_run e s)) sub_pat)
    /\ pat <> [].
Proof.
  unfold substringsToPattern_patterns. rewrite in_flat_map. split.
  - intros (sub_pat & Hin & Hpat). exists sub_pat. split; [assumption|].
    unfold mapSequence in Hpat.
    destruct (m <=? chars_replaced e sub_pat) eqn:E; simpl in Hpat; [|contradiction].
    apply Z.leb_le in E.
    destruct (sequencePattern h _) eqn:Es; simpl in Hpat; [contradiction|].
    destruct Hpat as [<- | []]. repeat split; [assumption | discriminate].
  - intros (sub_pat & Hin & Hm & -> & Hne). exists sub_pat. split; [assumption|].
    unfold mapSequence. apply Z.leb_le in Hm. rewrite Hm. simpl.
    destruct (sequencePattern h _) eqn:Es; [contradiction | now left].
Qed.

End CompilerProperties.

(** C10. [mapSequence] hands every run that is not an own property of the
    map to [sequencePattern] as it is, without escaping: the fragment at the
    position of such a run is the run. When no run is in the map the
    fragments are the runs, and so are they for the characters of the folded
    input that [getPattern] maps when no multi-character key matches. *)
Theorem mapSequence_unmapped_runs_verbatim (h : Host) (e : Engine)
  (strings : list jsstring) (min_replacement : Z) :
  (forall p, mapSequence h e strings min_replacement = Some p ->
     p = sequencePattern h (map (fun s => Some (mapSequence_run e s)) strings))
  /\ (forall k r, nth_error strings k = Some r ->
        hasOwnProperty (unicode_map e) r = false ->
        nth_error (map (fun s => Some (mapSequence_run e s)) strings) k
        = Some (Some r))
  /\ ((forall r, In r strings -> hasOwnProperty (unicode_map e) r = false) ->
      mapSequence h e strings 0 = Some (sequencePattern h (map Some strings)))
  /\ (forall str,
        multi_char_reg e (asciifold h str) = None ->
        (forall r, In r (Array_from (asciifold h str)) ->
                   hasOwnProperty (unicode_map e) r = false) ->
        getPattern h e str
        = Some (sequencePattern h (map Some (Array_from (asciifold h str))))).
Proof.
  repeat split.
  - intros p Hp. unfold mapSequence in Hp.
    destruct (min_replacement <=? chars_replaced e strings); [|discriminate].
    now injection Hp as <-.
  - intros k r Hk Habs. rewrite nth_error_map, Hk. simpl.
    now rewrite mapSequence_run_absent.
  - intro Habs. rewrite mapSequence_zero. now rewrite map_run_absent.
  - intros str Hno Habs. unfold getPattern. rewrite Hno.
    rewrite mapSequence_zero. now rewrite map_run_absent.
Qed.

Lemma mapSequence_unmapped_runs_verbatim_witness :
  getPattern Model.host Model.roman_engine (ustr "a.b(") = Some (ustr "a.b(").
Proof.
  apply (proj2 (proj2 (proj2
    (mapSequence_unmapped_runs_verbatim Model.host Model.roman_engine [] 0)))
    (ustr "a.b(")).
  - vm_compute. reflexivity.
  - intros r Hr. vm_compute in Hr.
    repeat (destruct Hr as [<- | Hr]; [vm_compute; reflexivity|]). contradiction.
Defined.

(** C5. [substringsToPattern(str, min_replacement)] maps every partition
    with the minimum [max(min_replacement, str.length - 1)]: a partition
    contributes its pattern exactly when its replaced characters reach that
    minimum (and its pattern is not the empty string). When no partition
    reaches it the result is nothing; this is the case as soon as no piece
    of any partition is in the map and the minimum is positive. *)
Theorem substringsToPattern_effective_minimum (h : Host) (e : Engine)
  (str : jsstring) (min_replacement : Z) :
  (forall pat,
     In pat (substringsToPattern_patterns h e str
               (Z.max min_replacement (strlen str - 1))) <->
     exists sub_pat, In sub_pat (allSubstrings h str)
       /\ Z.max min_replacement (strlen str - 1) <= chars_replaced e sub_pat
       /\ pat = sequencePattern h (map (fun s => Some (mapSequence_run e s)) sub_pat)
       /\ pat <> [])
  /\ (substringsToPattern h e str min_replacement
      = match substringsToPattern_patterns h e str
                (Z.max min_replacement (strlen str - 1)) with
        | [] => None
        | patterns => arrayToPattern h patterns
        end)
  /\ ((forall sub_pat, In sub_pat (allSubstrings h str) ->
         chars_replaced e sub_pat < Z.max min_replacement (strlen str - 1)) ->
      substringsToPattern h e str min_replacement = None)
  /\ ((forall sub_pat r, In sub_pat (allSubstrings h str) -> In r sub_pat ->
         hasOwnProperty (unicode_map e) r = false) ->
      0 < Z.max min_replacement (strlen str - 1) ->
      substringsToPattern h e str min_replacement = None).
Proof.
  assert (Hnone : (forall sub_pat, In sub_pat (allSubstrings h str) ->
         chars_replaced e sub_pat < Z.max min_replacement (strlen str - 1)) ->
      substringsToPattern h e str min_replacement = None).
  { intro Hlow. unfold substringsToPattern.
    destruct (substringsToPattern_patterns h e str _) as [|pat l] eqn:E;
      [reflexivity|].
    assert (Hin : In pat (substringsToPattern_patterns h e str
                            (Z.max min_replacement (strlen str - 1))))
      by (rewrite E; now left).
    apply In_substringsToPattern_patterns in Hin as (sp & Hsp & Hm & _).
    specialize (Hlow sp Hsp). lia. }
  repeat split.
  - now apply In_substringsToPattern_patterns.
  - now apply In_substringsToPattern_patterns.
  - unfold substringsToPattern.
    destruct (substringsToPattern_patterns h e str _); reflexivity.
  - exact Hnone.
  - intros Habs Hpos. apply Hnone. intros sp Hsp.
    rewrite chars_replaced_absent; [assumption|].
    intros r Hr. now apply (Habs sp).
Qed.

Lemma substringsToPattern_effective_minimum_witness :
  substringsToPattern Model.host Model.roman_engine (ustr "abc") 1 = None.
Proof.
  apply (proj2 (proj2 (proj2
    (substringsToPattern_effective_minimum Model.host Model.roman_engine
       (ustr "abc") 1)))).
  - intros sp r Hsp Hr. vm_compute in Hsp.
    repeat (destruct Hsp as [<- | Hsp];
            [repeat (destruct Hr as [<- | Hr]; [vm_compute; reflexivity|]);
             contradiction|]).
    contradiction.
  - vm_compute. reflexivity.
Defined.

Lemma roman_engine_keys (run : jsstring) :
  hasOwnProperty (unicode_map Model.roman_engine) run = true -> In 105 run.
Proof.
  unfold hasOwnProperty.
  let m := eval vm_compute in (unicode_map Model.roman_engine) in
  change (unicode_map Model.roman_engine) with m.
  cbn [obj_get].
  repeat match goal with
         | |- context [if str_eqb run ?k then _ else _] =>
             let E := fresh "E" in
             destruct (str_eqb run k) eqn:E;
             [apply str_eqb_eq in E; subst run; intros _; now left|]
         end.
  intro H. discriminate H.
Qed.

(** C1 as stated fails: the input [xyz123] has no run in the map built from
    the roman numerals, and [getPattern] returns the pattern [xyz123]. *)
Lemma no_variant_still_returns_pattern :
  ~ no_variant_returns_nothing Model.host Model.roman_engine (ustr "xyz123").
Proof.
  intro H.
  assert (Hsome : getPattern Model.host Model.roman_engine (ustr "xyz123")
                  = Some (ustr "xyz123")) by (vm_compute; reflexivity).
  rewrite H in Hsome; [discriminate|].
  intros before run after Hsplit.
  destruct (hasOwnProperty (unicode_map Model.roman_engine) run) eqn:E;
    [|reflexivity].
  apply roman_engine_keys in E.
  assert (Hin : In 105 (asciifold Model.host (ustr "xyz123"))).
  { rewrite Hsplit. apply in_app_iff. right. apply in_app_iff. now left. }
  vm_compute in Hin. intuition discriminate.
Qed.

(** ** The sequence matcher *)

Lemma Sequence_last_add (q : Sequence) (p : Part) :
  Sequence_last (Sequence_add q p) = Some p.
Proof.
  unfold Sequence_last, Sequence_add. simpl.
  rewrite length_app. simpl.
  replace (List.length (parts q) + 1 - 1)%nat with (List.length (parts q)) by lia.
  rewrite nth_error_app2 by lia. now rewrite Nat.sub_diag.
Qed.

Lemma parts_fold_add (l : list Part) (q : Sequence) :
  parts (fold_left Sequence_add l q) = parts q ++ l.
Proof.
  revert q. induction l as [|p l IH]; intro q; simpl.
  - now rewrite app_nil_r.
  - rewrite IH. simpl. now rewrite <- app_assoc.
Qed.

Lemma Sequence_clone_Some (q : Sequence) (i : Z) (lp : Part) :
  Sequence_last q = Some lp ->
  Sequence_clone q i lp
  = Some (Sequence_add (fold_left Sequence_add (removelast (parts q)) Sequence_new)
            (mkPart (part_start lp)
                    (part_start lp
                     + strlen (substring (part_substr lp) 0 (i - part_start lp)))
                    (strlen (substring (part_substr lp) 0 (i - part_start lp)))
                    (substring (part_substr lp) 0 (i - part_start lp)))).
Proof.
  unfold Sequence_last, Sequence_clone. intros ->. reflexivity.
Qed.

Lemma substring_prefix (s : jsstring) (n : Z) :
  0 <= n <= strlen s ->
  substring s 0 n = firstn (Z.to_nat n) s /\ strlen (substring s 0 n) = n.
Proof.
  intro Hn. unfold substring, strlen in *.
  replace (Z.min (Z.max 0 0) (Z.of_nat (List.length s))) with 0 by lia.
  replace (Z.min (Z.max n 0) (Z.of_nat (List.length s))) with n by lia.
  change (Z.to_nat 0) with 0%nat.
  rewrite Nat.min_0_l, Nat.max_0_l, Nat.sub_0_r. simpl skipn.
  split; [reflexivity|]. rewrite length_firstn. lia.
Qed.

(** In the overlap branch the clone is [overlap_clone]: its last part ends
    exactly at the scan position. *)
Lemma Sequence_clone_overlap (q : Sequence) (i : Z) (lp : Part) (text : jsstring) :
  Sequence_last q = Some lp ->
  part_start lp <= i < part_end lp ->
  part_end lp = part_start lp + strlen (part_substr lp) ->
  exists clone, Sequence_clone q i lp = Some clone
                /\ Sequence_add clone (match_part i text) = overlap_clone q lp i text.
Proof.
  intros Hlast Hi Hwf. rewrite (Sequence_clone_Some q i Hlast).
  eexists. split; [reflexivity|].
  destruct (@substring_prefix (part_substr lp) (i - part_start lp)) as [Hs Hl];
    [lia|].
  unfold overlap_clone, truncate_part. rewrite Hl, Hs.
  replace (part_start lp + (i - part_start lp)) with i by lia. reflexivity.
Qed.

Section Visit.

Variable i : Z.
Variable mtch : option jsstring.
Variable char : jsstring.

Lemma visit_sequence_split (v : Visit) (q : Sequence) :
  visited (visit_sequence i mtch char v q) = visited v ++ [visit_update i mtch char q]
  /\ overlapping (visit_sequence i mtch char v q)
     = overlapping v ++ visit_clones i mtch q
  /\ added_types (visit_sequence i mtch char v q)
     = match visit_type i mtch char q with
       | Some t => Set_add (added_types v) t
       | None => added_types v
       end.
Proof.
  unfold visit_sequence, visit_update, visit_clones, visit_type, new_part, new_type.
  destruct (can_extend (Sequence_last q) i) eqn:Ec.
  - destruct mtch; simpl; rewrite app_nil_r; auto.
  - destruct mtch as [text|]; [|simpl; rewrite app_nil_r; auto].
    destruct (Sequence_last q) as [lp|] eqn:El; [|simpl; rewrite app_nil_r; auto].
    assert (Hq : Sequence_last q = Some lp) by exact El.
    rewrite (Sequence_clone_Some q i Hq). simpl. auto.
Qed.

Lemma visit_fold (l : list Sequence) :
  forall v,
    visited (fold_left (visit_sequence i mtch char) l v)
    = visited v ++ map (visit_update i mtch char) l
    /\ overlapping (fold_left (visit_sequence i mtch char) l v)
       = overlapping v ++ flat_map (visit_clones i mtch) l
    /\ (forall t, In t (added_types (fold_left (visit_sequence i mtch char) l v)) <->
                  In t (added_types v)
                  \/ exists q, In q l /\ visit_type i mtch char q = Some t).
Proof.
  induction l as [|q l IH]; intro v; simpl.
  - rewrite !app_nil_r. repeat split; auto.
    intros [H | (q & [] & _)]. exact H.
  - destruct (IH (visit_sequence i mtch char v q)) as (Hv & Ho & Ht).
    destruct (visit_sequence_split v q) as (Ev & Eo & Et).
    rewrite Hv, Ho, Ev, Eo, <- !app_assoc. repeat split; auto.
    + intro H. apply Ht in H as [H | (q' & Hq' & Hty)].
      * rewrite Et in H. destruct (visit_type i mtch char q) as [t'|] eqn:Eq.
        -- apply Set_add_In in H as [H | ->]; [now left|].
           right. exists q. auto.
        -- now left.
      * right. exists q'. auto.
    + intro H. apply Ht. rewrite Et. destruct H as [H | (q' & [<- | Hq'] & Hty)].
      * left. destruct (visit_type i mtch char q); [|assumption].
        apply Set_add_In. now left.
      * left. rewrite Hty. apply Set_add_has.
      * right. exists q'. auto.
Qed.

Lemma visit_all_spec (l : list Sequence) :
  visited (visit_all i mtch char l) = map (visit_update i mtch char) l
  /\ overlapping (visit_all i mtch char l) = flat_map (visit_clones i mtch) l
  /\ (forall t, In t (added_types (visit_all i mtch char l)) <->
                exists q, In q l /\ visit_type i mtch char q = Some t).
Proof.
  unfold visit_all. destruct (visit_fold l (mkVisit [] [] [])) as (Hv & Ho & Ht).
  simpl in *. repeat split; try assumption.
  - intro H. apply Ht in H as [[] | H]. exact H.
  - intro H. apply Ht. now right.
Qed.

(** A sequence that is neither cloned nor marked [not-adding] is extended. *)
Lemma visit_extends (q : Sequence) :
  visit_clones i mtch q = [] ->
  visit_type i mtch char q <> Some not_adding ->
  can_extend (Sequence_last q) i = true.
Proof.
  unfold visit_clones, visit_type.
  destruct (can_extend (Sequence_last q) i); [reflexivity|].
  destruct mtch as [text|]; [|intros _ H; now contradiction H].
  destruct (Sequence_last q) as [lp|] eqn:El; [|intros _ H; now contradiction H].
  assert (Hq : Sequence_last q = Some lp) by exact El.
  rewrite (Sequence_clone_Some q i Hq). discriminate.
Qed.

End Visit.

Lemma In_insert_by_length (x y : Sequence) (l : list Sequence) :
  In y (insert_by_length x l) <-> y = x \/ In y l.
Proof.
  induction l as [|z l IH]; simpl.
  - intuition congruence.
  - destruct (Sequence_length x <=? Sequence_length z); simpl; rewrite ?IH;
      intuition congruence.
Qed.

Lemma In_sort_by_length (y : Sequence) (l : list Sequence) :
  In y (sort_by_length l) <-> In y l.
Proof.
  unfold sort_by_length. induction l as [|x l IH]; simpl; [tauto|].
  rewrite In_insert_by_length, IH. intuition congruence.
Qed.

Lemma push_clones_incl (clones seqs : list Sequence) :
  incl seqs (push_clones seqs clones).
Proof.
  unfold push_clones. revert seqs. induction clones as [|c clones IH];
    intro seqs; simpl; [apply incl_refl|].
  destruct (inSequences c seqs); [apply IH|].
  intros x Hx. apply IH. apply in_app_iff. now left.
Qed.

Lemma push_clones_clone (clones seqs : list Sequence) (c : Sequence) :
  In c clones ->
  In c (push_clones seqs clones)
  \/ exists live, incl live (push_clones seqs clones) /\ inSequences c live = true.
Proof.
  unfold push_clones. revert seqs. induction clones as [|d clones IH];
    intros seqs Hc; simpl; [contradiction|].
  destruct Hc as [-> | Hc].
  - destruct (inSequences c seqs) eqn:E.
    + right. exists seqs. split; [apply push_clones_incl | assumption].
    + left. apply (push_clones_incl clones (seqs ++ [c])).
      apply in_app_iff. right. now left.
  - now apply IH.
Qed.

(** C6 as stated fails: on [iiii], with the keys [ii] and [iii], the
    sequence [i, iii] is cloned at position 2 into [i, i, ii], and the clone
    is dropped: [ii, ii], queued before it, already covers the same text. *)
Lemma overlap_clone_dropped :
  ~ overlap_clone_always_kept Model.host Model.roman_engine (ustr "iiii")
      (scan_until Model.host Model.roman_engine (ustr "iiii") 2) 2.
Proof.
  intro H.
  destruct (H (mkSequence [mkPart 0 1 1 (ustr "i"); mkPart 1 4 3 (ustr "iii")]
                          [ustr "i"; ustr "iii"] 0 4)
              (mkPart 1 4 3 (ustr "iii")) (ustr "ii")) as [_ Hin].
  - vm_compute. right. now left.
  - reflexivity.
  - simpl. lia.
  - simpl. lia.
  - vm_compute. reflexivity.
  - vm_compute in Hin. intuition discriminate.
Qed.

(** ** The model host meets the contract of the map builder *)

Module ModelProperties.

Import Model.

Lemma Array_from_cons (c : code_unit) (rest : jsstring) :
  is_high_surrogate c
  && match rest with d :: _ => is_low_surrogate d | [] => false end = false ->
  Array_from (c :: rest) = [c] :: Array_from rest.
Proof.
  destruct rest as [|d rest]; simpl; [reflexivity|]. now intros ->.
Qed.

Lemma Array_from_pair (c d : code_unit) (rest : jsstring) :
  is_high_surrogate c = true -> is_low_surrogate d = true ->
  Array_from (c :: d :: rest) = [c; d] :: Array_from rest.
Proof. intros Hc Hd. simpl. now rewrite Hc, Hd. Qed.

Lemma syntax_char_ascii (c : code_unit) :
  is_syntax_char c = true -> 0 <= c < 128.
Proof.
  unfold is_syntax_char. simpl. intro H.
  repeat (apply orb_true_iff in H as [H | H];
          [apply Z.eqb_eq in H; subst; lia|]).
  discriminate.
Qed.

Lemma ascii_not_surrogate (c : code_unit) :
  0 <= c < 128 -> is_high_surrogate c = false /\ is_low_surrogate c = false.
Proof.
  intro H. unfold is_high_surrogate, is_low_surrogate. split;
    apply andb_false_iff; left; apply Z.leb_gt; lia.
Qed.

Lemma low_surrogate_not_syntax (d : code_unit) :
  is_low_surrogate d = true -> is_syntax_char d = false.
Proof.
  intro H. destruct (is_syntax_char d) eqn:E; [|reflexivity].
  apply syntax_char_ascii, ascii_not_surrogate in E. destruct E. congruence.
Qed.

Lemma option_map_app_nil {A} (o : option (list A)) : option_map (app []) o = o.
Proof. now destruct o. Qed.

Lemma option_map_cons_app {A} (a : A) (l : list A) (o : option (list A)) :
  option_map (cons a) (option_map (app l) o) = option_map (app (a :: l)) o.
Proof. now destruct o. Qed.

Lemma escape_head (y b : jsstring) :
  no_low_head b ->
  match escape_regex y ++ b with
  | d :: _ =>
      is_low_surrogate d
      = match y with d' :: _ => is_low_surrogate d' | [] => false end
  | [] => True
  end.
Proof.
  intro Hb. destruct y as [|d y]; simpl.
  - destruct b; [exact I | exact Hb].
  - destruct (is_syntax_char d) eqn:E; simpl; [|reflexivity].
    apply syntax_char_ascii, ascii_not_surrogate in E. now destruct E as [_ ->].
Qed.

(** The tokens of an escaped literal are its code points. *)
Lemma tokenize_escape_bounded (n : nat) :
  forall y b, (List.length y <= n)%nat -> no_low_head b ->
    tokenize (Array_from (escape_regex y ++ b))
    = option_map (app (map T_lit (Array_from y))) (tokenize (Array_from b)).
Proof.
  induction n as [|n IH]; intros y b Hlen Hb.
  - destruct y; [|simpl in Hlen; lia]. simpl. now rewrite option_map_app_nil.
  - destruct y as [|c y]; [simpl; now rewrite option_map_app_nil|].
    simpl in Hlen. destruct (is_syntax_char c) eqn:Ec.
    + (* an escaped syntax character *)
      pose proof (ascii_not_surrogate (syntax_char_ascii c Ec)) as [Hh _].
      change (escape_regex (c :: y)) with
        ((if is_syntax_char c then [92; c] else [c]) ++ escape_regex y).
      rewrite Ec. cbn [app].
      rewrite (Array_from_cons 92) by reflexivity.
      rewrite (Array_from_cons c) by (now rewrite Hh).
      rewrite (Array_from_cons c) by (now rewrite Hh).
      cbn [tokenize]. change (is_syntax_char 92) with true.
      change (92 =? 92) with true. cbv iota. rewrite Ec. cbn [orb].
      rewrite IH by (assumption || lia).
      cbn [map]. apply option_map_cons_app.
    + change (escape_regex (c :: y)) with
        ((if is_syntax_char c then [92; c] else [c]) ++ escape_regex y).
      rewrite Ec. cbn [app].
      destruct (is_high_surrogate c
                && match y with d :: _ => is_low_surrogate d | [] => false end)
        eqn:Epair.
      * (* a surrogate pair *)
        apply andb_true_iff in Epair as [Hh Hl].
        destruct y as [|d y]; [discriminate|].
        pose proof (low_surrogate_not_syntax d Hl) as Ed.
        change (escape_regex (d :: y)) with
          ((if is_syntax_char d then [92; d] else [d]) ++ escape_regex y).
        rewrite Ed. cbn [app].
        rewrite !Array_from_pair by assumption.
        cbn [tokenize map]. simpl in Hlen.
        rewrite IH by (assumption || lia).
        apply option_map_cons_app.
      * (* a code point of one unit *)
        rewrite (Array_from_cons c y) by exact Epair.
        rewrite (Array_from_cons c (escape_regex y ++ b)).
        -- cbn [tokenize map]. rewrite Ec.
           rewrite IH by (assumption || lia).
           apply option_map_cons_app.
        -- pose proof (@escape_head y b Hb) as Hhead.
           destruct (escape_regex y ++ b) as [|d rest];
             [apply andb_false_r|].
           now rewrite Hhead.
Qed.

Lemma tokenize_escape (y b : jsstring) :
  no_low_head b ->
  tokenize (Array_from (escape_regex y ++ b))
  = option_map (app (map T_lit (Array_from y))) (tokenize (Array_from b)).
Proof. apply (tokenize_escape_bounded (n := List.length y)). lia. Qed.

Lemma tokenize_bar (rest : list jsstring) :
  tokenize ([124] :: rest) = option_map (cons T_bar) (tokenize rest).
Proof. reflexivity. Qed.

Lemma tokenize_alternatives (ys : list jsstring) :
  ys <> [] ->
  forall b, no_low_head b ->
    tokenize (Array_from (join (ustr "|") (map escape_regex ys) ++ b))
    = option_map (app (alt_tokens ys)) (tokenize (Array_from b)).
Proof.
  induction ys as [|y ys IH]; intros Hne b Hb; [contradiction|].
  destruct ys as [|y2 rest].
  - simpl. now apply tokenize_escape.
  - change (join (ustr "|") (map escape_regex (y :: y2 :: rest)))
      with (escape_regex y ++ [124] ++ join (ustr "|") (map escape_regex (y2 :: rest))).
    rewrite <- !app_assoc.
    rewrite tokenize_escape by reflexivity.
    cbn [app]. rewrite (Array_from_cons 124) by reflexivity.
    rewrite tokenize_bar, IH by (assumption || discriminate).
    change (alt_tokens (y :: y2 :: rest))
      with (lits y ++ T_bar :: alt_tokens (y2 :: rest)).
    destruct (tokenize (Array_from b)); simpl; [|reflexivity].
    unfold lits. now rewrite <- app_assoc.
Qed.

Lemma tokenize_anchored (ys : list jsstring) :
  ys <> [] ->
  tokenize (Array_from (anchored (setToPattern (map escape_regex ys))))
  = Some (T_bol :: T_open :: alt_tokens ys ++ [T_close; T_eol]).
Proof.
  intro Hne.
  assert (Hp : anchored (setToPattern (map escape_regex ys))
               = 94 :: 40 :: 63 :: 58
                 :: (join (ustr "|") (map escape_regex ys) ++ [41; 36])).
  { destruct ys as [|y ys]; [contradiction|].
    unfold anchored, setToPattern, arrayToPattern. cbn [map to_string].
    change (ustr "^") with [94]. change (ustr "(?:") with [40; 63; 58].
    change (ustr ")") with [41]. change (ustr "$") with [36].
    cbn [app]. now rewrite <- app_assoc. }
  rewrite Hp.
  rewrite (Array_from_cons 94), (Array_from_cons 40), (Array_from_cons 63),
    (Array_from_cons 58) by reflexivity.
  change (tokenize ([94] :: [40] :: [63] :: [58]
                    :: Array_from (join (ustr "|") (map escape_regex ys) ++ [41; 36])))
    with (option_map (cons T_bol) (option_map (cons T_open)
            (tokenize
               (Array_from (join (ustr "|") (map escape_regex ys) ++ [41; 36]))))).
  rewrite tokenize_alternatives by (assumption || reflexivity).
  reflexivity.
Qed.

Lemma parse_lits (cps : list jsstring) :
  forall f above,
    exists q,
      fold_left parse_token (map T_lit cps) (Some (f :: above))
      = Some (mkFrame (alts f) (cur f ++ map Re_lit cps) q :: above).
Proof.
  induction cps as [|cp cps IH]; intros f above.
  - exists (quantifiable f). simpl. rewrite app_nil_r. now destruct f.
  - destruct (IH (push_term f (Re_lit cp) true) above) as (q & Hq).
    exists q. simpl. simpl in Hq. rewrite Hq. now rewrite <- app_assoc.
Qed.

Lemma parse_alternatives (ys : list jsstring) :
  ys <> [] ->
  forall done above,
    exists q,
      fold_left parse_token (alt_tokens ys) (Some (mkFrame done [] false :: above))
      = Some (mkFrame (done ++ map lit_seq (removelast ys))
                      (map Re_lit (Array_from (last ys []))) q :: above).
Proof.
  induction ys as [|y ys IH]; intros Hne done above; [contradiction|].
  destruct ys as [|y2 rest].
  - destruct (parse_lits (Array_from y) (mkFrame done [] false) above) as (q & Hq).
    exists q. simpl. simpl in Hq. unfold lits. rewrite Hq. now rewrite app_nil_r.
  - change (alt_tokens (y :: y2 :: rest))
      with (lits y ++ T_bar :: alt_tokens (y2 :: rest)).
    rewrite fold_left_app.
    destruct (parse_lits (Array_from y) (mkFrame done [] false) above) as (q & Hq).
    unfold lits at 1. rewrite Hq. cbn [fold_left parse_token alts cur app].
    destruct (IH ltac:(discriminate) (done ++ [seq_of (map Re_lit (Array_from y))]) above)
      as (q' & Hq').
    exists q'. rewrite Hq'.
    change (removelast (y :: y2 :: rest)) with (y :: removelast (y2 :: rest)).
    change (last (y :: y2 :: rest) []) with (last (y2 :: rest) []).
    cbn [map]. now rewrite <- app_assoc.
Qed.

Lemma parse_anchored (ys : list jsstring) :
  ys <> [] ->
  parse (T_bol :: T_open :: alt_tokens ys ++ [T_close; T_eol])
  = Some (seq_of [Re_bol; alt_of (map lit_seq ys); Re_eol]).
Proof.
  intro Hne. unfold parse. cbn [fold_left parse_token].
  unfold push_term at 1. cbn [alts cur app].
  rewrite fold_left_app.
  destruct (parse_alternatives Hne [] [mkFrame [] [Re_bol] false]) as (q & Hq).
  rewrite Hq. cbn [fold_left parse_token].
  unfold push_term, close_frame. cbn [alts cur app].
  change (seq_of (map Re_lit (Array_from (last ys [])))) with (lit_seq (last ys [])).
  replace (map lit_seq (removelast ys) ++ [lit_seq (last ys [])])
    with (map lit_seq ys); [reflexivity|].
  rewrite (app_removelast_last [] Hne) at 1. now rewrite map_app.
Qed.

Lemma lits_match_refl (ci : bool) (cps : list jsstring) :
  lits_match ci cps cps = Some [].
Proof.
  induction cps as [|cp cps IH]; simpl; [reflexivity|].
  unfold cp_eqb. now rewrite str_eqb_refl.
Qed.

Lemma lits_match_short (ci : bool) (cps inp : list jsstring) :
  (List.length inp < List.length cps)%nat -> lits_match ci cps inp = None.
Proof.
  revert inp. induction cps as [|cp cps IH]; intros inp Hlen; simpl in *; [lia|].
  destruct inp as [|c inp]; [reflexivity|].
  destruct (cp_eqb ci cp c); [|reflexivity]. apply IH. simpl in Hlen. lia.
Qed.

Lemma re_match_lits (ci : bool) (tl : list re) (cps : list jsstring) :
  forall pos inp,
    re_match ci (seq_of (map Re_lit cps ++ tl)) (pos, inp)
    = match lits_match ci cps inp with
      | Some rest => re_match ci (seq_of tl) ((pos + List.length cps)%nat, rest)
      | None => []
      end.
Proof.
  induction cps as [|cp cps IH]; intros pos inp.
  - simpl lits_match. simpl List.length. now rewrite Nat.add_0_r.
  - change (seq_of (map Re_lit (cp :: cps) ++ tl))
      with (Re_seq (Re_lit cp) (seq_of (map Re_lit cps ++ tl))).
    cbn [re_match lits_match snd fst].
    destruct inp as [|c inp]; [reflexivity|].
    destruct (cp_eqb ci cp c); [|reflexivity].
    cbn [flat_map]. rewrite app_nil_r, IH.
    cbn [List.length]. now rewrite Nat.add_succ_r.
Qed.

Lemma re_match_lit_seq (ci : bool) (y : jsstring) (pos : nat) (inp : list jsstring) :
  re_match ci (lit_seq y) (pos, inp)
  = match lits_match ci (Array_from y) inp with
    | Some rest => [((pos + List.length (Array_from y))%nat, rest)]
    | None => []
    end.
Proof.
  unfold lit_seq.
  rewrite <- (app_nil_r (map Re_lit (Array_from y))). now rewrite re_match_lits.
Qed.

Lemma In_re_match_alt_of (ci : bool) (l : list re) (st st' : mstate) :
  l <> [] ->
  (In st' (re_match ci (alt_of l) st) <->
   exists r, In r l /\ In st' (re_match ci r st)).
Proof.
  induction l as [|a l IH]; intro Hne; [contradiction|].
  destruct l as [|b l].
  - simpl. split.
    + intro H. exists a. auto.
    + intros (r & [<- | []] & H). exact H.
  - change (alt_of (a :: b :: l)) with (Re_alt a (alt_of (b :: l))).
    cbn [re_match]. rewrite in_app_iff, IH by discriminate. split.
    + intros [H | (r & Hr & H)].
      * exists a. split; [now left | assumption].
      * exists r. split; [now right | assumption].
    + intros (r & [<- | Hr] & H); [now left|]. right. exists r. auto.
Qed.

Lemma re_match_bol (ci : bool) (r : re) (pos : nat) (inp : list jsstring) :
  re_match ci (Re_seq Re_bol r) (pos, inp)
  = if Nat.eqb pos 0 then re_match ci r (pos, inp) else [].
Proof.
  cbn [re_match fst]. destruct (Nat.eqb pos 0); cbn [flat_map];
    [apply app_nil_r | reflexivity].
Qed.

Lemma In_re_match_until_eol (ci : bool) (g : re) (st st' : mstate) :
  In st' (re_match ci (seq_of [g; Re_eol]) st) <->
  snd st' = [] /\ In st' (re_match ci g st).
Proof.
  unfold seq_of. cbn [fold_right re_match]. rewrite in_flat_map. split.
  - intros (m & Hm & H). apply in_flat_map in H as (m' & Hm' & H).
    destruct (snd m) eqn:E; [|contradiction].
    destruct Hm' as [<- | []]. destruct H as [<- | []]. auto.
  - intros [Hnil H]. exists st'. split; [assumption|].
    apply in_flat_map. exists st'. rewrite Hnil. split; now left.
Qed.

Lemma search_after_start (ci : bool) (r : re) (inp : list jsstring) :
  forall pos index, search ci (Re_seq Re_bol r) (S pos) index inp = None.
Proof.
  induction inp as [|c inp IH]; intros pos index; cbn [search];
    rewrite re_match_bol; cbn [Nat.eqb]; [reflexivity | apply IH].
Qed.

Lemma search_anchored (ci : bool) (r : re) (inp : list jsstring) :
  search ci (Re_seq Re_bol r) 0 0 inp <> None <->
  re_match ci r (0%nat, inp) <> [].
Proof.
  destruct inp as [|c inp]; cbn [search]; rewrite re_match_bol;
    cbn [Nat.eqb].
  - destruct (re_match ci r (0%nat, [])) as [|[p rest] l]; split; intro H;
      congruence.
  - destruct (re_match ci r (0%nat, c :: inp)) as [|[p rest] l].
    + rewrite search_after_start. split; intro H; congruence.
    + split; intro H; congruence.
Qed.

Lemma RegExp_iu (p : jsstring) (ts : list token) (r : re) :
  tokenize (Array_from p) = Some ts -> parse ts = Some r ->
  RegExp (Some p) flags_iu
  = Some (fun subject => search true r 0 0 (Array_from subject)).
Proof. intros Ht Hp. unfold RegExp. rewrite Ht, Hp. reflexivity. Qed.

Lemma Array_from_length_bounded (n : nat) :
  forall x, (List.length x <= n)%nat ->
            (List.length (Array_from x) <= List.length x)%nat.
Proof.
  induction n as [|n IH]; intros x Hlen.
  - destruct x; [simpl; lia | simpl in Hlen; lia].
  - destruct x as [|c x]; [simpl; lia|].
    destruct x as [|d x]; [simpl; lia|].
    simpl in Hlen. cbn [Array_from].
    destruct (is_high_surrogate c && is_low_surrogate d).
    + cbn [List.length]. specialize (IH x ltac:(lia)). lia.
    + cbn [List.length]. specialize (IH (d :: x) ltac:(simpl; lia)).
      simpl in IH. lia.
Qed.

Lemma escaped_set_literals (set : list jsstring) :
  escaped_set host set -> exists ys, set = map escape_regex ys.
Proof.
  induction set as [|e set IH]; intro H.
  - now exists [].
  - destruct (H e (or_introl eq_refl)) as (y & ->).
    destruct IH as (ys & ->); [intros e' He'; apply H; now right|].
    now exists (y :: ys).
Qed.

Lemma escape_regex_code_points (y y' : jsstring) :
  escape_regex y = escape_regex y' -> Array_from y = Array_from y'.
Proof.
  intro H.
  pose proof (@tokenize_escape y [] I) as Hy.
  pose proof (@tokenize_escape y' [] I) as Hy'.
  rewrite H in Hy. rewrite Hy in Hy'. simpl in Hy'.
  rewrite !app_nil_r in Hy'. injection Hy' as Hy'.
  revert Hy'. generalize (Array_from y) (Array_from y').
  induction l as [|a l IH]; intros [|b l'] Hl; simpl in Hl;
    try discriminate; [reflexivity|].
  injection Hl as -> Hl. f_equal. now apply IH.
Qed.

(** On the model host the anchored alternation of a set of escaped
    literals matches what is one of the literals up to case. *)
Lemma model_alternation_similar (set : list jsstring) :
  escaped_set host set ->
  exists r,
    RegExp (Some (anchored (setToPattern set))) flags_iu = Some r /\
    forall x, 0 < strlen x <= max_char_length ->
      (r x <> None <-> exists y, In (escape_regex y) set /\ similar y x).
Proof.
  intros Hesc. destruct (escaped_set_literals Hesc) as (ys & ->).
  destruct ys as [|y0 ys'].
  - (* the empty set: the pattern is [^undefined$] *)
    eexists. split.
    + apply (@RegExp_iu _
               (T_bol :: map T_lit (Array_from (ustr "undefined")) ++ [T_eol])
               (Re_seq Re_bol
                  (seq_of (map Re_lit (Array_from (ustr "undefined")) ++ [Re_eol]))));
        reflexivity.
    + intros x Hx. cbv beta. rewrite search_anchored, re_match_lits.
      rewrite lits_match_short.
      * split; [intro H; now contradiction H | intros (y & [] & _)].
      * pose proof (@Array_from_length_bounded (List.length x) x (le_n _)).
        unfold max_char_length, strlen in Hx.
        change (List.length (Array_from (ustr "undefined"))) with 9%nat. lia.
  - set (ys := y0 :: ys'). assert (Hne : ys <> []) by discriminate.
    eexists. split.
    + apply (RegExp_iu _ (tokenize_anchored Hne) (parse_anchored Hne)).
    + intros x _. cbv beta.
      change (seq_of [Re_bol; alt_of (map lit_seq ys); Re_eol])
        with (Re_seq Re_bol (seq_of [alt_of (map lit_seq ys); Re_eol])).
      rewrite search_anchored.
      assert (Hmap : map lit_seq ys <> []) by discriminate.
      split.
      * intro H.
        destruct (re_match true (seq_of [alt_of (map lit_seq ys); Re_eol])
                    (0%nat, Array_from x)) as [|st' l] eqn:E; [congruence|].
        assert (Hin : In st' (re_match true
                        (seq_of [alt_of (map lit_seq ys); Re_eol])
                        (0%nat, Array_from x))) by (rewrite E; now left).
        apply In_re_match_until_eol in Hin as [Hnil Hin].
        apply (In_re_match_alt_of true _ _ Hmap) in Hin as (r & Hr & Hin).
        apply in_map_iff in Hr as (y & <- & Hy).
        rewrite re_match_lit_seq in Hin.
        destruct (lits_match true (Array_from y) (Array_from x)) as [rest|] eqn:El;
          [|contradiction].
        destruct Hin as [<- | []]. simpl in Hnil. subst rest.
        exists y. split; [now apply in_map | exact El].
      * intros (y & Hy & Hsim). apply in_map_iff in Hy as (y' & Heq & Hy').
        apply escape_regex_code_points in Heq.
        assert (Hin : In ((0 + List.length (Array_from y'))%nat, [])
                         (re_match true (seq_of [alt_of (map lit_seq ys); Re_eol])
                                   (0%nat, Array_from x))).
        { apply In_re_match_until_eol. split; [reflexivity|].
          apply (In_re_match_alt_of true _ _ Hmap).
          exists (lit_seq y'). split; [now apply in_map|].
          rewrite re_match_lit_seq. unfold similar in Hsim.
          rewrite Heq, Hsim. now left. }
        intro Hnone. rewrite Hnone in Hin. contradiction.
Qed.

(** The model host meets the contract of the map builder. *)
Lemma model_alternation_contract : alternation_contract host.
Proof.
  exists similar. split.
  - intro x. apply lits_match_refl.
  - exact model_alternation_similar.
Qed.

End ModelProperties.

(** C8. For every key of the map built from the ranges, the set the
    fragment is compiled from starts with the escaped key: [addMatching]
    registers the folded form before it considers the composed character.
    A candidate that changes the sets was not matched by the anchored,
    case-insensitive alternation in place. Hence the fragment of a key
    matches the key, and it matches every character the generator yields
    with that key as its fold. *)
Theorem map_fragment_matches_key_and_variants (h : Host)
  (code_points : list (Z * Z)) (e : Engine) (k : jsstring) (fragment : js_val) :
  alternation_contract h ->
  generateMap h code_points = Some e ->
  obj_get (unicode_map e) k = Some fragment ->
  (exists sets set,
     generateSets h code_points = Some sets
     /\ obj_get sets k = Some set
     /\ fragment = setToPattern h set
     /\ hd_error set = Some (escape_regex h k))
  /\ (forall sets0 x sets1,
        addMatching h sets0 k x = Some sets1 -> sets1 <> sets0 ->
        ~ fragment_matches h (setToPattern h (set_of sets0 k)) x)
  /\ fragment_matches h fragment k
  /\ (forall v, In v (generator h code_points) -> folded v = k ->
                fragment_matches h fragment (composed v)).
Proof.
  intros (sim & Hrefl & Hcompiles) He Hk.
  destruct (@generateMap_keys h sim Hrefl Hcompiles code_points e k fragment He Hk)
    as (sets & s & Hsets & [Hkeys Hdone] & Hget & ->).
  destruct (Hkeys k s Hget) as (Hesc & Hhd & v0 & Hv0 & Hf0).
  assert (Hshort : forall v, In v (generator h code_points) ->
                             short (folded v) /\ short (composed v))
    by (intros v Hv; now apply (@generator_short h code_points)).
  split; [|split; [|split]].
  - exists sets, s. auto.
  - intros sets0 x sets1 Hadd Hne (r & Hr & Hm). unfold addMatching in Hadd.
    fold (set_of sets0 k) in Hadd. rewrite Hr in Hadd.
    destruct (r x); [|now contradiction Hm]. injection Hadd as <-.
    now contradiction Hne.
  - apply (@covers_matches h sim Hcompiles s k Hesc).
    + rewrite <- Hf0. now apply Hshort.
    + exists k. split; [|apply Hrefl].
      destruct s as [|e0 s]; [discriminate|]. injection Hhd as ->. now left.
  - intros v Hv Hf. apply (@covers_matches h sim Hcompiles s (composed v) Hesc).
    + now apply Hshort.
    + destruct (Hdone v Hv) as (s' & Hs' & Hcov). rewrite Hf, Hget in Hs'.
      now injection Hs' as <-.
Qed.

Lemma map_fragment_matches_key_and_variants_witness :
  fragment_matches Model.host
    (Some (ustr "(?:ii|" ++ [0x2171] ++ ustr ")")) (ustr "ii")
  /\ fragment_matches Model.host
       (Some (ustr "(?:ii|" ++ [0x2171] ++ ustr ")")) [0x2171].
Proof.
  destruct (@map_fragment_matches_key_and_variants Model.host Model.roman_ranges
              Model.roman_engine (ustr "ii")
              (Some (ustr "(?:ii|" ++ [0x2171] ++ ustr ")"))
              ModelProperties.model_alternation_contract)
    as (_ & _ & Hkey & Hvariants).
  - vm_compute. reflexivity.
  - vm_compute. reflexivity.
  - split; [exact Hkey|].
    apply (Hvariants (mkCodePointObj (ustr "ii") [0x2171] 0x2171));
      [vm_compute; right; now left | reflexivity].
Defined.

(** ** Code points and groups on the model host *)

Module ModelSoundness.

Import Model.
Import ModelProperties.

Lemma Array_from_head (d : code_unit) (t : jsstring) :
  exists c rest, Array_from (d :: t) = (d :: c) :: rest.
Proof.
  destruct t as [|x t]; simpl; [now exists [], []|].
  destruct (is_high_surrogate d && is_low_surrogate x); eauto.
Qed.

Lemma Array_from_wf_bounded (n : nat) :
  forall t, (List.length t <= n)%nat -> chunks_wf (Array_from t).
Proof.
  induction n as [|n IH]; intros t Hlen.
  - destruct t; [exact I | simpl in Hlen; lia].
  - destruct t as [|c t]; [exact I|].
    destruct t as [|d t]; [simpl; auto|].
    simpl in Hlen.
    destruct (is_high_surrogate c && is_low_surrogate d) eqn:E.
    + apply andb_true_iff in E as [Hc Hd].
      rewrite Array_from_pair by assumption. cbn [chunks_wf].
      split; [now split|]. apply IH. lia.
    + rewrite (Array_from_cons c (d :: t)) by exact E. cbn [chunks_wf].
      split; [|apply IH; simpl; lia].
      intro Hc. rewrite Hc in E. simpl in E.
      destruct (Array_from_head d t) as (c' & rest & ->). exact E.
Qed.

Lemma Array_from_wf (t : jsstring) : chunks_wf (Array_from t).
Proof. apply (Array_from_wf_bounded (n := List.length t)). lia. Qed.

Lemma tokenize_close (rest : list jsstring) :
  tokenize ([41] :: rest) = option_map (cons T_close) (tokenize rest).
Proof. reflexivity. Qed.

Lemma close_alternatives (ys : list jsstring) :
  ys <> [] ->
  alt_of (map lit_seq (removelast ys) ++ [lit_seq (last ys [])])
  = alt_of (map lit_seq ys).
Proof.
  intro Hne. rewrite (app_removelast_last [] Hne) at 3. now rewrite map_app.
Qed.

Lemma parse_group (ys : list jsstring) (f : frame) (above : list frame) :
  ys <> [] ->
  fold_left parse_token (T_open :: alt_tokens ys ++ [T_close]) (Some (f :: above))
  = Some (push_term f (alt_of (map lit_seq ys)) true :: above).
Proof.
  intro Hne. cbn [fold_left parse_token]. rewrite fold_left_app.
  destruct (parse_alternatives Hne [] (f :: above)) as (q & Hq).
  rewrite Hq. cbn [fold_left parse_token]. unfold close_frame. cbn [alts cur app].
  change (seq_of (map Re_lit (Array_from (last ys [])))) with (lit_seq (last ys [])).
  now rewrite close_alternatives.
Qed.

Lemma search_found (ci : bool) (r : re) (inp : list jsstring) :
  re_match ci r (0%nat, inp) <> [] -> search ci r 0 0 inp <> None.
Proof.
  intro H. destruct inp as [|c inp]; cbn [search];
    destruct (re_match ci r _) as [|[p rest] l]; congruence.
Qed.

Lemma chunk_is_code_point (c : jsstring) (rest : list jsstring) :
  chunks_wf (c :: rest) -> Array_from c = [c] /\ chunks_wf rest.
Proof.
  cbn [chunks_wf]. intros [Hshape Hrest]. split; [|assumption].
  destruct c as [|u [|lo [|x c]]]; try contradiction; [reflexivity|].
  destruct Hshape as [Hhi Hlo]. now apply Array_from_pair.
Qed.

End ModelSoundness.


(** * Further properties *)

(** ** Folding and the generator *)

Lemma convert_replacement_clean (c u : code_unit) :
  In u (convert_replacement c) -> convert_pat u = false.
Proof.
  unfold convert_replacement, latin_convert. simpl latin_convert_get.
  repeat match goal with
         | |- context [if ?b then _ else _] => destruct b
         end; simpl; intro H;
    repeat (destruct H as [<- | H]; [reflexivity|]); contradiction.
Qed.

(** X1. No character that [convert_pat] matches survives folding: the folded
    string holds no combining mark of U+0300..U+036F, no U+00B7, no U+02BE
    and none of the five characters of [latin_convert], whatever
    decomposition and lower-casing produced. *)
Theorem asciifold_leaves_nothing_to_convert (h : Host) (str : jsstring) (u : code_unit) :
  In u (asciifold h str) ->
  convert_pat u = false
  /\ accent_pat u = false
  /\ latin_convert_get latin_convert u = None.
Proof.
  unfold asciifold, replace_convert. intro Hin.
  apply in_flat_map in Hin as (c & _ & Hu).
  assert (Hclean : convert_pat u = false).
  { destruct (convert_pat c) eqn:Ec.
    - now apply (convert_replacement_clean c).
    - destruct Hu as [<- | []]. exact Ec. }
  split; [exact Hclean|]. unfold convert_pat in Hclean.
  apply orb_false_iff in Hclean as [Hkeys Hacc]. split; [exact Hacc|].
  unfold latin_convert in *. simpl in Hkeys. simpl.
  repeat (apply orb_false_iff in Hkeys as [?Hk Hkeys];
          match goal with H : (u =? _) = false |- _ => rewrite H; clear H end).
  reflexivity.
Qed.

Lemma asciifold_leaves_nothing_to_convert_witness :
  convert_pat 97 = false /\ accent_pat 97 = false
  /\ latin_convert_get latin_convert 97 = None.
Proof.
  apply (@asciifold_leaves_nothing_to_convert Model.host [0x41; 0x301; 0xE6] 97).
  vm_compute. now left.
Defined.

(** X2. The generator treats the ranges one after the other: what it yields
    for a list of ranges is what it yields for each range, in order. A range
    whose upper bound is below its lower bound yields nothing, and every
    entry has a [composed] of exactly one code unit. *)
Theorem generator_range_by_range (h : Host) (before after : list (Z * Z)) (lo hi : Z) :
  generator h (before ++ after) = generator h before ++ generator h after
  /\ (hi < lo -> generator h (before ++ (lo, hi) :: after) = generator h (before ++ after))
  /\ (forall o, In o (generator h (before ++ after)) -> strlen (composed o) = 1).
Proof.
  split; [|split].
  - unfold generator. apply flat_map_app.
  - intro Hbad. unfold generator. rewrite !flat_map_app. f_equal.
    cbn [flat_map fst snd]. unfold code_range.
    replace (Z.to_nat (hi - lo + 1)) with 0%nat by lia. reflexivity.
  - intros o Ho. apply In_generator in Ho as (r & _ & _ & Ho).
    remember (code_point o) as i eqn:Ei. clear Ei.
    apply generator_at_Some in Ho as (-> & _). reflexivity.
Qed.

Lemma generator_range_by_range_witness :
  generator Model.host ([(0x2170, 0x2170)] ++ (5, 3) :: [(0x2172, 0x2172)])
  = generator Model.host ([(0x2170, 0x2170)] ++ [(0x2172, 0x2172)]).
Proof.
  apply (generator_range_by_range Model.host [(0x2170, 0x2170)] [(0x2172, 0x2172)] 5 3).
  lia.
Defined.

(** ** The map builder *)

(** X3. Map totality. For a host that meets the contract of the map
    builder, [generateSets] never throws, and every entry the generator
    yields is in the map: its fold is a key, and the fragment of that key
    matches both the fold and the composed character. *)
Theorem map_covers_every_yielded_character (h : Host) (code_points : list (Z * Z))
  (e : Engine) (v : TCodePointObj) :
  alternation_contract h ->
  generateMap h code_points = Some e ->
  In v (generator h code_points) ->
  (exists sets, generateSets h code_points = Some sets
                /\ hasOwnProperty sets (folded v) = true)
  /\ exists fragment,
       obj_get (unicode_map e) (folded v) = Some fragment
       /\ fragment_matches h fragment (folded v)
       /\ fragment_matches h fragment (composed v).
Proof.
  intros (sim & Hrefl & Hcompiles) He Hv.
  destruct (@generateSets_inv h sim Hrefl Hcompiles code_points)
    as (sets & Hsets & Hkeys & Hdone).
  destruct (Hdone v Hv) as (s & Hget & Hcov).
  destruct (Hkeys _ _ Hget) as (Hesc & Hhd & _).
  destruct (@generator_short h code_points v Hv) as [Hf Hc].
  split.
  - exists sets. split; [assumption|]. unfold hasOwnProperty. now rewrite Hget.
  - unfold generateMap in He. rewrite Hsets in He.
    destruct (RegExp h _ flags_u); [|discriminate]. injection He as <-.
    exists (setToPattern h s). cbn [unicode_map].
    rewrite generateMap_entries_get, Hget. split; [reflexivity|]. split.
    + apply (@covers_matches h sim Hcompiles s (folded v) Hesc Hf).
      exists (folded v). split; [|apply Hrefl].
      destruct s as [|e0 s]; [discriminate|]. injection Hhd as ->. now left.
    + now apply (@covers_matches h sim Hcompiles s (composed v) Hesc Hc).
Qed.

Lemma map_covers_every_yielded_character_witness :
  exists fragment,
    obj_get (unicode_map Model.roman_engine) (ustr "iii") = Some fragment
    /\ fragment_matches Model.host fragment (ustr "iii")
    /\ fragment_matches Model.host fragment [0x2172].
Proof.
  apply (@map_covers_every_yielded_character Model.host Model.roman_ranges
           Model.roman_engine (mkCodePointObj (ustr "iii") [0x2172] 0x2172)
           ModelProperties.model_alternation_contract).
  - vm_compute. reflexivity.
  - vm_compute. right. right. now left.
Defined.

Lemma NoDup_Set_add (s : list jsstring) (x : jsstring) :
  NoDup s -> NoDup (Set_add s x).
Proof.
  intro Hs. unfold Set_add. destruct (Set_has s x) eqn:E; [assumption|].
  apply NoDup_app; [assumption | constructor; [intros [] | constructor] |].
  intros y Hy [<- | []]. apply Set_has_In in Hy. congruence.
Qed.

Lemma obj_set_keys {V} (o : obj V) (k : jsstring) (v : V) :
  map fst (obj_set o k v)
  = if hasOwnProperty o k then map fst o else map fst o ++ [k].
Proof.
  unfold hasOwnProperty. induction o as [|[k' v'] o IH]; simpl; [reflexivity|].
  destruct (str_eqb k k') eqn:E; simpl; [reflexivity|]. rewrite IH.
  now destruct (obj_get o k).
Qed.

Lemma obj_set_keys_NoDup {V} (o : obj V) (k : jsstring) (v : V) :
  NoDup (map fst o) -> NoDup (map fst (obj_set o k v)).
Proof.
  intro Ho. rewrite obj_set_keys. unfold hasOwnProperty.
  destruct (obj_get o k) eqn:E; [assumption|].
  apply NoDup_app; [assumption | constructor; [intros [] | constructor] |].
  intros y Hy [<- | []]. apply obj_keys_get in Hy as (w & Hw). congruence.
Qed.

Section BuilderShape.

Variable h : Host.

Lemma addMatching_shape (sets sets' : TUnicodeSets) (k x : jsstring) :
  NoDup (map fst sets) ->
  (forall k' s, obj_get sets k' = Some s -> NoDup s) ->
  addMatching h sets k x = Some sets' ->
  NoDup (map fst sets')
  /\ (forall k' s, obj_get sets' k' = Some s -> NoDup s).
Proof.
  intros Hkeys Hsets Hadd. apply addMatching_cases in Hadd as [-> | ->];
    [now split|].
  split; [now apply obj_set_keys_NoDup|].
  intros k' s Hk'. destruct (list_eq_dec Z.eq_dec k' k) as [-> | Hne].
  - rewrite obj_get_set_same in Hk'. injection Hk' as <-.
    apply NoDup_Set_add. unfold set_of.
    destruct (obj_get sets k) eqn:E; [now apply (Hsets k) | constructor].
  - rewrite obj_get_set_other in Hk' by assumption. now apply (Hsets k').
Qed.

Lemma generateSets_fold_shape (l : list TCodePointObj) :
  forall sets sets',
    NoDup (map fst sets) ->
    (forall k s, obj_get sets k = Some s -> NoDup s) ->
    fold_left (generateSets_step h) l (Some sets) = Some sets' ->
    NoDup (map fst sets')
    /\ (forall k s, obj_get sets' k = Some s -> NoDup s).
Proof.
  induction l as [|v l IH]; intros sets sets' Hkeys Hsets Hfold; simpl in Hfold.
  - injection Hfold as <-. now split.
  - destruct (addMatching h sets (folded v) (folded v)) as [s1|] eqn:E1.
    + destruct (addMatching h s1 (folded v) (composed v)) as [s2|] eqn:E2.
      * destruct (@addMatching_shape sets s1 (folded v) (folded v) Hkeys Hsets E1)
          as [Hk1 Hs1].
        destruct (@addMatching_shape s1 s2 (folded v) (composed v) Hk1 Hs1 E2)
          as [Hk2 Hs2].
        now apply (IH s2).
      * exfalso. clear -Hfold. induction l; simpl in Hfold; [discriminate | auto].
    + exfalso. clear -Hfold. induction l; simpl in Hfold; [discriminate | auto].
Qed.

Lemma generateMap_entries_keys (sets : TUnicodeSets) :
  NoDup (map fst (generateMap_entries h sets)).
Proof.
  unfold generateMap_entries.
  assert (H : forall keys m, NoDup (map fst m) ->
    NoDup (map fst (fold_left (fun m folded =>
        match obj_get sets folded with
        | Some set => obj_set m folded (setToPattern h set)
        | None => m
        end) keys m))).
  { induction keys as [|a keys IH]; intros m Hm; simpl; [assumption|].
    apply IH. destruct (obj_get sets a); [now apply obj_set_keys_NoDup | assumption]. }
  apply H. constructor.
Qed.

End BuilderShape.

(** X4. The map mirrors the variant sets: a key is in the map exactly when
    it is in [unicode_sets], with the fragment [setToPattern] makes of its
    set. Neither object holds a key twice, and no variant set is empty or
    holds a variant twice. *)
Theorem map_mirrors_variant_sets (h : Host) (code_points : list (Z * Z)) (e : Engine) :
  generateMap h code_points = Some e ->
  exists sets,
    generateSets h code_points = Some sets
    /\ (forall k, obj_get (unicode_map e) k
                  = option_map (setToPattern h) (obj_get sets k))
    /\ NoDup (map fst sets)
    /\ NoDup (map fst (unicode_map e))
    /\ (forall k s, obj_get sets k = Some s -> NoDup s /\ s <> []).
Proof.
  intro He. unfold generateMap in He.
  destruct (generateSets h code_points) as [sets|] eqn:Hsets; [|discriminate].
  destruct (RegExp h _ flags_u); [|discriminate]. injection He as <-.
  exists sets. cbn [unicode_map].
  destruct (@generateSets_fold_shape h (generator h code_points) [] sets)
    as [Hkeys Hnodup]; [constructor | discriminate | exact Hsets |].
  repeat split.
  - intro k. apply generateMap_entries_get.
  - exact Hkeys.
  - apply generateMap_entries_keys.
  - now apply (Hnodup k).
  - now apply (@generateSets_origin h code_points sets Hsets k s).
Qed.

Lemma map_mirrors_variant_sets_witness :
  exists sets,
    generateSets Model.host Model.roman_ranges = Some sets
    /\ (forall k, obj_get (unicode_map Model.roman_engine) k
                  = option_map (setToPattern Model.host) (obj_get sets k))
    /\ NoDup (map fst sets)
    /\ NoDup (map fst (unicode_map Model.roman_engine))
    /\ (forall k s, obj_get sets k = Some s -> NoDup s /\ s <> []).
Proof.
  apply (@map_mirrors_variant_sets Model.host Model.roman_ranges Model.roman_engine).
  vm_compute. reflexivity.
Defined.

Lemma In_insert_longest_first (x y : jsstring) (l : list jsstring) :
  In y (insert_longest_first x l) <-> y = x \/ In y l.
Proof.
  induction l as [|z l IH]; simpl.
  - intuition congruence.
  - destruct (strlen z <=? strlen x); simpl; rewrite ?IH; intuition congruence.
Qed.

Lemma insert_longest_first_perm (x : jsstring) (l : list jsstring) :
  Permutation (insert_longest_first x l) (x :: l).
Proof.
  induction l as [|z l IH]; simpl; [apply Permutation_refl|].
  destruct (strlen z <=? strlen x); [apply Permutation_refl|].
  eapply Permutation_trans; [apply perm_skip, IH | apply perm_swap].
Qed.

Lemma insert_longest_first_sorted (x : jsstring) (l : list jsstring) :
  StronglySorted not_shorter l ->
  StronglySorted not_shorter (insert_longest_first x l).
Proof.
  induction l as [|z l IH]; intro Hs; simpl.
  - constructor; constructor.
  - inversion Hs as [|? ? Hl Hz]; subst.
    destruct (strlen z <=? strlen x) eqn:E.
    + apply Z.leb_le in E. constructor; [assumption|].
      constructor; [exact E|].
      rewrite Forall_forall in *. intros y Hy. specialize (Hz y Hy).
      unfold not_shorter in *. lia.
    + apply Z.leb_gt in E. constructor; [now apply IH|].
      rewrite Forall_forall in *. intros y Hy.
      apply In_insert_longest_first in Hy as [-> | Hy];
        [unfold not_shorter; lia | now apply Hz].
Qed.

Lemma insert_longest_first_stable (n : Z) (x : jsstring) (l : list jsstring) :
  filter (fun y => strlen y =? n) (insert_longest_first x l)
  = filter (fun y => strlen y =? n) (x :: l).
Proof.
  induction l as [|z l IH]; [reflexivity|]. cbn [insert_longest_first].
  destruct (strlen z <=? strlen x) eqn:E; [reflexivity|].
  apply Z.leb_gt in E. cbn [filter] in *. rewrite IH.
  destruct (strlen z =? n) eqn:Ez; [|reflexivity].
  apply Z.eqb_eq in Ez.
  destruct (strlen x =? n) eqn:Ex; [apply Z.eqb_eq in Ex; lia | reflexivity].
Qed.

(** X5. The alternatives of [multi_char_reg] are the escaped keys of more
    than one code unit, each once per key, sorted so that no alternative is
    longer than one before it; alternatives of the same length keep the
    order in which [for...in] visited their keys. *)
Theorem multi_char_longest_first (h : Host) (unicode_sets : TUnicodeSets) :
  Permutation (sort_longest_first (generateMap_multi_char h unicode_sets))
              (generateMap_multi_char h unicode_sets)
  /\ StronglySorted not_shorter
       (sort_longest_first (generateMap_multi_char h unicode_sets))
  /\ (forall n,
        filter (fun y => strlen y =? n)
               (sort_longest_first (generateMap_multi_char h unicode_sets))
        = filter (fun y => strlen y =? n) (generateMap_multi_char h unicode_sets))
  /\ (forall x,
        In x (sort_longest_first (generateMap_multi_char h unicode_sets)) <->
        exists k, hasOwnProperty unicode_sets k = true /\ 1 < strlen k
                  /\ x = escape_regex h k).
Proof.
  assert (Hperm : forall l, Permutation (sort_longest_first l) l).
  { induction l as [|x l IH]; [apply Permutation_refl|]. simpl.
    eapply Permutation_trans; [apply insert_longest_first_perm|].
    now apply perm_skip. }
  split; [apply Hperm|]. split; [|split].
  - generalize (generateMap_multi_char h unicode_sets).
    induction l as [|x l IH]; simpl; [constructor|].
    now apply insert_longest_first_sorted.
  - intro n. generalize (generateMap_multi_char h unicode_sets).
    induction l as [|x l IH]; simpl; [reflexivity|].
    rewrite insert_longest_first_stable. cbn [filter]. now rewrite IH.
  - intro x. split.
    + intro Hx. apply (Permutation_in _ (Hperm _)) in Hx.
      unfold generateMap_multi_char in Hx.
      apply in_map_iff in Hx as (k & <- & Hk). apply filter_In in Hk as [Hk Hlen].
      apply In_for_in_keys, obj_keys_get in Hk as (v & Hv).
      exists k. unfold hasOwnProperty. rewrite Hv.
      repeat split. now apply Z.ltb_lt.
    + intros (k & Hk & Hlen & ->).
      apply (Permutation_in _ (Permutation_sym (Hperm _))).
      unfold generateMap_multi_char. apply in_map. apply filter_In.
      split; [|now apply Z.ltb_lt].
      apply In_for_in_keys. unfold hasOwnProperty in Hk.
      destruct (obj_get unicode_sets k) eqn:E; [|discriminate].
      now apply obj_get_In_keys with (v := l).
Qed.

(** ** The pattern compiler *)

Lemma chars_replaced_unmapped (e : Engine) (strings : list jsstring) :
  chars_replaced e strings + strlen (concat (unmapped_runs e strings))
  = strlen (concat strings).
Proof.
  induction strings as [|r l IH]; [reflexivity|].
  rewrite chars_replaced_cons. unfold unmapped_runs in *. cbn [filter concat].
  unfold mapSequence_count. rewrite strlen_app.
  destruct (hasOwnProperty (unicode_map e) r); cbn [negb concat];
    rewrite ?strlen_app; lia.
Qed.

(** X6. [mapSequence] counts the code units of the runs that have a map
    entry: the count lies between 0 and the total length of the runs, and
    the runs without an entry make up the difference. A pattern is returned
    exactly when the count reaches [min_replacement], the pattern does not
    depend on the minimum, and a minimum above the total length always gives
    nothing. *)
Theorem mapSequence_threshold (h : Host) (e : Engine) (strings : list jsstring)
  (min_replacement : Z) :
  0 <= chars_replaced e strings <= strlen (concat strings)
  /\ chars_replaced e strings + strlen (concat (unmapped_runs e strings))
     = strlen (concat strings)
  /\ (mapSequence h e strings min_replacement <> None <->
      min_replacement <= chars_replaced e strings)
  /\ (forall lower, lower <= min_replacement ->
        mapSequence h e strings min_replacement <> None ->
        mapSequence h e strings lower = mapSequence h e strings min_replacement)
  /\ (strlen (concat strings) < min_replacement ->
      mapSequence h e strings min_replacement = None).
Proof.
  pose proof (chars_replaced_nonneg e strings) as Hlo.
  pose proof (chars_replaced_unmapped e strings) as Hsum.
  pose proof (strlen_nonneg (concat (unmapped_runs e strings))) as Hun.
  assert (Hiff : forall m, mapSequence h e strings m <> None <->
                           m <= chars_replaced e strings).
  { intro m. unfold mapSequence.
    destruct (m <=? chars_replaced e strings) eqn:E.
    - apply Z.leb_le in E. split; [auto | discriminate].
    - apply Z.leb_gt in E. split; [intro H; now contradiction H | lia]. }
  split; [lia|]. split; [exact Hsum|]. split; [apply Hiff|]. split.
  - intros lower Hle Hsome. apply Hiff in Hsome. unfold mapSequence.
    assert (H1 : (min_replacement <=? chars_replaced e strings) = true)
      by (apply Z.leb_le; lia).
    assert (H2 : (lower <=? chars_replaced e strings) = true)
      by (apply Z.leb_le; lia).
    now rewrite H1, H2.
  - intro Hbig. destruct (mapSequence h e strings min_replacement) eqn:E;
      [|reflexivity].
    assert (Hsome : mapSequence h e strings min_replacement <> None) by congruence.
    apply Hiff in Hsome. lia.
Qed.

(** X7. When [allSubstrings] returns partitions of [str], a partition
    contributes to [substringsToPattern(str, min_replacement)] only if its
    pieces without a map entry hold at most one code unit altogether, and
    none at all when [min_replacement] is [str.length] or more; a minimum
    above [str.length] gives nothing. *)
Theorem substringsToPattern_at_most_one_unmapped (h : Host) (e : Engine)
  (str : jsstring) (min_replacement : Z) :
  (forall sub_pat, In sub_pat (allSubstrings h str) -> concat sub_pat = str) ->
  (forall pat,
     In pat (substringsToPattern_patterns h e str
               (Z.max min_replacement (strlen str - 1))) ->
     exists sub_pat,
       In sub_pat (allSubstrings h str)
       /\ pat = sequencePattern h (map (fun s => Some (mapSequence_run e s)) sub_pat)
       /\ strlen (concat (unmapped_runs e sub_pat)) <= 1
       /\ (strlen str <= min_replacement -> concat (unmapped_runs e sub_pat) = []))
  /\ (strlen str < min_replacement ->
      substringsToPattern h e str min_replacement = None).
Proof.
  intro Hpart.
  assert (Hcontrib : forall pat,
     In pat (substringsToPattern_patterns h e str
               (Z.max min_replacement (strlen str - 1))) ->
     exists sub_pat,
       In sub_pat (allSubstrings h str)
       /\ pat = sequencePattern h (map (fun s => Some (mapSequence_run e s)) sub_pat)
       /\ Z.max min_replacement (strlen str - 1) <= chars_replaced e sub_pat
       /\ chars_replaced e sub_pat + strlen (concat (unmapped_runs e sub_pat))
          = strlen str).
  { intros pat Hpat.
    apply In_substringsToPattern_patterns in Hpat as (sp & Hsp & Hm & -> & _).
    exists sp. repeat split; try assumption.
    rewrite chars_replaced_unmapped. now rewrite (Hpart sp Hsp). }
  split.
  - intros pat Hpat. destruct (Hcontrib pat Hpat) as (sp & Hsp & -> & Hm & Hsum).
    exists sp. repeat split; try assumption; [lia|].
    intro Hall.
    pose proof (strlen_nonneg (concat (unmapped_runs e sp))) as Hnn.
    destruct (concat (unmapped_runs e sp)) as [|u l]; [reflexivity|].
    unfold strlen in *. simpl List.length in *. lia.
  - intro Hbig. unfold substringsToPattern.
    destruct (substringsToPattern_patterns h e str _) as [|pat l] eqn:E;
      [reflexivity|].
    destruct (Hcontrib pat) as (sp & _ & _ & Hm & Hsum);
      [first [rewrite E; now left | now left]|].
    pose proof (strlen_nonneg (concat (unmapped_runs e sp))). lia.
Qed.

Lemma substringsToPattern_at_most_one_unmapped_witness :
  exists sub_pat,
    In sub_pat (allSubstrings Model.host (ustr "iix"))
    /\ ustr "(?:ii|" ++ [0x2171] ++ ustr ")x"
       = sequencePattern Model.host
           (map (fun s => Some (mapSequence_run Model.roman_engine s)) sub_pat)
    /\ strlen (concat (unmapped_runs Model.roman_engine sub_pat)) <= 1
    /\ (strlen (ustr "iix") <= 1 ->
        concat (unmapped_runs Model.roman_engine sub_pat) = []).
Proof.
  apply (proj1 (@substringsToPattern_at_most_one_unmapped Model.host
                  Model.roman_engine (ustr "iix") 1
                  ltac:(intros sp Hsp; vm_compute in Hsp;
                        repeat (destruct Hsp as [<- | Hsp]; [reflexivity|]);
                        contradiction))).
  vm_compute. now left.
Defined.

(** ** Substrings *)

Lemma substring_in_bounds (s : jsstring) (a b : Z) :
  0 <= a <= b -> b <= strlen s ->
  substring s a b = firstn (Z.to_nat (b - a)) (skipn (Z.to_nat a) s).
Proof.
  intros Hab Hb. unfold substring, strlen in *.
  replace (Z.min (Z.max a 0) (Z.of_nat (List.length s))) with a by lia.
  replace (Z.min (Z.max b 0) (Z.of_nat (List.length s))) with b by lia.
  rewrite Nat.max_r, Nat.min_l by lia. f_equal. lia.
Qed.

Lemma substring_length (s : jsstring) (a b : Z) :
  0 <= a <= b -> b <= strlen s -> strlen (substring s a b) = b - a.
Proof.
  intros Hab Hb. rewrite substring_in_bounds by assumption.
  unfold strlen in *. rewrite length_firstn, length_skipn. lia.
Qed.

Lemma firstn_add {A} (m n : nat) (l : list A) :
  firstn (m + n) l = firstn m l ++ firstn n (skipn m l).
Proof.
  revert l. induction m as [|m IH]; intro l; [reflexivity|].
  destruct l as [|x l]; simpl; [now rewrite firstn_nil | now rewrite IH].
Qed.

Lemma substring_split (s : jsstring) (a b c : Z) :
  0 <= a <= b -> b <= c -> c <= strlen s ->
  substring s a c = substring s a b ++ substring s b c.
Proof.
  intros Hab Hbc Hc. rewrite !substring_in_bounds by lia.
  replace (Z.to_nat (c - a)) with (Z.to_nat (b - a) + Z.to_nat (c - b))%nat by lia.
  rewrite firstn_add, skipn_skipn. do 3 f_equal. lia.
Qed.

Lemma substring_of_run (str text rest : jsstring) (i : Z) :
  0 <= i <= strlen str ->
  substring_from str i = text ++ rest ->
  i + strlen text <= strlen str
  /\ substring str i (i + strlen text) = text.
Proof.
  intros Hi Hrun. unfold substring_from in Hrun.
  assert (Hlen : i + strlen text <= strlen str).
  { apply (f_equal (@List.length code_unit)) in Hrun.
    rewrite length_skipn, length_app in Hrun. unfold strlen in *. lia. }
  split; [assumption|].
  rewrite substring_in_bounds by (pose proof (strlen_nonneg text); lia).
  rewrite Hrun. replace (Z.to_nat (i + strlen text - i)) with (List.length text)
    by (unfold strlen; lia).
  rewrite firstn_app, Nat.sub_diag, firstn_all. simpl. apply app_nil_r.
Qed.

Lemma substring_truncate (s : jsstring) (a m b : Z) :
  0 <= a <= m -> m <= b -> b <= strlen s ->
  firstn (Z.to_nat (m - a)) (substring s a b) = substring s a m.
Proof.
  intros Ham Hmb Hb. rewrite !substring_in_bounds by lia.
  rewrite firstn_firstn. f_equal. lia.
Qed.

(** ** Sequences *)

Lemma Sequence_fold_fields (l : list Part) :
  forall q,
    parts (fold_left Sequence_add l q) = parts q ++ l
    /\ substrs (fold_left Sequence_add l q) = substrs q ++ map part_substr l
    /\ seq_end (fold_left Sequence_add l q)
       = fold_left Z.max (map part_end l) (seq_end q)
    /\ (seq_start q = 0 -> (forall p, In p l -> 0 <= part_start p) ->
        seq_start (fold_left Sequence_add l q) = 0).
Proof.
  induction l as [|p l IH]; intro q; cbn [fold_left map].
  - rewrite !app_nil_r. auto.
  - destruct (IH (Sequence_add q p)) as (Hp & Hs & He & Hst).
    rewrite Hp, Hs, He. cbn [Sequence_add parts substrs seq_end seq_start] in *.
    rewrite <- !app_assoc. repeat split.
    + f_equal. apply Z.max_comm.
    + intros H0 Hnn. apply Hst.
      * rewrite H0. specialize (Hnn p (or_introl eq_refl)). lia.
      * intros p' Hp'. apply Hnn. now right.
Qed.

Lemma Sequence_last_of_parts (q : Sequence) (before : list Part) (p : Part) :
  parts q = before ++ [p] -> Sequence_last q = Some p.
Proof.
  intro H. unfold Sequence_last. rewrite H, length_app. simpl.
  rewrite nth_error_app2 by lia.
  replace (List.length before + 1 - 1 - List.length before)%nat with 0%nat by lia.
  reflexivity.
Qed.

Lemma Sequence_last_parts (q : Sequence) (p : Part) :
  Sequence_last q = Some p -> parts q = removelast (parts q) ++ [p].
Proof.
  unfold Sequence_last. intro H.
  destruct (parts q) as [|x l] eqn:E; [discriminate|].
  destruct (@exists_last _ (x :: l)) as (before & a & Hl); [discriminate|].
  rewrite Hl in *. rewrite removelast_last.
  rewrite length_app in H. cbn [List.length] in H.
  rewrite nth_error_app2 in H by lia.
  replace (List.length before + 1 - 1 - List.length before)%nat with 0%nat in H
    by lia.
  simpl in H. now injection H as ->.
Qed.

Lemma Sequence_last_None (q : Sequence) :
  Sequence_last q = None -> parts q = [].
Proof.
  unfold Sequence_last. intro H. apply nth_error_None in H.
  destruct (parts q); [reflexivity | simpl in H; lia].
Qed.

(** X8. A sequence is determined by the parts added to it: [substrs] are the
    texts of the parts in order, [length()] is their number, [last()] is the
    part added last, [end] is the greatest end 0 included, and, because
    [start] begins at 0 and only takes minima, [start] is 0 whatever the
    parts, also for a sequence whose first part begins later. *)
Theorem Sequence_fields_follow_parts (l : list Part) :
  (forall p, In p l -> 0 <= part_start p) ->
  parts (fold_left Sequence_add l Sequence_new) = l
  /\ substrs (fold_left Sequence_add l Sequence_new) = map part_substr l
  /\ Sequence_length (fold_left Sequence_add l Sequence_new) = Z.of_nat (List.length l)
  /\ seq_start (fold_left Sequence_add l Sequence_new) = 0
  /\ seq_end (fold_left Sequence_add l Sequence_new)
     = fold_left Z.max (map part_end l) 0
  /\ (l = [] -> Sequence_last (fold_left Sequence_add l Sequence_new) = None)
  /\ (forall before p, l = before ++ [p] ->
        Sequence_last (fold_left Sequence_add l Sequence_new) = Some p).
Proof.
  intro Hnn. destruct (Sequence_fold_fields l Sequence_new) as (Hp & Hs & He & Hst).
  simpl in Hp, Hs, He. repeat split; try assumption.
  - unfold Sequence_length. now rewrite Hp.
  - now apply Hst.
  - intros ->. reflexivity.
  - intros before p Hl. apply (Sequence_last_of_parts _ before). now rewrite Hp.
Qed.

Lemma Sequence_fields_follow_parts_witness :
  seq_start (fold_left Sequence_add [mkPart 5 7 2 (ustr "ii")] Sequence_new) = 0
  /\ seq_end (fold_left Sequence_add [mkPart 5 7 2 (ustr "ii")] Sequence_new) = 7.
Proof.
  destruct (@Sequence_fields_follow_parts [mkPart 5 7 2 (ustr "ii")])
    as (_ & _ & _ & Hs & He & _).
  - intros p [<- | []]. simpl. lia.
  - split; [exact Hs | exact He].
Defined.

Lemma substring_all (s : jsstring) (n : Z) :
  strlen s <= n -> substring s 0 n = s.
Proof.
  intro H. unfold substring, strlen in *.
  replace (Z.min (Z.max 0 0) (Z.of_nat (List.length s))) with 0 by lia.
  replace (Z.min (Z.max n 0) (Z.of_nat (List.length s)))
    with (Z.of_nat (List.length s)) by lia.
  rewrite Nat2Z.id. change (Z.to_nat 0) with 0%nat.
  rewrite Nat.max_0_l, Nat.min_0_l, Nat.sub_0_r. apply firstn_all.
Qed.

Lemma substring_none (s : jsstring) (n : Z) : n <= 0 -> substring s 0 n = [].
Proof.
  intro H. unfold substring.
  replace (Z.min (Z.max 0 0) (strlen s)) with 0
    by (pose proof (strlen_nonneg s); lia).
  replace (Z.min (Z.max n 0) (strlen s)) with 0
    by (pose proof (strlen_nonneg s); lia).
  reflexivity.
Qed.

(** X9. [clone(position, last_piece)] called with the last part of the
    sequence keeps the number of parts and every part but the last. It is a
    copy of the parts when [position] is at or after the end of the last
    part, and it leaves an empty last part when [position] is at or before
    its start. On a sequence without parts it fails. *)
Theorem Sequence_clone_keeps_prefix (q : Sequence) (position : Z) (lp : Part) :
  (Sequence_last q = None -> Sequence_clone q position lp = None)
  /\ (Sequence_last q = Some lp ->
      exists clone,
        Sequence_clone q position lp = Some clone
        /\ List.length (parts clone) = List.length (parts q)
        /\ removelast (parts clone) = removelast (parts q)
        /\ substrs clone = map part_substr (parts clone)
        /\ (part_length lp = strlen (part_substr lp) ->
            part_end lp = part_start lp + part_length lp ->
            part_end lp <= position ->
            parts clone = parts q)
        /\ (position <= part_start lp ->
            Sequence_last clone = Some (mkPart (part_start lp) (part_start lp) 0 []))).
Proof.
  split.
  - unfold Sequence_last, Sequence_clone. now intros ->.
  - intro Hlast. rewrite (Sequence_clone_Some q position Hlast).
    set (cut := substring (part_substr lp) 0 (position - part_start lp)).
    set (tail := mkPart (part_start lp) (part_start lp + strlen cut) (strlen cut) cut).
    destruct (Sequence_fold_fields (removelast (parts q)) Sequence_new)
      as (Hp & Hs & _ & _). simpl in Hp, Hs.
    assert (Hparts : parts (Sequence_add
                       (fold_left Sequence_add (removelast (parts q)) Sequence_new)
                       tail) = removelast (parts q) ++ [tail]).
    { cbn [Sequence_add parts]. now rewrite Hp. }
    eexists. split; [reflexivity|]. rewrite Hparts.
    split; [|split; [|split; [|split]]].
    + rewrite (Sequence_last_parts q Hlast) at 2. now rewrite !length_app.
    + now rewrite removelast_last.
    + cbn [Sequence_add substrs]. now rewrite Hs, map_app.
    + intros Hlen Hend Hpos. rewrite (Sequence_last_parts q Hlast) at 2.
      f_equal. f_equal. unfold tail, cut.
      rewrite substring_all by lia. rewrite <- Hlen, <- Hend. now destruct lp.
    + intro Hpos. apply (Sequence_last_of_parts _ (removelast (parts q))).
      rewrite Hparts. unfold tail, cut. rewrite substring_none by lia.
      change (strlen []) with 0. now rewrite Z.add_0_r.
Qed.

Lemma Sequence_clone_keeps_prefix_witness :
  exists clone,
    Sequence_clone (mkSequence [mkPart 0 1 1 (ustr "i"); mkPart 1 4 3 (ustr "iii")]
                               [ustr "i"; ustr "iii"] 0 4)
                   4 (mkPart 1 4 3 (ustr "iii")) = Some clone
    /\ parts clone = [mkPart 0 1 1 (ustr "i"); mkPart 1 4 3 (ustr "iii")].
Proof.
  destruct (proj2 (Sequence_clone_keeps_prefix
              (mkSequence [mkPart 0 1 1 (ustr "i"); mkPart 1 4 3 (ustr "iii")]
                          [ustr "i"; ustr "iii"] 0 4)
              4 (mkPart 1 4 3 (ustr "iii"))) eq_refl)
    as (clone & Hc & _ & _ & _ & Hcopy & _).
  exists clone. split; [exact Hc|].
  apply Hcopy; [reflexivity | reflexivity | simpl; lia].
Defined.

Lemma tiles_bounds (ps : list Part) :
  forall k e,
    tiles k ps e ->
    (forall p, In p ps -> part_start p < part_end p) ->
    k <= e /\ forall p, In p ps -> k <= part_start p /\ part_end p <= e.
Proof.
  induction ps as [|p0 ps IH]; intros k e Ht Hpos; cbn [tiles] in Ht.
  - subst. split; [lia | intros p []].
  - destruct Ht as [Hk Ht].
    destruct (IH _ _ Ht) as [Hle Hin]; [intros p Hp; apply Hpos; now right|].
    pose proof (Hpos p0 (or_introl eq_refl)) as H0.
    split; [lia|]. intros p [<- | Hp]; [lia|].
    specialize (Hin p Hp). lia.
Qed.

Lemma tiles_app (ps : list Part) (p : Part) :
  forall k e,
    tiles k (ps ++ [p]) e <->
    exists m, tiles k ps m /\ part_start p = m /\ part_end p = e.
Proof.
  induction ps as [|p0 ps IH]; intros k e; cbn [app tiles].
  - split.
    + intros [Hs He]. exists k. auto.
    + intros (m & <- & Hs & He). auto.
  - rewrite IH. split.
    + intros (Hk & m & Ht & Hs & He). exists m. auto.
    + intros (m & (Hk & Ht) & Hs & He). split; [assumption|]. exists m. auto.
Qed.

Lemma conflict_with_itself (p : Part) (post : list Part) (e : Z) :
  forall before k,
    tiles k (before ++ p :: post) e ->
    (forall x, In x (before ++ p :: post) -> part_start x < part_end x) ->
    inSequences_conflict p (before ++ p :: post) = false.
Proof.
  induction before as [|n before IH]; intros k Ht Hpos.
  - cbn [app inSequences_conflict]. now rewrite Z.eqb_refl, str_eqb_refl.
  - cbn [app tiles] in Ht. destruct Ht as [Hk Ht].
    assert (Hpos' : forall x, In x (before ++ p :: post) ->
                              part_start x < part_end x)
      by (intros x Hx; apply Hpos; now right).
    destruct (@tiles_bounds _ _ _ Ht Hpos') as [_ Hin].
    specialize (Hin p ltac:(apply in_app_iff; right; now left)).
    pose proof (Hpos n (or_introl eq_refl)) as Hn.
    cbn [app inSequences_conflict].
    replace (part_start n =? part_start p) with false
      by (symmetry; apply Z.eqb_neq; lia).
    cbn [andb].
    replace (part_start p <? part_start n) with false
      by (symmetry; apply Z.ltb_ge; lia).
    replace (part_start p <? part_end n) with false
      by (symmetry; apply Z.ltb_ge; lia).
    rewrite andb_false_r. cbn [andb].
    destruct ((part_length p =? 1) || (part_length n =? 1)); now apply (IH _ Ht).
Qed.

(** X10. A sequence whose parts follow one another without gap or overlap
    is equivalent to itself for [inSequences]: whenever it is in the list
    the answer is [true], so a clone that is already live is never pushed a
    second time. *)
Theorem inSequences_finds_itself (q : Sequence) (l : list Sequence) (k e : Z) :
  tiles k (parts q) e ->
  (forall p, In p (parts q) -> part_start p < part_end p) ->
  In q l ->
  inSequences q l = true /\ push_clones l [q] = l.
Proof.
  intros Ht Hpos Hin.
  assert (Hself : filter (fun part => inSequences_conflict part (parts q)) (parts q)
                  = []).
  { assert (H : forall sub, incl sub (parts q) ->
        filter (fun part => inSequences_conflict part (parts q)) sub = []).
    { induction sub as [|p sub IH]; intro Hsub; [reflexivity|]. cbn [filter].
      assert (Hp : In p (parts q)) by (apply Hsub; now left).
      apply in_split in Hp as (before & post & Hsplit).
      rewrite Hsplit at 1. rewrite conflict_with_itself with (k := k) (e := e).
      - apply IH. intros x Hx. apply Hsub. now right.
      - now rewrite <- Hsplit.
      - now rewrite <- Hsplit. }
    apply H, incl_refl. }
  assert (Hfound : inSequences q l = true).
  { induction l as [|x l IH]; [contradiction|]. cbn [inSequences].
    destruct Hin as [-> | Hin].
    - rewrite !Z.eqb_refl, str_eqb_refl, Hself. reflexivity.
    - repeat match goal with
             | |- context [if ?b then _ else _] => destruct b
             end; auto. }
  split; [exact Hfound|]. unfold push_clones. simpl. now rewrite Hfound.
Qed.

Lemma inSequences_finds_itself_witness :
  inSequences (mkSequence [mkPart 0 2 2 (ustr "ii"); mkPart 2 4 2 (ustr "ii")]
                          [ustr "ii"; ustr "ii"] 0 4)
              [mkSequence [mkPart 0 3 3 (ustr "iii")] [ustr "iii"] 0 3;
               mkSequence [mkPart 0 2 2 (ustr "ii"); mkPart 2 4 2 (ustr "ii")]
                          [ustr "ii"; ustr "ii"] 0 4] = true.
Proof.
  apply (@inSequences_finds_itself
           (mkSequence [mkPart 0 2 2 (ustr "ii"); mkPart 2 4 2 (ustr "ii")]
                       [ustr "ii"; ustr "ii"] 0 4) _ 0 4).
  - simpl. auto.
  - intros p [<- | [<- | []]]; simpl; lia.
  - right. now left.
Defined.

Lemma push_clones_shape (clones : list Sequence) :
  forall seqs,
    exists added,
      push_clones seqs clones = seqs ++ added
      /\ incl added clones
      /\ (List.length added <= List.length clones)%nat.
Proof.
  unfold push_clones. induction clones as [|c clones IH]; intro seqs; simpl.
  - exists []. rewrite app_nil_r. repeat split; [apply incl_refl | simpl; lia].
  - destruct (inSequences c seqs).
    + destruct (IH seqs) as (added & Hr & Hi & Hl). exists added.
      repeat split; [assumption | now apply incl_tl | lia].
    + destruct (IH (seqs ++ [c])) as (added & Hr & Hi & Hl). exists (c :: added).
      rewrite Hr, <- app_assoc. repeat split.
      * intros x [<- | Hx]; [now left | right; now apply Hi].
      * simpl. lia.
Qed.

Lemma sort_by_length_length (l : list Sequence) :
  List.length (sort_by_length l) = List.length l.
Proof.
  unfold sort_by_length. induction l as [|x l IH]; [reflexivity|]. simpl.
  rewrite <- IH. generalize (fold_right insert_by_length [] l).
  induction l0 as [|y l0 IH0]; simpl; [reflexivity|].
  destruct (Sequence_length x <=? Sequence_length y); simpl; [reflexivity|].
  now rewrite IH0.
Qed.

Lemma visit_clones_length (i : Z) (mtch : option jsstring) (l : list Sequence) :
  (List.length (flat_map (visit_clones i mtch) l) <= List.length l)%nat.
Proof.
  induction l as [|q l IH]; [simpl; lia|]. cbn [flat_map].
  rewrite length_app. simpl List.length.
  assert (H : (List.length (visit_clones i mtch q) <= 1)%nat).
  { unfold visit_clones.
    destruct (can_extend _ _); [simpl; lia|].
    destruct mtch; [|simpl; lia].
    destruct (Sequence_last q); [|simpl; lia].
    destruct (Sequence_clone q i p); simpl; lia. }
  lia.
Qed.

Lemma scan_step_shape (h : Host) (e : Engine) (str : jsstring) (s : Scan) (i : Z) :
  sequences s <> [] ->
  sequences (scan_step h e str s i) <> []
  /\ (List.length (sequences (scan_step h e str s i))
      <= 2 * List.length (sequences s))%nat
  /\ ((exists added,
         sequences (scan_step h e str s i)
         = map (visit_update i (match_at e (substring_from str i))
                             (substring str i (i + 1))) (sequences s) ++ added
         /\ incl added (overlapping (visit_at e str s i))
         /\ pattern (scan_step h e str s i) = pattern s)
      \/ (0 < i /\ overlapping (visit_at e str s i) = []
          /\ List.length (sequences (scan_step h e str s i)) = 1%nat))
  /\ (exists suffix, pattern (scan_step h e str s i) = pattern s ++ suffix)
  /\ (i <= 0 -> pattern (scan_step h e str s i) = pattern s).
Proof.
  intro Hne.
  set (mtch := match_at e (substring_from str i)).
  set (char := substring str i (i + 1)).
  destruct (visit_all_spec i mtch char (sequences s)) as (Hv & Ho & _).
  assert (Hvisit : visit_at e str s i = visit_all i mtch char (sequences s))
    by reflexivity.
  rewrite <- Hvisit in Hv, Ho.
  assert (Hlen : List.length (visited (visit_at e str s i))
                 = List.length (sequences s)) by (rewrite Hv; apply length_map).
  assert (Hpos : (0 < List.length (sequences s))%nat)
    by (destruct (sequences s); [contradiction | simpl; lia]).
  unfold scan_step. fold mtch char. rewrite <- Hvisit.
  destruct (overlapping (visit_at e str s i)) as [|c cs] eqn:Eo.
  - cbn [List.length]. change (0 <? Z.of_nat 0) with false. cbv iota.
    destruct (can_compact i (added_types (visit_at e str s i))) eqn:Ec.
    + unfold compact. cbn [sequences pattern]. repeat split.
      * discriminate.
      * simpl. lia.
      * right. unfold can_compact in Ec.
        apply andb_true_iff in Ec as [Ec _]. apply andb_true_iff in Ec as [Ec _].
        apply Z.ltb_lt in Ec. auto.
      * eexists. reflexivity.
      * intro Hi. unfold can_compact in Ec.
        apply andb_true_iff in Ec as [Ec _]. apply andb_true_iff in Ec as [Ec _].
        apply Z.ltb_lt in Ec. lia.
    + cbn [sequences pattern]. repeat split.
      * intro H. rewrite H in Hlen. simpl in Hlen. lia.
      * lia.
      * left. exists []. rewrite app_nil_r. repeat split; [assumption|].
        intros x [].
      * exists []. now rewrite app_nil_r.
  - replace (0 <? Z.of_nat (List.length (c :: cs))) with true
      by (symmetry; apply Z.ltb_lt; simpl; lia).
    cbn [sequences pattern].
    destruct (push_clones_shape (sort_by_length (c :: cs))
                (visited (visit_at e str s i))) as (added & Hr & Hi & Hl).
    rewrite sort_by_length_length in Hl.
    assert (Hcs : (List.length (c :: cs) <= List.length (sequences s))%nat).
    { rewrite Ho. apply visit_clones_length. }
    rewrite Hr. repeat split.
    + intro H. apply (f_equal (@List.length Sequence)) in H.
      rewrite length_app in H. simpl in H. lia.
    + rewrite length_app. lia.
    + left. exists added. rewrite Hv. repeat split.
      intros x Hx. exact (proj1 (In_sort_by_length _ _) (Hi x Hx)).
    + exists []. now rewrite app_nil_r.
Qed.

(** X11. One scan position never empties the live set and at most doubles
    it. Either the position cleans up, and one sequence is left, or the
    sequences that were live stay at their places, extended or untouched,
    the clones that are kept come after them, and the pattern is not
    touched. The pattern only grows, and it does not grow at position 0. *)
Theorem scan_step_live_set (h : Host) (e : Engine) (str : jsstring) (s : Scan) (i : Z) :
  sequences s <> [] ->
  sequences (scan_step h e str s i) <> []
  /\ (List.length (sequences (scan_step h e str s i))
      <= 2 * List.length (sequences s))%nat
  /\ ((exists added,
         sequences (scan_step h e str s i)
         = map (visit_update i (match_at e (substring_from str i))
                             (substring str i (i + 1))) (sequences s) ++ added
         /\ incl added (overlapping (visit_at e str s i))
         /\ pattern (scan_step h e str s i) = pattern s)
      \/ (0 < i /\ overlapping (visit_at e str s i) = []
          /\ List.length (sequences (scan_step h e str s i)) = 1%nat))
  /\ (exists suffix, pattern (scan_step h e str s i) = pattern s ++ suffix)
  /\ (i <= 0 -> pattern (scan_step h e str s i) = pattern s).
Proof. apply scan_step_shape. Qed.

Lemma scan_step_live_set_witness :
  sequences (scan_step Model.host Model.roman_engine (ustr "iiii")
               (scan_until Model.host Model.roman_engine (ustr "iiii") 2) 2) <> [].
Proof.
  apply (@scan_step_live_set Model.host Model.roman_engine (ustr "iiii")
           (scan_until Model.host Model.roman_engine (ustr "iiii") 2) 2).
  vm_compute. discriminate.
Defined.

(** X12. Throughout the scan the live set is not empty, so
    [sequences[0]] always exists; before position [n] it holds at most [2^n]
    sequences, and the pattern is still empty before position 1. *)
Theorem scan_live_set_bounded (h : Host) (e : Engine) (str : jsstring) (n : nat) :
  sequences (scan_until h e str n) <> []
  /\ (List.length (sequences (scan_until h e str n)) <= 2 ^ n)%nat
  /\ ((n <= 1)%nat -> pattern (scan_until h e str n) = [])
  /\ sequences (scan h e str) <> [].
Proof.
  assert (Hstep : forall m,
    scan_until h e str (S m)
    = scan_step h e str (scan_until h e str m) (Z.of_nat m)).
  { intro m. unfold scan_until. rewrite seq_S, map_app, fold_left_app.
    reflexivity. }
  assert (Hall : forall m,
    sequences (scan_until h e str m) <> []
    /\ (List.length (sequences (scan_until h e str m)) <= 2 ^ m)%nat).
  { induction m as [|m [IHne IHlen]].
    - split; [discriminate | simpl; lia].
    - rewrite Hstep.
      destruct (@scan_step_shape h e str (scan_until h e str m)
                  (Z.of_nat m) IHne) as (Hne & Hlen & _).
      split; [assumption|]. rewrite Nat.pow_succ_r'. lia. }
  destruct (Hall n) as [Hne Hlen]. repeat split; try assumption.
  - intro Hn. destruct n as [|[|n]]; [reflexivity | | lia].
    rewrite Hstep. cbn [scan_until seq map fold_left].
    unfold scan_step. cbn [sequences pattern].
    destruct (0 <? _); [reflexivity|].
    unfold can_compact. change (0 <? Z.of_nat 0) with false.
    reflexivity.
  - unfold scan, positions. apply (Hall (List.length str)).
Qed.

(** ** The live sequences segment the input *)

Lemma part_wf_positive (str : jsstring) (ps : list Part) :
  Forall (part_wf str) ps -> forall p, In p ps -> part_start p < part_end p.
Proof.
  intros Hwf p Hp. rewrite Forall_forall in Hwf.
  destruct (Hwf p Hp) as (_ & Hl & He & _). lia.
Qed.

Lemma part_wf_substr_length (str : jsstring) (p : Part) :
  part_wf str p -> strlen (part_substr p) = part_end p - part_start p.
Proof.
  intros (H0 & Hl & He & Hb & Hs). rewrite Hs. apply substring_length; lia.
Qed.

Lemma tiles_concat (str : jsstring) (ps : list Part) :
  forall k e,
    tiles k ps e -> Forall (part_wf str) ps -> 0 <= k -> e <= strlen str ->
    concat (map part_substr ps) = substring str k e.
Proof.
  induction ps as [|p ps IH]; intros k e Ht Hwf Hk He; cbn [tiles] in Ht.
  - subst e. cbn [map concat]. rewrite substring_in_bounds by lia.
    now rewrite Z.sub_diag.
  - destruct Ht as [Hs Ht]. cbn [map concat].
    pose proof (@part_wf_positive _ _ Hwf) as Hpos.
    inversion Hwf as [|? ? Hp Hps]; subst.
    destruct (@tiles_bounds _ _ _ Ht) as [Hle _];
      [intros x Hx; apply Hpos; now right|].
    pose proof (Hpos p (or_introl eq_refl)) as Hlt.
    rewrite (IH _ _ Ht Hps) by lia.
    destruct Hp as (_ & _ & _ & _ & ->).
    symmetry. apply substring_split; lia.
Qed.

(** The end of a sequence that can be extended at [i] is [i]. *)
Lemma seq_wf_extend (str : jsstring) (k i : Z) (q : Sequence) (p : Part) :
  seq_wf str k i q ->
  can_extend (Sequence_last q) i = true ->
  0 <= k <= i ->
  part_wf str p -> part_start p = i ->
  seq_wf str k (i + 1) (Sequence_add q p).
Proof.
  intros (e & Ht & He & Hwf & Hlt & Hsub & Hs & Hend) Hext Hk Hp Hstart.
  assert (Hei : e = i).
  { destruct (Sequence_last q) as [lp|] eqn:El.
    - pose proof (@Sequence_last_parts _ _ El) as Hparts.
      rewrite Hparts in Ht. apply tiles_app in Ht as (m & _ & Hm & Hme).
      assert (Hin : In lp (parts q))
        by (rewrite Hparts; apply in_app_iff; right; now left).
      rewrite Forall_forall in Hwf.
      destruct (Hwf lp Hin) as (_ & _ & Hle & _).
      specialize (Hlt lp Hin). cbn [can_extend] in Hext.
      apply orb_true_iff in Hext as [H1 | H1];
        [apply Z.eqb_eq in H1 | apply Z.leb_le in H1]; lia.
    - apply Sequence_last_None in El. rewrite El in Ht. cbn [tiles] in Ht. lia. }
  rewrite Hei in Ht, He, Hend. destruct Hp as (Hp0 & Hpl & Hpe & Hpb & Hps).
  exists (part_end p). cbn [Sequence_add parts substrs seq_start seq_end].
  split; [apply tiles_app; exists i; auto|].
  split; [lia|].
  split; [apply Forall_app; split; [assumption|];
          constructor; [repeat split; assumption | constructor]|].
  split; [intros x Hx; apply in_app_iff in Hx as [Hx | [<- | []]];
          [specialize (Hlt x Hx) |]; lia|].
  split; [rewrite map_app, Hsub; reflexivity|].
  split; lia.
Qed.

Lemma seq_wf_keep (str : jsstring) (k i : Z) (q : Sequence) :
  seq_wf str k i q ->
  can_extend (Sequence_last q) i = false ->
  exists lp, Sequence_last q = Some lp
             /\ part_start lp < i < part_end lp
             /\ part_wf str lp
             /\ tiles k (removelast (parts q)) (part_start lp)
             /\ seq_wf str k (i + 1) q.
Proof.
  intros (e & Ht & He & Hwf & Hlt & Hsub & Hs & Hend) Hext.
  destruct (Sequence_last q) as [lp|] eqn:El; [|discriminate].
  cbn [can_extend] in Hext. apply orb_false_iff in Hext as [_ Hext].
  apply Z.leb_gt in Hext.
  pose proof (@Sequence_last_parts _ _ El) as Hparts.
  assert (Hin : In lp (parts q))
    by (rewrite Hparts; apply in_app_iff; right; now left).
  pose proof Ht as Ht'. rewrite Hparts in Ht'.
  apply tiles_app in Ht' as (m & Hm & Hsm & Hme).
  pose proof Hwf as Hwf'. rewrite Forall_forall in Hwf'.
  exists lp. split; [reflexivity|].
  split; [specialize (Hlt lp Hin); lia|].
  split; [now apply Hwf'|].
  split; [now rewrite Hsm|].
  exists e. repeat split; try assumption; try lia.
  intros x Hx. specialize (Hlt x Hx). lia.
Qed.

Lemma fold_max_bound (l : list Z) (b : Z) :
  forall a, a <= b -> (forall x, In x l -> x <= b) -> fold_left Z.max l a <= b.
Proof.
  induction l as [|x l IH]; intros a Ha Hl; cbn [fold_left]; [assumption|].
  apply IH; [|intros y Hy; apply Hl; now right].
  specialize (Hl x (or_introl eq_refl)). lia.
Qed.

Lemma seq_wf_clone (str : jsstring) (k i : Z) (q : Sequence) (lp : Part)
  (text : jsstring) :
  seq_wf str k i q ->
  can_extend (Sequence_last q) i = false ->
  Sequence_last q = Some lp ->
  0 <= k <= i ->
  part_wf str (match_part i text) ->
  seq_wf str k (i + 1) (overlap_clone q lp i text).
Proof.
  intros Hq Hext El Hk Hmp.
  destruct (@seq_wf_keep _ _ _ _ Hq Hext) as (lp' & El' & Hi & Hlp & Htl & _).
  rewrite El in El'. injection El' as <-.
  destruct Hq as (e & Ht & He & Hwf & Hlt & Hsub & Hs & Hend).
  pose proof (@Sequence_last_parts _ _ El) as Hparts.
  assert (Hrl : Forall (part_wf str) (removelast (parts q))).
  { rewrite Hparts in Hwf. apply Forall_app in Hwf. tauto. }
  assert (Hrlin : forall x, In x (removelast (parts q)) -> In x (parts q))
    by (intros x Hx; rewrite Hparts; apply in_app_iff; now left).
  destruct (@tiles_bounds _ _ _ Htl (@part_wf_positive _ _ Hrl)) as [Hkm Hbounds].
  destruct (Sequence_fold_fields (removelast (parts q)) Sequence_new)
    as (Hfp & Hfs & Hfe & Hfst).
  destruct Hlp as (Hl0 & Hll & Hle & Hlb & Hls).
  destruct Hmp as (Hm0 & Hml & Hme & Hmb & Hms).
  cbn [match_part part_start part_end part_length part_substr] in *.
  assert (Htr : part_wf str (truncate_part lp i)).
  { unfold truncate_part, part_wf.
    cbn [part_start part_end part_length part_substr].
    repeat split; try lia. rewrite Hls. apply substring_truncate; lia. }
  exists (i + strlen text). unfold overlap_clone.
  cbn [Sequence_add parts substrs seq_start seq_end match_part
       part_start part_end part_length part_substr].
  rewrite Hfp, Hfs, Hfe. cbn [Sequence_new parts substrs seq_end app].
  split.
  { apply tiles_app. exists i. split; [|split; reflexivity].
    apply tiles_app. exists (part_start lp). repeat split. exact Htl. }
  split; [lia|].
  split.
  { apply Forall_app. split; [apply Forall_app; split; [assumption|]|].
    - constructor; [exact Htr | constructor].
    - constructor; [|constructor]. unfold part_wf.
      cbn [part_start part_end part_length part_substr]. repeat split; lia || assumption. }
  split.
  { intros x Hx. apply in_app_iff in Hx as [Hx | [<- | []]].
    - apply in_app_iff in Hx as [Hx | [<- | []]].
      + specialize (Hlt x (Hrlin x Hx)). lia.
      + cbn [truncate_part part_start]. lia.
    - unfold match_part. cbn [part_start]. lia. }
  split.
  { rewrite !map_app. reflexivity. }
  split.
  { cbn [truncate_part part_start]. rewrite Hfst; [lia | reflexivity |].
    intros x Hx. rewrite Forall_forall in Hrl. destruct (Hrl x Hx). lia. }
  assert (Hmax : fold_left Z.max (map part_end (removelast (parts q))) 0 <= i).
  { apply fold_max_bound; [lia|]. intros x Hx.
    apply in_map_iff in Hx as (y & <- & Hy). specialize (Hbounds y Hy). lia. }
  cbn [truncate_part part_end]. lia.
Qed.

Lemma new_part_wf (e : Engine) (str : jsstring) (i : Z) :
  matches_are_runs e str ->
  0 <= i < strlen str ->
  part_wf str (new_part i (match_at e (substring_from str i))
                        (substring str i (i + 1)))
  /\ part_start (new_part i (match_at e (substring_from str i))
                          (substring str i (i + 1))) = i
  /\ forall text, match_at e (substring_from str i) = Some text ->
                  part_wf str (match_part i text).
Proof.
  intros Hruns Hi.
  assert (Hm : forall text, match_at e (substring_from str i) = Some text ->
                            part_wf str (match_part i text)).
  { intros text Hmatch. destruct (Hruns i text Hi Hmatch) as (Hne & rest & Hrest).
    destruct (@substring_of_run str text rest i) as [Hb Hs]; [lia | assumption|].
    assert (0 < strlen text).
    { unfold strlen. destruct text; [contradiction | simpl List.length; lia]. }
    unfold part_wf, match_part.
    cbn [part_start part_end part_length part_substr].
    repeat split; try lia. now rewrite Hs. }
  destruct (match_at e (substring_from str i)) as [text|] eqn:Em; cbn [new_part].
  - split; [now apply Hm | split; [reflexivity | assumption]].
  - split; [|split; [reflexivity | intros text H; discriminate H]].
    unfold part_wf, char_part.
    cbn [part_start part_end part_length part_substr].
    repeat split; lia.
Qed.

Lemma scan_step_inv (h : Host) (e : Engine) (str : jsstring) (s : Scan) (i : Z) :
  matches_are_runs e str ->
  0 <= i < strlen str ->
  scan_inv str i s ->
  scan_inv str (i + 1) (scan_step h e str s i).
Proof.
  intros Hruns Hi (Hne & k & Hk & Hall).
  split; [now apply scan_step_shape|].
  set (mtch := match_at e (substring_from str i)).
  set (char := substring str i (i + 1)).
  destruct (@new_part_wf _ _ _ Hruns Hi) as (Hnew & Hnewstart & Hmatch).
  fold mtch char in Hnew, Hnewstart, Hmatch.
  destruct (visit_all_spec i mtch char (sequences s)) as (Hv & Ho & _).
  assert (Hvis : forall q, In q (visited (visit_all i mtch char (sequences s))) ->
                           seq_wf str k (i + 1) q).
  { intros q' Hq'. rewrite Hv in Hq'. apply in_map_iff in Hq' as (q & <- & Hq).
    unfold visit_update.
    destruct (can_extend (Sequence_last q) i) eqn:Ec.
    - apply seq_wf_extend; auto.
    - destruct (@seq_wf_keep _ _ _ _ (Hall q Hq) Ec) as (lp & _ & _ & _ & _ & Hkeep).
      exact Hkeep. }
  assert (Hovl : forall c, In c (overlapping (visit_all i mtch char (sequences s))) ->
                           seq_wf str k (i + 1) c).
  { intros c Hc. rewrite Ho in Hc. apply in_flat_map in Hc as (q & Hq & Hc).
    unfold visit_clones in Hc.
    destruct (can_extend (Sequence_last q) i) eqn:Ec; [contradiction|].
    destruct mtch as [text|] eqn:Em; [|contradiction].
    destruct (@seq_wf_keep _ _ _ _ (Hall q Hq) Ec) as (lp & El & Hlp & Hwf & _ & _).
    rewrite El in Hc.
    destruct (@Sequence_clone_overlap q i lp text El) as (clone & Hclone & Heq);
      [lia | rewrite (@part_wf_substr_length _ _ Hwf); lia |].
    rewrite Hclone in Hc. destruct Hc as [<- | []]. rewrite Heq.
    apply seq_wf_clone; auto. }
  unfold scan_step. fold mtch char.
  destruct (0 <? Z.of_nat (List.length
              (overlapping (visit_all i mtch char (sequences s))))).
  - cbn [sequences]. exists k. split; [lia|]. intros q Hq.
    destruct (push_clones_shape
                (sort_by_length (overlapping (visit_all i mtch char (sequences s))))
                (visited (visit_all i mtch char (sequences s))))
      as (added & Hr & Hincl & _).
    rewrite Hr in Hq. apply in_app_iff in Hq as [Hq | Hq]; [now apply Hvis|].
    apply Hovl. exact (proj1 (In_sort_by_length _ _) (Hincl q Hq)).
  - destruct (can_compact i (added_types (visit_all i mtch char (sequences s)))).
    + unfold compact. cbn [sequences].
      destruct (visited (visit_all i mtch char (sequences s))) as [|first rest] eqn:Ev.
      { exfalso. destruct (sequences s); [contradiction | discriminate Hv]. }
      destruct (Hvis first (or_introl eq_refl))
        as (e1 & Ht & He & Hwf & Hlt & Hsub & Hs & Hend).
      destruct (Sequence_last first) as [p|] eqn:El.
      * pose proof (@Sequence_last_parts _ _ El) as Hparts.
        assert (Hin : In p (parts first))
          by (rewrite Hparts; apply in_app_iff; right; now left).
        rewrite Hparts in Ht. apply tiles_app in Ht as (m & _ & _ & Hme).
        rewrite Forall_forall in Hwf. pose proof (Hwf p Hin) as Hp.
        specialize (Hlt p Hin). pose proof Hp as (Hp0 & _).
        exists (part_start p). split; [lia|].
        intros q [<- | []]. exists (part_end p).
        cbn [Sequence_add Sequence_new parts substrs seq_start seq_end app map tiles].
        repeat split; try lia.
        -- constructor; [exact Hp | constructor].
        -- intros x [<- | []]. lia.
      * apply Sequence_last_None in El. rewrite El in Ht. cbn [tiles] in Ht. lia.
    + cbn [sequences]. exists k. split; [lia|]. exact Hvis.
Qed.

Lemma scan_until_inv (h : Host) (e : Engine) (str : jsstring) :
  matches_are_runs e str ->
  forall n, (n <= List.length str)%nat ->
            scan_inv str (Z.of_nat n) (scan_until h e str n).
Proof.
  intros Hruns. induction n as [|n IH]; intro Hn.
  - split; [discriminate|]. exists 0. split; [lia|].
    intros q [<- | []]. exists 0. cbn [Sequence_new parts substrs seq_start seq_end tiles map].
    pose proof (strlen_nonneg str).
    repeat split; try lia; try constructor. intros p [].
  - assert (Hstep : scan_until h e str (S n)
                    = scan_step h e str (scan_until h e str n) (Z.of_nat n)).
    { unfold scan_until. rewrite seq_S, map_app, fold_left_app. reflexivity. }
    rewrite Hstep. replace (Z.of_nat (S n)) with (Z.of_nat n + 1) by lia.
    apply scan_step_inv; [assumption | unfold strlen; lia | apply IH; lia].
Qed.

(** X13. When every match [multi_char_reg] reports at a position is a
    non-empty run of the string at that position, the sequence matcher only
    ever holds segmentations: before every position all live sequences start
    where the last clean-up left off and consist of consecutive non-empty
    runs of the string, and after the last position each of them ends at the
    end of the string, so that its substrings joined are the rest of the
    string. *)
Theorem scan_sequences_segment_input (h : Host) (e : Engine) (str : jsstring) :
  matches_are_runs e str ->
  (forall n, (n <= List.length str)%nat ->
             scan_inv str (Z.of_nat n) (scan_until h e str n))
  /\ exists k,
       0 <= k <= strlen str
       /\ forall q, In q (sequences (scan h e str)) ->
            tiles k (parts q) (strlen str)
            /\ Forall (part_wf str) (parts q)
            /\ concat (substrs q) = substring str k (strlen str)
            /\ seq_start q = 0 /\ seq_end q = strlen str.
Proof.
  intro Hruns. split; [now apply scan_until_inv|].
  destruct (@scan_until_inv h e str Hruns (List.length str) (le_n _))
    as (_ & k & Hk & Hall).
  exists k. split; [exact Hk|]. intros q Hq.
  destruct (Hall q Hq) as (e1 & Ht & He & Hwf & _ & Hsub & Hs & Hend).
  assert (He1 : e1 = strlen str) by (unfold strlen in *; lia).
  rewrite He1 in Ht, Hend.
  split; [exact Ht|]. split; [exact Hwf|]. split; [|split; assumption].
  rewrite Hsub. apply tiles_concat with (k := k); [assumption | assumption | lia | lia].
Qed.

Lemma scan_sequences_segment_input_witness :
  exists k,
    0 <= k <= 4
    /\ forall q, In q (sequences (scan Model.host Model.roman_engine (ustr "iiii"))) ->
         tiles k (parts q) 4
         /\ Forall (part_wf (ustr "iiii")) (parts q)
         /\ concat (substrs q) = substring (ustr "iiii") k 4
         /\ seq_start q = 0 /\ seq_end q = 4.
Proof.
  apply (@scan_sequences_segment_input Model.host Model.roman_engine (ustr "iiii")).
  intros i text Hi Hm.
  assert (Hcases : i = 0 \/ i = 1 \/ i = 2 \/ i = 3)
    by (change (strlen (ustr "iiii")) with 4 in Hi; lia).
  destruct Hcases as [-> | [-> | [-> | ->]]];
    vm_compute in Hm;
    first [ discriminate Hm
          | injection Hm as <-;
            split; [discriminate | eexists; vm_compute; reflexivity] ].
Defined.

(** ** Emitting the live set *)

Lemma sequencesToPattern_one_add (h : Host) (e : Engine) (q : Sequence) (p : Part) :
  List.length (substrs q) = List.length (parts q) ->
  sequencesToPattern_one h e false (Sequence_add q p)
  = sequencesToPattern_one h e true q.
Proof.
  intro Hlen. unfold sequencesToPattern_one, Sequence_length.
  cbn [Sequence_add parts substrs]. rewrite length_app. cbn [List.length].
  replace (Z.to_nat (Z.of_nat (List.length (parts q) + 1) - 1))
    with (List.length (substrs q) + 0)%nat by lia.
  rewrite firstn_app_2. cbn [firstn]. rewrite app_nil_r.
  replace (Z.to_nat (Z.of_nat (List.length (parts q))))
    with (List.length (substrs q)) by lia.
  now rewrite firstn_all.
Qed.

(** X14. What the clean-up emits is what the final emission would have
    given one position earlier: for sequences that hold one substring per
    part, [sequencesToPattern(sequences, false)] after every sequence got one
    more part equals [sequencesToPattern(sequences, true)] before. A sequence
    without parts contributes the empty sequence pattern either way. *)
Theorem sequencesToPattern_drops_last_part (h : Host) (e : Engine)
  (seqs : list Sequence) (p : Part) :
  (forall q, In q seqs -> List.length (substrs q) = List.length (parts q)) ->
  sequencesToPattern h e (map (fun q => Sequence_add q p) seqs) false
  = sequencesToPattern h e seqs true
  /\ sequencesToPattern h e [Sequence_new] false
     = sequencesToPattern h e [Sequence_new] true
  /\ sequencesToPattern h e [Sequence_new] true
     = arrayToPattern h [sequencePattern h []].
Proof.
  intro Hlen. split; [|split; reflexivity].
  unfold sequencesToPattern. f_equal. rewrite map_map.
  apply map_ext_in. intros q Hq. apply sequencesToPattern_one_add. now apply Hlen.
Qed.

Lemma sequencesToPattern_drops_last_part_witness :
  sequencesToPattern Model.host Model.roman_engine
    (map (fun q => Sequence_add q (mkPart 2 3 1 (ustr "x")))
         [mkSequence [mkPart 0 2 2 (ustr "ii")] [ustr "ii"] 0 2;
          mkSequence [mkPart 0 1 1 (ustr "i"); mkPart 1 2 1 (ustr "i")]
                     [ustr "i"; ustr "i"] 0 2])
    false
  = sequencesToPattern Model.host Model.roman_engine
      [mkSequence [mkPart 0 2 2 (ustr "ii")] [ustr "ii"] 0 2;
       mkSequence [mkPart 0 1 1 (ustr "i"); mkPart 1 2 1 (ustr "i")]
                  [ustr "i"; ustr "i"] 0 2]
      true.
Proof.
  apply (@sequencesToPattern_drops_last_part Model.host Model.roman_engine
           [mkSequence [mkPart 0 2 2 (ustr "ii")] [ustr "ii"] 0 2;
            mkSequence [mkPart 0 1 1 (ustr "i"); mkPart 1 2 1 (ustr "i")]
                       [ustr "i"; ustr "i"] 0 2]
           (mkPart 2 3 1 (ustr "x"))).
  intros q [<- | [<- | []]]; reflexivity.
Defined.

Lemma inSequences_conflict_single (part : Part) (needle_parts : list Part) :
  part_length part = 1 \/ (forall n, In n needle_parts -> part_length n = 1) ->
  inSequences_conflict part needle_parts = false.
Proof.
  induction needle_parts as [|n rest IH]; intro H; cbn [inSequences_conflict];
    [reflexivity|].
  destruct ((part_start n =? part_start part)
            && str_eqb (part_substr n) (part_substr part)); [reflexivity|].
  assert (Hone : (part_length part =? 1) || (part_length n =? 1) = true).
  { apply orb_true_iff. destruct H as [H | H].
    - left. now apply Z.eqb_eq.
    - right. apply Z.eqb_eq, H. now left. }
  rewrite Hone. apply IH. destruct H as [H | H]; [now left | right].
  intros x Hx. apply H. now right.
Qed.

Lemma filter_nil_iff {A} (f : A -> bool) (l : list A) :
  filter f l = [] <-> forall x, In x l -> f x = false.
Proof.
  induction l as [|a l IH]; cbn [filter].
  - split; [intros _ x [] | reflexivity].
  - destruct (f a) eqn:Efa.
    + split; [discriminate|]. intro H. rewrite (H a (or_introl eq_refl)) in Efa.
      discriminate.
    + rewrite IH. split.
      * intros H x [<- | Hx]; [assumption | now apply H].
      * intros H x Hx. apply H. now right.
Qed.

(** X15. [inSequences] answers [true] exactly when the list holds a
    sequence with the same [start], the same [end] and the same joined text
    none of whose parts conflicts with the parts of the needle. Parts of one
    character never conflict: a needle of one-character parts is found
    equivalent to every sequence with the same bounds and text. *)
Theorem inSequences_characterised (needle_seq : Sequence) (l : list Sequence) :
  (inSequences needle_seq l = true <->
   exists seq, In seq l
     /\ seq_start seq = seq_start needle_seq
     /\ seq_end seq = seq_end needle_seq
     /\ concat (substrs seq) = concat (substrs needle_seq)
     /\ forall part, In part (parts seq) ->
                     inSequences_conflict part (parts needle_seq) = false)
  /\ ((forall n, In n (parts needle_seq) -> part_length n = 1) ->
      forall seq, In seq l ->
        seq_start seq = seq_start needle_seq ->
        seq_end seq = seq_end needle_seq ->
        concat (substrs seq) = concat (substrs needle_seq) ->
        inSequences needle_seq l = true).
Proof.
  assert (Hchar : inSequences needle_seq l = true <->
   exists seq, In seq l
     /\ seq_start seq = seq_start needle_seq
     /\ seq_end seq = seq_end needle_seq
     /\ concat (substrs seq) = concat (substrs needle_seq)
     /\ forall part, In part (parts seq) ->
                     inSequences_conflict part (parts needle_seq) = false).
  { induction l as [|x l IH]; cbn [inSequences].
    - split; [discriminate | intros (seq & [] & _)].
    - assert (Hhere :
        (seq_start x = seq_start needle_seq
         /\ seq_end x = seq_end needle_seq
         /\ concat (substrs x) = concat (substrs needle_seq)
         /\ forall part, In part (parts x) ->
                         inSequences_conflict part (parts needle_seq) = false)
        \/ ((negb (seq_start x =? seq_start needle_seq)
             || negb (seq_end x =? seq_end needle_seq) = true
             \/ negb (str_eqb (join_all (substrs x))
                              (join_all (substrs needle_seq))) = true
             \/ (0 <? Z.of_nat (List.length
                   (filter (fun part => inSequences_conflict part (parts needle_seq))
                           (parts x)))) = true)
            /\ ~ (seq_start x = seq_start needle_seq
                  /\ seq_end x = seq_end needle_seq
                  /\ concat (substrs x) = concat (substrs needle_seq)
                  /\ forall part, In part (parts x) ->
                       inSequences_conflict part (parts needle_seq) = false))).
      { destruct (seq_start x =? seq_start needle_seq) eqn:Es;
          [apply Z.eqb_eq in Es
          | apply Z.eqb_neq in Es; right; split; [now left | tauto]].
        destruct (seq_end x =? seq_end needle_seq) eqn:Ee;
          [apply Z.eqb_eq in Ee
          | apply Z.eqb_neq in Ee; right; split; [now left | tauto]].
        unfold join_all.
        destruct (str_eqb (concat (substrs x)) (concat (substrs needle_seq))) eqn:Et;
          [apply str_eqb_eq in Et
          | right; split; [right; now left|];
            intros (_ & _ & Heq & _); rewrite Heq, str_eqb_refl in Et;
            discriminate Et].
        destruct (filter (fun part => inSequences_conflict part (parts needle_seq))
                         (parts x)) as [|c cs] eqn:Ef.
        - left. repeat split; try assumption. now apply filter_nil_iff.
        - right. split; [right; right; reflexivity|].
          intros (_ & _ & _ & Hno). apply filter_nil_iff in Hno.
          rewrite Hno in Ef. discriminate Ef. }
      destruct Hhere as [Hyes | [Hskip Hno]].
      + destruct Hyes as (Hs & He & Ht & Hc).
        apply Z.eqb_eq in Hs. apply Z.eqb_eq in He. rewrite Hs, He. cbn [negb orb].
        unfold join_all. rewrite Ht, str_eqb_refl. cbn [negb].
        apply Z.eqb_eq in Hs. apply Z.eqb_eq in He.
        apply filter_nil_iff in Hc. rewrite Hc. cbn [List.length].
        change (0 <? Z.of_nat 0) with false. cbv iota.
        split; [intros _ | reflexivity]. exists x. rewrite filter_nil_iff in Hc.
        split; [now left | auto].
      + assert (Hrest : (if negb (seq_start x =? seq_start needle_seq)
                            || negb (seq_end x =? seq_end needle_seq)
                         then inSequences needle_seq l
                         else if negb (str_eqb (join_all (substrs x))
                                               (join_all (substrs needle_seq)))
                         then inSequences needle_seq l
                         else if 0 <? Z.of_nat (List.length
                                (filter (fun part =>
                                   inSequences_conflict part (parts needle_seq))
                                   (parts x)))
                         then inSequences needle_seq l else true)
                        = inSequences needle_seq l).
        { destruct (negb (seq_start x =? seq_start needle_seq)
                    || negb (seq_end x =? seq_end needle_seq)); [reflexivity|].
          destruct (negb (str_eqb (join_all (substrs x))
                                  (join_all (substrs needle_seq)))); [reflexivity|].
          destruct Hskip as [H | [H | H]]; try discriminate H.
          now rewrite H. }
        cbv zeta. rewrite Hrest, IH. split.
        * intros (seq & Hin & H). exists seq. split; [now right | exact H].
        * intros (seq & [<- | Hin] & H); [contradiction|]. now exists seq. }
  split; [exact Hchar|].
  intros Hone seq Hin Hs He Ht. apply Hchar. exists seq.
  repeat split; try assumption.
  intros part _. apply inSequences_conflict_single. now right.
Qed.

(** * The clean-up and the overlap branch *)

(** ** Substrings follow parts *)

Lemma Sequence_add_substrs (q : Sequence) (p : Part) :
  substrs q = map part_substr (parts q) ->
  substrs (Sequence_add q p) = map part_substr (parts (Sequence_add q p)).
Proof.
  intro H. cbn [Sequence_add substrs parts]. now rewrite map_app, H.
Qed.

Lemma Sequence_clone_substrs (q : Sequence) (i : Z) (lp : Part) (c : Sequence) :
  Sequence_clone q i lp = Some c -> substrs c = map part_substr (parts c).
Proof.
  unfold Sequence_clone.
  destruct (nth_error (parts q) (List.length (parts q) - 1)); [|discriminate].
  intro H. injection H as <-. apply Sequence_add_substrs.
  destruct (Sequence_fold_fields (removelast (parts q)) Sequence_new)
    as (Hp & Hs & _). now rewrite Hp, Hs.
Qed.

Lemma scan_step_substrs (h : Host) (e : Engine) (str : jsstring) (s : Scan) (i : Z) :
  (forall q, In q (sequences s) -> substrs q = map part_substr (parts q)) ->
  forall q, In q (sequences (scan_step h e str s i)) ->
            substrs q = map part_substr (parts q).
Proof.
  intro Hall.
  set (mtch := match_at e (substring_from str i)).
  set (char := substring str i (i + 1)).
  destruct (visit_all_spec i mtch char (sequences s)) as (Hv & Ho & _).
  assert (Hvis : forall q, In q (visited (visit_all i mtch char (sequences s))) ->
                           substrs q = map part_substr (parts q)).
  { intros q' Hq'. rewrite Hv in Hq'. apply in_map_iff in Hq' as (q & <- & Hq).
    unfold visit_update. destruct (can_extend (Sequence_last q) i).
    - apply Sequence_add_substrs. now apply Hall.
    - now apply Hall. }
  assert (Hovl : forall c, In c (overlapping (visit_all i mtch char (sequences s))) ->
                           substrs c = map part_substr (parts c)).
  { intros c Hc. rewrite Ho in Hc. apply in_flat_map in Hc as (q & Hq & Hc).
    unfold visit_clones in Hc.
    destruct (can_extend (Sequence_last q) i); [contradiction|].
    destruct mtch as [text|]; [|contradiction].
    destruct (Sequence_last q) as [lp|]; [|contradiction].
    destruct (Sequence_clone q i lp) as [clone|] eqn:Ec; [|contradiction].
    destruct Hc as [<- | []]. apply Sequence_add_substrs.
    exact (Sequence_clone_substrs _ _ _ Ec). }
  unfold scan_step. fold mtch char.
  destruct (0 <? Z.of_nat (List.length
              (overlapping (visit_all i mtch char (sequences s))))).
  - cbn [sequences]. intros q Hq.
    destruct (push_clones_shape
                (sort_by_length (overlapping (visit_all i mtch char (sequences s))))
                (visited (visit_all i mtch char (sequences s))))
      as (added & Hr & Hincl & _).
    rewrite Hr in Hq. apply in_app_iff in Hq as [Hq | Hq]; [now apply Hvis|].
    apply Hovl. exact (proj1 (In_sort_by_length _ _) (Hincl q Hq)).
  - destruct (can_compact i (added_types (visit_all i mtch char (sequences s)))).
    + unfold compact. cbn [sequences]. intros q [<- | []].
      destruct (visited (visit_all i mtch char (sequences s))) as [|first rest];
        [reflexivity|].
      destruct (Sequence_last first); reflexivity.
    + cbn [sequences]. exact Hvis.
Qed.

(** Every sequence the scan holds has one substring per part, the text of
    the part. *)
Lemma scan_until_substrs (h : Host) (e : Engine) (str : jsstring) (n : nat) :
  forall q, In q (sequences (scan_until h e str n)) ->
            substrs q = map part_substr (parts q).
Proof.
  induction n as [|n IH].
  - intros q [<- | []]. reflexivity.
  - assert (Hstep : scan_until h e str (S n)
                    = scan_step h e str (scan_until h e str n) (Z.of_nat n)).
    { unfold scan_until. rewrite seq_S, map_app, fold_left_app. reflexivity. }
    rewrite Hstep. now apply scan_step_substrs.
Qed.

(** ** The clean-up *)

Lemma compaction_step (h : Host) (e : Engine) (str : jsstring)
  (s : Scan) (i : Z) (t : jsstring) :
  0 < i ->
  sequences s <> [] ->
  overlapping (visit_at e str s i) = [] ->
  added_types (visit_at e str s i) = [t] ->
  t <> not_adding ->
  visited (visit_at e str s i)
  = map (fun q => Sequence_add q
           (new_part i (match_at e (substring_from str i)) (substring str i (i + 1))))
        (sequences s)
  /\ t = new_type (match_at e (substring_from str i)) (substring str i (i + 1))
  /\ scan_step h e str s i
     = mkScan (pattern s
               ++ to_string (sequencesToPattern h e (visited (visit_at e str s i)) false))
              [Sequence_add Sequence_new
                 (new_part i (match_at e (substring_from str i))
                           (substring str i (i + 1)))]
  /\ forall q, In q (sequences s) -> can_extend (Sequence_last q) i = true.
Proof.
  intros Hi Hne Hover Htypes Ht.
  set (mtch := match_at e (substring_from str i)) in *.
  set (char := substring str i (i + 1)) in *.
  destruct (visit_all_spec i mtch char (sequences s)) as (Hv & Ho & Hty).
  assert (Hvisit : visit_at e str s i = visit_all i mtch char (sequences s))
    by reflexivity.
  rewrite <- Hvisit in Hv, Ho, Hty.
  assert (Hext : forall q, In q (sequences s) ->
                           can_extend (Sequence_last q) i = true).
  { intros q Hq. apply (@visit_extends i mtch char q).
    - rewrite Hover in Ho. symmetry in Ho.
      destruct (visit_clones i mtch q) as [|c l] eqn:Ec; [reflexivity|].
      assert (Hin : In c (flat_map (visit_clones i mtch) (sequences s))).
      { apply in_flat_map. exists q. split; [assumption | rewrite Ec; now left]. }
      rewrite Ho in Hin. contradiction.
    - intro Hna. assert (Hin : In not_adding (added_types (visit_at e str s i))).
      { apply Hty. exists q. auto. }
      rewrite Htypes in Hin. destruct Hin as [-> | []]. now apply Ht. }
  assert (Hvis : visited (visit_at e str s i)
                 = map (fun q => Sequence_add q (new_part i mtch char)) (sequences s)).
  { rewrite Hv. apply map_ext_in. intros q Hq. unfold visit_update.
    now rewrite (Hext q Hq). }
  repeat split.
  - exact Hvis.
  - destruct (sequences s) as [|q0 l] eqn:Es; [contradiction|].
    assert (Hin : In (new_type mtch char) (added_types (visit_at e str s i))).
    { apply Hty. exists q0. split; [now left|]. unfold visit_type.
      now rewrite (Hext q0 (or_introl eq_refl)). }
    rewrite Htypes in Hin. destruct Hin as [-> | []]. reflexivity.
  - unfold scan_step. fold mtch char. rewrite <- Hvisit.
    rewrite Hover, Htypes. simpl List.length.
    change (0 <? Z.of_nat 0) with false. cbv iota.
    assert (Hc : can_compact i [t] = true).
    { unfold can_compact, Set_has. cbn [existsb List.length].
      change (Z.of_nat 1 =? 1) with true.
      apply Z.ltb_lt in Hi. rewrite Hi, orb_false_r. cbn [andb].
      apply negb_true_iff, str_eqb_neq. congruence. }
    rewrite Hc. unfold compact. rewrite !Hvis.
    destruct (sequences s) as [|q0 l] eqn:Es; [contradiction|].
    cbn [map]. now rewrite Sequence_last_add.
  - exact Hext.
Qed.

(** C7. At a scan position [i > 0] where no clone was queued and
    [added_types] holds exactly one type that is not [not-adding], every
    live sequence was extended by the same part, and the live set becomes
    one fresh sequence that holds only that part. What the step appends to
    the pattern is the alternation, by [arrayToPattern], of one alternative
    per live sequence: the [sequencePattern] of what
    [substringsToPattern] makes, with the minimum 1, of the substring of
    every part of the sequence except the last, the part just added. A part
    for which [substringsToPattern] has no pattern is handed to
    [sequencePattern] as [undefined]. *)
Theorem compaction_collapses_live_set (h : Host) (e : Engine) (str : jsstring)
  (s : Scan) (i : Z) (t : jsstring) :
  0 < i ->
  sequences s <> [] ->
  overlapping (visit_at e str s i) = [] ->
  added_types (visit_at e str s i) = [t] ->
  t <> not_adding ->
  visited (visit_at e str s i)
  = map (fun q => Sequence_add q
           (new_part i (match_at e (substring_from str i)) (substring str i (i + 1))))
        (sequences s)
  /\ t = new_type (match_at e (substring_from str i)) (substring str i (i + 1))
  /\ scan_step h e str s i
     = mkScan (pattern s
               ++ to_string (sequencesToPattern h e (visited (visit_at e str s i)) false))
              [Sequence_add Sequence_new
                 (new_part i (match_at e (substring_from str i))
                           (substring str i (i + 1)))]
  /\ sequences (scan_step h e str s i)
     = [Sequence_add Sequence_new
          (new_part i (match_at e (substring_from str i)) (substring str i (i + 1)))]
  /\ pattern (scan_step h e str s i)
     = pattern s
       ++ to_string
            (arrayToPattern h
               (map (fun q =>
                       sequencePattern h
                         (map (fun sub => substringsToPattern h e sub 1)
                              (firstn (List.length (parts q))
                                 (substrs q
                                  ++ [part_substr
                                        (new_part i (match_at e (substring_from str i))
                                                  (substring str i (i + 1)))]))))
                    (sequences s)))
  /\ ((forall q, In q (sequences s) -> substrs q = map part_substr (parts q)) ->
      pattern (scan_step h e str s i)
      = pattern s
        ++ to_string
             (arrayToPattern h
                (map (fun q' =>
                        sequencePattern h
                          (map (fun p => substringsToPattern h e (part_substr p) 1)
                               (removelast (parts q'))))
                     (visited (visit_at e str s i))))).
Proof.
  intros Hi Hne Hover Htypes Ht.
  destruct (@compaction_step h e str s i t Hi Hne Hover Htypes Ht)
    as (Hvis & Htype & Hstep & _).
  set (part := new_part i (match_at e (substring_from str i))
                        (substring str i (i + 1))) in *.
  assert (Hone : forall q,
    sequencesToPattern_one h e false (Sequence_add q part)
    = sequencePattern h
        (map (fun sub => substringsToPattern h e sub 1)
             (firstn (List.length (parts q)) (substrs q ++ [part_substr part])))).
  { intro q. unfold sequencesToPattern_one, Sequence_length.
    cbn [Sequence_add parts substrs]. rewrite length_app. cbn [List.length].
    replace (Z.to_nat (Z.of_nat (List.length (parts q) + 1) - 1))
      with (List.length (parts q)) by lia.
    reflexivity. }
  assert (Hpat : pattern (scan_step h e str s i)
     = pattern s
       ++ to_string
            (arrayToPattern h
               (map (fun q =>
                       sequencePattern h
                         (map (fun sub => substringsToPattern h e sub 1)
                              (firstn (List.length (parts q))
                                 (substrs q ++ [part_substr part]))))
                    (sequences s)))).
  { rewrite Hstep. cbn [pattern]. unfold sequencesToPattern.
    rewrite Hvis, map_map. do 3 f_equal. apply map_ext. exact Hone. }
  split; [exact Hvis|]. split; [exact Htype|]. split; [exact Hstep|].
  split; [rewrite Hstep; reflexivity|]. split; [exact Hpat|].
  intro Hsub. rewrite Hpat, Hvis, map_map. do 3 f_equal.
  apply map_ext_in. intros q Hq. f_equal.
  cbn [Sequence_add parts]. rewrite removelast_last, (Hsub q Hq).
  rewrite <- (length_map part_substr (parts q)).
  rewrite firstn_app, Nat.sub_diag, firstn_all. cbn [firstn].
  now rewrite app_nil_r, map_map.
Qed.

Lemma compaction_collapses_live_set_witness :
  sequences (scan_step Model.host Model.roman_engine (ustr "ix")
               (scan_until Model.host Model.roman_engine (ustr "ix") 1) 1)
  = [Sequence_add Sequence_new (char_part 1 (ustr "x"))]
  /\ pattern (scan_step Model.host Model.roman_engine (ustr "ix")
                (scan_until Model.host Model.roman_engine (ustr "ix") 1) 1)
     = ustr "(?:(?:(?:i|" ++ [0x2170] ++ ustr ")))".
Proof.
  destruct (@compaction_collapses_live_set Model.host Model.roman_engine (ustr "ix")
              (scan_until Model.host Model.roman_engine (ustr "ix") 1) 1
              (type_char (ustr "x")) ltac:(lia) ltac:(vm_compute; discriminate)
              ltac:(vm_compute; reflexivity) ltac:(vm_compute; reflexivity)
              ltac:(vm_compute; discriminate))
    as (_ & _ & _ & Hseqs & _ & Hpat).
  split.
  - rewrite Hseqs. vm_compute. reflexivity.
  - rewrite Hpat by apply scan_until_substrs. vm_compute. reflexivity.
Defined.

(** ** The overlap branch *)

Lemma insert_by_length_perm (x : Sequence) (l : list Sequence) :
  Permutation (insert_by_length x l) (x :: l).
Proof.
  induction l as [|z l IH]; simpl; [apply Permutation_refl|].
  destruct (Sequence_length x <=? Sequence_length z); [apply Permutation_refl|].
  eapply Permutation_trans; [apply perm_skip, IH | apply perm_swap].
Qed.

Lemma insert_by_length_sorted (x : Sequence) (l : list Sequence) :
  StronglySorted not_longer l ->
  StronglySorted not_longer (insert_by_length x l).
Proof.
  induction l as [|z l IH]; intro Hs; simpl.
  - constructor; constructor.
  - inversion Hs as [|? ? Hl Hz]; subst.
    destruct (Sequence_length x <=? Sequence_length z) eqn:E.
    + apply Z.leb_le in E. constructor; [assumption|].
      constructor; [exact E|].
      rewrite Forall_forall in *. intros y Hy. specialize (Hz y Hy).
      unfold not_longer in *. lia.
    + apply Z.leb_gt in E. constructor; [now apply IH|].
      rewrite Forall_forall in *. intros y Hy.
      apply In_insert_by_length in Hy as [-> | Hy];
        [unfold not_longer; lia | now apply Hz].
Qed.

Lemma insert_by_length_stable (n : Z) (x : Sequence) (l : list Sequence) :
  filter (fun y => Sequence_length y =? n) (insert_by_length x l)
  = filter (fun y => Sequence_length y =? n) (x :: l).
Proof.
  induction l as [|z l IH]; [reflexivity|]. cbn [insert_by_length].
  destruct (Sequence_length x <=? Sequence_length z) eqn:E; [reflexivity|].
  apply Z.leb_gt in E. cbn [filter] in *. rewrite IH.
  destruct (Sequence_length z =? n) eqn:Ez; [|reflexivity].
  apply Z.eqb_eq in Ez.
  destruct (Sequence_length x =? n) eqn:Ex; [apply Z.eqb_eq in Ex; lia | reflexivity].
Qed.

(** The queue is sorted by number of parts, and the sort is stable. *)
Lemma sort_by_length_sorts (l : list Sequence) :
  Permutation (sort_by_length l) l
  /\ StronglySorted not_longer (sort_by_length l)
  /\ forall n, filter (fun y => Sequence_length y =? n) (sort_by_length l)
               = filter (fun y => Sequence_length y =? n) l.
Proof.
  unfold sort_by_length. induction l as [|x l (Hp & Hs & Hst)].
  - repeat split; constructor.
  - cbn [fold_right]. split; [|split].
    + eapply Permutation_trans; [apply insert_by_length_perm|].
      now apply perm_skip.
    + now apply insert_by_length_sorted.
    + intro n. rewrite insert_by_length_stable. cbn [filter]. now rewrite Hst.
Qed.

(** The push loop follows the rule. *)
Lemma push_clones_pushed (clones : list Sequence) :
  forall seqs, pushed seqs clones (push_clones seqs clones).
Proof.
  unfold push_clones. induction clones as [|c clones IH]; intro seqs;
    cbn [fold_left].
  - constructor.
  - destruct (inSequences c seqs) eqn:E.
    + apply pushed_dropped; [exact E | apply IH].
    + apply pushed_added; [exact E | apply IH].
Qed.

Lemma pushed_app (before queue : list Sequence) :
  forall there result,
    pushed there (before ++ queue) result ->
    exists middle, pushed there before middle /\ pushed middle queue result.
Proof.
  induction before as [|c before IH]; intros there result H; cbn [app] in H.
  - exists there. split; [constructor | exact H].
  - inversion H as [| ? ? ? ? Hin Hrest | ? ? ? ? Hin Hrest]; subst.
    + destruct (IH _ _ Hrest) as (middle & H1 & H2). exists middle.
      split; [now apply pushed_dropped | exact H2].
    + destruct (IH _ _ Hrest) as (middle & H1 & H2). exists middle.
      split; [now apply pushed_added | exact H2].
Qed.

Lemma pushed_extends (there queue result : list Sequence) :
  pushed there queue result ->
  exists kept, result = there ++ kept /\ incl kept queue
               /\ (List.length kept <= List.length queue)%nat.
Proof.
  induction 1 as [there | there c queue result Hin _ (kept & -> & Hi & Hl)
                 | there c queue result Hin _ (kept & -> & Hi & Hl)].
  - exists []. rewrite app_nil_r. repeat split; [apply incl_refl | simpl; lia].
  - exists kept. repeat split; [now apply incl_tl | simpl; lia].
  - exists (c :: kept). rewrite <- app_assoc. repeat split.
    + intros x [<- | Hx]; [now left | right; now apply Hi].
    + simpl. lia.
Qed.

(** C6, as the code has it. At a position [i] where a multi-character key
    begins, a live sequence whose last part is longer than one character and
    ends after [i] is left as it is, and its clone is queued: the parts
    before the last unchanged, the last part cut to end exactly at [i], then
    the match. The queue is sorted by number of parts, clones with the same
    number staying in the order in which they were queued. The clones are
    then taken in that order: a clone joins the live set, at its end, exactly
    when [inSequences] finds no equivalent among the sequences that are
    there at its turn, the live sequences and the clones added before it;
    otherwise it is dropped. *)
Theorem overlap_clone_queued (h : Host) (e : Engine) (str : jsstring)
  (s : Scan) (i : Z) (q : Sequence) (lp : Part) (text : jsstring) :
  In q (sequences s) ->
  Sequence_last q = Some lp ->
  1 < part_length lp -> i < part_end lp ->
  match_at e (substring_from str i) = Some text ->
  part_start lp <= i ->
  part_end lp = part_start lp + strlen (part_substr lp) ->
  parts (overlap_clone q lp i text)
  = removelast (parts q) ++ [truncate_part lp i; match_part i text]
  /\ part_end (truncate_part lp i) = i
  /\ In (overlap_clone q lp i text) (overlapping (visit_at e str s i))
  /\ In q (visited (visit_at e str s i))
  /\ In q (sequences (scan_step h e str s i))
  /\ (In (overlap_clone q lp i text) (sequences (scan_step h e str s i))
      \/ exists live,
           incl live (sequences (scan_step h e str s i))
           /\ inSequences (overlap_clone q lp i text) live = true)
  /\ Permutation (sort_by_length (overlapping (visit_at e str s i)))
                 (overlapping (visit_at e str s i))
  /\ StronglySorted not_longer (sort_by_length (overlapping (visit_at e str s i)))
  /\ (forall n,
        filter (fun c => Sequence_length c =? n)
               (sort_by_length (overlapping (visit_at e str s i)))
        = filter (fun c => Sequence_length c =? n)
                 (overlapping (visit_at e str s i)))
  /\ pushed (visited (visit_at e str s i))
            (sort_by_length (overlapping (visit_at e str s i)))
            (sequences (scan_step h e str s i))
  /\ (forall before after,
        sort_by_length (overlapping (visit_at e str s i))
        = before ++ overlap_clone q lp i text :: after ->
        exists there kept,
          pushed (visited (visit_at e str s i)) before there
          /\ there = visited (visit_at e str s i) ++ kept
          /\ incl kept before
          /\ (inSequences (overlap_clone q lp i text) there = true ->
              pushed there after (sequences (scan_step h e str s i)))
          /\ (inSequences (overlap_clone q lp i text) there = false ->
              pushed (there ++ [overlap_clone q lp i text]) after
                     (sequences (scan_step h e str s i))
              /\ In (overlap_clone q lp i text)
                    (sequences (scan_step h e str s i)))).
Proof.
  intros Hq Hlast Hlen Hend Hm Hstart Hwf.
  set (char := substring str i (i + 1)).
  destruct (visit_all_spec i (Some text) char (sequences s)) as (Hv & Ho & _).
  assert (Hvisit : visit_at e str s i = visit_all i (Some text) char (sequences s)).
  { unfold visit_at. now rewrite Hm. }
  rewrite <- Hvisit in Hv, Ho.
  assert (Hcan : can_extend (Sequence_last q) i = false).
  { rewrite Hlast. simpl. apply orb_false_iff. split.
    - apply Z.eqb_neq. lia.
    - apply Z.leb_gt. lia. }
  assert (Hclone : In (overlap_clone q lp i text) (overlapping (visit_at e str s i))).
  { rewrite Ho. apply in_flat_map. exists q. split; [assumption|].
    unfold visit_clones. rewrite Hcan, Hlast.
    destruct (@Sequence_clone_overlap q i lp text Hlast) as (c & -> & <-);
      [lia | assumption | now left]. }
  assert (Hkept : In q (visited (visit_at e str s i))).
  { rewrite Hv. apply in_map_iff. exists q. split; [|assumption].
    unfold visit_update. now rewrite Hcan. }
  assert (Hstep : sequences (scan_step h e str s i)
                  = push_clones (visited (visit_at e str s i))
                                (sort_by_length (overlapping (visit_at e str s i)))).
  { unfold scan_step. fold (visit_at e str s i).
    destruct (overlapping (visit_at e str s i)) as [|c l]; [contradiction|].
    reflexivity. }
  assert (Hpushed : pushed (visited (visit_at e str s i))
                      (sort_by_length (overlapping (visit_at e str s i)))
                      (sequences (scan_step h e str s i))).
  { rewrite Hstep. apply push_clones_pushed. }
  destruct (sort_by_length_sorts (overlapping (visit_at e str s i)))
    as (Hperm & Hsorted & Hstable).
  split; [|split; [|split; [|split; [|split; [|split; [|split; [|split;
    [|split; [|split]]]]]]]]].
  - unfold overlap_clone, Sequence_add. simpl. rewrite parts_fold_add. simpl.
    now rewrite <- app_assoc.
  - reflexivity.
  - exact Hclone.
  - exact Hkept.
  - rewrite Hstep. now apply push_clones_incl.
  - rewrite Hstep. apply push_clones_clone. now apply In_sort_by_length.
  - exact Hperm.
  - exact Hsorted.
  - exact Hstable.
  - exact Hpushed.
  - intros before after Hsplit. rewrite Hsplit in Hpushed.
    destruct (pushed_app _ _ Hpushed) as (there & Hbefore & Hrest).
    destruct (pushed_extends Hbefore) as (kept & Hthere & Hincl & _).
    exists there, kept. split; [exact Hbefore|]. split; [exact Hthere|].
    split; [exact Hincl|].
    inversion Hrest as [| ? ? ? ? Hin Hafter | ? ? ? ? Hin Hafter]; subst.
    + split; [intros _; exact Hafter | intro H; congruence].
    + split; [intro H; congruence|]. intros _. split; [exact Hafter|].
      destruct (pushed_extends Hafter) as (kept' & -> & _).
      apply in_app_iff. left. apply in_app_iff. right. now left.
Qed.

Lemma overlap_clone_queued_witness :
  In (mkSequence [mkPart 0 1 1 (ustr "i"); mkPart 1 4 3 (ustr "iii")]
                 [ustr "i"; ustr "iii"] 0 4)
     (sequences (scan_step Model.host Model.roman_engine (ustr "iiii")
                   (scan_until Model.host Model.roman_engine (ustr "iiii") 2) 2))
  /\ StronglySorted not_longer
       (sort_by_length
          (overlapping (visit_at Model.roman_engine (ustr "iiii")
                          (scan_until Model.host Model.roman_engine (ustr "iiii") 2) 2)))
  /\ pushed
       (visited (visit_at Model.roman_engine (ustr "iiii")
                   (scan_until Model.host Model.roman_engine (ustr "iiii") 2) 2))
       (sort_by_length
          (overlapping (visit_at Model.roman_engine (ustr "iiii")
                          (scan_until Model.host Model.roman_engine (ustr "iiii") 2) 2)))
       (sequences (scan_step Model.host Model.roman_engine (ustr "iiii")
                     (scan_until Model.host Model.roman_engine (ustr "iiii") 2) 2)).
Proof.
  destruct (@overlap_clone_queued Model.host Model.roman_engine (ustr "iiii")
           (scan_until Model.host Model.roman_engine (ustr "iiii") 2) 2
           (mkSequence [mkPart 0 1 1 (ustr "i"); mkPart 1 4 3 (ustr "iii")]
                       [ustr "i"; ustr "iii"] 0 4)
           (mkPart 1 4 3 (ustr "iii")) (ustr "ii"))
    as (_ & _ & _ & _ & Hlive & _ & _ & Hsorted & _ & Hpushed & _).
  - vm_compute. right. now left.
  - reflexivity.
  - simpl. lia.
  - simpl. lia.
  - vm_compute. reflexivity.
  - simpl. lia.
  - vm_compute. reflexivity.
  - split; [exact Hlive|]. split; [exact Hsorted | exact Hpushed].
Defined.

(** * The choice of the path *)

(** ** The model host finds literals only where they occur *)

Module ModelSearch.

Import Model.
Import ModelProperties.

Lemma concat_Array_from_bounded (n : nat) :
  forall x, (List.length x <= n)%nat -> concat (Array_from x) = x.
Proof.
  induction n as [|n IH]; intros x Hlen.
  - destruct x; [reflexivity | simpl in Hlen; lia].
  - destruct x as [|c x]; [reflexivity|].
    destruct x as [|d x]; [reflexivity|].
    simpl in Hlen.
    destruct (is_high_surrogate c && is_low_surrogate d) eqn:E.
    + apply andb_true_iff in E as [Hc Hd].
      rewrite Array_from_pair by assumption.
      cbn [concat app]. rewrite IH by lia. reflexivity.
    + rewrite (Array_from_cons c (d :: x)) by exact E.
      cbn [concat app]. rewrite (IH (d :: x)) by (simpl; lia). reflexivity.
Qed.

Lemma concat_Array_from (x : jsstring) : concat (Array_from x) = x.
Proof. apply (concat_Array_from_bounded (n := List.length x)). lia. Qed.

(** A case-sensitive match of literals consumes the literals. *)
Lemma lits_match_exact (cps : list jsstring) :
  forall inp rest,
    lits_match false cps inp = Some rest -> inp = cps ++ rest.
Proof.
  induction cps as [|cp cps IH]; intros inp rest H; cbn [lits_match] in H.
  - now injection H as ->.
  - destruct inp as [|c inp]; [discriminate|].
    destruct (cp_eqb false cp c) eqn:E; [|discriminate].
    unfold cp_eqb, canonicalize in E. apply str_eqb_eq in E. subst c.
    cbn [app]. f_equal. now apply IH.
Qed.

Lemma search_nowhere (ci : bool) (r : re) (inp : list jsstring) :
  forall pos index,
    (forall before suffix p, inp = before ++ suffix ->
                             re_match ci r (p, suffix) = []) ->
    search ci r pos index inp = None.
Proof.
  induction inp as [|c inp IH]; intros pos index H; cbn [search].
  - now rewrite (H [] [] pos eq_refl).
  - rewrite (H [] (c :: inp) pos eq_refl). apply IH.
    intros before suffix p ->. apply (H (c :: before) suffix p). reflexivity.
Qed.

Lemma parse_alternation (ys : list jsstring) :
  ys <> [] ->
  parse (T_open :: alt_tokens ys ++ [T_close])
  = Some (seq_of [alt_of (map lit_seq ys)]).
Proof.
  intro Hne. unfold parse. cbn [fold_left parse_token]. rewrite fold_left_app.
  destruct (parse_alternatives Hne [] [mkFrame [] [] false]) as (q & Hq).
  rewrite Hq. cbn [fold_left parse_token].
  unfold push_term, close_frame. cbn [alts cur app].
  change (seq_of (map Re_lit (Array_from (last ys [])))) with (lit_seq (last ys [])).
  replace (map lit_seq (removelast ys) ++ [lit_seq (last ys [])])
    with (map lit_seq ys); [reflexivity|].
  rewrite (app_removelast_last [] Hne) at 1. now rewrite map_app.
Qed.

Lemma tokenize_alternation (ys : list jsstring) :
  ys <> [] ->
  tokenize (Array_from (ustr "(?:" ++ join (ustr "|") (map escape_regex ys) ++ ustr ")"))
  = Some (T_open :: alt_tokens ys ++ [T_close]).
Proof.
  intro Hne. change (ustr "(?:") with [40; 63; 58]. change (ustr ")") with [41].
  cbn [app].
  rewrite (Array_from_cons 40), (Array_from_cons 63), (Array_from_cons 58)
    by reflexivity.
  change (tokenize ([40] :: [63] :: [58] :: ?x))
    with (option_map (cons T_open) (tokenize x)).
  rewrite tokenize_alternatives by (assumption || reflexivity).
  reflexivity.
Qed.

Lemma RegExp_u (p : jsstring) (ts : list token) (r : re) :
  tokenize (Array_from p) = Some ts -> parse ts = Some r ->
  RegExp (Some p) flags_u
  = Some (fun subject => search false r 0 0 (Array_from subject)).
Proof. intros Ht Hp. unfold RegExp. rewrite Ht, Hp. reflexivity. Qed.

(** The model host meets the contract of the path test. *)
Lemma model_literal_search_contract : literal_search_contract host.
Proof.
  intros l Hne Hesc. destruct (escaped_set_literals Hesc) as (ys & ->).
  destruct ys as [|y0 ys']; [contradiction|].
  set (ys := y0 :: ys'). assert (Hys : ys <> []) by discriminate.
  eexists. split.
  - apply (RegExp_u _ (tokenize_alternation Hys) (parse_alternation Hys)).
  - intros str Hnone. cbv beta.
    apply search_nowhere. intros before suffix p Hsplit.
    cbn [seq_of fold_right re_match].
    destruct (re_match false (alt_of (map lit_seq ys)) (p, suffix))
      as [|st' rest] eqn:E; [reflexivity|]. exfalso.
    assert (Hin : In st' (re_match false (alt_of (map lit_seq ys)) (p, suffix)))
      by (rewrite E; now left).
    apply In_re_match_alt_of in Hin as (r & Hr & Hin);
      [|destruct ys; [contradiction | discriminate]].
    apply in_map_iff in Hr as (y & <- & Hy).
    rewrite re_match_lit_seq in Hin.
    destruct (lits_match false (Array_from y) suffix) as [rest'|] eqn:Em;
      [|contradiction].
    apply lits_match_exact in Em.
    destruct (Hnone (escape_regex y) (in_map escape_regex ys y Hy))
      as (y' & Heq & Hno).
    apply escape_regex_code_points in Heq.
    assert (Hy' : y' = y)
      by (rewrite <- (concat_Array_from y'), <- Heq; apply concat_Array_from).
    subst y'. apply Hno. exists (concat before), (concat rest').
    rewrite <- (concat_Array_from str) at 1.
    rewrite Hsplit, Em, !concat_app. now rewrite concat_Array_from.
Qed.

End ModelSearch.

(** ** The simple path does not count replacements *)

Section PathChoice.

Variable h : Host.

Lemma In_multi_char (sets : TUnicodeSets) (x : jsstring) :
  In x (sort_longest_first (generateMap_multi_char h sets)) <->
  exists k, hasOwnProperty sets k = true /\ 1 < strlen k /\ x = escape_regex h k.
Proof.
  assert (Hperm : forall l, Permutation (sort_longest_first l) l).
  { induction l as [|y l IH]; [apply Permutation_refl|]. simpl.
    eapply Permutation_trans; [apply insert_longest_first_perm|].
    now apply perm_skip. }
  split.
  - intro Hx. apply (Permutation_in _ (Hperm _)) in Hx.
    unfold generateMap_multi_char in Hx.
    apply in_map_iff in Hx as (k & <- & Hk). apply filter_In in Hk as [Hk Hlen].
    apply In_for_in_keys, obj_keys_get in Hk as (v & Hv).
    exists k. unfold hasOwnProperty. rewrite Hv.
    repeat split. now apply Z.ltb_lt.
  - intros (k & Hk & Hlen & ->).
    apply (Permutation_in _ (Permutation_sym (Hperm _))).
    unfold generateMap_multi_char. apply in_map. apply filter_In.
    split; [|now apply Z.ltb_lt].
    apply In_for_in_keys. unfold hasOwnProperty in Hk.
    destruct (obj_get sets k) eqn:E; [|discriminate].
    now apply obj_get_In_keys with (v := l).
Qed.

(** The keys of the map are the keys of the variant sets. *)
Lemma generateMap_entries_has (sets : TUnicodeSets) (k : jsstring) :
  hasOwnProperty (generateMap_entries h sets) k = hasOwnProperty sets k.
Proof.
  unfold hasOwnProperty. rewrite generateMap_entries_get.
  now destruct (obj_get sets k).
Qed.

(** With a multi-character key in the map, [multi_char_reg] finds nothing
    in a string in which no multi-character key occurs. *)
Lemma multi_char_reg_finds_keys_only (code_points : list (Z * Z)) (e : Engine)
  (str : jsstring) :
  literal_search_contract h ->
  generateMap h code_points = Some e ->
  (exists k, hasOwnProperty (unicode_map e) k = true /\ 1 < strlen k) ->
  (forall before run after, str = before ++ run ++ after ->
     1 < strlen run -> hasOwnProperty (unicode_map e) run = false) ->
  multi_char_reg e str = None.
Proof.
  intros Hcontract He (k0 & Hk0 & Hlen0) Hno. unfold generateMap in He.
  destruct (generateSets h code_points) as [sets|]; [|discriminate].
  destruct (RegExp h _ flags_u) as [reg|] eqn:Ereg; [|discriminate].
  injection He as <-. cbn [unicode_map multi_char_reg] in *.
  rewrite generateMap_entries_has in Hk0.
  destruct (Hcontract (sort_longest_first (generateMap_multi_char h sets)))
    as (r & Hr & Hnone).
  - intro Hnil.
    assert (Hin : In (escape_regex h k0)
                     (sort_longest_first (generateMap_multi_char h sets)))
      by (apply In_multi_char; exists k0; auto).
    rewrite Hnil in Hin. contradiction.
  - intros p Hp. apply In_multi_char in Hp as (k & _ & _ & ->). now exists k.
  - rewrite Hr in Ereg. injection Ereg as <-. apply Hnone.
    intros p Hp. apply In_multi_char in Hp as (k & Hk & Hlen & ->).
    exists k. split; [reflexivity|]. intros (before & after & Hsplit).
    specialize (Hno before k after Hsplit Hlen).
    rewrite generateMap_entries_has in Hno. congruence.
Qed.

(** The elements of [Array.from(str)] are runs of [str]. *)
Lemma Array_from_runs (str : jsstring) (c : jsstring) :
  In c (Array_from str) -> occurs c str.
Proof.
  intro Hc. apply in_split in Hc as (l1 & l2 & Hsplit).
  exists (concat l1), (concat l2).
  rewrite <- (ModelSearch.concat_Array_from str), Hsplit, concat_app.
  reflexivity.
Qed.

End PathChoice.

(** C1, as the code has it. When the map holds a multi-character key and no
    multi-character key occurs in the folded input, [getPattern] calls
    [mapSequence] with the minimum 0: it returns the concatenation of the
    fragments of the characters of the fold whatever the number of
    characters replaced. In particular, when no run of the folded input is a
    key of the map, no character is replaced, [mapSequence] with its default
    minimum 1 returns nothing for the same characters, and [getPattern]
    still returns a pattern: the characters of the fold handed to
    [sequencePattern] as they are. *)
Theorem getPattern_pattern_without_replacement (h : Host)
  (code_points : list (Z * Z)) (e : Engine) (s : jsstring) :
  literal_search_contract h ->
  generateMap h code_points = Some e ->
  (exists k, hasOwnProperty (unicode_map e) k = true /\ 1 < strlen k) ->
  (forall before run after,
     asciifold h s = before ++ run ++ after ->
     1 < strlen run -> hasOwnProperty (unicode_map e) run = false) ->
  multi_char_reg e (asciifold h s) = None
  /\ getPattern h e s = mapSequence h e (Array_from (asciifold h s)) 0
  /\ getPattern h e s
     = Some (sequencePattern h
               (map (fun c => Some (mapSequence_run e c))
                    (Array_from (asciifold h s))))
  /\ ((forall before run after,
         asciifold h s = before ++ run ++ after ->
         hasOwnProperty (unicode_map e) run = false) ->
      chars_replaced e (Array_from (asciifold h s)) = 0
      /\ mapSequence h e (Array_from (asciifold h s)) 1 = None
      /\ getPattern h e s
         = Some (sequencePattern h (map Some (Array_from (asciifold h s))))).
Proof.
  intros Hcontract He Hkey Hno.
  pose proof (@multi_char_reg_finds_keys_only h code_points e (asciifold h s)
                Hcontract He Hkey Hno) as Hreg.
  assert (Hsimple : getPattern h e s = mapSequence h e (Array_from (asciifold h s)) 0).
  { unfold getPattern. now rewrite Hreg. }
  split; [exact Hreg|]. split; [exact Hsimple|].
  split; [rewrite Hsimple; apply mapSequence_zero|].
  intro Hnone.
  assert (Habs : forall r, In r (Array_from (asciifold h s)) ->
                           hasOwnProperty (unicode_map e) r = false).
  { intros r Hr. apply Array_from_runs in Hr as (before & after & Hsplit).
    exact (Hnone before r after Hsplit). }
  assert (Hzero : chars_replaced e (Array_from (asciifold h s)) = 0)
    by now apply chars_replaced_absent.
  split; [exact Hzero|]. split.
  - unfold mapSequence. rewrite Hzero. reflexivity.
  - rewrite Hsimple, mapSequence_zero. now rewrite map_run_absent.
Qed.

Lemma getPattern_pattern_without_replacement_witness :
  getPattern Model.host Model.roman_engine (ustr "xyz123") = Some (ustr "xyz123")
  /\ mapSequence Model.host Model.roman_engine
       (Array_from (asciifold Model.host (ustr "xyz123"))) 1 = None.
Proof.
  assert (Hno : forall before run after,
            asciifold Model.host (ustr "xyz123") = before ++ run ++ after ->
            hasOwnProperty (unicode_map Model.roman_engine) run = false).
  { intros before run after Hsplit.
    destruct (hasOwnProperty (unicode_map Model.roman_engine) run) eqn:E;
      [|reflexivity].
    apply roman_engine_keys in E.
    assert (Hin : In 105 (asciifold Model.host (ustr "xyz123"))).
    { rewrite Hsplit. apply in_app_iff. right. apply in_app_iff. now left. }
    vm_compute in Hin. intuition discriminate. }
  destruct (@getPattern_pattern_without_replacement Model.host Model.roman_ranges
              Model.roman_engine (ustr "xyz123")
              ModelSearch.model_literal_search_contract)
    as (_ & _ & _ & Hecho).
  - vm_compute. reflexivity.
  - exists (ustr "ii"). split; vm_compute; reflexivity.
  - intros before run after Hsplit _. exact (Hno before run after Hsplit).
  - destruct (Hecho Hno) as (_ & Hdefault & Hpat).
    split; [rewrite Hpat; vm_compute; reflexivity | exact Hdefault].
Defined.


(** * Readings of the folded input *)

(** ** Segmentations *)

Lemma tiles_split (l1 : list Part) (p : Part) (l2 : list Part) :
  forall k e,
    tiles k (l1 ++ p :: l2) e <->
    tiles k l1 (part_start p) /\ tiles (part_end p) l2 e.
Proof.
  induction l1 as [|x l1 IH]; intros k e; cbn [app tiles].
  - split; [intros [H1 H2] | intros [H1 H2]]; auto.
  - rewrite IH. tauto.
Qed.

(** The parts of a segmentation come one after the other. *)
Lemma tiles_order (ps : list Part) (k e : Z) (p q : Part) :
  tiles k ps e ->
  (forall x, In x ps -> part_start x < part_end x) ->
  In p ps -> In q ps -> part_start p < part_start q ->
  part_end p <= part_start q.
Proof.
  intros Ht Hpos Hp Hq Hlt.
  apply in_split in Hp as (l1 & l2 & ->).
  apply tiles_split in Ht as [Ht1 Ht2].
  assert (Hpos1 : forall x, In x l1 -> part_start x < part_end x)
    by (intros x Hx; apply Hpos; apply in_app_iff; now left).
  assert (Hpos2 : forall x, In x l2 -> part_start x < part_end x)
    by (intros x Hx; apply Hpos; apply in_app_iff; right; now right).
  apply in_app_iff in Hq as [Hq | [<- | Hq]].
  - destruct (@tiles_bounds l1 _ _ Ht1 Hpos1) as [_ Hb].
    destruct (Hb q Hq) as [_ Hqe]. specialize (Hpos1 q Hq). lia.
  - lia.
  - destruct (@tiles_bounds l2 _ _ Ht2 Hpos2) as [_ Hb].
    destruct (Hb q Hq) as [Hqs _]. lia.
Qed.

(** Two parts of a segmentation that begin at the same position end at the
    same position. *)
Lemma tiles_same_start (ps : list Part) (k e : Z) (p q : Part) :
  tiles k ps e ->
  (forall x, In x ps -> part_start x < part_end x) ->
  In p ps -> In q ps -> part_start p = part_start q ->
  part_end p = part_end q.
Proof.
  intros Ht Hpos Hp Hq Heq.
  apply in_split in Hp as (l1 & l2 & ->).
  apply tiles_split in Ht as [Ht1 Ht2].
  assert (Hpos1 : forall x, In x l1 -> part_start x < part_end x)
    by (intros x Hx; apply Hpos; apply in_app_iff; now left).
  assert (Hpos2 : forall x, In x l2 -> part_start x < part_end x)
    by (intros x Hx; apply Hpos; apply in_app_iff; right; now right).
  pose proof (Hpos p ltac:(apply in_app_iff; right; now left)) as Hp.
  apply in_app_iff in Hq as [Hq | [<- | Hq]].
  - destruct (@tiles_bounds l1 _ _ Ht1 Hpos1) as [_ Hb].
    destruct (Hb q Hq) as [_ Hqe]. specialize (Hpos1 q Hq). lia.
  - reflexivity.
  - destruct (@tiles_bounds l2 _ _ Ht2 Hpos2) as [_ Hb].
    destruct (Hb q Hq) as [Hqs _]. lia.
Qed.

(** Every position of a segmentation lies in one of its parts. *)
Lemma tiles_locate (ps : list Part) :
  forall k e y,
    tiles k ps e -> k <= y < e ->
    (forall x, In x ps -> part_start x < part_end x) ->
    exists p, In p ps /\ part_start p <= y < part_end p.
Proof.
  induction ps as [|p ps IH]; intros k e y Ht Hy Hpos; cbn [tiles] in Ht.
  - lia.
  - destruct Ht as [Hs Ht].
    destruct (Z_lt_ge_dec y (part_end p)) as [Hlt | Hge].
    + exists p. split; [now left | lia].
    + destruct (IH (part_end p) e y Ht ltac:(lia)) as (q & Hq & Hb).
      { intros x Hx. apply Hpos. now right. }
      exists q. split; [now right | exact Hb].
Qed.

(** ** The test of equivalence *)

Lemma inSequences_conflict_cons (part needle_part : Part) (rest : list Part) :
  inSequences_conflict part (needle_part :: rest)
  = match conflict_verdict part needle_part with
    | Some b => b
    | None => inSequences_conflict part rest
    end.
Proof.
  cbn [inSequences_conflict]. unfold conflict_verdict.
  destruct ((part_start needle_part =? part_start part)
            && str_eqb (part_substr needle_part) (part_substr part));
    [reflexivity|].
  destruct ((part_length part =? 1) || (part_length needle_part =? 1));
    [reflexivity|].
  destruct ((part_start part <? part_start needle_part)
            && (part_start needle_part <? part_end part)); [reflexivity|].
  destruct ((part_start needle_part <? part_start part)
            && (part_start part <? part_end needle_part)); reflexivity.
Qed.

Lemma inSequences_equivalent (needle_seq : Sequence) (l : list Sequence) :
  inSequences needle_seq l = true <->
  exists seq, In seq l /\ equivalent seq needle_seq.
Proof.
  induction l as [|x l IH]; cbn [inSequences].
  - split; [discriminate | intros (seq & [] & _)].
  - cbv zeta.
    destruct (seq_start x =? seq_start needle_seq) eqn:Es; cbn [negb orb].
    + destruct (seq_end x =? seq_end needle_seq) eqn:Ee; cbn [negb].
      * destruct (str_eqb (join_all (substrs x)) (join_all (substrs needle_seq)))
          eqn:Et; cbn [negb].
        -- destruct (filter (fun part => inSequences_conflict part (parts needle_seq))
                            (parts x)) as [|c cs] eqn:Ef.
           ++ cbn [List.length]. change (0 <? Z.of_nat 0) with false. cbv iota.
              split; [intros _ | reflexivity]. exists x. split; [now left|].
              apply Z.eqb_eq in Es. apply Z.eqb_eq in Ee. apply str_eqb_eq in Et.
              repeat split; try assumption. now apply filter_nil_iff.
           ++ replace (0 <? Z.of_nat (List.length (c :: cs))) with true
                by (symmetry; apply Z.ltb_lt; cbn [List.length]; lia).
              rewrite IH. split.
              ** intros (seq & Hin & H). exists seq. split; [now right | exact H].
              ** intros (seq & [<- | Hin] & H); [|now exists seq].
                 destruct H as (_ & _ & _ & Hno). apply filter_nil_iff in Hno.
                 rewrite Hno in Ef. discriminate Ef.
        -- rewrite IH. split.
           ++ intros (seq & Hin & H). exists seq. split; [now right | exact H].
           ++ intros (seq & [<- | Hin] & H); [|now exists seq].
              destruct H as (_ & _ & Heq & _). rewrite Heq, str_eqb_refl in Et.
              discriminate Et.
      * rewrite IH. split.
        -- intros (seq & Hin & H). exists seq. split; [now right | exact H].
        -- intros (seq & [<- | Hin] & H); [|now exists seq].
           destruct H as (_ & Heq & _). apply Z.eqb_neq in Ee. contradiction.
    + rewrite IH. split.
      * intros (seq & Hin & H). exists seq. split; [now right | exact H].
      * intros (seq & [<- | Hin] & H); [|now exists seq].
        destruct H as (Heq & _). apply Z.eqb_neq in Es. contradiction.
Qed.

(** Two parts of more than one character that overlap are in conflict,
    when the needle does not hold the part itself. *)
Lemma conflict_crossing (part np : Part) (needle_parts : list Part) :
  In np needle_parts ->
  (forall n, In n needle_parts ->
             part_start n = part_start part -> part_substr n <> part_substr part) ->
  part_length part <> 1 -> part_length np <> 1 ->
  part_start part < part_start np < part_end part
  \/ part_start np < part_start part < part_end np ->
  inSequences_conflict part needle_parts = true.
Proof.
  intros Hin Hnot Hlen Hnlen Hcross.
  induction needle_parts as [|n rest IH]; [contradiction|].
  rewrite inSequences_conflict_cons. unfold conflict_verdict.
  assert (Hex : (part_start n =? part_start part)
                && str_eqb (part_substr n) (part_substr part) = false).
  { destruct (part_start n =? part_start part) eqn:Es; [|reflexivity].
    apply Z.eqb_eq in Es. cbn [andb]. apply str_eqb_neq.
    apply Hnot; [now left | assumption]. }
  rewrite Hex.
  assert (Hp1 : (part_length part =? 1) = false) by now apply Z.eqb_neq.
  rewrite Hp1. cbn [orb].
  destruct (part_length n =? 1) eqn:En.
  - apply IH.
    + destruct Hin as [<- | Hin]; [|assumption].
      apply Z.eqb_eq in En. contradiction.
    + intros n' Hn'. apply Hnot. now right.
  - destruct ((part_start part <? part_start n) && (part_start n <? part_end part))
      eqn:E1; [reflexivity|].
    destruct ((part_start n <? part_start part) && (part_start part <? part_end n))
      eqn:E2; [reflexivity|].
    apply IH.
    + destruct Hin as [<- | Hin]; [|assumption]. exfalso.
      destruct Hcross as [[H1 H2] | [H1 H2]].
      * assert (Hc : (part_start part <? part_start n)
                     && (part_start n <? part_end part) = true)
          by (apply andb_true_iff; split; apply Z.ltb_lt; assumption).
        rewrite Hc in E1. discriminate E1.
      * assert (Hc : (part_start n <? part_start part)
                     && (part_start part <? part_end n) = true)
          by (apply andb_true_iff; split; apply Z.ltb_lt; assumption).
        rewrite Hc in E2. discriminate E2.
    + intros n' Hn'. apply Hnot. now right.
Qed.

(** ** An equivalent sequence cuts the input where the clone cuts it *)

Section Equivalence.

Variable e : Engine.
Variable str : jsstring.
Hypothesis longest : matches_are_longest_keys e str.

Lemma reach_match (a : Z) :
  0 <= a < strlen str ->
  match_at e (substring_from str a) <> None -> a + 1 < reach e str a.
Proof.
  intros Ha Hm. unfold reach, scanned_part.
  destruct (match_at e (substring_from str a)) as [text|] eqn:Em;
    [|now contradiction Hm].
  destruct (longest Ha) as [Hrun _]. destruct (Hrun text Em) as [Hlen _].
  cbn [new_part match_part part_end]. lia.
Qed.

Lemma reach_after (a : Z) : 0 <= a < strlen str -> a < reach e str a.
Proof.
  intro Ha. unfold reach, scanned_part.
  destruct (match_at e (substring_from str a)) as [text|] eqn:Em.
  - destruct (longest Ha) as [Hrun _]. destruct (Hrun text Em) as [Hlen _].
    cbn [new_part match_part part_end]. lia.
  - cbn [new_part char_part part_end]. lia.
Qed.

Lemma equivalent_starts (k E : Z) (S N : list Part) :
  0 <= k -> E <= strlen str ->
  tiles k S E -> tiles k N E ->
  Forall (part_wf str) S -> Forall (part_wf str) N ->
  (forall p, In p N -> part_end p <= reach e str (part_start p)) ->
  (forall p, In p S -> truncated e str p ->
             match_at e (substring_from str (part_end p)) <> None) ->
  (forall l1 p1 p2 l2,
     S = l1 ++ p1 :: p2 :: l2 ->
     truncated e str p1 -> truncated e str p2 -> part_length p2 <> 1) ->
  (forall part, In part S -> inSequences_conflict part N = false) ->
  forall pre P post,
    S = pre ++ P :: post ->
    exists NP, In NP N /\ part_start NP = part_start P.
Proof.
  intros Hk HE HtS HtN HwfS HwfN Hprefix Hcut Hsingle Hfree.
  pose proof (@part_wf_positive str S HwfS) as HposS.
  pose proof (@part_wf_positive str N HwfN) as HposN.
  destruct (@tiles_bounds S k E HtS HposS) as [_ HbS].
  destruct (@tiles_bounds N k E HtN HposN) as [_ HbN].
  induction pre as [|Q pre' IH] using rev_ind; intros P post HS.
  - assert (HP : In P S) by (rewrite HS; now left).
    rewrite HS in HtS. cbn [app tiles] in HtS. destruct HtS as [Hs _].
    destruct (HbS P HP) as [_ HPe]. specialize (HposS P HP).
    destruct (@tiles_locate N k E k HtN ltac:(lia) HposN) as (NP & HNP & Hin).
    exists NP. split; [assumption|]. destruct (HbN NP HNP) as [Hlo _]. lia.
  - rewrite <- app_assoc in HS. cbn [app] in HS.
    destruct (IH Q (P :: post) HS) as (NQ & HNQ & HNQs).
    assert (HQ : In Q S) by (rewrite HS; apply in_app_iff; right; now left).
    assert (HP : In P S)
      by (rewrite HS; apply in_app_iff; right; right; now left).
    pose proof HtS as Hsplit. rewrite HS in Hsplit.
    apply tiles_split in Hsplit as [_ Hafter]. cbn [tiles] in Hafter.
    destruct Hafter as [Hjoin _].
    pose proof (HposS Q HQ) as HQpos. pose proof (HposS P HP) as HPpos.
    destruct (HbS Q HQ) as [HQlo _]. destruct (HbS P HP) as [_ HPhi].
    set (y := part_start P) in *.
    destruct (@tiles_locate N k E y HtN ltac:(lia) HposN) as (NP & HNP & Hin).
    destruct (Z.eq_dec (part_start NP) y) as [Heq | Hne];
      [exists NP; split; assumption|].
    exfalso.
    assert (Hinside : part_start NP < y) by lia.
    rewrite Forall_forall in HwfS, HwfN.
    assert (HNPlen : part_length NP <> 1).
    { destruct (HwfN NP HNP) as (_ & _ & He & _). lia. }
    destruct (Z.lt_trichotomy (part_start NQ) (part_start NP)) as [Hlt | [Hsame | Hgt]].
    + (* the part before crosses the start of the part of the needle *)
      pose proof (@tiles_order N k E NQ NP HtN HposN HNQ HNP Hlt) as Hord.
      assert (Hc : inSequences_conflict Q N = true).
      { apply (@conflict_crossing Q NP N HNP).
        - intros n Hn Hns Hsub.
          assert (Hne' : part_end n = part_end NQ)
            by (apply (@tiles_same_start N k E n NQ HtN HposN Hn HNQ); lia).
          pose proof (@part_wf_substr_length str n (HwfN n Hn)) as Hl1.
          pose proof (@part_wf_substr_length str Q (HwfS Q HQ)) as Hl2.
          rewrite Hsub in Hl1. lia.
        - destruct (HwfS Q HQ) as (_ & _ & He & _). lia.
        - assumption.
        - left. lia. }
      rewrite (Hfree Q HQ) in Hc. discriminate Hc.
    + (* the part before was cut inside the part of the needle *)
      assert (HQcut : truncated e str Q).
      { unfold truncated. pose proof (Hprefix NP HNP). rewrite <- HNQs, Hsame. lia. }
      pose proof (Hcut Q HQ HQcut) as Hmatch. rewrite <- Hjoin in Hmatch.
      pose proof (@reach_match y ltac:(lia) Hmatch) as Hreach.
      destruct (Z.eq_dec (part_length P) 1) as [Hone | Hmore].
      * apply (Hsingle pre' Q P post HS HQcut); [|assumption].
        unfold truncated. fold y. destruct (HwfS P HP) as (_ & _ & He & _).
        fold y in He. lia.
      * assert (Hc : inSequences_conflict P N = true).
        { apply (@conflict_crossing P NP N HNP).
          - intros n Hn Hns _. fold y in Hns.
            pose proof (@tiles_order N k E NP n HtN HposN HNP Hn ltac:(lia)). lia.
          - assumption.
          - assumption.
          - right. fold y. lia. }
        rewrite (Hfree P HP) in Hc. discriminate Hc.
    + pose proof (@tiles_order N k E NP NQ HtN HposN HNP HNQ Hgt). lia.
Qed.

End Equivalence.

(** ** A clone that cuts one character more *)

Lemma conflict_app_tail (P : Part) (l A B : list Part) :
  (inSequences_conflict P A = false -> inSequences_conflict P B = false) ->
  inSequences_conflict P (l ++ A) = false ->
  inSequences_conflict P (l ++ B) = false.
Proof.
  intro Htail. induction l as [|n l IH]; cbn [app]; [exact Htail|].
  rewrite !inSequences_conflict_cons.
  destruct (conflict_verdict P n) as [b|]; [auto | exact IH].
Qed.

Lemma conflict_verdict_exact (P n : Part) :
  part_start n = part_start P -> part_substr n = part_substr P ->
  conflict_verdict P n = Some false.
Proof.
  intros Hs Hsub. unfold conflict_verdict.
  rewrite Hs, Z.eqb_refl, Hsub, str_eqb_refl. reflexivity.
Qed.

Lemma conflict_verdict_single (P n : Part) :
  part_length n = 1 -> conflict_verdict P n <> Some true.
Proof.
  intro H. unfold conflict_verdict. rewrite H.
  destruct ((part_start n =? part_start P)
            && str_eqb (part_substr n) (part_substr P)); [discriminate|].
  rewrite orb_true_r. discriminate.
Qed.

(** The verdict [Some true]: two parts of more than one character that
    overlap and are not the same part. *)
Lemma conflict_verdict_true (P n : Part) :
  conflict_verdict P n = Some true ->
  part_length P <> 1 /\ part_length n <> 1
  /\ (part_start P < part_start n < part_end P
      \/ part_start n < part_start P < part_end n).
Proof.
  unfold conflict_verdict.
  destruct ((part_start n =? part_start P)
            && str_eqb (part_substr n) (part_substr P)); [discriminate|].
  destruct (part_length P =? 1) eqn:E1; [discriminate|].
  destruct (part_length n =? 1) eqn:E2; [discriminate|]. cbn [orb].
  apply Z.eqb_neq in E1. apply Z.eqb_neq in E2.
  destruct ((part_start P <? part_start n) && (part_start n <? part_end P)) eqn:E3.
  - intros _. apply andb_true_iff in E3 as [H1 H2].
    apply Z.ltb_lt in H1. apply Z.ltb_lt in H2. auto.
  - destruct ((part_start n <? part_start P) && (part_start P <? part_end n)) eqn:E4;
      [|discriminate].
    intros _. apply andb_true_iff in E4 as [H1 H2].
    apply Z.ltb_lt in H1. apply Z.ltb_lt in H2. auto.
Qed.

(** The verdict [Some false]: the same start and the same text. *)
Lemma conflict_verdict_false (P n : Part) :
  conflict_verdict P n = Some false ->
  part_start n = part_start P /\ part_substr n = part_substr P.
Proof.
  unfold conflict_verdict.
  destruct ((part_start n =? part_start P)
            && str_eqb (part_substr n) (part_substr P)) eqn:E.
  - intros _. apply andb_true_iff in E as [H1 H2].
    apply Z.eqb_eq in H1. apply str_eqb_eq in H2. auto.
  - destruct ((part_length P =? 1) || (part_length n =? 1)); [discriminate|].
    destruct ((part_start P <? part_start n) && (part_start n <? part_end P));
      [discriminate|].
    destruct ((part_start n <? part_start P) && (part_start P <? part_end n));
      discriminate.
Qed.

(** Two parts of more than one character that overlap give the verdict
    [Some true], unless they are the same part. *)
Lemma conflict_verdict_crossing (P n : Part) :
  part_length P <> 1 -> part_length n <> 1 ->
  part_start P < part_start n < part_end P
  \/ part_start n < part_start P < part_end n ->
  conflict_verdict P n = Some true.
Proof.
  intros H1 H2 Hc. unfold conflict_verdict.
  assert (Hs : (part_start n =? part_start P) = false)
    by (apply Z.eqb_neq; lia).
  rewrite Hs. cbn [andb].
  apply Z.eqb_neq in H1. apply Z.eqb_neq in H2. rewrite H1, H2. cbn [orb].
  destruct Hc as [[Ha Hb] | [Ha Hb]].
  - apply Z.ltb_lt in Ha. apply Z.ltb_lt in Hb. now rewrite Ha, Hb.
  - destruct ((part_start P <? part_start n) && (part_start n <? part_end P));
      [reflexivity|].
    apply Z.ltb_lt in Ha. apply Z.ltb_lt in Hb. now rewrite Ha, Hb.
Qed.

(** A sequence that is equivalent to a clone is equivalent to the clone
    that cuts one character more: the part [t1] of the clone cut in [t0] and
    a part [s] of one character. *)
Lemma conflict_refined (str : jsstring) (P t1 t0 s m : Part) (l : list Part) :
  part_wf str P -> part_wf str t1 -> part_wf str t0 -> part_wf str s ->
  part_start t0 = part_start t1 ->
  part_end t0 = part_start s ->
  part_end s = part_end t1 ->
  part_length s = 1 ->
  part_start m = part_end t1 ->
  inSequences_conflict P (l ++ [t1; m]) = false ->
  inSequences_conflict P (l ++ [t0; s; m]) = false.
Proof.
  intros HP Ht1 Ht0 Hs Hst Hes Hee Hone Hm.
  apply conflict_app_tail.
  rewrite !inSequences_conflict_cons.
  pose proof (@part_wf_substr_length str P HP) as HlP.
  pose proof (@part_wf_substr_length str t1 Ht1) as Hl1.
  pose proof (@part_wf_substr_length str t0 Ht0) as Hl0.
  destruct HP as (HP0 & HPl & HPe & _).
  destruct Ht1 as (H10 & H1l & H1e & _).
  destruct Ht0 as (H00 & H0l & H0e & _).
  destruct Hs as (Hs0 & Hsl & Hse & _).
  assert (Hs_go : conflict_verdict P s <> Some true)
    by now apply conflict_verdict_single.
  destruct (conflict_verdict P t1) as [[|]|] eqn:E1; [discriminate| |].
  - (* the part is the part [t1] *)
    intros _. apply conflict_verdict_false in E1 as [E1s E1t].
    assert (E0 : conflict_verdict P t0 = None).
    { destruct (conflict_verdict P t0) as [[|]|] eqn:E0; [| |reflexivity].
      - apply conflict_verdict_true in E0 as (_ & _ & Hc). lia.
      - apply conflict_verdict_false in E0 as [_ E0t].
        assert (Hsame : part_substr t0 = part_substr t1) by congruence.
        rewrite Hsame in Hl0. lia. }
    rewrite E0.
    assert (Es : conflict_verdict P s = None).
    { destruct (conflict_verdict P s) as [[|]|] eqn:Es;
        [now contradiction Hs_go | | reflexivity].
      apply conflict_verdict_false in Es as [Ess _]. lia. }
    rewrite Es.
    destruct (conflict_verdict P m) as [[|]|] eqn:Em; [|reflexivity|reflexivity].
    apply conflict_verdict_true in Em as (_ & _ & Hc). exfalso.
    rewrite <- E1t in HlP. lia.
  - (* the loop goes on after [t1] *)
    intro Hrest.
    destruct (conflict_verdict P t0) as [[|]|] eqn:E0; [|reflexivity|].
    + exfalso. apply conflict_verdict_true in E0 as (HPm & H0m & Hc).
      assert (Hcross : conflict_verdict P t1 = Some true).
      { apply conflict_verdict_crossing; [assumption | lia | lia]. }
      rewrite Hcross in E1. discriminate E1.
    + destruct (conflict_verdict P s) as [[|]|] eqn:Es;
        [now contradiction Hs_go | reflexivity | exact Hrest].
Qed.

(** ** The shape of the live sequences *)

Lemma part_wf_unique (str : jsstring) (p p' : Part) :
  part_wf str p -> part_wf str p' ->
  part_start p = part_start p' -> part_end p = part_end p' -> p = p'.
Proof.
  intros (_ & _ & He & _ & Hs) (_ & _ & He' & _ & Hs') Hst Hen.
  destruct p as [s1 e1 l1 t1], p' as [s2 e2 l2 t2].
  cbn [part_start part_end part_length part_substr] in *.
  assert (Hl : l1 = l2) by lia. subst t1 t2. rewrite Hst, Hen, Hl. reflexivity.
Qed.

Lemma overlap_clone_parts (q : Sequence) (lp : Part) (i : Z) (text : jsstring) :
  parts (overlap_clone q lp i text)
  = removelast (parts q) ++ [truncate_part lp i; match_part i text].
Proof.
  unfold overlap_clone. cbn [Sequence_add parts].
  rewrite parts_fold_add. cbn [Sequence_new parts app].
  now rewrite <- app_assoc.
Qed.

(** A list with an element at its end, cut in front of two neighbours. *)
Lemma snoc_neighbours {A} (l : list A) (x : A) (l1 : list A) (p1 p2 : A)
  (l2 : list A) :
  l ++ [x] = l1 ++ p1 :: p2 :: l2 ->
  (l2 = [] /\ p2 = x /\ l = l1 ++ [p1])
  \/ exists l2', l2 = l2' ++ [x] /\ l = l1 ++ p1 :: p2 :: l2'.
Proof.
  intro H. destruct l2 as [|z l2] using rev_ind.
  - left. change (l1 ++ [p1; p2]) with (l1 ++ [p1] ++ [p2]) in H.
    rewrite app_assoc in H. apply app_inj_tail in H as [H1 H2]. auto.
  - right. exists l2.
    change (l1 ++ p1 :: p2 :: l2 ++ [z]) with (l1 ++ (p1 :: p2 :: l2) ++ [z]) in H.
    rewrite app_assoc in H. apply app_inj_tail in H as [H1 H2].
    subst. auto.
Qed.

Section Shape.

Variable e : Engine.
Variable str : jsstring.
Hypothesis longest : matches_are_longest_keys e str.

Lemma longest_runs : matches_are_runs e str.
Proof.
  intros i text Hi Hm. destruct (longest Hi) as [Hrun _].
  destruct (Hrun text Hm) as [Hlen Hrest]. split; [|exact Hrest].
  intro Hnil. rewrite Hnil in Hlen. change (strlen []) with 0 in Hlen. lia.
Qed.

Lemma scanned_part_wf (i : Z) :
  0 <= i < strlen str ->
  part_wf str (scanned_part e str i) /\ part_start (scanned_part e str i) = i.
Proof.
  intro Hi. destruct (@new_part_wf e str i longest_runs Hi) as (H1 & H2 & _).
  split; assumption.
Qed.

Lemma scanned_part_whole (i : Z) :
  0 <= i < strlen str -> ~ truncated e str (scanned_part e str i).
Proof.
  intro Hi. unfold truncated, reach.
  destruct (scanned_part_wf Hi) as [_ ->]. lia.
Qed.

(** A sequence that the scan extends. *)
Lemma shape_extend (i : Z) (q : Sequence) :
  0 <= i < strlen str ->
  seq_shape e str q ->
  seq_shape e str (Sequence_add q (scanned_part e str i)).
Proof.
  intros Hi (Hpre & Hlast & Hcut & Hone).
  destruct (scanned_part_wf Hi) as [Hwf Hstart].
  pose proof (scanned_part_whole Hi) as Hwhole.
  cbn [Sequence_add parts]. repeat split.
  - intros p Hp. apply in_app_iff in Hp as [Hp | [<- | []]]; [now apply Hpre|].
    unfold reach. rewrite Hstart. lia.
  - intros p Hp. rewrite Sequence_last_add in Hp. injection Hp as <-.
    unfold reach. now rewrite Hstart.
  - intros p Hp Htr. apply in_app_iff in Hp as [Hp | [<- | []]];
      [now apply Hcut | contradiction].
  - intros l1 p1 p2 l2 Hsplit Ht1 Ht2.
    apply snoc_neighbours in Hsplit as [(_ & -> & _) | (l2' & _ & Hq)];
      [contradiction|].
    now apply (Hone l1 p1 p2 l2').
Qed.

(** The clone of the overlap branch: its parts are prefixes of what the
    scan adds, its last part is what the scan adds, and the part that was
    cut ends where the match begins. *)
Lemma shape_clone (k i : Z) (q : Sequence) (lp : Part) (text : jsstring) :
  0 <= k <= i -> i < strlen str ->
  seq_wf str k i q -> seq_shape e str q ->
  can_extend (Sequence_last q) i = false ->
  Sequence_last q = Some lp ->
  match_at e (substring_from str i) = Some text ->
  (forall p, In p (parts (overlap_clone q lp i text)) ->
             part_end p <= reach e str (part_start p))
  /\ (forall p, Sequence_last (overlap_clone q lp i text) = Some p ->
                part_end p = reach e str (part_start p))
  /\ (forall p, In p (parts (overlap_clone q lp i text)) -> truncated e str p ->
                match_at e (substring_from str (part_end p)) <> None)
  /\ ((forall l p1, parts q = l ++ [p1; lp] -> truncated e str p1 ->
                    part_start lp <> i - 1) ->
      seq_shape e str (overlap_clone q lp i text)).
Proof.
  intros Hk Hi Hwf (Hpre & Hlast & Hcut & Hone) Hext El Hm.
  destruct (@seq_wf_keep str k i q Hwf Hext) as (lp' & El' & Hlp & Hlpwf & _ & _).
  rewrite El in El'. injection El' as <-.
  pose proof (@Sequence_last_parts _ _ El) as Hparts.
  assert (Hin : forall x, In x (removelast (parts q)) -> In x (parts q))
    by (intros x Hx; rewrite Hparts; apply in_app_iff; now left).
  assert (Hm_is : match_part i text = scanned_part e str i)
    by (unfold scanned_part; now rewrite Hm).
  destruct (@scanned_part_wf i ltac:(lia)) as [Hspwf Hspstart].
  pose proof (@scanned_part_whole i ltac:(lia)) as Hwhole.
  assert (Htrunc : truncated e str (truncate_part lp i)).
  { unfold truncated. cbn [truncate_part part_start part_end].
    rewrite <- (Hlast lp El). lia. }
  assert (H1 : forall p, In p (parts (overlap_clone q lp i text)) ->
                         part_end p <= reach e str (part_start p)).
  { intros p Hp. rewrite overlap_clone_parts in Hp.
    apply in_app_iff in Hp as [Hp | [<- | [<- | []]]].
    - apply Hpre. now apply Hin.
    - unfold truncated in Htrunc. lia.
    - rewrite Hm_is. unfold reach. rewrite Hspstart. lia. }
  assert (H2 : forall p, Sequence_last (overlap_clone q lp i text) = Some p ->
                         part_end p = reach e str (part_start p)).
  { intros p Hp. unfold overlap_clone in Hp. rewrite Sequence_last_add in Hp.
    injection Hp as <-. rewrite Hm_is. unfold reach. now rewrite Hspstart. }
  assert (H3 : forall p, In p (parts (overlap_clone q lp i text)) ->
                         truncated e str p ->
                         match_at e (substring_from str (part_end p)) <> None).
  { intros p Hp Htr. rewrite overlap_clone_parts in Hp.
    apply in_app_iff in Hp as [Hp | [<- | [<- | []]]].
    - apply Hcut; [now apply Hin | assumption].
    - cbn [truncate_part part_end]. rewrite Hm. discriminate.
    - rewrite Hm_is in Htr. contradiction. }
  split; [exact H1|]. split; [exact H2|]. split; [exact H3|].
  intro Hgood. repeat split; try assumption.
  intros l1 p1 p2 l2 Hsplit Ht1 Ht2. rewrite overlap_clone_parts in Hsplit.
  change (removelast (parts q) ++ [truncate_part lp i; match_part i text])
    with (removelast (parts q) ++ [truncate_part lp i] ++ [match_part i text])
    in Hsplit.
  rewrite app_assoc in Hsplit.
  apply snoc_neighbours in Hsplit as [(_ & -> & _) | (l2' & _ & Hsplit)].
  { rewrite Hm_is in Ht2. contradiction. }
  apply snoc_neighbours in Hsplit as [(_ & -> & Hrl) | (l2'' & _ & Hrl)].
  - cbn [truncate_part part_length].
    assert (Hq : parts q = l1 ++ [p1; lp]).
    { rewrite Hparts, Hrl, <- app_assoc. reflexivity. }
    pose proof (Hgood l1 p1 Hq Ht1). lia.
  - apply (Hone l1 p1 p2 (l2'' ++ [lp])); [|assumption|assumption].
    rewrite Hparts, Hrl, <- app_assoc. reflexivity.
Qed.

End Shape.

(** ** What the push loop keeps *)

Lemma seq_wf_self_equivalent (str : jsstring) (k i : Z) (q : Sequence) :
  seq_wf str k i q -> equivalent q q.
Proof.
  intros (e' & Ht & He & Hwf & _). repeat split.
  intros part Hp. apply in_split in Hp as (l1 & l2 & Hsplit).
  rewrite Hsplit. apply (@conflict_with_itself part l2 e' l1 k).
  - now rewrite <- Hsplit.
  - rewrite <- Hsplit. now apply part_wf_positive with (str := str).
Qed.

Lemma seq_wf_end (str : jsstring) (k i : Z) (q : Sequence) (l : list Part)
  (m : Part) :
  seq_wf str k i q -> parts q = l ++ [m] -> seq_end q = part_end m.
Proof.
  intros (e' & Ht & _ & _ & _ & _ & _ & Hend) Hparts.
  rewrite Hparts in Ht. apply tiles_app in Ht as (x & _ & _ & He). lia.
Qed.

Lemma seq_wf_same_text (str : jsstring) (k i : Z) (q q' : Sequence) :
  0 <= k ->
  seq_wf str k i q -> seq_wf str k i q' -> seq_end q = seq_end q' ->
  seq_start q = seq_start q' /\ join_all (substrs q) = join_all (substrs q').
Proof.
  intros Hk (e1 & Ht1 & He1 & Hwf1 & _ & Hsub1 & Hs1 & Hend1)
         (e2 & Ht2 & He2 & Hwf2 & _ & Hsub2 & Hs2 & Hend2) Hend.
  split; [lia|]. unfold join_all. rewrite Hsub1, Hsub2.
  rewrite (@tiles_concat str _ k e1 Ht1 Hwf1 Hk ltac:(lia)).
  rewrite (@tiles_concat str _ k e2 Ht2 Hwf2 Hk ltac:(lia)).
  f_equal. lia.
Qed.

Lemma push_clones_cons (there : list Sequence) (x : Sequence)
  (queue : list Sequence) :
  push_clones there (x :: queue)
  = push_clones (if inSequences x there then there else there ++ [x]) queue.
Proof. reflexivity. Qed.

(** A sequence of the result was there before, or it is a clone of the
    queue for which [inSequences] found nothing among sequences that held,
    for every clone in front of it in the queue, the clone or an
    equivalent sequence. *)
Lemma push_clones_kept (queue : list Sequence) :
  (forall x, In x queue -> equivalent x x) ->
  forall there c,
    In c (push_clones there queue) ->
    In c there
    \/ exists before after there_c,
         queue = before ++ c :: after
         /\ incl there there_c
         /\ incl there_c (push_clones there queue)
         /\ (forall x, In x before -> exists W, In W there_c /\ equivalent W x)
         /\ inSequences c there_c = false.
Proof.
  induction queue as [|x queue IH]; intros Hself there c Hc.
  - now left.
  - rewrite push_clones_cons in Hc |- *.
    set (there' := if inSequences x there then there else there ++ [x]) in *.
    assert (Hgrow : incl there there').
    { unfold there'. destruct (inSequences x there);
        [apply incl_refl | apply incl_appl, incl_refl]. }
    destruct (IH ltac:(intros y Hy; apply Hself; now right) there' c Hc)
      as [Hin | (before & after & there_c & Hq & Hincl & Hres & Hcov & Hno)].
    + unfold there' in Hin. destruct (inSequences x there) eqn:Ex; [now left|].
      apply in_app_iff in Hin as [Hin | [<- | []]]; [now left|].
      right. exists [], queue, there. cbn [app].
      split; [reflexivity|]. split; [apply incl_refl|].
      split; [|split; [intros y [] | exact Ex]].
      intros y Hy. apply push_clones_incl. now apply Hgrow.
    + right. exists (x :: before), after, there_c. cbn [app].
      split; [now rewrite Hq|].
      split; [intros y Hy; apply Hincl; now apply Hgrow|].
      split; [exact Hres|]. split; [|exact Hno].
      intros y [<- | Hy]; [|now apply Hcov].
      unfold there' in Hincl. destruct (inSequences x there) eqn:Ex.
      * apply inSequences_equivalent in Ex as (W & HW & Heq).
        exists W. split; [now apply Hincl | exact Heq].
      * exists x. split; [|apply Hself; now left].
        apply Hincl. apply in_app_iff. right. now left.
Qed.

(** In a queue sorted by length, a shorter sequence comes first. *)
Lemma sorted_shorter_first (before after : list Sequence) (c M : Sequence) :
  StronglySorted not_longer (before ++ c :: after) ->
  In M (before ++ c :: after) ->
  Sequence_length M < Sequence_length c ->
  In M before.
Proof.
  induction before as [|b before IH]; cbn [app]; intros Hs HM Hlen.
  - apply StronglySorted_inv in Hs as [_ Hall].
    destruct HM as [<- | HM]; [lia|].
    rewrite Forall_forall in Hall. specialize (Hall M HM).
    unfold not_longer in Hall. lia.
  - apply StronglySorted_inv in Hs as [Hs _].
    destruct HM as [<- | HM]; [now left|]. right. now apply IH.
Qed.

(** ** The cuts of a list of pieces *)

Lemma strlen_concat_app (l1 l2 : list jsstring) :
  strlen (concat (l1 ++ l2)) = strlen (concat l1) + strlen (concat l2).
Proof. now rewrite concat_app, strlen_app. Qed.

Lemma cut_zero (pieces : list jsstring) : cut pieces 0.
Proof. exists [], pieces. split; reflexivity. Qed.

Lemma cut_range (pieces : list jsstring) (c : Z) :
  cut pieces c -> 0 <= c <= strlen (concat pieces).
Proof.
  intros (l1 & l2 & -> & <-). rewrite strlen_concat_app.
  pose proof (strlen_nonneg (concat l1)). pose proof (strlen_nonneg (concat l2)).
  lia.
Qed.

Lemma cut_cons (c : jsstring) (pieces : list jsstring) (d : Z) :
  cut pieces d -> cut (c :: pieces) (strlen c + d).
Proof.
  intros (l1 & l2 & -> & <-). exists (c :: l1), l2.
  split; [reflexivity|]. cbn [concat]. now rewrite strlen_app.
Qed.

(** A position lies between two pieces or inside a piece. *)
Lemma cut_cases (pieces : list jsstring) :
  forall E, 0 <= E <= strlen (concat pieces) ->
    cut pieces E
    \/ exists l1 c l2,
         pieces = l1 ++ c :: l2
         /\ strlen (concat l1) < E < strlen (concat l1) + strlen c.
Proof.
  induction pieces as [|c pieces IH]; intros E HE.
  - change (strlen (concat [])) with 0 in HE. left.
    replace E with 0 by lia. apply cut_zero.
  - cbn [concat] in HE. rewrite strlen_app in HE.
    destruct (Z.eq_dec E 0) as [-> | Hpos]; [left; apply cut_zero|].
    destruct (Z_lt_ge_dec E (strlen c)) as [Hin | Hout].
    + right. exists [], c, pieces. split; [reflexivity|].
      change (strlen (concat [])) with 0. lia.
    + destruct (IH (E - strlen c) ltac:(lia)) as [Hcut | (l1 & c' & l2 & -> & Hb)].
      * left. replace E with (strlen c + (E - strlen c)) by lia.
        now apply cut_cons.
      * right. exists (c :: l1), c', l2. split; [reflexivity|].
        cbn [concat]. rewrite strlen_app. lia.
Qed.

(** No cut lies inside a piece. *)
Lemma cut_not_inside (l1 : list jsstring) (c : jsstring) (l2 : list jsstring)
  (d : Z) :
  cut (l1 ++ c :: l2) d ->
  strlen (concat l1) < d < strlen (concat l1) + strlen c -> False.
Proof.
  intros (m1 & m2 & Heq & Hd) Hin.
  apply app_eq_app in Heq as (l & [[H1 H2] | [H1 H2]]).
  - rewrite H1, strlen_concat_app in Hin.
    pose proof (strlen_nonneg (concat l)). lia.
  - destruct l as [|x l]; cbn [app] in H2.
    + rewrite app_nil_r in H1. subst m1. lia.
    + injection H2 as <- _. rewrite H1, strlen_concat_app in Hd.
      cbn [concat] in Hd. rewrite strlen_app in Hd.
      pose proof (strlen_nonneg (concat l)). lia.
Qed.

(** The piece that begins at a cut. *)
Lemma cut_piece (pieces : list jsstring) (d : Z) :
  cut pieces d -> d < strlen (concat pieces) ->
  exists l1 c l2, pieces = l1 ++ c :: l2 /\ strlen (concat l1) = d.
Proof.
  intros (l1 & l2 & -> & Hd) Hlt. destruct l2 as [|c l2].
  - rewrite app_nil_r in Hlt. lia.
  - now exists l1, c, l2.
Qed.

Lemma piece_begins (l1 : list jsstring) (c : jsstring) (l2 : list jsstring) :
  substring_from (concat (l1 ++ c :: l2)) (strlen (concat l1)) = c ++ concat l2.
Proof.
  unfold substring_from, strlen. rewrite Nat2Z.id, concat_app.
  rewrite skipn_app, skipn_all, Nat.sub_diag. reflexivity.
Qed.

(** The end of a sequence that lies at or after a cut is not in the way. *)
Lemma ahead_from_cut (pieces : list jsstring) (d E j : Z) :
  cut pieces d -> j <= d <= E -> E <= strlen (concat pieces) ->
  ahead pieces j E.
Proof.
  intros Hd Hj HE. pose proof (cut_range Hd) as Hr.
  destruct (@cut_cases pieces E ltac:(lia)) as [Hcut | (l1 & c & l2 & Hp & Hin)].
  - now left.
  - right. exists l1, c, l2. split; [assumption|]. split; [|assumption].
    destruct (Z_lt_ge_dec (strlen (concat l1)) d) as [Hlt | Hge]; [|lia].
    exfalso. rewrite Hp in Hd. apply (@cut_not_inside l1 c l2 d Hd). lia.
Qed.

Lemma tiles_end_unique (ps : list Part) :
  forall k e1 e2, tiles k ps e1 -> tiles k ps e2 -> e1 = e2.
Proof.
  induction ps as [|p ps IH]; intros k e1 e2 H1 H2; cbn [tiles] in *.
  - lia.
  - destruct H1 as [_ H1], H2 as [_ H2]. exact (IH _ _ _ H1 H2).
Qed.

(** ** One scan position and the shape of the live sequences *)

(** What one scan position leaves of segmentations. *)
Lemma visit_wf (e : Engine) (str : jsstring) (s : Scan) (k i : Z) :
  matches_are_runs e str ->
  0 <= i < strlen str -> 0 <= k <= i ->
  (forall q, In q (sequences s) -> seq_wf str k i q) ->
  (forall q, In q (visited (visit_at e str s i)) -> seq_wf str k (i + 1) q)
  /\ (forall c, In c (overlapping (visit_at e str s i)) -> seq_wf str k (i + 1) c).
Proof.
  intros runs Hi Hk Hall. unfold visit_at.
  set (mtch := match_at e (substring_from str i)).
  set (char := substring str i (i + 1)).
  destruct (@new_part_wf e str i runs Hi) as (Hnew & Hnewstart & Hmatch).
  fold mtch char in Hnew, Hnewstart, Hmatch.
  destruct (visit_all_spec i mtch char (sequences s)) as (Hv & Ho & _).
  split.
  - intros q' Hq'. rewrite Hv in Hq'. apply in_map_iff in Hq' as (q & <- & Hq).
    unfold visit_update.
    destruct (can_extend (Sequence_last q) i) eqn:Ec.
    + apply seq_wf_extend; auto.
    + destruct (@seq_wf_keep str k i q (Hall q Hq) Ec) as (lp & _ & _ & _ & _ & Hkeep).
      exact Hkeep.
  - intros c Hc. rewrite Ho in Hc. apply in_flat_map in Hc as (q & Hq & Hc).
    unfold visit_clones in Hc.
    destruct (can_extend (Sequence_last q) i) eqn:Ec; [contradiction|].
    destruct mtch as [text|] eqn:Em; [|contradiction].
    destruct (@seq_wf_keep str k i q (Hall q Hq) Ec) as (lp & El & Hlp & Hwf & _ & _).
    rewrite El in Hc.
    destruct (@Sequence_clone_overlap q i lp text El) as (clone & Hclone & Heq);
      [lia | rewrite (@part_wf_substr_length str lp Hwf); lia |].
    rewrite Hclone in Hc. destruct Hc as [<- | []]. rewrite Heq.
    apply seq_wf_clone; auto.
Qed.

(** A sequence that can be extended at [i] segments [str] up to [i]. *)
Lemma seq_wf_ends (str : jsstring) (k i : Z) (q : Sequence) :
  seq_wf str k i q -> can_extend (Sequence_last q) i = true -> 0 <= k <= i ->
  segments str k i q.
Proof.
  intros (e' & Ht & He & Hwf & Hlt & Hsub & Hs & Hend) Hext Hk.
  assert (Hei : e' = i).
  { destruct (Sequence_last q) as [lp|] eqn:El.
    - pose proof (@Sequence_last_parts _ _ El) as Hparts.
      rewrite Hparts in Ht. apply tiles_app in Ht as (m & _ & Hm & Hme).
      assert (Hin : In lp (parts q))
        by (rewrite Hparts; apply in_app_iff; right; now left).
      rewrite Forall_forall in Hwf.
      destruct (Hwf lp Hin) as (_ & _ & Hle & _).
      specialize (Hlt lp Hin). cbn [can_extend] in Hext.
      apply orb_true_iff in Hext as [H1 | H1];
        [apply Z.eqb_eq in H1 | apply Z.leb_le in H1]; lia.
    - apply Sequence_last_None in El. rewrite El in Ht. cbn [tiles] in Ht. lia. }
  rewrite Hei in Ht. now repeat split.
Qed.

Section Step.

Variable e : Engine.
Variable str : jsstring.
Hypothesis longest : matches_are_longest_keys e str.

Variable s : Scan.
Variables k i : Z.
Hypothesis position : 0 <= i < strlen str.
Hypothesis region : 0 <= k <= i.
Hypothesis live_wf : forall q, In q (sequences s) -> seq_wf str k i q.
Hypothesis live_shape : forall q, In q (sequences s) -> seq_shape e str q.
Hypothesis live_sources : sources_live e str i (sequences s).

Lemma visited_at :
  visited (visit_at e str s i)
  = map (visit_update i (match_at e (substring_from str i))
                      (substring str i (i + 1))) (sequences s).
Proof. unfold visit_at. apply visit_all_spec. Qed.

Lemma overlapping_at :
  overlapping (visit_at e str s i)
  = flat_map (visit_clones i (match_at e (substring_from str i))) (sequences s).
Proof. unfold visit_at. apply visit_all_spec. Qed.

Lemma step_wf :
  (forall q, In q (visited (visit_at e str s i)) -> seq_wf str k (i + 1) q)
  /\ (forall c, In c (overlapping (visit_at e str s i)) -> seq_wf str k (i + 1) c).
Proof. exact (@visit_wf e str s k i (longest_runs longest) position region live_wf). Qed.

(** A sequence that cannot be extended stays as it is. *)
Lemma visited_kept (q : Sequence) :
  In q (sequences s) -> can_extend (Sequence_last q) i = false ->
  In q (visited (visit_at e str s i)).
Proof.
  intros Hq Hext. rewrite visited_at. apply in_map_iff. exists q.
  split; [|assumption]. unfold visit_update. now rewrite Hext.
Qed.

Lemma visited_extended (q : Sequence) :
  In q (sequences s) -> can_extend (Sequence_last q) i = true ->
  In (Sequence_add q (scanned_part e str i)) (visited (visit_at e str s i)).
Proof.
  intros Hq Hext. rewrite visited_at. apply in_map_iff. exists q.
  split; [|assumption]. unfold visit_update. now rewrite Hext.
Qed.

Lemma visited_origin (q' : Sequence) :
  In q' (visited (visit_at e str s i)) ->
  exists q, In q (sequences s)
    /\ ((can_extend (Sequence_last q) i = true
         /\ q' = Sequence_add q (scanned_part e str i))
        \/ (can_extend (Sequence_last q) i = false /\ q' = q)).
Proof.
  rewrite visited_at. intro H. apply in_map_iff in H as (q & <- & Hq).
  exists q. split; [assumption|]. unfold visit_update.
  destruct (can_extend (Sequence_last q) i); [left | right]; auto.
Qed.

(** Where a clone of [overlapping] comes from. *)
Lemma clone_origin (c : Sequence) :
  In c (overlapping (visit_at e str s i)) ->
  exists q lp text,
    In q (sequences s)
    /\ can_extend (Sequence_last q) i = false
    /\ Sequence_last q = Some lp
    /\ match_at e (substring_from str i) = Some text
    /\ c = overlap_clone q lp i text.
Proof.
  rewrite overlapping_at. intro Hc. apply in_flat_map in Hc as (q & Hq & Hc).
  unfold visit_clones in Hc.
  destruct (can_extend (Sequence_last q) i) eqn:Ec; [contradiction|].
  destruct (match_at e (substring_from str i)) as [text|] eqn:Em; [|contradiction].
  destruct (@seq_wf_keep str k i q (live_wf q Hq) Ec) as (lp & El & Hlp & Hwf & _ & _).
  rewrite El in Hc.
  destruct (@Sequence_clone_overlap q i lp text El) as (clone & Hclone & Heq);
    [lia | rewrite (@part_wf_substr_length str lp Hwf); lia |].
  rewrite Hclone in Hc. destruct Hc as [<- | []].
  exists q, lp, text. repeat split; auto.
Qed.

Lemma clone_queued (q : Sequence) (lp : Part) (text : jsstring) :
  In q (sequences s) ->
  can_extend (Sequence_last q) i = false ->
  Sequence_last q = Some lp ->
  match_at e (substring_from str i) = Some text ->
  In (overlap_clone q lp i text) (overlapping (visit_at e str s i)).
Proof.
  intros Hq Ec El Em. rewrite overlapping_at. apply in_flat_map. exists q.
  split; [assumption|]. unfold visit_clones. rewrite Ec, Em, El.
  destruct (@seq_wf_keep str k i q (live_wf q Hq) Ec) as (lp' & El' & Hlp & Hwf & _ & _).
  rewrite El in El'. injection El' as <-.
  destruct (@Sequence_clone_overlap q i lp text El) as (clone & Hclone & Heq);
    [lia | rewrite (@part_wf_substr_length str lp Hwf); lia |].
  rewrite Hclone, Heq. now left.
Qed.

Lemma visited_shape (q : Sequence) :
  In q (visited (visit_at e str s i)) -> seq_shape e str q.
Proof.
  intro H. apply visited_origin in H as (q0 & Hq0 & [[_ ->] | [_ ->]]).
  - apply shape_extend; auto.
  - auto.
Qed.

(** What the push loop leaves is made of segmentations. *)
Lemma pushed_wf (q : Sequence) :
  In q (push_clones (visited (visit_at e str s i))
                    (sort_by_length (overlapping (visit_at e str s i)))) ->
  seq_wf str k (i + 1) q.
Proof.
  intro Hq. destruct step_wf as [Hvis Hovl].
  destruct (push_clones_shape (sort_by_length (overlapping (visit_at e str s i)))
              (visited (visit_at e str s i))) as (added & Hr & Hincl & _).
  rewrite Hr in Hq. apply in_app_iff in Hq as [Hq | Hq]; [now apply Hvis|].
  apply Hovl. exact (proj1 (In_sort_by_length _ _) (Hincl q Hq)).
Qed.

(** A clone cut one character after a cut, and the clone of its source:
    what is equivalent to the second is equivalent to the first. *)
Lemma refined_equivalent (W M c : Sequence) (l : list Part) (t1 t0 sp m : Part) :
  seq_wf str k (i + 1) W -> seq_wf str k (i + 1) M -> seq_wf str k (i + 1) c ->
  parts M = l ++ [t1; m] ->
  parts c = l ++ [t0; sp; m] ->
  part_start t0 = part_start t1 ->
  part_end t0 = part_start sp ->
  part_end sp = part_end t1 ->
  part_length sp = 1 ->
  part_start m = part_end t1 ->
  equivalent W M -> equivalent W c.
Proof.
  intros HW HM Hc HMp Hcp Hst Hes Hee Hone Hms (Hs & He & Hj & Hno).
  assert (Hends : seq_end M = seq_end c).
  { rewrite (@seq_wf_end str k (i + 1) M (l ++ [t1]) m HM)
      by (rewrite HMp, <- app_assoc; reflexivity).
    rewrite (@seq_wf_end str k (i + 1) c (l ++ [t0; sp]) m Hc)
      by (rewrite Hcp, <- app_assoc; reflexivity).
    reflexivity. }
  destruct (@seq_wf_same_text str k (i + 1) M c ltac:(lia) HM Hc Hends) as [Hs' Hj'].
  repeat split; [congruence | congruence | congruence |].
  intros part Hpart. rewrite Hcp.
  assert (HwfW : Forall (part_wf str) (parts W))
    by (destruct HW as (? & _ & _ & H & _); exact H).
  assert (HwfM : Forall (part_wf str) (parts M))
    by (destruct HM as (? & _ & _ & H & _); exact H).
  assert (Hwfc : Forall (part_wf str) (parts c))
    by (destruct Hc as (? & _ & _ & H & _); exact H).
  rewrite Forall_forall in HwfW, HwfM, Hwfc.
  apply (@conflict_refined str part t1 t0 sp m l); try assumption.
  - now apply HwfW.
  - apply HwfM. rewrite HMp. apply in_app_iff. right. now left.
  - apply Hwfc. rewrite Hcp. apply in_app_iff. right. now left.
  - apply Hwfc. rewrite Hcp. apply in_app_iff. right. right. now left.
  - rewrite <- HMp. now apply Hno.
Qed.

(** A clone that the push loop keeps has the shape of a live sequence: a
    clone that cuts one character after a cut is dropped. *)
Lemma pushed_shape (c : Sequence) :
  In c (push_clones (visited (visit_at e str s i))
                    (sort_by_length (overlapping (visit_at e str s i)))) ->
  seq_shape e str c.
Proof.
  intro Hc. destruct step_wf as [Hvis Hovl].
  destruct (@push_clones_kept (sort_by_length (overlapping (visit_at e str s i))))
    with (there := visited (visit_at e str s i)) (c := c)
    as [Hin | (before & after & there_c & Hq & Hincl & Hres & Hcov & Hno)].
  - intros x Hx. apply (proj1 (In_sort_by_length _ _)) in Hx.
    exact (seq_wf_self_equivalent (Hovl x Hx)).
  - exact Hc.
  - now apply visited_shape.
  - assert (Hcq : In c (overlapping (visit_at e str s i))).
    { apply (proj1 (In_sort_by_length _ _)). rewrite Hq. apply in_app_iff.
      right. now left. }
    destruct (clone_origin c Hcq) as (T & lp & text & HT & Ec & El & Em & Hceq).
    destruct (@shape_clone e str longest k i T lp text region (proj2 position)
                (live_wf T HT) (live_shape T HT) Ec El Em) as (_ & _ & _ & Hcond).
    rewrite Hceq. apply Hcond. intros l p1 Hparts Htr Hstart. exfalso.
    destruct (@live_sources T l p1 lp HT Hparts Hstart Htr) as (V & HV & HVparts).
    set (x' := part_start p1) in *.
    set (spx := scanned_part e str x') in *.
    set (m := match_part i text).
    (* the parts of the source and of the clone *)
    pose proof (live_wf T HT) as HTwf.
    destruct HTwf as (eT & HtT & _ & HwfT & _).
    rewrite Hparts in HtT, HwfT.
    apply tiles_split in HtT as [Htl Hrest]. cbn [tiles] in Hrest.
    destruct Hrest as [Hjoin _].
    rewrite Forall_forall in HwfT.
    assert (Hp1wf : part_wf str p1)
      by (apply HwfT; apply in_app_iff; right; now left).
    assert (Hx' : 0 <= x' < i - 1).
    { destruct Hp1wf as (H0 & Hl & He & _). fold x' in H0, He. lia. }
    destruct (@scanned_part_wf e str longest x' ltac:(lia)) as [Hspwf Hspstart].
    fold spx in Hspwf, Hspstart.
    assert (Hspend : i <= part_end spx).
    { unfold truncated, reach in Htr. fold x' spx in Htr. lia. }
    assert (HVlast : Sequence_last V = Some spx)
      by (apply (@Sequence_last_of_parts V l spx); exact HVparts).
    assert (Hrl : removelast (parts T) = l ++ [p1]).
    { pose proof (@Sequence_last_parts _ _ El) as HTp. rewrite Hparts in HTp at 1.
      change (l ++ [p1; lp]) with (l ++ [p1] ++ [lp]) in HTp.
      rewrite app_assoc in HTp. apply app_inj_tail in HTp as [HTp _].
      now symmetry. }
    assert (Hcparts : parts c = l ++ [p1; truncate_part lp i; m]).
    { rewrite Hceq, overlap_clone_parts, Hrl, <- app_assoc. reflexivity. }
    pose proof (Hovl c Hcq) as Hcwf.
    assert (Hcovered : forall M t1,
              seq_wf str k (i + 1) M ->
              parts M = l ++ [t1; m] ->
              part_start t1 = x' -> part_end t1 = i ->
              (exists W, In W there_c /\ equivalent W M) -> False).
    { intros M t1 HMwf HMparts Ht1s Ht1e (W & HW & Heq).
      assert (HWwf : seq_wf str k (i + 1) W) by (apply pushed_wf; now apply Hres).
      assert (Hyes : inSequences c there_c = true).
      { apply inSequences_equivalent. exists W. split; [assumption|].
        apply (@refined_equivalent W M c l t1 p1 (truncate_part lp i) m);
          try assumption.
        - now rewrite Ht1s.
        - cbn [truncate_part part_start]. lia.
        - cbn [truncate_part part_end]. lia.
        - cbn [truncate_part part_length]. lia.
        - unfold m. cbn [match_part part_start]. lia. }
      rewrite Hyes in Hno. discriminate Hno. }
    destruct (can_extend (Sequence_last V) i) eqn:EV.
    + (* the source was extended in place *)
      pose proof (visited_extended V HV EV) as HM.
      assert (Hm : scanned_part e str i = m)
        by (unfold scanned_part, m; now rewrite Em).
      rewrite Hm in HM.
      apply (Hcovered (Sequence_add V m) spx).
      * now apply Hvis.
      * cbn [Sequence_add parts]. rewrite HVparts, <- app_assoc. reflexivity.
      * exact Hspstart.
      * rewrite HVlast in EV. cbn [can_extend] in EV.
        destruct Hspwf as (_ & Hl & He & _).
        apply orb_true_iff in EV as [EV | EV];
          [apply Z.eqb_eq in EV | apply Z.leb_le in EV]; lia.
      * exists (Sequence_add V m). split; [now apply Hincl|].
        exact (seq_wf_self_equivalent (Hvis _ HM)).
    + (* the clone of the source comes first in the queue *)
      pose proof (@clone_queued V spx text HV EV HVlast Em) as HM.
      assert (HMparts : parts (overlap_clone V spx i text)
                        = l ++ [truncate_part spx i; m]).
      { rewrite overlap_clone_parts.
        pose proof (@Sequence_last_parts _ _ HVlast) as HVp.
        rewrite HVparts in HVp at 1. apply app_inj_tail in HVp as [HVp _].
        now rewrite <- HVp. }
      apply (Hcovered (overlap_clone V spx i text) (truncate_part spx i)).
      * now apply Hovl.
      * exact HMparts.
      * cbn [truncate_part part_start]. exact Hspstart.
      * reflexivity.
      * apply Hcov.
        apply (@sorted_shorter_first before after c (overlap_clone V spx i text)).
        -- rewrite <- Hq. apply sort_by_length_sorts.
        -- rewrite <- Hq. now apply (proj2 (In_sort_by_length _ _)).
        -- unfold Sequence_length. rewrite HMparts, Hcparts, !length_app.
           cbn [List.length]. lia.
Qed.

(** *** The sources of the clones stay live *)

Lemma shape_new : seq_shape e str Sequence_new.
Proof.
  repeat split.
  - intros p [].
  - intros p Hp. discriminate Hp.
  - intros p [].
  - intros l1 p1 p2 l2 Hp. cbn [Sequence_new parts] in Hp.
    destruct l1; discriminate Hp.
Qed.

(** No sequence that went through the loop without being cloned ends in a
    part that begins at [i] after a part that was cut. *)
Lemma visited_whole (q : Sequence) (l : list Part) (p1 p2 : Part) :
  In q (visited (visit_at e str s i)) ->
  parts q = l ++ [p1; p2] -> part_start p2 = i -> ~ truncated e str p1.
Proof.
  intros Hq Hparts Hstart Htr.
  apply visited_origin in Hq as (q0 & Hq0 & [[Hext ->] | [Hext ->]]).
  - cbn [Sequence_add parts] in Hparts.
    change (l ++ [p1; p2]) with (l ++ [p1] ++ [p2]) in Hparts.
    rewrite app_assoc in Hparts. apply app_inj_tail in Hparts as [Hparts _].
    destruct (live_shape q0 Hq0) as (_ & Hlast & _).
    pose proof (Hlast p1 (@Sequence_last_of_parts q0 l p1 Hparts)) as Hwhole.
    unfold truncated in Htr. lia.
  - destruct (live_wf q0 Hq0) as (e' & _ & _ & _ & Hlt & _).
    assert (Hin : In p2 (parts q0))
      by (rewrite Hparts; apply in_app_iff; right; right; now left).
    specialize (Hlt p2 Hin). lia.
Qed.

Lemma visited_sources :
  sources_live e str (i + 1) (visited (visit_at e str s i)).
Proof.
  intros T l p1 p2 HT Hparts Hstart Htr. exfalso.
  apply (@visited_whole T l p1 p2 HT Hparts); [lia | assumption].
Qed.

Lemma pushed_sources :
  sources_live e str (i + 1)
    (push_clones (visited (visit_at e str s i))
                 (sort_by_length (overlapping (visit_at e str s i)))).
Proof.
  intros T l p1 p2 HT Hparts Hstart Htr.
  destruct (push_clones_shape (sort_by_length (overlapping (visit_at e str s i)))
              (visited (visit_at e str s i))) as (added & Hr & Hincl & _).
  rewrite Hr in HT. apply in_app_iff in HT as [HT | HT].
  { exfalso. apply (@visited_whole T l p1 p2 HT Hparts); [lia | assumption]. }
  pose proof (proj1 (In_sort_by_length _ _) (Hincl T HT)) as Hov.
  destruct (clone_origin T Hov) as (q & lp & text & Hq & Ec & El & Em & ->).
  rewrite overlap_clone_parts in Hparts.
  change (removelast (parts q) ++ [truncate_part lp i; match_part i text])
    with (removelast (parts q) ++ [truncate_part lp i] ++ [match_part i text])
    in Hparts.
  change (l ++ [p1; p2]) with (l ++ [p1] ++ [p2]) in Hparts.
  rewrite !app_assoc in Hparts. apply app_inj_tail in Hparts as [Hparts _].
  apply app_inj_tail in Hparts as [Hl Hp1].
  exists q. split.
  - apply push_clones_incl. now apply visited_kept.
  - rewrite (@Sequence_last_parts _ _ El) at 1. rewrite Hl. f_equal. f_equal.
    rewrite <- Hp1. cbn [truncate_part part_start].
    destruct (@seq_wf_keep str k i q (live_wf q Hq) Ec) as (lp' & El' & Hlp & Hwf & _ & _).
    rewrite El in El'. injection El' as <-.
    destruct (@scanned_part_wf e str longest (part_start lp)) as [Hspwf Hspstart].
    { destruct Hwf as (H0 & _). lia. }
    apply (@part_wf_unique str); try assumption; [now symmetry|].
    destruct (live_shape q Hq) as (_ & Hlast & _). exact (Hlast lp El).
Qed.

Lemma single_sources (p : Part) :
  sources_live e str (i + 1) [Sequence_add Sequence_new p].
Proof.
  intros T l p1 p2 [<- | []] Hparts. cbn [Sequence_add Sequence_new parts app] in Hparts.
  destruct l as [|x [|y l]]; discriminate Hparts.
Qed.

(** *** A sequence that cuts the input only where the pieces do *)

Variable pieces : list jsstring.
Hypothesis pieces_concat : concat pieces = str.
Hypothesis pieces_keys :
  forall c, In c pieces -> c <> [] /\ hasOwnProperty (unicode_map e) c = true.

(** The scan reaches the end of the piece that begins at [i], or further. *)
Lemma reach_piece (l1 : list jsstring) (c : jsstring) (l2 : list jsstring) :
  pieces = l1 ++ c :: l2 -> strlen (concat l1) = i ->
  i + 1 <= i + strlen c <= reach e str i
  /\ (1 < strlen c -> match_at e (substring_from str i) <> None).
Proof.
  intros Hp Hl.
  destruct (pieces_keys c) as [Hne Hkey];
    [rewrite Hp; apply in_app_iff; right; now left|].
  assert (Hlen : 1 <= strlen c).
  { unfold strlen. destruct c; [contradiction | cbn [List.length]; lia]. }
  destruct (Z_le_gt_dec (strlen c) 1) as [Hone | Hmore].
  - pose proof (@reach_after e str longest i position). split; lia.
  - assert (Hrun : substring_from str i = c ++ concat l2).
    { rewrite <- pieces_concat, Hp, <- Hl. apply piece_begins. }
    destruct (longest position) as [_ Hfound].
    destruct (Hfound c (concat l2) Hrun Hkey ltac:(lia)) as (text & Hm & Hle).
    split; [|intros _; rewrite Hm; discriminate].
    unfold reach, scanned_part. rewrite Hm.
    cbn [new_part match_part part_end]. lia.
Qed.

Lemma reach_bounded : reach e str i <= strlen (concat pieces).
Proof.
  rewrite pieces_concat.
  destruct (@scanned_part_wf e str longest i position) as [(_ & _ & _ & Hb & _) _].
  exact Hb.
Qed.

(** What the end of the part added at [i] is ahead of. *)
Lemma ahead_reach :
  cut pieces i -> ahead pieces (i + 1) (reach e str i).
Proof.
  intro Hcut.
  destruct (@cut_piece pieces i Hcut) as (l1 & c & l2 & Hp & Hl);
    [rewrite pieces_concat; lia|].
  destruct (reach_piece l1 c l2 Hp Hl) as [Hreach _].
  apply (@ahead_from_cut pieces (i + strlen c)); [|lia | apply reach_bounded].
  exists (l1 ++ [c]), l2. split; [rewrite Hp, <- app_assoc; reflexivity|].
  rewrite strlen_concat_app. cbn [concat]. rewrite app_nil_r. lia.
Qed.

Lemma free_end (q : Sequence) :
  In q (sequences s) -> can_extend (Sequence_last q) i = true -> seq_end q = i.
Proof.
  intros Hq Hext.
  destruct (@seq_wf_ends str k i q (live_wf q Hq) Hext region) as (Ht & _).
  destruct (live_wf q Hq) as (e' & Ht' & _ & _ & _ & _ & _ & Hend).
  rewrite Hend. exact (@tiles_end_unique _ _ _ _ Ht' Ht).
Qed.

(** A sequence that can be extended ends at a cut. *)
Lemma serves_free (q : Sequence) :
  In q (sequences s) -> serves pieces i q ->
  can_extend (Sequence_last q) i = true ->
  cut pieces i /\ serves pieces (i + 1) (Sequence_add q (scanned_part e str i)).
Proof.
  intros Hq [Hstarts Hahead] Hext.
  pose proof (free_end q Hq Hext) as Hend. rewrite Hend in Hahead.
  assert (Hcut : cut pieces i).
  { destruct Hahead as [Hc | (l1 & c & l2 & _ & H1 & H2)]; [assumption | lia]. }
  split; [assumption|].
  destruct (@scanned_part_wf e str longest i position) as [Hspwf Hspstart].
  split.
  - cbn [Sequence_add parts]. intros p Hp.
    apply in_app_iff in Hp as [Hp | [<- | []]]; [now apply Hstarts|].
    now rewrite Hspstart.
  - cbn [Sequence_add seq_end].
    pose proof (@reach_after e str longest i position) as Hafter.
    unfold reach in Hafter.
    replace (Z.max (part_end (scanned_part e str i)) (seq_end q))
      with (reach e str i) by (unfold reach; lia).
    now apply ahead_reach.
Qed.

(** The clone of a sequence whose last part ends inside the piece that
    begins at [i]. *)
Lemma serves_clone (q : Sequence) (l1 : list jsstring) (c : jsstring)
  (l2 : list jsstring) :
  In q (sequences s) -> serves pieces i q ->
  can_extend (Sequence_last q) i = false ->
  pieces = l1 ++ c :: l2 -> strlen (concat l1) = i ->
  i < seq_end q < i + strlen c ->
  exists lp text,
    Sequence_last q = Some lp
    /\ match_at e (substring_from str i) = Some text
    /\ In (overlap_clone q lp i text) (overlapping (visit_at e str s i))
    /\ serves pieces (i + 1) (overlap_clone q lp i text).
Proof.
  intros Hq [Hstarts _] Hext Hp Hl Hin.
  destruct (reach_piece l1 c l2 Hp Hl) as [Hreach Hmatch].
  destruct (match_at e (substring_from str i)) as [text|] eqn:Em;
    [|exfalso; apply Hmatch; [lia | reflexivity]].
  destruct (@seq_wf_keep str k i q (live_wf q Hq) Hext) as (lp & El & Hlp & Hwf & _ & _).
  exists lp, text. split; [assumption|]. split; [reflexivity|].
  pose proof (@clone_queued q lp text Hq Hext El Em) as Hov.
  split; [assumption|].
  assert (Hcut : cut pieces i) by (exists l1, (c :: l2); auto).
  assert (Hm : match_part i text = scanned_part e str i)
    by (unfold scanned_part; now rewrite Em).
  split.
  - intros p Hp'. rewrite overlap_clone_parts in Hp'.
    apply in_app_iff in Hp' as [Hp' | [<- | [<- | []]]].
    + apply Hstarts. rewrite (@Sequence_last_parts _ _ El).
      apply in_app_iff. now left.
    + cbn [truncate_part part_start]. apply Hstarts.
      rewrite (@Sequence_last_parts _ _ El). apply in_app_iff. right. now left.
    + cbn [match_part part_start]. assumption.
  - destruct step_wf as [_ Hovl].
    rewrite (@seq_wf_end str k (i + 1) (overlap_clone q lp i text)
               (removelast (parts q) ++ [truncate_part lp i]) (match_part i text)
               (Hovl _ Hov))
      by (rewrite overlap_clone_parts, <- app_assoc; reflexivity).
    rewrite Hm. now apply ahead_reach.
Qed.

(** After a position where clones were queued, a live sequence still cuts
    the input only where the pieces do. *)
Lemma serves_pushed :
  (exists q, In q (sequences s) /\ serves pieces i q) ->
  exists q', In q' (push_clones (visited (visit_at e str s i))
                      (sort_by_length (overlapping (visit_at e str s i))))
             /\ serves pieces (i + 1) q'.
Proof.
  intros (q & Hq & Hserves).
  destruct (can_extend (Sequence_last q) i) eqn:Ext.
  { exists (Sequence_add q (scanned_part e str i)). split.
    - apply push_clones_incl. now apply visited_extended.
    - now apply serves_free. }
  assert (Hstay : ahead pieces (i + 1) (seq_end q) ->
                  exists q', In q' (push_clones (visited (visit_at e str s i))
                      (sort_by_length (overlapping (visit_at e str s i))))
                             /\ serves pieces (i + 1) q').
  { intro Ha. exists q. split.
    - apply push_clones_incl. now apply visited_kept.
    - split; [apply Hserves | exact Ha]. }
  pose proof Hserves as Hserves0.
  destruct Hserves as [Hstarts [Hcut | (l1 & c & l2 & Hp & Hle & Hin)]].
  { apply Hstay. now left. }
  destruct (Z.eq_dec (strlen (concat l1)) i) as [Heq | Hne].
  2:{ apply Hstay. right. exists l1, c, l2. split; [assumption|]. lia. }
  rewrite Heq in Hin.
  destruct (@serves_clone q l1 c l2 Hq Hserves0 Ext Hp Heq Hin)
    as (lp & text & El & Em & Hov & Hclone).
  set (N := overlap_clone q lp i text) in *.
  destruct (@push_clones_clone (sort_by_length (overlapping (visit_at e str s i)))
              (visited (visit_at e str s i)) N
              (proj2 (In_sort_by_length _ _) Hov))
    as [Hkept | (live' & Hlive & Hfound)].
  { exists N. split; assumption. }
  apply inSequences_equivalent in Hfound as (W & HW & Heqv).
  exists W. split; [now apply Hlive|].
  destruct step_wf as [_ Hovl].
  pose proof (pushed_wf W (Hlive W HW)) as HWwf.
  pose proof (pushed_shape W (Hlive W HW)) as (_ & _ & HW3 & HW4).
  pose proof (Hovl N Hov) as HNwf.
  destruct (@shape_clone e str longest k i q lp text region (proj2 position)
              (live_wf q Hq) (live_shape q Hq) Ext El Em) as (HN1 & _).
  fold N in HN1.
  destruct Heqv as (_ & Hend & _ & Hfree).
  destruct HWwf as (eW & HtW & HeW & HwfW & _ & _ & _ & HendW).
  destruct HNwf as (eN & HtN & HeN & HwfN & _ & _ & _ & HendN).
  assert (HeqE : eW = eN) by lia. rewrite HeqE in HtW, HeW.
  split.
  - intros P HP. apply in_split in HP as (pre & post & HsplitW).
    destruct (@equivalent_starts e str longest k eN (parts W) (parts N)
                ltac:(lia) ltac:(lia) HtW HtN HwfW HwfN HN1 HW3 HW4 Hfree
                pre P post HsplitW) as (NP & HNP & Hsame).
    rewrite <- Hsame. now apply Hclone.
  - rewrite Hend. apply Hclone.
Qed.

(** After a position where no clone was queued. *)
Lemma serves_visited :
  overlapping (visit_at e str s i) = [] ->
  (exists q, In q (sequences s) /\ serves pieces i q) ->
  exists q', In q' (visited (visit_at e str s i)) /\ serves pieces (i + 1) q'.
Proof.
  intros Hnone (q & Hq & Hserves).
  destruct (can_extend (Sequence_last q) i) eqn:Ext.
  { exists (Sequence_add q (scanned_part e str i)). split.
    - now apply visited_extended.
    - now apply serves_free. }
  assert (Hstay : ahead pieces (i + 1) (seq_end q) ->
                  exists q', In q' (visited (visit_at e str s i))
                             /\ serves pieces (i + 1) q').
  { intro Ha. exists q. split; [now apply visited_kept|].
    split; [apply Hserves | exact Ha]. }
  pose proof Hserves as Hserves0.
  destruct Hserves as [Hstarts [Hcut | (l1 & c & l2 & Hp & Hle & Hin)]].
  { apply Hstay. now left. }
  destruct (Z.eq_dec (strlen (concat l1)) i) as [Heq | Hne].
  2:{ apply Hstay. right. exists l1, c, l2. split; [assumption|]. lia. }
  rewrite Heq in Hin.
  destruct (@serves_clone q l1 c l2 Hq Hserves0 Ext Hp Heq Hin)
    as (lp & text & _ & _ & Hov & _).
  rewrite Hnone in Hov. contradiction.
Qed.

End Step.

(** ** Cuts of a part of the pieces *)

Lemma strlen_zero (x : jsstring) : strlen x = 0 -> x = [].
Proof. unfold strlen. destruct x; [reflexivity | cbn [List.length]; lia]. Qed.

Lemma concat_nil_pieces (l : list jsstring) :
  (forall x, In x l -> x <> []) -> concat l = [] -> l = [].
Proof.
  destruct l as [|x l]; [reflexivity|]. intros Hne Hnil. cbn [concat] in Hnil.
  apply app_eq_nil in Hnil as [Hx _]. now destruct (Hne x (or_introl eq_refl)).
Qed.

Lemma cut_suffix (m1 m2 : list jsstring) (c : Z) :
  (forall x, In x m1 -> x <> []) ->
  cut (m1 ++ m2) c -> strlen (concat m1) <= c ->
  cut m2 (c - strlen (concat m1)).
Proof.
  intros Hne (g1 & g2 & Heq & Hc) Hle.
  apply app_eq_app in Heq as (l & [[H1 H2] | [H1 H2]]).
  - rewrite H1, strlen_concat_app in Hle |- *.
    pose proof (strlen_nonneg (concat l)) as Hl.
    assert (Hnil : l = []).
    { apply concat_nil_pieces; [|apply strlen_zero; lia].
      intros x Hx. apply Hne. rewrite H1. apply in_app_iff. now right. }
    subst l. change (strlen (concat [])) with 0.
    replace (c - (strlen (concat g1) + 0)) with 0 by lia. apply cut_zero.
  - rewrite H1, strlen_concat_app in Hc. exists l, g2. split; [assumption|]. lia.
Qed.

Lemma cut_prefix (m1 m2 : list jsstring) (c : Z) :
  (forall x, In x m2 -> x <> []) ->
  cut (m1 ++ m2) c -> c <= strlen (concat m1) ->
  cut m1 c.
Proof.
  intros Hne (g1 & g2 & Heq & Hc) Hle.
  apply app_eq_app in Heq as (l & [[H1 H2] | [H1 H2]]).
  - exists g1, l. split; assumption.
  - rewrite H1, strlen_concat_app in Hc.
    pose proof (strlen_nonneg (concat l)) as Hl.
    assert (Hnil : l = []).
    { apply concat_nil_pieces; [|apply strlen_zero; lia].
      intros x Hx. apply Hne. rewrite H2. apply in_app_iff. now left. }
    subst l. rewrite app_nil_r in H1. subst g1. exists m1, [].
    split; [now rewrite app_nil_r|]. change (strlen (concat [])) with 0 in Hc. lia.
Qed.

Lemma cut_all (pieces : list jsstring) : cut pieces (strlen (concat pieces)).
Proof. exists pieces, []. split; [now rewrite app_nil_r | reflexivity]. Qed.

(** Every position of a string is between two of its code units. *)
Lemma cut_units (sub : jsstring) :
  forall c, 0 <= c <= strlen sub -> cut (units sub) c.
Proof.
  induction sub as [|u sub IH]; intros c Hc.
  - change (strlen []) with 0 in Hc. replace c with 0 by lia. apply cut_zero.
  - destruct (Z.eq_dec c 0) as [-> | Hpos]; [apply cut_zero|].
    unfold strlen in Hc. cbn [List.length] in Hc.
    replace c with (strlen [u] + (c - 1)) by (change (strlen [u]) with 1; lia).
    cbn [units map]. apply cut_cons. apply IH. unfold strlen. lia.
Qed.

Lemma app_inj_strlen (a a' b b' : jsstring) :
  strlen a = strlen a' -> a ++ b = a' ++ b' -> a = a' /\ b = b'.
Proof.
  revert a'. induction a as [|x a IH]; intros [|x' a'] Hlen Heq;
    unfold strlen in Hlen; cbn [List.length] in Hlen; try lia.
  - split; [reflexivity | exact Heq].
  - cbn [app] in Heq. injection Heq as -> Heq.
    destruct (IH a' ltac:(unfold strlen; lia) Heq) as [-> ->]. split; reflexivity.
Qed.

(** The pieces between two cuts make up the text between them. *)
Lemma pieces_between (str : jsstring) (l1 mid l2 : list jsstring) :
  concat (l1 ++ mid ++ l2) = str ->
  concat mid
  = substring str (strlen (concat l1)) (strlen (concat l1) + strlen (concat mid)).
Proof.
  intro Hstr. rewrite !concat_app in Hstr.
  pose proof (strlen_nonneg (concat l1)). pose proof (strlen_nonneg (concat mid)).
  pose proof (strlen_nonneg (concat l2)).
  assert (Hlen : strlen str
                 = strlen (concat l1) + strlen (concat mid) + strlen (concat l2)).
  { rewrite <- Hstr, !strlen_app. lia. }
  rewrite substring_in_bounds by lia.
  replace (strlen (concat l1) + strlen (concat mid) - strlen (concat l1))
    with (strlen (concat mid)) by lia.
  rewrite <- Hstr. unfold strlen. rewrite !Nat2Z.id.
  rewrite skipn_app, skipn_all, Nat.sub_diag. cbn [skipn app].
  rewrite firstn_app, firstn_all, Nat.sub_diag. cbn [firstn].
  now rewrite app_nil_r.
Qed.

(** A cut of the pieces between two cuts is a cut of the pieces between. *)
Lemma local_cut (l1 mid l2 : list jsstring) (c : Z) :
  (forall x, In x (l1 ++ mid ++ l2) -> x <> []) ->
  cut (l1 ++ mid ++ l2) c ->
  strlen (concat l1) <= c <= strlen (concat l1) + strlen (concat mid) ->
  cut mid (c - strlen (concat l1)).
Proof.
  intros Hne Hc Hb. apply cut_prefix with (m2 := l2).
  - intros x Hx. apply Hne. apply in_app_iff. right. apply in_app_iff. now right.
  - apply cut_suffix; [|assumption | lia].
    intros x Hx. apply Hne. apply in_app_iff. now left.
  - lia.
Qed.


(** * Soundness of the pattern *)

Lemma chunks_are_code_points (l : list jsstring) :
  Model.chunks_wf l -> forall c, In c l -> Array_from c = [c].
Proof.
  induction l as [|c0 l IH]; intros Hwf c Hc; [contradiction|].
  destruct (@ModelSoundness.chunk_is_code_point c0 l Hwf) as [Hc0 Hrest].
  destruct Hc as [<- | Hc]; [exact Hc0 | now apply IH].
Qed.

Lemma Array_from_chunk (s c : jsstring) :
  In c (Array_from s) -> Array_from c = [c].
Proof. apply chunks_are_code_points, ModelSoundness.Array_from_wf. Qed.

Lemma concat_singletons {A} (l : list A) : concat (map (fun x => [x]) l) = l.
Proof. induction l as [|x l IH]; [reflexivity|]. simpl. now rewrite IH. Qed.

Lemma Forall2_app_split {A B} (R : A -> B -> Prop) (l1 l2 : list A) :
  forall l, Forall2 R (l1 ++ l2) l ->
            exists m1 m2, l = m1 ++ m2 /\ Forall2 R l1 m1 /\ Forall2 R l2 m2.
Proof.
  induction l1 as [|a l1 IH]; intros l H; cbn [app] in H.
  - exists [], l. repeat split; [constructor | exact H].
  - inversion H as [|? b ? m Hab Hrest]; subst.
    destruct (IH _ Hrest) as (m1 & m2 & -> & H1 & H2).
    exists (b :: m1), m2. repeat split; [now constructor | exact H2].
Qed.

Section SoundPattern.

Variable h : Host.
Variable code_points : list (Z * Z).
Variable e : Engine.
Hypothesis built : generateMap h code_points = Some e.

Variable sim : jsstring -> jsstring -> Prop.
Variable matches : jsstring -> list jsstring -> Prop.
Hypothesis sim_refl : forall x, sim x x.
Hypothesis compiles :
  forall set, escaped_set h set ->
    exists r,
      RegExp h (Some (anchored (setToPattern h set))) flags_iu = Some r /\
      forall x, 0 < strlen x <= max_char_length ->
        (r x <> None <-> exists y, In (escape_regex h y) set /\ sim y x).
Hypothesis matches_empty : matches [] [].
Hypothesis matches_plain : forall c, plain_code_point c -> matches c [c].
Hypothesis matches_set :
  forall set y x,
    escaped_set h set -> In (escape_regex h y) set -> sim y x ->
    exists p, setToPattern h set = Some p /\ p <> [] /\ matches p (Array_from x).
Hypothesis matches_sequence :
  forall ps xs, Forall2 matches ps xs ->
                matches (sequencePattern h (map Some ps)) (concat xs).
Hypothesis matches_alternation :
  forall ps, ps <> [] ->
    (forall q, In q ps -> q <> [] /\ exists x, matches q x) ->
    exists a, arrayToPattern h ps = Some a
              /\ forall p x, In p ps -> matches p x -> matches a x.
Hypothesis matches_join :
  forall p q x y, matches p x -> matches q y -> matches (p ++ q) (x ++ y).
Hypothesis matches_nonempty : forall p x, matches p x -> x <> [] -> p <> [].
Hypothesis matches_compiled :
  forall p x, matches p x ->
    exists r, RegExp h (Some p) flags_iu = Some r
              /\ forall subject, Array_from subject = x -> r subject <> None.

(** The fragment of a key: the pattern of its variant set, which holds the
    key and covers the characters registered with it. *)
Lemma key_fragment (c : jsstring) :
  hasOwnProperty (unicode_map e) c = true ->
  exists set p,
    mapSequence_run e c = p /\ p <> []
    /\ escaped_set h set /\ setToPattern h set = Some p
    /\ In (escape_regex h c) set
    /\ forall v, In v (generator h code_points) -> folded v = c ->
                 covers h sim set (composed v).
Proof.
  unfold hasOwnProperty. destruct (obj_get (unicode_map e) c) as [fragment|] eqn:Eg;
    [intros _ | discriminate].
  destruct (@generateMap_keys h sim sim_refl compiles code_points e c fragment
              built Eg) as (sets & s & _ & [Hkeys Hdone] & Hget & ->).
  destruct (Hkeys c s Hget) as (Hesc & Hhd & _).
  assert (Hin : In (escape_regex h c) s).
  { destruct s as [|e0 s]; [discriminate|]. injection Hhd as ->. now left. }
  destruct (@matches_set s c c Hesc Hin (sim_refl c)) as (p & Hp & Hne & _).
  exists s, p. unfold mapSequence_run. rewrite Eg, Hp.
  destruct p as [|u p]; [contradiction|]. cbn [truthy to_string].
  repeat split; try assumption; try discriminate.
  intros v Hv Hf. destruct (Hdone v Hv) as (s' & Hs' & Hcov).
  rewrite Hf, Hget in Hs'. now injection Hs' as <-.
Qed.

Lemma run_matches (c x : jsstring) :
  Array_from c = [c] ->
  (hasOwnProperty (unicode_map e) c = false -> plain_code_point c) ->
  (stands_for h code_points e) c x ->
  matches (mapSequence_run e c) [x].
Proof.
  intros Hc Hplain [[[Habs ->] | [Hkey Hx]] Hchunk].
  - rewrite mapSequence_run_absent by assumption. apply matches_plain.
    now apply Hplain.
  - destruct (@key_fragment c Hkey) as (set & p & -> & _ & Hesc & Hp & Hin & Hcov).
    destruct Hx as [-> | (v & Hv & Hf & <-)].
    + destruct (@matches_set set c c Hesc Hin (sim_refl c)) as (p' & Hp' & _ & Hm).
      rewrite Hp in Hp'. injection Hp' as <-. now rewrite Hc in Hm.
    + destruct (Hcov v Hv Hf) as (y & Hy & Hsim).
      destruct (@matches_set set y (composed v) Hesc Hy Hsim) as (p' & Hp' & _ & Hm).
      rewrite Hp in Hp'. injection Hp' as <-. now rewrite Hchunk in Hm.
Qed.

Lemma runs_match (cs xs : list jsstring) :
  (forall c, In c cs -> Array_from c = [c]) ->
  (forall c, In c cs -> hasOwnProperty (unicode_map e) c = false ->
             plain_code_point c) ->
  Forall2 (stands_for h code_points e) cs xs ->
  matches (sequencePattern h (map (fun c => Some (mapSequence_run e c)) cs)) xs.
Proof.
  intros Hchunks Hplain Hall.
  rewrite <- (concat_singletons xs), <- (map_map (mapSequence_run e) Some).
  apply matches_sequence.
  induction Hall as [|c x cs xs Hcx _ IH]; [constructor|].
  cbn [map]. constructor.
  - apply run_matches; [apply Hchunks | apply Hplain | assumption]; now left.
  - apply IH; intros c' Hc'; [apply Hchunks | apply Hplain]; now right.
Qed.

Lemma stands_for_itself (cs : list jsstring) :
  (forall c, In c cs -> Array_from c = [c]) -> Forall2 (stands_for h code_points e) cs cs.
Proof.
  induction cs as [|c cs IH]; intro H; constructor.
  - split; [|apply H; now left]. unfold registered.
    destruct (hasOwnProperty (unicode_map e) c); [right | left]; auto.
  - apply IH. intros c' Hc'. apply H. now right.
Qed.

Lemma stands_for_subject (cs : list jsstring) (subject : jsstring) :
  Forall2 (registered h code_points e) cs (Array_from subject) ->
  Forall2 (stands_for h code_points e) cs (Array_from subject).
Proof.
  assert (H : forall xs, (forall x, In x xs -> Array_from x = [x]) ->
                         Forall2 (registered h code_points e) cs xs ->
                         Forall2 (stands_for h code_points e) cs xs).
  { intros xs Hxs Hall. induction Hall as [|c x cs' xs' Hcx _ IH]; constructor.
    - split; [assumption | apply Hxs; now left].
    - apply IH. intros x' Hx'. apply Hxs. now right. }
  apply H. intros x Hx. exact (@Array_from_chunk _ _ Hx).
Qed.

(** The simple path. *)
Lemma simple_path_sound (s : jsstring) :
  multi_char_reg e (asciifold h s) = None ->
  (forall c, In c (Array_from (asciifold h s)) ->
             hasOwnProperty (unicode_map e) c = false -> plain_code_point c) ->
  exists p r,
    getPattern h e s = Some p
    /\ RegExp h (Some p) flags_iu = Some r
    /\ forall subject,
         Forall2 (registered h code_points e)
                 (Array_from (asciifold h s)) (Array_from subject) ->
         r subject <> None.
Proof.
  intros Hsimple Hplain.
  set (cs := Array_from (asciifold h s)) in *.
  set (p := sequencePattern h (map (fun c => Some (mapSequence_run e c)) cs)).
  assert (Hchunks : forall c, In c cs -> Array_from c = [c])
    by (intros c Hc; exact (@Array_from_chunk _ _ Hc)).
  assert (Hm : forall xs, Forall2 (stands_for h code_points e) cs xs -> matches p xs)
    by (intros xs Hxs; now apply runs_match).
  destruct (matches_compiled (Hm cs (@stands_for_itself cs Hchunks))) as (r & Hr & _).
  exists p, r. split; [|split; [exact Hr|]].
  - unfold getPattern. fold cs. rewrite Hsimple. apply mapSequence_zero.
  - intros subject Hsub.
    destruct (matches_compiled (Hm _ (@stands_for_subject cs subject Hsub))) as (r' & Hr' & Hfind).
    rewrite Hr in Hr'. injection Hr' as <-. now apply Hfind.
Qed.


(** ** The scan path *)

Hypothesis partitions : partition_contract h.

Variable str : jsstring.
Hypothesis longest : matches_are_longest_keys e str.
Hypothesis keys : forall u, In u str -> hasOwnProperty (unicode_map e) [u] = true.

Lemma In_substring (u : code_unit) (a b : Z) :
  In u (substring str a b) -> In u str.
Proof.
  unfold substring. intro H.
  set (n := Nat.min _ _) in H. set (m := (_ - n)%nat) in H.
  rewrite <- (firstn_skipn n str). apply in_app_iff. right.
  rewrite <- (firstn_skipn m (skipn n str)). apply in_app_iff. now left.
Qed.

Lemma concat_units (sub : jsstring) : concat (units sub) = sub.
Proof. apply concat_singletons. Qed.

Lemma units_nonempty (sub : jsstring) : sub <> [] -> units sub <> [].
Proof. destruct sub; [contradiction | discriminate]. Qed.

Lemma units_app (a b : jsstring) : units (a ++ b) = units a ++ units b.
Proof. apply map_app. Qed.

Lemma units_code_points (sub : jsstring) :
  concat (map Array_from (units sub)) = units sub.
Proof.
  induction sub as [|u sub IH]; [reflexivity|].
  cbn [units map concat Array_from app]. fold (units sub). now rewrite IH.
Qed.

(** The partition into single code units. *)
Lemma partition_units (sub : jsstring) :
  sub <> [] -> In (units sub) (allSubstrings h sub).
Proof.
  intro Hne. apply (partitions Hne). split; [apply concat_units|].
  intro H. apply in_map_iff in H as (u & Hu & _). discriminate Hu.
Qed.

Lemma chars_replaced_keys (l : list jsstring) :
  (forall r, In r l -> hasOwnProperty (unicode_map e) r = true) ->
  chars_replaced e l = strlen (concat l).
Proof.
  induction l as [|r l IH]; intro H; [reflexivity|].
  rewrite chars_replaced_cons, IH by (intros r' Hr'; apply H; now right).
  unfold mapSequence_count. rewrite (H r (or_introl eq_refl)).
  cbn [concat]. now rewrite strlen_app.
Qed.

Lemma strlen_in_concat (r : jsstring) (l : list jsstring) :
  In r l -> strlen r <= strlen (concat l).
Proof.
  induction l as [|x l IH]; [contradiction|]. cbn [concat]. rewrite strlen_app.
  intros [<- | Hr].
  - pose proof (strlen_nonneg (concat l)). lia.
  - specialize (IH Hr). pose proof (strlen_nonneg x). lia.
Qed.

(** A partition that reaches the minimum has pieces with map entries only. *)
Lemma contributing_pieces (sub : jsstring) (sub_pat : list jsstring) :
  sub <> [] ->
  (forall u, In u sub -> hasOwnProperty (unicode_map e) [u] = true) ->
  In sub_pat (allSubstrings h sub) ->
  strlen sub - 1 <= chars_replaced e sub_pat ->
  forall r, In r sub_pat -> hasOwnProperty (unicode_map e) r = true.
Proof.
  intros Hne Hkeys Hin Hmin r Hr.
  destruct (proj1 (partitions Hne sub_pat) Hin) as [Hconcat Hpieces].
  destruct (hasOwnProperty (unicode_map e) r) eqn:E; [reflexivity|]. exfalso.
  assert (Hun : In r (unmapped_runs e sub_pat)).
  { unfold unmapped_runs. apply filter_In. split; [assumption|]. now rewrite E. }
  apply strlen_in_concat in Hun.
  pose proof (chars_replaced_unmapped e sub_pat) as Hsum. rewrite Hconcat in Hsum.
  destruct r as [|u [|u2 r]].
  - now apply Hpieces.
  - assert (Hu : In u sub).
    { rewrite <- Hconcat. apply in_concat. exists [u]. split; [assumption | now left]. }
    rewrite (Hkeys u Hu) in E. discriminate.
  - unfold strlen in Hun at 1. cbn [List.length] in Hun. lia.
Qed.

Lemma keys_match (l : list jsstring) :
  (forall r, In r l -> hasOwnProperty (unicode_map e) r = true) ->
  matches (sequencePattern h (map (fun c => Some (mapSequence_run e c)) l))
          (concat (map Array_from l)).
Proof.
  intro H. rewrite <- (map_map (mapSequence_run e) Some).
  apply matches_sequence. induction l as [|r l IH]; [constructor|].
  cbn [map]. constructor.
  - destruct (@key_fragment r (H r (or_introl eq_refl)))
      as (set & p & -> & _ & Hesc & Hp & Hin & _).
    destruct (@matches_set set r r Hesc Hin (sim_refl r)) as (p' & Hp' & _ & Hm).
    rewrite Hp in Hp'. now injection Hp' as <-.
  - apply IH. intros r' Hr'. apply H. now right.
Qed.

(** *** Readings *)

(** A text that can be read for a key matches the fragment of the key. *)
Lemma reads_match (c x : jsstring) :
  reads h code_points e c x -> matches (mapSequence_run e c) (Array_from x).
Proof.
  intros (_ & Hkey & Hx).
  destruct (@key_fragment c Hkey) as (set & p & -> & _ & Hesc & Hp & Hin & Hcov).
  destruct Hx as [-> | (v & Hv & Hf & <-)].
  - destruct (@matches_set set c c Hesc Hin (sim_refl c)) as (p' & Hp' & _ & Hm).
    rewrite Hp in Hp'. now injection Hp' as <-.
  - destruct (Hcov v Hv Hf) as (y & Hy & Hsim).
    destruct (@matches_set set y (composed v) Hesc Hy Hsim) as (p' & Hp' & _ & Hm).
    rewrite Hp in Hp'. now injection Hp' as <-.
Qed.

Lemma readings_match (l ts : list jsstring) :
  Forall2 (reads h code_points e) l ts ->
  matches (sequencePattern h (map (fun c => Some (mapSequence_run e c)) l))
          (concat (map Array_from ts)).
Proof.
  intro H. rewrite <- (map_map (mapSequence_run e) Some).
  apply matches_sequence.
  induction H as [|c x l ts Hcx _ IH]; cbn [map]; constructor;
    [now apply reads_match | exact IH].
Qed.

Lemma reads_pieces (l ts : list jsstring) :
  Forall2 (reads h code_points e) l ts ->
  forall c, In c l -> c <> [] /\ hasOwnProperty (unicode_map e) c = true.
Proof.
  induction 1 as [|c0 x l ts (Hne & Hkey & _) _ IH]; intros c Hc; [contradiction|].
  destruct Hc as [<- | Hc]; [split; assumption | now apply IH].
Qed.

(** The code units of a run of keys, read as they are. *)
Lemma units_read (sub : jsstring) :
  (forall u, In u sub -> hasOwnProperty (unicode_map e) [u] = true) ->
  Forall2 (reads h code_points e) (units sub) (units sub).
Proof.
  induction sub as [|u sub IH]; intro H; cbn [units map]; constructor.
  - split; [discriminate|]. split; [apply H; now left | now left].
  - apply IH. intros u' Hu'. apply H. now right.
Qed.

(** The pattern of one part of a segmentation: it matches every reading of
    the part. *)
Lemma piece_pattern (sub : jsstring) :
  sub <> [] ->
  (forall u, In u sub -> hasOwnProperty (unicode_map e) [u] = true) ->
  exists P,
    substringsToPattern h e sub 1 = Some P /\ P <> []
    /\ forall sub_pat ts,
         concat sub_pat = sub -> Forall2 (reads h code_points e) sub_pat ts ->
         matches P (concat (map Array_from ts)).
Proof.
  intros Hne Hkeys.
  set (m := Z.max 1 (strlen sub - 1)).
  assert (Hlen : 0 < strlen sub).
  { unfold strlen. destruct sub; [contradiction | simpl List.length; lia]. }
  assert (Hunits : units sub <> []) by now apply units_nonempty.
  assert (Hin : forall sub_pat ts,
            concat sub_pat = sub -> Forall2 (reads h code_points e) sub_pat ts ->
            In (sequencePattern h (map (fun c => Some (mapSequence_run e c)) sub_pat))
               (substringsToPattern_patterns h e sub m)).
  { intros sub_pat ts Hconcat Hreads.
    pose proof (@reads_pieces _ _ Hreads) as Hpieces.
    apply In_substringsToPattern_patterns. exists sub_pat. split; [|split; [|split]].
    - apply (partitions Hne). split; [assumption|].
      intro Hnil. now destruct (Hpieces [] Hnil).
    - rewrite chars_replaced_keys, Hconcat by (intros r Hr; now apply Hpieces).
      unfold m. lia.
    - reflexivity.
    - apply (@matches_nonempty _ (concat (map Array_from sub_pat))).
      + apply keys_match. intros r Hr. now apply Hpieces.
      + intro Hnil. apply Hne. rewrite <- Hconcat.
        clear -Hnil. induction sub_pat as [|x l IH]; [reflexivity|].
        cbn [map concat] in Hnil. apply app_eq_nil in Hnil as [Hx Hl].
        cbn [concat]. rewrite (IH Hl), app_nil_r.
        destruct x as [|u [|u' x]]; [reflexivity | discriminate Hx |].
        cbn [Array_from] in Hx.
        destruct (is_high_surrogate u && is_low_surrogate u'); discriminate Hx. }
  pose proof (Hin (units sub) (units sub) (concat_units sub) (@units_read sub Hkeys))
    as Hsingle.
  destruct (@matches_alternation (substringsToPattern_patterns h e sub m))
    as (a & Ha & Halt).
  { intro Hnil. rewrite Hnil in Hsingle. contradiction. }
  { intros q Hq. apply In_substringsToPattern_patterns in Hq
      as (sub_pat & Hq & Hmin & -> & Hqne).
    split; [assumption|]. eexists. apply keys_match.
    apply (@contributing_pieces sub sub_pat Hne Hkeys Hq). unfold m in Hmin. lia. }
  exists a. split; [|split].
  - unfold substringsToPattern. fold m.
    destruct (substringsToPattern_patterns h e sub m) as [|p0 l0] eqn:E;
      [contradiction|].
    cbn [List.length]. replace (0 <? Z.of_nat (S (List.length l0))) with true
      by (symmetry; apply Z.ltb_lt; lia).
    exact Ha.
  - apply (@matches_nonempty a (concat (map Array_from (units sub)))).
    + apply (Halt _ _ Hsingle). apply readings_match. now apply units_read.
    + now rewrite units_code_points.
  - intros sub_pat ts Hconcat Hreads.
    apply (Halt _ _ (Hin sub_pat ts Hconcat Hreads)). now apply readings_match.
Qed.

(** The patterns of the parts of a segmentation that cuts the input only
    where the pieces do. *)
Lemma parts_reading (ps : list Part) :
  forall k E mid tmid,
    tiles k ps E -> Forall (part_wf str) ps -> 0 <= k -> E <= strlen str ->
    concat mid = substring str k E ->
    Forall2 (reads h code_points e) mid tmid ->
    (forall p, In p ps -> cut mid (part_start p - k)) ->
    exists Ps,
      map (fun sub => substringsToPattern h e sub 1) (map part_substr ps)
      = map Some Ps
      /\ exists xss, concat xss = concat (map Array_from tmid)
                     /\ Forall2 matches Ps xss.
Proof.
  induction ps as [|p ps IH]; intros k E mid tmid Ht Hwf Hk HE Hmid Hreads Hcuts;
    cbn [tiles] in Ht.
  - exists []. split; [reflexivity|].
    rewrite <- Ht, substring_in_bounds, Z.sub_diag in Hmid by lia.
    cbn [Z.to_nat firstn] in Hmid.
    assert (Hnil : mid = []).
    { apply concat_nil_pieces; [|assumption].
      intros x Hx. now destruct (@reads_pieces _ _ Hreads x Hx). }
    rewrite Hnil in Hreads. inversion Hreads; subst.
    exists []. split; [reflexivity | constructor].
  - destruct Ht as [Hs Ht].
    pose proof (@part_wf_positive str (p :: ps) Hwf) as Hpos.
    pose proof (Hpos p (or_introl eq_refl)) as Hlt.
    assert (Hp : part_wf str p) by (inversion Hwf; assumption).
    assert (Hps : Forall (part_wf str) ps) by (inversion Hwf; assumption).
    destruct (@tiles_bounds ps (part_end p) E Ht) as [Hle Hb];
      [intros x Hx; apply Hpos; now right|].
    assert (Hlenmid : strlen (concat mid) = E - k)
      by (rewrite Hmid; apply substring_length; lia).
    assert (Hcutb : cut mid (part_end p - k)).
    { destruct ps as [|p' ps'].
      - cbn [tiles] in Ht. replace (part_end p - k) with (strlen (concat mid)) by lia.
        apply cut_all.
      - cbn [tiles] in Ht. destruct Ht as [Hs' _]. rewrite <- Hs'.
        apply Hcuts. right. now left. }
    destruct Hcutb as (m1 & m2 & Hmideq & Hm1).
    rewrite Hmideq in Hreads, Hmid, Hcuts.
    apply Forall2_app_split in Hreads as (t1 & t2 & Hteq & Hr1 & Hr2).
    rewrite concat_app in Hmid.
    rewrite (@substring_split str k (part_end p) E) in Hmid by lia.
    apply app_inj_strlen in Hmid as [Hc1 Hc2];
      [|rewrite substring_length by lia; lia].
    destruct Hp as (Hp0 & Hpl & Hpe & Hpb & Hpsub).
    destruct (@piece_pattern (part_substr p)) as (P & HP & _ & HPm).
    { intro Hnil. apply (f_equal strlen) in Hnil. rewrite Hpsub in Hnil.
      rewrite substring_length in Hnil by lia. change (strlen []) with 0 in Hnil. lia. }
    { intros u Hu. rewrite Hpsub in Hu. apply keys. exact (@In_substring u _ _ Hu). }
    destruct (IH (part_end p) E m2 t2 Ht Hps ltac:(lia) HE Hc2 Hr2)
      as (Ps & HPs & xss & Hxss & Hall).
    { intros p' Hp'.
      replace (part_start p' - part_end p)
        with ((part_start p' - k) - strlen (concat m1)) by lia.
      apply cut_suffix.
      - intros x Hx. now destruct (@reads_pieces _ _ Hr1 x Hx).
      - apply Hcuts. now right.
      - destruct (Hb p' Hp'). lia. }
    exists (P :: Ps). cbn [map]. split; [now rewrite HP, HPs|].
    exists (concat (map Array_from t1) :: xss). split.
    + cbn [concat]. rewrite Hxss, Hteq, map_app, concat_app. reflexivity.
    + constructor; [|assumption]. apply (HPm m1 t1); [|assumption].
      rewrite Hc1, Hpsub, Hs. reflexivity.
Qed.

Lemma sequence_reading (k E : Z) (q : Sequence) (mid tmid : list jsstring) :
  segments str k E q -> 0 <= k -> E <= strlen str ->
  concat mid = substring str k E ->
  Forall2 (reads h code_points e) mid tmid ->
  (forall p, In p (parts q) -> cut mid (part_start p - k)) ->
  matches (sequencesToPattern_one h e true q) (concat (map Array_from tmid)).
Proof.
  intros (Ht & Hwf & Hsub) Hk HE Hmid Hreads Hcuts.
  destruct (@parts_reading (parts q) k E mid tmid Ht Hwf Hk HE Hmid Hreads Hcuts)
    as (Ps & HPs & xss & <- & Hxss).
  unfold sequencesToPattern_one, Sequence_length.
  rewrite Nat2Z.id, Hsub, <- (length_map part_substr (parts q)), firstn_all, HPs.
  now apply matches_sequence.
Qed.

(** The alternation of the segmentations of one stretch of [str]: what the
    pattern of one of them matches, the alternation matches. *)
Lemma live_alternation (seqs : list Sequence) (k E : Z) :
  seqs <> [] -> 0 <= k < E -> E <= strlen str ->
  (forall q, In q seqs -> segments str k E q) ->
  exists a,
    sequencesToPattern h e seqs true = Some a
    /\ forall q xs, In q seqs ->
         matches (sequencesToPattern_one h e true q) xs -> matches a xs.
Proof.
  intros Hne Hk HE Hall.
  assert (Hsublen : strlen (substring str k E) = E - k)
    by (apply substring_length; lia).
  assert (Hsub : substring str k E <> []).
  { intro Hnil. rewrite Hnil in Hsublen. change (strlen []) with 0 in Hsublen. lia. }
  assert (Hself : forall q, In q seqs ->
            matches (sequencesToPattern_one h e true q) (units (substring str k E))).
  { intros q Hq. rewrite <- (units_code_points (substring str k E)).
    apply (@sequence_reading k E q (units (substring str k E))
             (units (substring str k E))).
    - now apply Hall.
    - lia.
    - assumption.
    - apply concat_units.
    - apply units_read. intros u Hu. apply keys. exact (@In_substring u _ _ Hu).
    - intros p Hp. apply cut_units. rewrite Hsublen.
      destruct (Hall q Hq) as (Ht & Hwf & _).
      destruct (@tiles_bounds (parts q) k E Ht (@part_wf_positive str _ Hwf))
        as [_ Hb].
      destruct (Hb p Hp). pose proof (@part_wf_positive str _ Hwf p Hp). lia. }
  destruct (@matches_alternation (map (sequencesToPattern_one h e true) seqs))
    as (a & Ha & Halt).
  { destruct seqs; [contradiction | discriminate]. }
  { intros p Hp. apply in_map_iff in Hp as (q & <- & Hq).
    split; [exact (matches_nonempty (Hself q Hq) (units_nonempty Hsub))
           | eexists; exact (Hself q Hq)]. }
  exists a. split; [exact Ha|]. intros q xs Hq Hm.
  apply (Halt (sequencesToPattern_one h e true q)); [now apply in_map | assumption].
Qed.

(** *** The scan, for one reading of the input *)

Section Reading.

Variables pieces texts : list jsstring.
Hypothesis reading_concat : concat pieces = str.
Hypothesis reading_texts : Forall2 (reads h code_points e) pieces texts.

Lemma pieces_keys (c : jsstring) :
  In c pieces -> c <> [] /\ hasOwnProperty (unicode_map e) c = true.
Proof. apply (@reads_pieces _ _ reading_texts). Qed.

(** A live sequence that ends at [E] and cuts the input only where the
    pieces do: its pattern matches the texts of the pieces from [k] to
    [E]. *)
Lemma serving_sequence_reading (q : Sequence) (k E j : Z)
  (l1 mid l2 tmid : list jsstring) :
  segments str k E q -> 0 <= k -> E <= strlen str ->
  serves pieces j q ->
  pieces = l1 ++ mid ++ l2 ->
  strlen (concat l1) = k -> strlen (concat mid) = E - k ->
  Forall2 (reads h code_points e) mid tmid ->
  matches (sequencesToPattern_one h e true q) (concat (map Array_from tmid)).
Proof.
  intros Hseg Hk HE [Hstarts _] Hp Hl1 Hmid Hreads.
  apply (@sequence_reading k E q mid tmid); try assumption.
  - rewrite (@pieces_between str l1 mid l2) by (rewrite <- Hp; exact reading_concat).
    f_equal; lia.
  - intros p Hpq. rewrite <- Hl1. apply (@local_cut l1 mid l2).
    + intros x Hx. rewrite <- Hp in Hx. now destruct (pieces_keys x Hx).
    + rewrite <- Hp. now apply Hstarts.
    + destruct Hseg as (Ht & Hwf & _).
      destruct (@tiles_bounds (parts q) k E Ht (@part_wf_positive str _ Hwf))
        as [_ Hb].
      destruct (Hb p Hpq). pose proof (@part_wf_positive str _ Hwf p Hpq). lia.
Qed.

Lemma scan_step_reads (s : Scan) (i : Z) :
  0 <= i < strlen str ->
  scan_reads h code_points e matches str pieces texts i s ->
  scan_reads h code_points e matches str pieces texts (i + 1)
             (scan_step h e str s i).
Proof.
  intros Hi (Hne & k & Hk & Hlt & Hwf & Hshape & Hsrc & Hserve
             & l1 & l2 & t1 & t2 & Hp & Ht & Hr1 & Hr2 & Hlen & Hpat).
  split; [now apply scan_step_shape|].
  pose proof (@step_wf e str longest s k i Hi Hk Hwf) as [Hvis Hovl].
  destruct (overlapping (visit_at e str s i)) as [|c cs] eqn:Eo.
  - destruct (can_compact i (added_types (visit_at e str s i))) eqn:Ec.
    + (* the clean-up *)
      pose proof Ec as Hc. unfold can_compact in Hc.
      apply andb_true_iff in Hc as [Hc Hnot]. apply andb_true_iff in Hc as [Hpos Hone].
      apply Z.ltb_lt in Hpos. apply Z.eqb_eq in Hone.
      destruct (added_types (visit_at e str s i)) as [|t [|t' ts]] eqn:Et;
        [simpl in Hone; lia | | simpl List.length in Hone; lia].
      assert (Htype : t <> not_adding).
      { apply negb_true_iff in Hnot. cbn [Set_has existsb] in Hnot.
        rewrite orb_false_r in Hnot. apply str_eqb_neq in Hnot. congruence. }
      destruct (@compaction_step h e str s i t Hpos Hne Eo Et Htype)
        as (Hvisited & _ & Hstep & Hext).
      rewrite Hstep. cbn [sequences pattern].
      change (new_part i (match_at e (substring_from str i)) (substring str i (i + 1)))
        with (scanned_part e str i) in *.
      destruct (@scanned_part_wf e str longest i Hi) as [Hnew Hnewstart].
      destruct Hserve as (q & Hq & Hsq).
      destruct (@serves_free e str longest s k i Hi Hk Hwf pieces reading_concat
                  pieces_keys q Hq Hsq (Hext q Hq)) as [Hcut _].
      exists i. split; [lia|]. split; [lia|]. split; [|split; [|split; [|split]]].
      * intros q' [<- | []]. destruct Hnew as (Hp0 & Hpl & Hpe & Hpb & Hps).
        exists (part_end (scanned_part e str i)).
        cbn [Sequence_add Sequence_new parts substrs seq_start seq_end app map tiles].
        repeat split; try lia; try assumption.
        -- constructor; [repeat split; assumption | constructor].
        -- intros x [<- | []]. lia.
      * intros q' [<- | []]. apply shape_extend; [assumption | assumption|].
        apply shape_new.
      * apply single_sources.
      * exists (Sequence_add Sequence_new (scanned_part e str i)).
        split; [now left|]. split.
        -- intros p [<- | []]. now rewrite Hnewstart.
        -- cbn [Sequence_add Sequence_new seq_end].
           pose proof (@reach_after e str longest i Hi) as Hafter.
           unfold reach in Hafter.
           replace (Z.max (part_end (scanned_part e str i)) 0)
             with (reach e str i) by (unfold reach; lia).
           exact (@ahead_reach e str longest i Hi pieces reading_concat
                    pieces_keys Hcut).
      * (* the pattern *)
        assert (Hcut2 : cut l2 (i - strlen (concat l1))).
        { apply cut_suffix; [|rewrite <- Hp; assumption | lia].
          intros x Hx. apply pieces_keys. rewrite Hp. apply in_app_iff. now left. }
        destruct Hcut2 as (mid & l2' & Hl2 & Hmid).
        rewrite Hl2 in Hr2.
        apply Forall2_app_split in Hr2 as (tmid & t2' & Ht2 & Hrmid & Hr2').
        exists (l1 ++ mid), l2', (t1 ++ tmid), t2'.
        split; [rewrite Hp, Hl2, app_assoc; reflexivity|].
        split; [rewrite Ht, Ht2, app_assoc; reflexivity|].
        split; [now apply Forall2_app|]. split; [assumption|].
        split; [rewrite strlen_concat_app; lia|].
        assert (Hseg : forall q', In q' (sequences s) -> segments str k i q')
          by (intros q' Hq'; apply seq_wf_ends; auto).
        assert (Hflush : sequencesToPattern h e (visited (visit_at e str s i)) false
                         = sequencesToPattern h e (sequences s) true).
        { rewrite Hvisited. unfold sequencesToPattern. f_equal. rewrite map_map.
          apply map_ext_in. intros q' Hq'. apply sequencesToPattern_one_add.
          destruct (Hseg q' Hq') as (_ & _ & Hsub). now rewrite Hsub, length_map. }
        destruct (@live_alternation (sequences s) k i Hne ltac:(lia) ltac:(lia) Hseg)
          as (a & Ha & Halt).
        rewrite Hflush, Ha. cbn [to_string].
        rewrite map_app, concat_app. apply matches_join; [exact Hpat|].
        apply (Halt q); [exact Hq|].
        apply (@serving_sequence_reading q k i i l1 mid l2' tmid); try assumption.
        -- now apply Hseg.
        -- lia.
        -- lia.
        -- now rewrite Hp, Hl2.
        -- lia.
    + (* nothing to clean up *)
      assert (Hstep : scan_step h e str s i
                      = mkScan (pattern s) (visited (visit_at e str s i))).
      { unfold visit_at in Eo, Ec |- *. unfold scan_step. cbv zeta.
        rewrite Eo, Ec. reflexivity. }
      rewrite Hstep. cbn [sequences pattern].
      exists k. split; [lia|]. split; [lia|]. split; [assumption|].
      split; [exact (@visited_shape e str longest s i Hi Hshape)|].
      split; [exact (@visited_sources e str s k i Hwf Hshape)|].
      split.
      * apply (@serves_visited e str longest s k i Hi Hk Hwf pieces reading_concat
                 pieces_keys Eo Hserve).
      * exists l1, l2, t1, t2. repeat split; assumption.
  - (* clones were queued *)
    assert (Hstep : scan_step h e str s i
                    = mkScan (pattern s)
                        (push_clones (visited (visit_at e str s i))
                                     (sort_by_length (c :: cs)))).
    { unfold visit_at in Eo |- *. unfold scan_step. cbv zeta.
      rewrite Eo. reflexivity. }
    rewrite Hstep. cbn [sequences pattern]. rewrite <- Eo.
    exists k. split; [lia|]. split; [lia|].
    split; [exact (@pushed_wf e str longest s k i Hi Hk Hwf)|].
    split; [exact (@pushed_shape e str longest s k i Hi Hk Hwf Hshape Hsrc)|].
    split; [exact (@pushed_sources e str longest s k i Hi Hwf Hshape)|].
    split.
    + apply (@serves_pushed e str longest s k i Hi Hk Hwf Hshape Hsrc pieces
               reading_concat pieces_keys Hserve).
    + exists l1, l2, t1, t2. repeat split; assumption.
Qed.

Lemma scan_until_reads (n : nat) :
  (n <= List.length str)%nat ->
  scan_reads h code_points e matches str pieces texts (Z.of_nat n)
             (scan_until h e str n).
Proof.
  induction n as [|n IH]; intro Hn.
  - split; [discriminate|]. exists 0. split; [lia|]. split; [lia|].
    split; [|split; [|split; [|split]]].
    + intros q [<- | []]. exists 0.
      cbn [Sequence_new parts substrs seq_start seq_end tiles map].
      pose proof (strlen_nonneg str).
      repeat split; try lia; try constructor. intros p [].
    + intros q [<- | []]. apply shape_new.
    + intros T l p1 p2 [<- | []] Hparts. cbn [Sequence_new parts] in Hparts.
      destruct l; discriminate Hparts.
    + exists Sequence_new. split; [now left|]. split; [intros p []|].
      left. apply cut_zero.
    + exists [], pieces, [], texts. repeat split; try constructor; assumption.
  - assert (Hstep : scan_until h e str (S n)
                    = scan_step h e str (scan_until h e str n) (Z.of_nat n)).
    { unfold scan_until. rewrite seq_S, map_app, fold_left_app. reflexivity. }
    rewrite Hstep. replace (Z.of_nat (S n)) with (Z.of_nat n + 1) by lia.
    apply scan_step_reads; [unfold strlen; lia | apply IH; lia].
Qed.

(** The pattern of the scan matches the texts of the reading. *)
Lemma scan_reads_all :
  str <> [] ->
  exists a,
    sequencesToPattern h e (sequences (scan h e str)) true = Some a
    /\ matches (pattern (scan h e str) ++ a) (concat (map Array_from texts)).
Proof.
  intro Hne.
  assert (Hpos : 0 < strlen str).
  { unfold strlen. destruct str; [contradiction | simpl List.length; lia]. }
  destruct (@scan_until_reads (List.length str) (le_n _))
    as (Hlive & k & Hk & Hlt & Hwf & _ & _ & (q & Hq & Hsq)
        & l1 & l2 & t1 & t2 & Hp & Ht & Hr1 & Hr2 & Hlen & Hpat).
  fold (strlen str) in Hk, Hlt, Hwf, Hsq.
  change (scan_until h e str (List.length str)) with (scan h e str) in *.
  assert (Hseg : forall q', In q' (sequences (scan h e str)) ->
                            segments str k (strlen str) q').
  { intros q' Hq'. destruct (Hwf q' Hq') as (e' & Ht' & He & Hwf' & _ & Hsub & _).
    assert (e' = strlen str) by lia. subst e'. now repeat split. }
  destruct (@live_alternation (sequences (scan h e str)) k (strlen str) Hlive
              ltac:(lia) ltac:(lia) Hseg) as (a & Ha & Halt).
  exists a. split; [exact Ha|].
  rewrite Ht, map_app, concat_app. apply matches_join; [exact Hpat|].
  apply (Halt q); [exact Hq|].
  apply (@serving_sequence_reading q k (strlen str) (strlen str) l1 l2 [] t2);
    try assumption.
  - now apply Hseg.
  - lia.
  - lia.
  - now rewrite app_nil_r.
  - rewrite <- reading_concat, Hp, strlen_concat_app. lia.
Qed.

End Reading.

(** The scan path. *)
Lemma scan_path_sound (s : jsstring) :
  asciifold h s = str ->
  multi_char_reg e str <> None ->
  str <> [] ->
  exists p r,
    getPattern h e s = Some p
    /\ RegExp h (Some p) flags_iu = Some r
    /\ forall pieces texts subject,
         concat pieces = str ->
         Forall2 (reads h code_points e) pieces texts ->
         Array_from subject = concat (map Array_from texts) ->
         r subject <> None.
Proof.
  intros Hfold Hscan Hne.
  destruct (@scan_reads_all (units str) (units str) (concat_units str)
              (@units_read str keys) Hne) as (a & Ha & Hself).
  set (p := pattern (scan h e str) ++ a).
  destruct (matches_compiled Hself) as (r & Hr & _).
  exists p, r. split; [|split; [exact Hr|]].
  - unfold getPattern. rewrite Hfold.
    destruct (multi_char_reg e str); [|now contradiction Hscan].
    now rewrite Ha.
  - intros pieces texts subject Hconcat Hreads Hsubject.
    destruct (@scan_reads_all pieces texts Hconcat Hreads Hne) as (a' & Ha' & Hm).
    rewrite Ha in Ha'. injection Ha' as Heq. rewrite <- Heq in Hm.
    destruct (matches_compiled Hm) as (r' & Hr' & Hfind).
    unfold p in Hr. rewrite Hr in Hr'. injection Hr' as <-. now apply Hfind.
Qed.

End SoundPattern.


(** ** The model host meets the contract of the pattern compiler *)

Module ModelPatterns.

Import Model.
Import ModelProperties.
Import ModelSoundness.

Lemma option_map_app_app {A} (l1 l2 : list A) (o : option (list A)) :
  option_map (app l1) (option_map (app l2) o) = option_map (app (l1 ++ l2)) o.
Proof. destruct o; simpl; [|reflexivity]. now rewrite app_assoc. Qed.

Lemma term_unique (p : jsstring) (ts ts' : list token) (rs rs' : list re) :
  term p ts rs -> term p ts' rs' -> ts = ts' /\ rs = rs'.
Proof.
  intros (_ & Ht & Hp) (_ & Ht' & Hp').
  specialize (Ht [] I). specialize (Ht' [] I). rewrite Ht in Ht'.
  cbn [Array_from tokenize option_map] in Ht'. rewrite !app_nil_r in Ht'.
  injection Ht' as <-. split; [reflexivity|].
  destruct (Hp (mkFrame [] [] false) []) as (q & Hq).
  destruct (Hp' (mkFrame [] [] false) []) as (q' & Hq').
  rewrite Hq in Hq'. cbn [alts cur app] in Hq'. now injection Hq' as <- _.
Qed.

Lemma term_empty : term [] [] [].
Proof.
  split; [|split].
  - intros b Hb. exact Hb.
  - intros b _. cbn [app]. now rewrite option_map_app_nil.
  - intros f above. exists (quantifiable f). cbn [fold_left].
    rewrite app_nil_r. now destruct f.
Qed.

Lemma consumes_nothing : consumes [] [].
Proof. intros pos rest. cbn. rewrite Nat.add_0_r. now left. Qed.

Lemma re_match_seq_of_app (ci : bool) (a b : list re) :
  forall st, re_match ci (seq_of (a ++ b)) st
             = flat_map (re_match ci (seq_of b)) (re_match ci (seq_of a) st).
Proof.
  induction a as [|t a IH]; intro st.
  - cbn [app seq_of fold_right re_match flat_map]. now rewrite app_nil_r.
  - change (seq_of ((t :: a) ++ b)) with (Re_seq t (seq_of (a ++ b))).
    change (seq_of (t :: a)) with (Re_seq t (seq_of a)).
    cbn [re_match]. rewrite flat_map_concat_map, (flat_map_concat_map _ (re_match ci t st)).
    generalize (re_match ci t st). intro l.
    induction l as [|s l IHl]; [reflexivity|].
    cbn [map concat]. rewrite flat_map_app, IH.
    rewrite <- !flat_map_concat_map in *. now rewrite IHl.
Qed.

Lemma term_join (p q : jsstring) (tsp tsq : list token) (rsp rsq : list re) :
  term p tsp rsp -> term q tsq rsq -> term (p ++ q) (tsp ++ tsq) (rsp ++ rsq).
Proof.
  intros (Hhp & Htp & Hpp) (Hhq & Htq & Hpq). split; [|split].
  - intros b Hb. rewrite <- app_assoc. auto.
  - intros b Hb. rewrite <- app_assoc, Htp, Htq by auto.
    apply option_map_app_app.
  - intros f above. rewrite fold_left_app.
    destruct (Hpp f above) as (q1 & ->).
    destruct (Hpq (mkFrame (alts f) (cur f ++ rsp) q1) above) as (q2 & ->).
    exists q2. cbn [alts cur]. now rewrite app_assoc.
Qed.

Lemma consumes_join (rsp rsq : list re) (x y : list jsstring) :
  consumes rsp x -> consumes rsq y -> consumes (rsp ++ rsq) (x ++ y).
Proof.
  intros Hx Hy pos rest. rewrite re_match_seq_of_app. apply in_flat_map.
  exists ((pos + List.length x)%nat, y ++ rest). split.
  - rewrite <- app_assoc. apply Hx.
  - rewrite length_app, Nat.add_assoc. apply Hy.
Qed.

Lemma model_matches_join (p q : jsstring) (x y : list jsstring) :
  model_matches p x -> model_matches q y -> model_matches (p ++ q) (x ++ y).
Proof.
  intros (tsp & rsp & Htp & Hcp) (tsq & rsq & Htq & Hcq).
  exists (tsp ++ tsq), (rsp ++ rsq).
  split; [now apply term_join | now apply consumes_join].
Qed.

Lemma model_matches_empty : model_matches [] [].
Proof. exists [], []. split; [apply term_empty | apply consumes_nothing]. Qed.

Lemma high_not_low (u : code_unit) :
  is_high_surrogate u = true -> is_low_surrogate u = false.
Proof.
  unfold is_high_surrogate, is_low_surrogate. intro H.
  apply andb_true_iff in H as [_ H]. apply Z.leb_le in H.
  apply andb_false_iff. left. apply Z.leb_gt. lia.
Qed.

Lemma model_matches_plain (c : jsstring) :
  plain_code_point c -> model_matches c [c].
Proof.
  intro Hc. exists [T_lit c], [Re_lit c]. split.
  - destruct c as [|u [|lo [|x c]]]; try contradiction.
    + destruct Hc as (Hsyn & Hhi & Hlo). split; [|split].
      * intros b _. exact Hlo.
      * intros b Hb. cbn [app]. rewrite Array_from_cons by (now rewrite Hhi).
        cbn [tokenize]. change (is_syntax_char u) with (syntax_character u).
        rewrite Hsyn. now destruct (tokenize (Array_from b)).
      * intros f above. exists true. reflexivity.
    + destruct Hc as (Hhi & Hlo). split; [|split].
      * intros b _. now apply high_not_low.
      * intros b Hb. cbn [app]. rewrite Array_from_pair by assumption.
        cbn [tokenize]. now destruct (tokenize (Array_from b)).
      * intros f above. exists true. reflexivity.
  - intros pos rest. cbn [app seq_of fold_right re_match snd fst].
    unfold cp_eqb. rewrite str_eqb_refl. cbn [flat_map app List.length].
    rewrite Nat.add_1_r. now left.
Qed.

Lemma lits_match_app (ci : bool) (cps : list jsstring) :
  forall inp rest,
    lits_match ci cps inp = Some [] ->
    lits_match ci cps (inp ++ rest) = Some rest
    /\ List.length cps = List.length inp.
Proof.
  induction cps as [|cp cps IH]; intros inp rest H; cbn [lits_match] in *.
  - injection H as ->. now split.
  - destruct inp as [|c inp]; [discriminate|]. cbn [app].
    destruct (cp_eqb ci cp c); [|discriminate].
    destruct (IH inp rest H) as [-> Hlen]. split; [reflexivity|].
    cbn [List.length]. now rewrite Hlen.
Qed.

Lemma tokenize_group (ys : list jsstring) (b : jsstring) :
  ys <> [] -> no_low_head b ->
  tokenize (Array_from (group_pattern ys ++ b))
  = option_map (app (T_open :: alt_tokens ys ++ [T_close])) (tokenize (Array_from b)).
Proof.
  intros Hne Hb. unfold group_pattern.
  change (ustr "(?:") with [40; 63; 58]. change (ustr ")") with [41].
  rewrite <- !app_assoc. cbn [app].
  rewrite (Array_from_cons 40), (Array_from_cons 63), (Array_from_cons 58)
    by reflexivity.
  change (tokenize ([40] :: [63] :: [58] :: ?x))
    with (option_map (cons T_open) (tokenize x)).
  rewrite tokenize_alternatives by (assumption || reflexivity).
  rewrite (Array_from_cons 41) by reflexivity.
  rewrite tokenize_close.
  destruct (tokenize (Array_from b)); simpl; [|reflexivity].
  now rewrite <- !app_assoc.
Qed.

Lemma term_group (ys : list jsstring) :
  ys <> [] ->
  term (group_pattern ys) (T_open :: alt_tokens ys ++ [T_close])
       [alt_of (map lit_seq ys)].
Proof.
  intro Hne. split; [|split].
  - intros b _. reflexivity.
  - intros b Hb. now apply tokenize_group.
  - intros f above. exists true. now apply parse_group.
Qed.

Lemma consumes_group (ys : list jsstring) (y x : jsstring) :
  In y ys -> similar y x ->
  consumes [alt_of (map lit_seq ys)] (Array_from x).
Proof.
  intros Hy Hsim pos rest. cbn [seq_of fold_right re_match]. apply in_flat_map.
  exists ((pos + List.length (Array_from x))%nat, rest). split; [|now left].
  apply In_re_match_alt_of; [destruct ys; [contradiction | discriminate]|].
  exists (lit_seq y). split; [now apply in_map|].
  rewrite re_match_lit_seq.
  destruct (@lits_match_app true (Array_from y) (Array_from x) rest Hsim)
    as [-> Hlen].
  rewrite Hlen. now left.
Qed.

Lemma model_matches_set (set : list jsstring) (y x : jsstring) :
  escaped_set host set -> In (escape_regex y) set -> similar y x ->
  exists p, setToPattern set = Some p /\ p <> []
            /\ model_matches p (Array_from x).
Proof.
  intros Hesc Hin Hsim. destruct (escaped_set_literals Hesc) as (ys & ->).
  apply in_map_iff in Hin as (y' & Heq & Hy').
  apply escape_regex_code_points in Heq.
  assert (Hne : ys <> []) by (intros ->; contradiction).
  exists (group_pattern ys). split; [|split].
  - destruct ys; [contradiction | reflexivity].
  - unfold group_pattern. discriminate.
  - exists (T_open :: alt_tokens ys ++ [T_close]), [alt_of (map lit_seq ys)].
    split; [now apply term_group|].
    apply (@consumes_group ys y' x Hy'). unfold similar in *. now rewrite Heq.
Qed.

Lemma model_matches_sequence (ps : list jsstring) (xs : list (list jsstring)) :
  Forall2 model_matches ps xs ->
  model_matches (sequencePattern (map Some ps)) (concat xs).
Proof.
  unfold sequencePattern. rewrite map_map.
  induction 1 as [|p x ps xs Hpx _ IH]; [apply model_matches_empty|].
  cbn [map concat]. now apply model_matches_join.
Qed.

Lemma model_matches_nonempty (p : jsstring) (x : list jsstring) :
  model_matches p x -> x <> [] -> p <> [].
Proof.
  intros (ts & rs & Hterm & Hcons) Hx ->.
  destruct (term_unique Hterm term_empty) as [-> ->].
  specialize (Hcons 0%nat []). cbn [seq_of fold_right re_match] in Hcons.
  destruct Hcons as [Heq | []]. injection Heq as Hlen _.
  destruct x; [now apply Hx | simpl in Hlen; lia].
Qed.

Lemma model_matches_compiled (p : jsstring) (x : list jsstring) :
  model_matches p x ->
  exists r, RegExp (Some p) flags_iu = Some r
            /\ forall subject, Array_from subject = x -> r subject <> None.
Proof.
  intros (ts & rs & (_ & Ht & Hp) & Hcons).
  specialize (Ht [] I). rewrite app_nil_r in Ht.
  cbn [Array_from tokenize option_map] in Ht. rewrite app_nil_r in Ht.
  destruct (Hp (mkFrame [] [] false) []) as (q & Hq). cbn [alts cur app] in Hq.
  assert (Hparse : parse ts = Some (seq_of rs)).
  { unfold parse. rewrite Hq. reflexivity. }
  eexists. split; [exact (RegExp_iu _ Ht Hparse)|].
  intros subject <-. cbv beta. apply search_found.
  specialize (Hcons 0%nat []). rewrite app_nil_r in Hcons.
  intro Hnil. rewrite Hnil in Hcons. contradiction.
Qed.

(** *** Alternations of terms *)

Lemma terms_of (ps : list jsstring) :
  (forall q, In q ps -> exists x, model_matches q x) ->
  exists l, map alt_pattern l = ps /\ all_terms l.
Proof.
  induction ps as [|p ps IH]; intro H.
  - exists []. split; [reflexivity | intros t []].
  - destruct (H p (or_introl eq_refl)) as (x & ts & rs & Hterm & _).
    destruct IH as (l & <- & Hl); [intros q Hq; apply H; now right|].
    exists ((p, ts, rs) :: l). split; [reflexivity|].
    intros t [<- | Ht]; [exact Hterm | now apply Hl].
Qed.

Lemma tokenize_join (l : list alternative) :
  all_terms l -> l <> [] ->
  forall b, no_low_head b ->
    tokenize (Array_from (join (ustr "|") (map alt_pattern l) ++ b))
    = option_map (app (bar_tokens (map alt_toks l))) (tokenize (Array_from b)).
Proof.
  induction l as [|t l IH]; intros Hall Hne b Hb; [contradiction|].
  destruct (Hall t (or_introl eq_refl)) as (_ & Ht & _).
  destruct l as [|t2 rest].
  - cbn [map join bar_tokens]. now apply Ht.
  - change (join (ustr "|") (map alt_pattern (t :: t2 :: rest)))
      with (alt_pattern t ++ [124]
            ++ join (ustr "|") (map alt_pattern (t2 :: rest))).
    change (bar_tokens (map alt_toks (t :: t2 :: rest)))
      with (alt_toks t ++ T_bar :: bar_tokens (map alt_toks (t2 :: rest))).
    rewrite <- !app_assoc. rewrite Ht by reflexivity.
    cbn [app]. rewrite (Array_from_cons 124) by reflexivity.
    rewrite tokenize_bar, IH;
      [|intros t' Ht'; apply Hall; now right | discriminate | assumption].
    destruct (tokenize (Array_from b)); simpl; [|reflexivity].
    now rewrite <- app_assoc.
Qed.

Lemma parse_bars (l : list alternative) :
  all_terms l -> l <> [] ->
  forall done above,
    exists q,
      fold_left parse_token (bar_tokens (map alt_toks l))
                (Some (mkFrame done [] false :: above))
      = Some (mkFrame (done ++ map seq_of (removelast (map alt_terms l)))
                      (last (map alt_terms l) []) q :: above).
Proof.
  induction l as [|t l IH]; intros Hall Hne done above; [contradiction|].
  destruct (Hall t (or_introl eq_refl)) as (_ & _ & Hp).
  destruct (Hp (mkFrame done [] false) above) as (q & Hq). cbn [alts cur app] in Hq.
  destruct l as [|t2 rest].
  - exists q. cbn [map bar_tokens removelast last]. rewrite Hq. now rewrite app_nil_r.
  - change (bar_tokens (map alt_toks (t :: t2 :: rest)))
      with (alt_toks t ++ T_bar :: bar_tokens (map alt_toks (t2 :: rest))).
    rewrite fold_left_app, Hq. cbn [fold_left parse_token alts cur].
    destruct (IH ltac:(intros t' Ht'; apply Hall; now right) ltac:(discriminate)
                 (done ++ [seq_of (alt_terms t)]) above) as (q' & Hq').
    exists q'. rewrite Hq'.
    change (removelast (map alt_terms (t :: t2 :: rest)))
      with (alt_terms t :: removelast (map alt_terms (t2 :: rest))).
    change (last (map alt_terms (t :: t2 :: rest)) [])
      with (last (map alt_terms (t2 :: rest)) []).
    cbn [map]. now rewrite <- app_assoc.
Qed.

Lemma term_alternation (l : list alternative) :
  all_terms l -> l <> [] ->
  term (ustr "(?:" ++ join (ustr "|") (map alt_pattern l) ++ ustr ")")
       (T_open :: bar_tokens (map alt_toks l) ++ [T_close])
       [alt_of (map seq_of (map alt_terms l))].
Proof.
  intros Hall Hne. split; [|split].
  - intros b _. reflexivity.
  - intros b Hb.
    change (ustr "(?:") with [40; 63; 58]. change (ustr ")") with [41].
    rewrite <- !app_assoc. cbn [app].
    rewrite (Array_from_cons 40), (Array_from_cons 63), (Array_from_cons 58)
      by reflexivity.
    change (tokenize ([40] :: [63] :: [58] :: ?x))
      with (option_map (cons T_open) (tokenize x)).
    rewrite tokenize_join by (assumption || reflexivity).
    rewrite (Array_from_cons 41) by reflexivity.
    rewrite tokenize_close.
    destruct (tokenize (Array_from b)); simpl; [|reflexivity].
    now rewrite <- !app_assoc.
  - intros f above. exists true. cbn [fold_left parse_token].
    rewrite fold_left_app.
    destruct (@parse_bars l Hall Hne [] (f :: above)) as (q & Hq).
    rewrite Hq. cbn [fold_left parse_token app].
    unfold close_frame. cbn [alts cur].
    assert (Hrs : map alt_terms l <> [])
      by (destruct l; [contradiction | discriminate]).
    replace (map seq_of (removelast (map alt_terms l))
             ++ [seq_of (last (map alt_terms l) [])])
      with (map seq_of (map alt_terms l)); [reflexivity|].
    rewrite (app_removelast_last [] Hrs) at 1. now rewrite map_app.
Qed.

Lemma model_matches_alternation (ps : list jsstring) :
  ps <> [] ->
  (forall q, In q ps -> q <> [] /\ exists x, model_matches q x) ->
  exists a, arrayToPattern ps = Some a
            /\ forall p x, In p ps -> model_matches p x -> model_matches a x.
Proof.
  intros Hne Hall.
  destruct (@terms_of ps) as (l & <- & Hl); [intros q Hq; now apply Hall|].
  assert (Hlne : l <> []) by (destruct l; [contradiction | discriminate]).
  exists (ustr "(?:" ++ join (ustr "|") (map alt_pattern l) ++ ustr ")").
  split.
  - unfold arrayToPattern. destruct (map alt_pattern l); [contradiction | reflexivity].
  - intros p x Hp (ts & rs & Hterm & Hcons).
    apply in_map_iff in Hp as (t & <- & Ht).
    destruct (term_unique Hterm (Hl t Ht)) as [-> ->].
    eexists _, _. split; [exact (term_alternation Hl Hlne)|].
    intros pos rest. cbn [seq_of fold_right re_match]. apply in_flat_map.
    exists ((pos + List.length x)%nat, rest). split; [|now left].
    apply In_re_match_alt_of.
    + destruct l; [contradiction | discriminate].
    + exists (seq_of (alt_terms t)). split; [|apply Hcons].
      apply in_map, in_map. exact Ht.
Qed.

(** The model host meets the contract of the pattern compiler. *)
Lemma model_pattern_contract : pattern_contract host.
Proof.
  exists similar, model_matches.
  split; [intro x; apply lits_match_refl|].
  split; [exact model_alternation_similar|].
  split; [exact model_matches_empty|].
  split; [exact model_matches_plain|].
  split; [exact model_matches_set|].
  split; [exact model_matches_sequence|].
  split; [exact model_matches_alternation|].
  split; [exact model_matches_join|].
  split; [exact model_matches_nonempty | exact model_matches_compiled].
Qed.

(** *** Partitions *)

Lemma glue_partition (c : code_unit) (p : list jsstring) (rest : jsstring) :
  rest <> [] -> concat p = rest -> ~ In [] p ->
  concat (glue c p) = c :: rest /\ ~ In [] (glue c p).
Proof.
  intros Hne Hconcat Hpieces. destruct p as [|first others].
  - simpl in Hconcat. now contradiction Hne.
  - cbn [glue concat app]. cbn [concat] in Hconcat. rewrite Hconcat.
    split; [reflexivity|]. intros [H | H]; [discriminate|].
    apply Hpieces. now right.
Qed.

(** The model of [allSubstrings] meets the contract of the pattern
    compiler. *)
Lemma model_partition_contract : partition_contract host.
Proof.
  intros x Hx. cbn [allSubstrings host].
  induction x as [|c rest IH]; [contradiction|].
  destruct rest as [|d rest'].
  - intro sp. split.
    + intros [<- | []]. split; [reflexivity|]. intros [H | []]. discriminate.
    + intros [Hc Hne]. left.
      destruct sp as [|first others]; [discriminate Hc|].
      destruct first as [|u first']; [exfalso; apply Hne; now left|].
      cbn [concat app] in Hc. injection Hc as -> Hc.
      apply app_eq_nil in Hc as [-> Hc].
      rewrite (@concat_nil_pieces others); [reflexivity | | assumption].
      intros y Hy Hnil. apply Hne. right. now rewrite <- Hnil.
  - specialize (IH ltac:(discriminate)).
    set (rest := d :: rest') in *.
    change (Model.allSubstrings (c :: rest))
      with (map (glue c) (Model.allSubstrings rest)
            ++ map (cons [c]) (Model.allSubstrings rest)).
    intro sp. split.
    + intro Hsp. apply in_app_iff in Hsp as [Hsp | Hsp];
        apply in_map_iff in Hsp as (p & <- & Hp);
        destruct (proj1 (IH p) Hp) as [Hconcat Hpieces].
      * apply glue_partition; [discriminate | assumption | assumption].
      * cbn [concat app]. rewrite Hconcat. split; [reflexivity|].
        intros [H | H]; [discriminate | now apply Hpieces].
    + intros [Hc Hne].
      destruct sp as [|first others]; [discriminate Hc|].
      destruct first as [|u first']; [exfalso; apply Hne; now left|].
      cbn [concat app] in Hc. injection Hc as -> Hc.
      apply in_app_iff. destruct first' as [|u' first''].
      * right. apply in_map. apply IH. split; [exact Hc|].
        intro H. apply Hne. now right.
      * left. apply in_map_iff. exists ((u' :: first'') :: others).
        split; [reflexivity|]. apply IH. split; [exact Hc|].
        intros [H | H]; [discriminate H | apply Hne; now right].
Qed.

End ModelPatterns.

(** ** The pattern matches what stands for the folded input *)

Lemma Array_from_units (str : jsstring) :
  (forall u, In u str -> is_high_surrogate u = false) ->
  Array_from str = units str.
Proof.
  induction str as [|c rest IH]; intro H; [reflexivity|].
  rewrite ModelProperties.Array_from_cons
    by (rewrite (H c (or_introl eq_refl)); reflexivity).
  cbn [units map]. f_equal. apply IH. intros u Hu. apply H. now right.
Qed.

Lemma registered_itself (h : Host) (code_points : list (Z * Z)) (e : Engine)
  (cs : list jsstring) :
  Forall2 (registered h code_points e) cs cs.
Proof.
  induction cs as [|c cs IH]; constructor; [|exact IH]. unfold registered.
  destruct (hasOwnProperty (unicode_map e) c); [right | left]; auto.
Qed.

Lemma units_concat_code_points (str : jsstring) :
  concat (map Array_from (units str)) = units str.
Proof.
  induction str as [|u str IH]; [reflexivity|].
  cbn [units map concat Array_from app]. fold (units str). now rewrite IH.
Qed.

(** The code units of a string of keys, read as they are. *)
Lemma units_read_themselves (h : Host) (code_points : list (Z * Z)) (e : Engine)
  (str : jsstring) :
  (forall u, In u str -> hasOwnProperty (unicode_map e) [u] = true) ->
  Forall2 (reads h code_points e) (units str) (units str).
Proof.
  induction str as [|u str IH]; intro H; cbn [units map]; constructor.
  - split; [discriminate|]. split; [apply H; now left | now left].
  - apply IH. intros u' Hu'. apply H. now right.
Qed.


(** The keys of the map built from the roman numerals. *)
Lemma roman_engine_key_list (run : jsstring) :
  hasOwnProperty (unicode_map Model.roman_engine) run = true ->
  run = ustr "i" \/ run = ustr "ii" \/ run = ustr "iii".
Proof.
  unfold hasOwnProperty.
  let m := eval vm_compute in (unicode_map Model.roman_engine) in
  change (unicode_map Model.roman_engine) with m.
  cbn [obj_get].
  repeat match goal with
         | |- context [if str_eqb run ?k then _ else _] =>
             let E := fresh "E" in
             destruct (str_eqb run k) eqn:E;
             [apply str_eqb_eq in E; subst run; intros _; vm_compute; tauto|]
         end.
  intro H. discriminate H.
Qed.

(** On [iiii], the expression built from the roman numerals reports the
    longest key at every position. *)
Lemma roman_longest_keys :
  matches_are_longest_keys Model.roman_engine (ustr "iiii").
Proof.
  intros i Hi.
  assert (Hcases : i = 0 \/ i = 1 \/ i = 2 \/ i = 3)
    by (change (strlen (ustr "iiii")) with 4 in Hi; lia).
  split.
  - intros text Hmatch.
    destruct Hcases as [-> | [-> | [-> | ->]]];
      vm_compute in Hmatch;
      first [ discriminate Hmatch
            | injection Hmatch as <-;
              split; [vm_compute; reflexivity | eexists; vm_compute; reflexivity] ].
  - intros c rest Hrun Hkey Hlen.
    apply roman_engine_key_list in Hkey.
    destruct Hkey as [-> | [-> | ->]];
      [vm_compute in Hlen; discriminate Hlen | |];
      destruct Hcases as [-> | [-> | [-> | ->]]];
      vm_compute in Hrun;
      first [ discriminate Hrun
            | eexists; split; [vm_compute; reflexivity | vm_compute; discriminate] ].
Qed.

